(* ===== verification/_CoqProject ===== *)
-Q . S2P
Prelude.v
Extern.v
Wire.v
Frame.v
ProtoRecords.v
KafkaRecords.v
WalRecord.v
WalTruncate.v
WalIndex.v
LeaderEpoch.v
Reconcile.v
TxnIndex.v
IsrAck.v
IsrTracker.v
BatchWalk.v
