(* ===== verification/Prelude.v ===== *)
(** * A verification of chronik-stream's log and replication core

    chronik-stream is a Kafka-compatible broker written in Rust.  A produced record batch
    arrives in a length-prefixed frame, its request header is parsed, its batch is stamped
    with the leader's epoch, appended to a write-ahead log (WAL) and replicated by followers
    that fetch it; producers that ask for acks=all wait for a quorum of replicas; consumers
    read the log through a sparse index, at read_committed only up to the last stable offset;
    after a change of leader, followers truncate what diverged.  This library models that
    path and proves what each step promises to the next.  It is a shallow embedding: every
    modelled function of the source is a Rocq function of the same name where the name is
    free, over the source's data.

    ** Conventions

    - A w-bit integer is a [Z]; casts and arithmetic that can leave the range go through
      [wrap_u] and [wrap_s] ([as_u8], [as_i32], ...).  The workspace turns overflow checks
      off (.cargo/config.toml), so wrapping is what the program does.  [usize] has 64 bits.
    - Bytes are lists of [Z]; strings are their UTF-8 bytes, checked by [utf8_valid] where
      the source checks.
    - [res] has values, errors and panics: a Rust panic (index or slice out of range, failed
      allocation size, [bytes::Buf] underflow) is [Panic], an [Err] is [Err].  [rd] is the
      reader monad over the bytes left of a buffer.
    - Maps are [gmap]s.  Clocks are arguments.  The file system and the outcome of each read
      are arguments.  Third-party code (checksums, compressors) is a class of [Extern] with the
      documented facts the program relies on; instances there make the witnesses compute.
    - Logging, metrics and the wording of error messages beyond their constant part are left
      out.

    ** Files

    - [Prelude]: integers, bytes, endianness, the [res] and [rd] monads with three small
      program logics ([parses]: what was written is read back; [safe]: no panic and a
      postcondition; [shrinks]: input is consumed), varints and zigzag, UTF-8, buffer writes.
    - [Extern]: the interfaces of crc32c, crc32fast and the compression crates.
    - [Wire]: chronik-protocol/src/parser.rs.  API keys and versions, [Decoder] and [Encoder]
      (module [Codec]), request and response headers, and the header decision of make_response
      (handler.rs).  Request headers round-trip in both client-id styles, exactly up to the client
      ids the detection misreads; they never panic and keep their correlation id in errors; every
      advertised version is treated as flexible exactly when the Kafka protocol says so.
    - [Frame]: chronik-protocol/src/frame.rs.  The frame codec over a byte stream: every
      stream of encoded frames decodes to exactly its complete frames, on every cut, and the
      outcome on any buffer is determined by its length prefix.
    - [ProtoRecords]: chronik-protocol/src/records.rs and compression.rs.  The protocol crate's
      record batch; its round trip for short records, and that a batch of up to 64 records is
      read back exactly when every record is short (its length modulo 256 below 128).
    - [KafkaRecords]: chronik-storage/src/kafka_records.rs and control_batch.rs.  The storage
      crate's batch codec, v2 and legacy sets, and the end-of-transaction markers; round trips
      for every codec, the invariant of built batches, conversion of legacy sets of
      uncompressed messages.
    - [WalRecord]: chronik-wal/src/record.rs.  The on-disk record, V1 and V2, with its length
      and checksum; round trips, and the inputs that panic.
    - [WalTruncate]: chronik-wal/src/truncate.rs and [truncate_partition_files] of
      group_commit.rs.  Truncation over the segment files keeps exactly the records below the
      target; the planner reads exactly what the writer wrote.
    - [WalIndex]: chronik-wal/src/segment_index.rs.  The sparse index: incremental refresh equals
      a full one, and an indexed read equals a scan of the log (the specification), for every
      chunking of the file reads; the listing of the directory keeps exactly the segments it holds,
      and a partition is read in the order of its segment ids.
    - [LeaderEpoch]: chronik-server/src/replication/leader_epoch.rs, the epoch cache.  The
      specification is the log; under appends of any epoch, truncation of the tail and retention
      of the head ([log_step], [reachable]) the cache is a function of it, and its answers are
      stated in terms of it.
    - [Reconcile]: the OffsetForLeaderEpoch answer of kafka_handler.rs, the follower's side of the
      exchange (replication/replica_fetcher/fetcher.rs), [truncate_to] of group_commit.rs over the
      files of [WalTruncate], and the offsets of a partition (produce_handler.rs).  One exchange
      discards exactly a divergent tail: from the files, the epoch history, the position and the
      offsets.
    - [TxnIndex]: chronik-server/src/transaction_index.rs.  The last stable offset and the
      aborted list as functions of the log (one entry for each aborted transaction), and that the
      markers [KafkaRecords] writes, shown to the index as the produce path shows them
      ([observe_batch]), end exactly their producer's transaction.
    - [IsrAck]: chronik-server/src/isr_ack_tracker.rs.  Waits for acks=all over any sequence of
      calls: none is lost or answered twice, an answer is justified by the reports received, and
      a met quorum is answered.
    - [IsrTracker]: chronik-server/src/isr_tracker.rs and isr_publisher.rs, the follower part of
      [fetch_partition], and the retention interlock of chronik-storage/src/wal_indexer.rs.  The
      consumer watermark is the minimum over the in-sync set; a WAL segment is deleted only when
      the followers keeping up are past it, for every instance of the class
      [ReplicationProgress] (the source's trait), of which the tracker is one; and where that
      comparison is one record short.
    - [BatchWalk]: the byte walks of leader_epoch.rs (stamping) and fetch_handler.rs (the
      read_committed cut, control checksums).  Stamping is re-encoding with the epoch; what each
      walk does at a batch whose length field makes it stand still, and the inputs that panic.

    The definitions of a file come before its lemmas.  A theorem with hypotheses is followed
    by its witness, which applies it to concrete data.

    ** Bounds on loops

    Loops that are not structural take a fuel argument, the length of the buffer they walk:
    every iteration consumes at least one byte.  Running out is the separate error [EFuel] (or,
    for the truncation planner and the index, cannot be observed), and the round-trip and
    functional theorems exclude it by stating the result outright.  [decode_records_loop_fuel]
    shows that more fuel changes nothing.  The nesting depth of legacy message sets is an
    argument of the decoder, because each level of the source's recursion decompresses its
    input; the theorems hold for every depth they need.  [keep_loop] and [sanitize_loop] of
    [BatchWalk] can really run forever, which is stated as exhaustion of every fuel.

    ** Not modelled

    Sockets, file-system errors, async scheduling and locks (each handler runs atomically, as
    under the lock or map guard it holds); the commit queue's worker and tail cache, of which
    [Reconcile] has only the state a truncation changes; the fetch loop that runs the epoch
    exchange; HTTP, search, columnar, memory and backup services;
    the Kubernetes operator; the vendored Raft library.  Planned next, in this order: canonical
    records against the storage codec; the produce path's offset assignment and idempotence; the fetch path's tiers; the
    follower's apply step; consumer groups; partition placement and leases; the metadata event
    log; WAL compaction; ACL matching. *)
From stdpp Require Import base list numbers strings gmap sorting.
From Stdlib Require Import ZArith Lia.

Local Open Scope Z_scope.

(** * Machine integers

    A [w]-bit integer is a [Z] in range; every cast and every arithmetic
    operation of the source that can leave the range is wrapped explicitly.
    The workspace builds with overflow checks off, so wrapping is what the
    compiled program does. *)

Definition in_u (w x : Z) : Prop := 0 <= x < 2 ^ w.
Definition in_s (w x : Z) : Prop := - 2 ^ (w - 1) <= x < 2 ^ (w - 1).
Definition wrap_u (w x : Z) : Z := x mod 2 ^ w.
Definition wrap_s (w x : Z) : Z := (x + 2 ^ (w - 1)) mod 2 ^ w - 2 ^ (w - 1).

Abbreviation as_u8 := (wrap_u 8).
Abbreviation as_u16 := (wrap_u 16).
Abbreviation as_u32 := (wrap_u 32).
Abbreviation as_u64 := (wrap_u 64).
Abbreviation as_usize := (wrap_u 64).
Abbreviation as_i8 := (wrap_s 8).
Abbreviation as_i16 := (wrap_s 16).
Abbreviation as_i32 := (wrap_s 32).
Abbreviation as_i64 := (wrap_s 64).

(** [isize::MAX]: no Rust allocation is larger. *)
Definition isize_max : Z := 2 ^ 63 - 1.

Lemma wrap_u_range w x : 0 <= w -> in_u w (wrap_u w x).
Proof. intros. unfold in_u, wrap_u. apply Z.mod_pos_bound. lia. Qed.

Lemma wrap_s_range w x : 0 < w -> in_s w (wrap_s w x).
Proof.
  intros. unfold in_s, wrap_s.
  pose proof (Z.mod_pos_bound (x + 2 ^ (w - 1)) (2 ^ w) ltac:(lia)).
  assert (2 ^ w = 2 * 2 ^ (w - 1)) by (rewrite <- Z.pow_succ_r by lia; f_equal; lia).
  lia.
Qed.

Lemma wrap_u_id w x : in_u w x -> wrap_u w x = x.
Proof. intros. apply Z.mod_small. assumption. Qed.

Lemma wrap_s_id w x : 0 < w -> in_s w x -> wrap_s w x = x.
Proof.
  unfold in_s, wrap_s. intros Hw H.
  assert (2 ^ w = 2 * 2 ^ (w - 1)) by (rewrite <- Z.pow_succ_r by lia; f_equal; lia).
  rewrite Z.mod_small; lia.
Qed.

Lemma wrap_s_wrap_u w x : 0 < w -> wrap_s w (wrap_u w x) = wrap_s w x.
Proof.
  intros. unfold wrap_s, wrap_u. f_equal.
  rewrite Zplus_mod_idemp_l. reflexivity.
Qed.

Lemma wrap_u_wrap_s w x : 0 < w -> wrap_u w (wrap_s w x) = wrap_u w x.
Proof.
  intros. unfold wrap_s, wrap_u.
  rewrite Zminus_mod_idemp_l. f_equal. lia.
Qed.

Lemma wrap_s_add_wrap w a b : 0 < w -> wrap_s w (a + wrap_s w b) = wrap_s w (a + b).
Proof.
  intros. unfold wrap_s. f_equal.
  replace (a + ((b + 2 ^ (w - 1)) mod 2 ^ w - 2 ^ (w - 1)) + 2 ^ (w - 1))
    with (a + (b + 2 ^ (w - 1)) mod 2 ^ w) by lia.
  rewrite Z.add_mod_idemp_r by lia. f_equal. lia.
Qed.

Lemma in_s_mono w w' x : 0 < w <= w' -> in_s w x -> in_s w' x.
Proof.
  unfold in_s. intros. assert (2 ^ (w - 1) <= 2 ^ (w' - 1)) by (apply Z.pow_le_mono_r; lia). lia.
Qed.

(** * Bytes *)

Abbreviation bytes := (list Z).

Definition is_byte (b : Z) : Prop := 0 <= b < 256.

Definition bytes_of_string (s : string) : bytes :=
  (fun a => Z.of_N (Ascii.N_of_ascii a)) <$> String.list_ascii_of_string s.

Definition len (bs : bytes) : Z := Z.of_nat (length bs).

Lemma len_app a b : len (a ++ b) = len a + len b.
Proof. unfold len. rewrite length_app. lia. Qed.
Lemma len_cons a b : len (a :: b) = 1 + len b.
Proof. unfold len. cbn [length]. lia. Qed.
Lemma len_nil : len [] = 0.
Proof. reflexivity. Qed.
Lemma len_nonneg a : 0 <= len a.
Proof. unfold len. lia. Qed.

(** Little-endian split and join of an integer; the big-endian forms are the
    reversed lists. *)
Fixpoint le_bytes (n : nat) (x : Z) : bytes :=
  match n with
  | O => []
  | S n => x mod 256 :: le_bytes n (x / 256)
  end.

Fixpoint le_val (bs : bytes) : Z :=
  match bs with
  | [] => 0
  | b :: bs => b + 256 * le_val bs
  end.

Definition be_bytes (n : nat) (x : Z) : bytes := rev (le_bytes n x).
Definition be_val (bs : bytes) : Z := le_val (rev bs).

Lemma length_le_bytes n x : length (le_bytes n x) = n.
Proof. revert x. induction n; intros; cbn; [done|]. by rewrite IHn. Qed.
Lemma length_be_bytes n x : length (be_bytes n x) = n.
Proof. unfold be_bytes. by rewrite length_rev, length_le_bytes. Qed.
Lemma len_le_bytes n x : len (le_bytes n x) = Z.of_nat n.
Proof. unfold len. by rewrite length_le_bytes. Qed.
Lemma len_be_bytes n x : len (be_bytes n x) = Z.of_nat n.
Proof. unfold len. by rewrite length_be_bytes. Qed.

Lemma le_val_le_bytes n x : le_val (le_bytes n x) = x mod 256 ^ Z.of_nat n.
Proof.
  revert x. induction n as [|n IH]; intros x.
  - cbn. by rewrite Z.mod_1_r.
  - cbn [le_bytes le_val]. rewrite IH, Nat2Z.inj_succ, Z.pow_succ_r by lia.
    rewrite Z.rem_mul_r by lia. lia.
Qed.

Lemma be_val_be_bytes n x : be_val (be_bytes n x) = x mod 256 ^ Z.of_nat n.
Proof. unfold be_val, be_bytes. by rewrite rev_involutive, le_val_le_bytes. Qed.

Lemma pow256 n : 256 ^ Z.of_nat n = 2 ^ (8 * Z.of_nat n).
Proof. rewrite Z.pow_mul_r by lia. done. Qed.

Lemma le_bytes_byte n x : Forall is_byte (le_bytes n x).
Proof.
  revert x. induction n; intros; cbn; constructor; [|done].
  unfold is_byte. apply Z.mod_pos_bound. lia.
Qed.
Lemma be_bytes_byte n x : Forall is_byte (be_bytes n x).
Proof. unfold be_bytes. apply Forall_rev, le_bytes_byte. Qed.

Lemma le_val_nonneg bs : Forall is_byte bs -> 0 <= le_val bs.
Proof. induction 1 as [|b bs Hb _ IH]; cbn [le_val]; [lia|]. unfold is_byte in Hb. lia. Qed.

Lemma le_bytes_le_val bs : Forall is_byte bs -> le_bytes (length bs) (le_val bs) = bs.
Proof.
  induction 1 as [|b bs Hb _ IH]; cbn [le_val le_bytes length]; [done|].
  unfold is_byte in Hb.
  rewrite Z.add_comm, Z.mul_comm, Z.div_add_l, Z.div_small, Z.add_0_r by lia.
  rewrite Z.add_comm, Z.mod_add, Z.mod_small by lia. by rewrite IH.
Qed.

Lemma be_bytes_be_val bs : Forall is_byte bs -> be_bytes (length bs) (be_val bs) = bs.
Proof.
  intros H. unfold be_bytes, be_val. rewrite <- length_rev.
  rewrite le_bytes_le_val by by apply Forall_rev. apply rev_involutive.
Qed.

Lemma le_bytes_mod n x : le_bytes n (x mod 256 ^ Z.of_nat n) = le_bytes n x.
Proof.
  revert x. induction n as [|n IH]; intros x; [done|].
  cbn [le_bytes]. rewrite Nat2Z.inj_succ, Z.pow_succ_r by lia.
  rewrite Z.rem_mul_r by lia.
  rewrite (Z.mul_comm 256), Z.mod_add, Z.mod_mod by lia.
  rewrite Z.div_add, (Z.div_small (x mod 256)) by (try apply Z.mod_pos_bound; lia).
  by rewrite Z.add_0_l, IH.
Qed.

(** * Results

    A call returns a value, returns an error of the crate's error type, or
    panics.  Error values keep the constructor of the source and the fixed part
    of the message; formatted arguments are dropped. *)

Inductive error : Type :=
| EProtocol (msg : string)
| EProtocolWithCorrelation (msg : string) (correlation_id : Z)
| EInternal (msg : string)
| EIo (msg : string)
| EInvalidFormat (msg : string)
| EChecksumMismatch (offset expected actual : Z)
| EInvalidInput (msg : string)
| ENotFound (msg : string)
| EFuel. (* model only: a bounded loop ran out of its bound *)

Inductive res (A : Type) : Type :=
| Ok (a : A)
| Err (e : error)
| Panic.
Global Arguments Ok {A} a.
Global Arguments Err {A} e.
Global Arguments Panic {A}.

#[global] Instance error_eq_dec : EqDecision error.
Proof. solve_decision. Defined.
#[global] Instance res_eq_dec `{EqDecision A} : EqDecision (res A).
Proof. solve_decision. Defined.

#[global] Instance res_ret : MRet res := @Ok.
#[global] Instance res_bind : MBind res := fun A B k m =>
  match m with Ok a => k a | Err e => Err e | Panic => Panic end.

Definition is_panic {A} (r : res A) : bool := if r is Panic then true else false.
Definition is_ok {A} (r : res A) : bool := if r is Ok _ then true else false.
Definition is_err {A} (r : res A) : bool := if r is Err _ then true else false.

(** * Readers

    A reader consumes a prefix of a buffer: [&mut Bytes], [Cursor<&[u8]>]. *)

Definition rd (A : Type) : Type := bytes -> res (A * bytes).

#[global] Instance rd_ret : MRet rd := fun A a bs => Ok (a, bs).
#[global] Instance rd_bind : MBind rd := fun A B k m bs =>
  match m bs with Ok (a, rest) => k a rest | Err e => Err e | Panic => Panic end.

Definition rd_fail {A} (r : res Empty_set) : rd A := fun _ =>
  match r with Ok x => match x with end | Err e => Err e | Panic => Panic end.

Abbreviation rd_err e := (rd_fail (Err e)).
Abbreviation rd_panic := (rd_fail Panic).

(** [n] bytes, or the failure [short] when fewer remain. *)
Definition rd_take (short : res Empty_set) (n : Z) : rd bytes := fun bs =>
  if len bs <? n then rd_fail short bs
  else Ok (take (Z.to_nat n) bs, drop (Z.to_nat n) bs).

(** What is left, without consuming it. *)
Definition rd_remaining : rd Z := fun bs => Ok (len bs, bs).
Definition rd_peek : rd bytes := fun bs => Ok (bs, bs).

(** [vec![0; n]] and [Vec::with_capacity(n)] for elements of [esz] bytes. *)
Definition rd_alloc (esz n : Z) : rd unit := fun bs =>
  if isize_max <? esz * n then Panic else Ok (tt, bs).

Definition rd_be_u (short : res Empty_set) (n : nat) : rd Z :=
  bs ← rd_take short (Z.of_nat n); mret (be_val bs).
Definition rd_be_s (short : res Empty_set) (n : nat) : rd Z :=
  x ← rd_be_u short n; mret (wrap_s (8 * Z.of_nat n) x).
Definition rd_le_u (short : res Empty_set) (n : nat) : rd Z :=
  bs ← rd_take short (Z.of_nat n); mret (le_val bs).
Definition rd_le_s (short : res Empty_set) (n : nat) : rd Z :=
  x ← rd_le_u short n; mret (wrap_s (8 * Z.of_nat n) x).

(** [for _ in 0..n]. *)
Fixpoint rd_repeat {A} (n : nat) (p : rd A) : rd (list A) :=
  match n with
  | O => mret []
  | S n => x ← p; xs ← rd_repeat n p; mret (x :: xs)
  end.

(** [parses p bs a]: [p] reads exactly [bs], whatever follows, and yields [a]. *)
Definition parses {A} (p : rd A) (bs : bytes) (a : A) : Prop :=
  forall rest, p (bs ++ rest) = Ok (a, rest).

Lemma parses_ret {A} (a : A) : parses (mret a) [] a.
Proof. intros rest. done. Qed.

Lemma parses_bind {A B} (p : rd A) (k : A -> rd B) b1 b2 a c :
  parses p b1 a -> parses (k a) b2 c -> parses (p ≫= k) (b1 ++ b2) c.
Proof.
  intros Hp Hk rest. unfold mbind, rd_bind. rewrite <- app_assoc, Hp. apply Hk.
Qed.

Lemma parses_bind_nil {A B} (p : rd A) (k : A -> rd B) b1 a c :
  parses p b1 a -> parses (k a) [] c -> parses (p ≫= k) b1 c.
Proof. intros. rewrite <- (app_nil_r b1). by eapply parses_bind. Qed.

Lemma parses_bind_pure {A B} (p : rd A) (k : A -> rd B) b2 a c :
  parses p [] a -> parses (k a) b2 c -> parses (p ≫= k) b2 c.
Proof. intros. change b2 with ([] ++ b2). by eapply parses_bind. Qed.

Lemma parses_whole {A} (p : rd A) bs a : parses p bs a -> p bs = Ok (a, []).
Proof. intros H. rewrite <- (app_nil_r bs) at 1. apply H. Qed.

Lemma parses_eq {A} (p : rd A) bs bs' a a' :
  parses p bs a -> bs = bs' -> a = a' -> parses p bs' a'.
Proof. by intros ? -> ->. Qed.

Lemma parses_take short bs n : n = len bs -> parses (rd_take short n) bs bs.
Proof.
  intros -> rest. unfold rd_take. rewrite len_app.
  pose proof (len_nonneg rest).
  destruct (Z.ltb_spec (len bs + len rest) (len bs)); [lia|].
  unfold len. by rewrite Nat2Z.id, take_app_length, drop_app_length.
Qed.

Lemma parses_alloc esz n : esz * n <= isize_max -> parses (rd_alloc esz n) [] tt.
Proof.
  intros H rest. unfold rd_alloc. cbn.
  destruct (Z.ltb_spec isize_max (esz * n)); [lia|done].
Qed.

Lemma parses_be_u short n x :
  in_u (8 * Z.of_nat n) x -> parses (rd_be_u short n) (be_bytes n x) x.
Proof.
  intros H. unfold rd_be_u. eapply parses_bind_nil.
  - apply parses_take. by rewrite len_be_bytes.
  - intros rest. cbn. rewrite be_val_be_bytes, pow256. by rewrite Z.mod_small.
Qed.

Lemma parses_le_u short n x :
  in_u (8 * Z.of_nat n) x -> parses (rd_le_u short n) (le_bytes n x) x.
Proof.
  intros H. unfold rd_le_u. eapply parses_bind_nil.
  - apply parses_take. by rewrite len_le_bytes.
  - intros rest. cbn. rewrite le_val_le_bytes, pow256. by rewrite Z.mod_small.
Qed.

Lemma parses_be_s short n x :
  (0 < n)%nat -> in_s (8 * Z.of_nat n) x -> parses (rd_be_s short n) (be_bytes n x) x.
Proof.
  intros Hn H rest. unfold rd_be_s, rd_be_u, mbind, rd_bind.
  rewrite (parses_take short (be_bytes n x)) by (by rewrite len_be_bytes).
  cbn. rewrite be_val_be_bytes, pow256. fold (wrap_u (8 * Z.of_nat n) x).
  by rewrite wrap_s_wrap_u, wrap_s_id by (lia || done).
Qed.

Lemma parses_le_s short n x :
  (0 < n)%nat -> in_s (8 * Z.of_nat n) x -> parses (rd_le_s short n) (le_bytes n x) x.
Proof.
  intros Hn H rest. unfold rd_le_s, rd_le_u, mbind, rd_bind.
  rewrite (parses_take short (le_bytes n x)) by (by rewrite len_le_bytes).
  cbn. rewrite le_val_le_bytes, pow256. fold (wrap_u (8 * Z.of_nat n) x).
  by rewrite wrap_s_wrap_u, wrap_s_id by (lia || done).
Qed.

Lemma parses_repeat {A} (p : rd A) (enc : A -> bytes) (xs : list A) n :
  n = length xs ->
  Forall (fun x => parses p (enc x) x) xs ->
  parses (rd_repeat n p) (concat (enc <$> xs)) xs.
Proof.
  intros -> H. induction H as [|x xs Hx _ IH]; cbn; [apply parses_ret|].
  eapply parses_bind; [exact Hx|]. eapply parses_bind_nil; [exact IH|apply parses_ret].
Qed.

(** ** Readers that cannot panic

    [safe Q p]: on every input [p] returns or errs, and a returned value
    satisfies [Q]. *)

Definition safe {A} (Q : A -> Prop) (p : rd A) : Prop :=
  forall bs, match p bs with Ok (a, _) => Q a | Err _ => True | Panic => False end.

Lemma safe_no_panic {A} Q (p : rd A) bs : safe Q p -> p bs <> Panic.
Proof. intros H E. specialize (H bs). by rewrite E in H. Qed.

Lemma safe_weaken {A} (Q R : A -> Prop) (p : rd A) :
  safe Q p -> (forall a, Q a -> R a) -> safe R p.
Proof. intros H HQR bs. specialize (H bs). destruct (p bs) as [[]| |]; auto. Qed.

Lemma safe_ret {A} (Q : A -> Prop) a : Q a -> safe Q (mret a).
Proof. by intros ? bs. Qed.

Lemma safe_bind {A B} (Q : A -> Prop) (R : B -> Prop) (p : rd A) (k : A -> rd B) :
  safe Q p -> (forall a, Q a -> safe R (k a)) -> safe R (p ≫= k).
Proof.
  intros Hp Hk bs. specialize (Hp bs). unfold mbind, rd_bind.
  destruct (p bs) as [[a rest]| |]; [|done|done]. by apply Hk.
Qed.

Lemma safe_err {A} (Q : A -> Prop) e : safe Q (rd_err e).
Proof. by intros bs. Qed.

Lemma safe_take e n : safe (fun bs => 0 <= n -> len bs = n) (rd_take (Err e) n).
Proof.
  intros bs. unfold rd_take.
  destruct (Z.ltb_spec (len bs) n); cbn; [done|].
  unfold len in *. intros. rewrite length_take. lia.
Qed.

Lemma safe_remaining : safe (fun n => 0 <= n) rd_remaining.
Proof. intros bs. apply len_nonneg. Qed.

Lemma safe_peek : safe (fun _ => True) rd_peek.
Proof. by intros bs. Qed.

Lemma safe_alloc esz n : esz * n <= isize_max -> safe (fun _ => True) (rd_alloc esz n).
Proof.
  intros H bs. unfold rd_alloc. destruct (Z.ltb_spec isize_max (esz * n)); [lia|done].
Qed.

Lemma safe_be_u e n : safe (fun _ => True) (rd_be_u (Err e) n).
Proof. eapply safe_bind; [apply safe_take|]. intros. by apply safe_ret. Qed.
Lemma safe_le_u e n : safe (fun _ => True) (rd_le_u (Err e) n).
Proof. eapply safe_bind; [apply safe_take|]. intros. by apply safe_ret. Qed.

Lemma safe_be_s e n :
  (0 < n)%nat -> safe (in_s (8 * Z.of_nat n)) (rd_be_s (Err e) n).
Proof.
  intros. eapply safe_bind; [apply safe_be_u|]. intros. apply safe_ret, wrap_s_range. lia.
Qed.
Lemma safe_le_s e n :
  (0 < n)%nat -> safe (in_s (8 * Z.of_nat n)) (rd_le_s (Err e) n).
Proof.
  intros. eapply safe_bind; [apply safe_le_u|]. intros. apply safe_ret, wrap_s_range. lia.
Qed.

Lemma safe_repeat {A} (Q : A -> Prop) n (p : rd A) :
  safe Q p -> safe (Forall Q) (rd_repeat n p).
Proof.
  intros Hp. induction n as [|n IH]; cbn; [by apply safe_ret|].
  eapply safe_bind; [exact Hp|]. intros. eapply safe_bind; [exact IH|].
  intros. apply safe_ret. by constructor.
Qed.

Lemma safe_if {A} (Q : A -> Prop) (b : bool) (p q : rd A) :
  safe Q p -> safe Q q -> safe Q (if b then p else q).
Proof. by destruct b. Qed.

Create HintDb safe discriminated.
#[export] Hint Resolve safe_err safe_remaining safe_peek safe_be_u safe_le_u : safe.

(** * Variable-length integers

    The decoding loop shared by every varint reader of the source: seven bits
    per byte into a [w]-bit accumulator, giving up once the shift reaches
    [lim]. *)

Fixpoint varint_loop (w lim : Z) (short long : error) (shift acc : Z) (bs : bytes)
    : res (Z * bytes) :=
  match bs with
  | [] => Err short
  | b :: rest =>
      let acc := Z.lor acc (wrap_u w (Z.shiftl (Z.land b 127) shift)) in
      if Z.land b 128 =? 0 then Ok (acc, rest)
      else if lim <=? shift + 7 then Err long
      else varint_loop w lim short long (shift + 7) acc rest
  end.

(** The encoding loop, in its canonical form. *)
Fixpoint uvarint_bytes (fuel : nat) (v : Z) : bytes :=
  match fuel with
  | O => [v mod 256]
  | S fuel =>
      if v <? 128 then [v]
      else Z.lor (Z.land v 127) 128 :: uvarint_bytes fuel (Z.shiftr v 7)
  end.

Lemma lor_disjoint a b n : 0 <= n -> 0 <= a < 2 ^ n -> Z.lor a (b * 2 ^ n) = a + b * 2 ^ n.
Proof.
  intros Hn Ha. rewrite <- Z.shiftl_mul_pow2 by lia.
  assert (Z.land a (Z.shiftl b n) = 0) as H0.
  { apply Z.bits_inj'. intros i Hi. rewrite Z.land_spec, Z.bits_0.
    destruct (Z.lt_ge_cases i n).
    - rewrite Z.shiftl_spec_low by lia. by rewrite andb_false_r.
    - rewrite <- (Z.mod_small a (2 ^ n)) by lia.
      by rewrite Z.mod_pow2_bits_high by lia. }
  rewrite Z.add_nocarry_lxor by done. by rewrite Z.lxor_lor.
Qed.

Lemma land127 v : Z.land v 127 = v mod 128.
Proof. change 127 with (Z.ones 7). by rewrite Z.land_ones by lia. Qed.

Lemma cont_byte v : Z.lor (Z.land v 127) 128 = v mod 128 + 128.
Proof.
  rewrite land127. change 128 with (1 * 2 ^ 7) at 2.
  rewrite lor_disjoint; [lia|lia|]. apply Z.mod_pos_bound. lia.
Qed.

Lemma cont_byte_low v : Z.land (v mod 128 + 128) 127 = v mod 128.
Proof.
  rewrite land127. rewrite <- Z.add_mod_idemp_r, Z.mod_same, Z.add_0_r by lia.
  apply Z.mod_mod. lia.
Qed.

Lemma land128_small v : 0 <= v < 128 -> Z.land v 128 = 0.
Proof.
  intros. apply Z.bits_inj'. intros i Hi. rewrite Z.land_spec, Z.bits_0.
  destruct (Z.eq_dec i 7) as [->|].
  - rewrite <- (Z.mod_small v (2 ^ 7)) by lia. by rewrite Z.mod_pow2_bits_high by lia.
  - change 128 with (2 ^ 7). rewrite Z.pow2_bits_false by lia. apply andb_false_r.
Qed.

Lemma land128_cont v : Z.land (v mod 128 + 128) 128 <> 0.
Proof.
  intros E. apply (f_equal (fun z => Z.testbit z 7)) in E.
  rewrite Z.land_spec, Z.bits_0 in E.
  change 128 with (1 * 2 ^ 7) in E at 2. change (Z.testbit 128 7) with true in E.
  rewrite andb_true_r, <- lor_disjoint, Z.lor_spec in E by (pose proof (Z.mod_pos_bound v 128); lia).
  change (Z.testbit (1 * 2 ^ 7) 7) with true in E. by rewrite orb_true_r in E.
Qed.

Lemma chunk_bound w shift v :
  0 <= shift <= w -> 0 <= v < 2 ^ (w - shift) -> 0 <= v * 2 ^ shift < 2 ^ w.
Proof.
  intros. replace (2 ^ w) with (2 ^ (w - shift) * 2 ^ shift)
    by (rewrite <- Z.pow_add_r by lia; f_equal; lia).
  assert (0 < 2 ^ shift) by lia. nia.
Qed.

(** The last byte of an encoding, and a continuation byte. *)
Lemma varint_loop_last w lim short long shift acc v rest :
  0 <= shift <= w -> 0 <= acc < 2 ^ shift -> 0 <= v < 2 ^ (w - shift) -> v < 128 ->
  varint_loop w lim short long shift acc (v :: rest) = Ok (acc + v * 2 ^ shift, rest).
Proof.
  intros Hs Ha Hv H7. cbn [varint_loop].
  rewrite land127, Z.mod_small, land128_small, Z.shiftl_mul_pow2 by lia.
  rewrite wrap_u_id, lor_disjoint; [done|lia|lia|]. by apply chunk_bound.
Qed.

Lemma varint_loop_cont w lim short long shift acc v rest :
  0 <= shift -> shift + 7 < w -> shift + 7 < lim -> 0 <= acc < 2 ^ shift ->
  varint_loop w lim short long shift acc (Z.lor (Z.land v 127) 128 :: rest)
  = varint_loop w lim short long (shift + 7) (acc + v mod 128 * 2 ^ shift) rest.
Proof.
  intros Hs Hw Hlim Ha. rewrite cont_byte. cbn [varint_loop]. rewrite cont_byte_low.
  destruct (Z.eqb_spec (Z.land (v mod 128 + 128) 128) 0) as [E|_];
    [by apply land128_cont in E|].
  destruct (Z.leb_spec lim (shift + 7)); [lia|].
  rewrite Z.shiftl_mul_pow2 by lia.
  rewrite wrap_u_id, lor_disjoint; [done|lia|lia|].
  apply chunk_bound; [lia|]. pose proof (Z.mod_pos_bound v 128 ltac:(lia)).
  assert (2 ^ 7 <= 2 ^ (w - shift)) by (apply Z.pow_le_mono_r; lia). lia.
Qed.

(** Decoding undoes encoding, for any accumulator below the current shift. *)
Lemma varint_loop_bytes w lim short long fuel : forall shift acc v rest,
  (forall s, s mod 7 = 0 -> s < w -> s < lim) ->
  0 <= shift <= w -> shift mod 7 = 0 -> 0 <= acc < 2 ^ shift ->
  0 <= v < 2 ^ (w - shift) -> v < 2 ^ (7 * Z.of_nat fuel + 7) ->
  varint_loop w lim short long shift acc (uvarint_bytes fuel v ++ rest)
  = Ok (acc + v * 2 ^ shift, rest).
Proof.
  induction fuel as [|fuel IH]; intros shift acc v rest Hlim Hs Hm Ha Hv Hf.
  - cbn [uvarint_bytes app]. change (2 ^ (7 * Z.of_nat 0 + 7)) with 128 in Hf.
    rewrite Z.mod_small by lia. by apply varint_loop_last.
  - cbn [uvarint_bytes].
    destruct (Z.ltb_spec v 128) as [Hlt|Hge]; cbn [app]; [by apply varint_loop_last|].
    assert (shift + 7 < w) as Hsw.
    { destruct (Z.lt_ge_cases (w - shift) 8); [|lia].
      assert (2 ^ (w - shift) <= 2 ^ 7) by (apply Z.pow_le_mono_r; lia). lia. }
    assert ((shift + 7) mod 7 = 0) as Hm7
      by (rewrite <- Z.add_mod_idemp_r, Z.mod_same, Z.add_0_r by lia; done).
    rewrite varint_loop_cont by (auto; lia).
    pose proof (Z.mod_pos_bound v 128 ltac:(lia)) as Hmod.
    pose proof (Z.div_mod v 128 ltac:(lia)) as Hdm.
    assert (2 ^ (shift + 7) = 128 * 2 ^ shift) as Hp7 by (rewrite Z.pow_add_r by lia; lia).
    assert (0 < 2 ^ shift) by lia.
    rewrite Z.shiftr_div_pow2 by lia. change (2 ^ 7) with 128.
    rewrite IH; try lia.
    + f_equal. f_equal. rewrite Hp7. nia.
    + done.
    + rewrite Hp7. nia.
    + replace (w - shift) with (7 + (w - (shift + 7))) in Hv by lia.
      rewrite Z.pow_add_r in Hv by lia.
      split; [apply Z.div_pos; lia|]. apply Z.div_lt_upper_bound; lia.
    + apply Z.div_lt_upper_bound; [lia|].
      replace (7 * Z.of_nat (S fuel) + 7) with (7 + (7 * Z.of_nat fuel + 7)) in Hf by lia.
      rewrite Z.pow_add_r in Hf by lia. lia.
Qed.

Lemma varint_roundtrip w lim short long fuel v :
  (forall s, s mod 7 = 0 -> s < w -> s < lim) -> 0 < w ->
  in_u w v -> w <= 7 * Z.of_nat fuel + 7 ->
  parses (varint_loop w lim short long 0 0) (uvarint_bytes fuel v) v.
Proof.
  intros Hlim Hw Hv Hf rest. unfold in_u in Hv.
  rewrite varint_loop_bytes; try done; try lia.
  - f_equal. f_equal. lia.
  - by rewrite Z.sub_0_r.
  - eapply Z.lt_le_trans; [apply Hv|]. apply Z.pow_le_mono_r; lia.
Qed.

(** A successful decode consumes at least one byte and stays in range. *)
Lemma varint_loop_consumes w lim short long bs : forall shift acc v rest,
  varint_loop w lim short long shift acc bs = Ok (v, rest) ->
  (length rest < length bs)%nat.
Proof.
  induction bs as [|b bs IH]; intros shift acc v rest; cbn [varint_loop]; [done|].
  destruct (_ =? 0); [intros [= _ ->]; cbn; lia|].
  destruct (_ <=? _); [done|]. intros H. apply IH in H. cbn. lia.
Qed.

Lemma lor_range w a b : 0 <= w -> in_u w a -> in_u w b -> in_u w (Z.lor a b).
Proof.
  unfold in_u. intros Hw Ha Hb. split; [apply Z.lor_nonneg; lia|].
  destruct (Z.eq_dec (Z.lor a b) 0) as [->|Hn]; [lia|].
  assert (0 <= Z.lor a b) by (apply Z.lor_nonneg; lia).
  destruct (Z.eq_dec w 0) as [->|].
  { assert (a = 0 /\ b = 0) as [-> ->] by lia. done. }
  apply Z.log2_lt_pow2; [lia|]. rewrite Z.log2_lor by lia.
  assert (forall x, 0 <= x < 2 ^ w -> Z.log2 x < w) as Hl.
  { intros x Hx. destruct (Z.eq_dec x 0) as [->|]; [cbn; lia|].
    apply Z.log2_lt_pow2; lia. }
  apply Z.max_lub_lt; auto.
Qed.

Lemma varint_loop_safe w lim short long : forall shift acc,
  0 <= w -> in_u w acc -> safe (in_u w) (varint_loop w lim short long shift acc).
Proof.
  intros shift acc Hw Ha bs. revert shift acc Ha.
  induction bs as [|b bs IH]; intros; cbn [varint_loop]; [done|].
  assert (in_u w (Z.lor acc (wrap_u w (Z.shiftl (Z.land b 127) shift)))) as Hacc
    by (apply lor_range; auto using wrap_u_range).
  destruct (_ =? 0); [done|]. destruct (_ <=? _); [done|]. by apply IH.
Qed.

(** Encoded varints are bytes; a value below [128^k] takes at most [k]. *)
Lemma uvarint_bytes_byte fuel v : 0 <= v -> Forall is_byte (uvarint_bytes fuel v).
Proof.
  revert v. induction fuel as [|fuel IH]; intros v Hv; cbn.
  - repeat constructor; apply Z.mod_pos_bound; lia.
  - destruct (Z.ltb_spec v 128); [repeat constructor; unfold is_byte; lia|].
    constructor; [|apply IH, Z.shiftr_nonneg, Hv].
    rewrite cont_byte. pose proof (Z.mod_pos_bound v 128). unfold is_byte. lia.
Qed.

Lemma uvarint_bytes_length fuel v :
  (1 <= length (uvarint_bytes fuel v) <= fuel + 1)%nat.
Proof.
  revert v. induction fuel as [|fuel IH]; intros v; cbn; [lia|].
  destruct (v <? 128); cbn; [lia|]. specialize (IH (Z.shiftr v 7)). lia.
Qed.

(** More fuel changes nothing once it covers the value's bits. *)
Lemma uvarint_bytes_fuel fuel v :
  0 <= v < 2 ^ (7 * Z.of_nat fuel + 7) -> uvarint_bytes (S fuel) v = uvarint_bytes fuel v.
Proof.
  revert v. induction fuel as [|fuel IH]; intros v Hv.
  - change (2 ^ (7 * Z.of_nat 0 + 7)) with 128 in Hv. cbn.
    destruct (Z.ltb_spec v 128); [|lia]. by rewrite Z.mod_small by lia.
  - change (uvarint_bytes (S (S fuel)) v) with
      (if v <? 128 then [v] else Z.lor (Z.land v 127) 128 :: uvarint_bytes (S fuel) (Z.shiftr v 7)).
    rewrite IH; [done|]. rewrite Z.shiftr_div_pow2 by lia.
    split; [apply Z.div_pos; lia|]. apply Z.div_lt_upper_bound; [lia|].
    rewrite <- Z.pow_add_r by lia.
    replace (7 + (7 * Z.of_nat fuel + 7)) with (7 * Z.of_nat (S fuel) + 7) by lia. lia.
Qed.

(** * Zig-zag coding of signed values *)

Definition zigzag (v : Z) : Z := if v <? 0 then -2 * v - 1 else 2 * v.

Definition unzigzag (n : Z) : Z := if Z.even n then n / 2 else - (n / 2) - 1.

Lemma zigzag_range w v : 0 < w -> in_s w v -> in_u w (zigzag v).
Proof.
  unfold in_s, in_u, zigzag. intros.
  assert (2 ^ w = 2 * 2 ^ (w - 1)) by (rewrite <- Z.pow_succ_r by lia; f_equal; lia).
  destruct (Z.ltb_spec v 0); lia.
Qed.

Lemma unzigzag_zigzag v : unzigzag (zigzag v) = v.
Proof.
  unfold unzigzag, zigzag. destruct (Z.ltb_spec v 0).
  - replace (-2 * v - 1) with (1 + 2 * (- v - 1)) by lia.
    rewrite Z.even_add_mul_2. cbn.
    rewrite Z.mul_comm, Z.div_add by lia. change (1 / 2) with 0. lia.
  - rewrite Z.even_mul. cbn. rewrite Z.mul_comm, Z.div_mul by lia. done.
Qed.

(** * UTF-8

    [String::from_utf8]: the well-formed byte sequences of the Unicode
    standard.  A Rust [String] is a byte list for which this holds. *)

Definition in_rng (lo hi b : Z) : bool := (lo <=? b) && (b <=? hi).

Fixpoint utf8_valid (bs : bytes) : bool :=
  match bs with
  | [] => true
  | b0 :: r0 =>
      if in_rng 0 127 b0 then utf8_valid r0
      else match r0 with
      | [] => false
      | b1 :: r1 =>
          if in_rng 194 223 b0 then in_rng 128 191 b1 && utf8_valid r1
          else match r1 with
          | [] => false
          | b2 :: r2 =>
              if in_rng 224 239 b0 then
                (if b0 =? 224 then in_rng 160 191 b1
                 else if b0 =? 237 then in_rng 128 159 b1
                 else in_rng 128 191 b1) && in_rng 128 191 b2 && utf8_valid r2
              else match r2 with
              | [] => false
              | b3 :: r3 =>
                  if in_rng 240 244 b0 then
                    (if b0 =? 240 then in_rng 144 191 b1
                     else if b0 =? 244 then in_rng 128 143 b1
                     else in_rng 128 191 b1)
                    && in_rng 128 191 b2 && in_rng 128 191 b3 && utf8_valid r3
                  else false
              end
          end
      end
  end.

Definition from_utf8 (e : error) (bs : bytes) : res bytes :=
  if utf8_valid bs then Ok bs else Err e.

Definition rd_lift {A} (r : res A) : rd A := fun bs =>
  match r with Ok a => Ok (a, bs) | Err e => Err e | Panic => Panic end.

Lemma parses_utf8 e s : utf8_valid s = true -> parses (rd_lift (from_utf8 e s)) [] s.
Proof. intros H rest. unfold from_utf8. by rewrite H. Qed.

Lemma safe_utf8 e s : safe (fun t => t = s /\ utf8_valid t = true) (rd_lift (from_utf8 e s)).
Proof. intros bs. unfold from_utf8. by destruct (utf8_valid s) eqn:E. Qed.

#[export] Hint Resolve safe_take : safe.

(** The test [v & !0x7F != 0] of the encoders: is the value 128 or more. *)
Lemma land_high_bits w v : 7 <= w -> in_u w v ->
  negb (Z.land v (wrap_u w (Z.lnot 127)) =? 0) = negb (v <? 128).
Proof.
  intros Hw [H0 H1]. f_equal.
  assert (2 ^ w = 2 ^ (w - 7) * 2 ^ 7) as Hp by (rewrite <- Z.pow_add_r by lia; f_equal; lia).
  assert (wrap_u w (Z.lnot 127) = Z.shiftl (Z.ones (w - 7)) 7) as ->.
  { unfold wrap_u. change (Z.lnot 127) with (- 128).
    rewrite Z.shiftl_mul_pow2, Z.ones_equiv by lia.
    assert (0 < 2 ^ (w - 7)) by (apply Z.pow_pos_nonneg; lia).
    rewrite <- (Z.mod_add (-128) 1 (2 ^ w)) by lia. rewrite Z.mod_small; lia. }
  assert (Z.land v (Z.shiftl (Z.ones (w - 7)) 7) = Z.shiftl (Z.shiftr v 7) 7) as ->.
  { apply Z.bits_inj'. intros i Hi. rewrite Z.land_spec.
    destruct (Z.lt_ge_cases i 7).
    - rewrite !Z.shiftl_spec_low by lia. apply andb_false_r.
    - rewrite !Z.shiftl_spec_high, Z.shiftr_spec by lia.
      replace (i - 7 + 7) with i by lia.
      destruct (Z.lt_ge_cases i w).
      + rewrite Z.ones_spec_low by lia. apply andb_true_r.
      + rewrite Z.ones_spec_high, andb_false_r by lia.
        rewrite <- (Z.mod_small v (2 ^ w)), Z.mod_pow2_bits_high by lia. done. }
  rewrite Z.shiftr_div_pow2, Z.shiftl_mul_pow2 by lia. change (2 ^ 7) with 128.
  destruct (Z.ltb_spec v 128).
  - by rewrite Z.div_small.
  - assert (1 <= v / 128) by (apply Z.div_le_lower_bound; lia).
    apply Z.eqb_neq. lia.
Qed.

Lemma shiftr7_range w v : 0 <= w -> in_u w v -> in_u w (Z.shiftr v 7).
Proof.
  intros Hw [H0 H1]. unfold in_u. rewrite Z.shiftr_div_pow2 by lia.
  split; [apply Z.div_pos; lia|]. apply Z.div_lt_upper_bound; lia.
Qed.

Lemma land127_u8 v : as_u8 (Z.land v 127) = Z.land v 127.
Proof.
  rewrite land127. apply wrap_u_id. unfold in_u. pose proof (Z.mod_pos_bound v 128). lia.
Qed.

(** * Writing into a buffer: [buf[pos..pos + n].copy_from_slice(new)]. *)
Definition splice (pos : nat) (new buf : bytes) : bytes :=
  take pos buf ++ new ++ drop (pos + length new) buf.

Lemma splice_app pos new a b c :
  length a = pos -> length b = length new -> splice pos new (a ++ b ++ c) = a ++ new ++ c.
Proof.
  intros Ha Hb. unfold splice. rewrite take_app_length' by done.
  rewrite drop_app, drop_ge, Ha by lia. cbn.
  by rewrite Nat.add_comm, Nat.add_sub, drop_app_length' by done.
Qed.

Lemma lor_1_even a : Z.even a = true -> Z.lor a 1 = a + 1.
Proof.
  intros He. apply Z.even_spec in He as [k ->].
  rewrite (Z.mul_comm 2 k), Z.lor_comm. change (k * 2) with (k * 2 ^ 1).
  rewrite lor_disjoint by lia. lia.
Qed.

(** The shift-and-xor form of zig-zag coding. *)
Lemma zigzag_xor_encode w v : 1 < w -> in_s w v ->
  wrap_u w (Z.lxor (wrap_s w (Z.shiftl v 1)) (Z.shiftr v (w - 1))) = zigzag v.
Proof.
  intros Hw Hv. pose proof (zigzag_range w v ltac:(lia) Hv) as Hz. unfold in_s in Hv.
  rewrite Z.shiftl_mul_pow2, Z.shiftr_div_pow2 by lia. change (2 ^ 1) with 2.
  unfold zigzag in *. destruct (Z.ltb_spec v 0).
  - assert (v / 2 ^ (w - 1) = -1) as ->.
    { symmetry. apply Z.div_unique with (v + 2 ^ (w - 1)); lia. }
    rewrite Z.lxor_m1_r. unfold Z.lnot. unfold wrap_u.
    replace (Z.pred (- wrap_s w (v * 2))) with (-1 - wrap_s w (v * 2)) by lia.
    rewrite <- Zminus_mod_idemp_r.
    fold (wrap_u w (wrap_s w (v * 2))). rewrite wrap_u_wrap_s by lia.
    unfold wrap_u. rewrite Zminus_mod_idemp_r.
    replace (-1 - v * 2) with (-2 * v - 1) by lia. by apply Z.mod_small.
  - rewrite Z.div_small, Z.lxor_0_r, wrap_u_wrap_s by lia.
    rewrite wrap_u_id by (by replace (v * 2) with (2 * v) by lia). lia.
Qed.

Lemma zigzag_xor_decode w n : 1 < w -> in_u w n ->
  Z.lxor (wrap_s w (Z.shiftr n 1)) (- wrap_s w (Z.land n 1)) = unzigzag n.
Proof.
  intros Hw Hn. unfold in_u in Hn.
  assert (2 ^ w = 2 * 2 ^ (w - 1)) by (rewrite <- Z.pow_succ_r by lia; f_equal; lia).
  assert (2 ^ 1 <= 2 ^ (w - 1)) by (apply Z.pow_le_mono_r; lia). change (2 ^ 1) with 2 in *.
  rewrite Z.shiftr_div_pow2 by lia. change 1 with (Z.ones 1) at 2.
  rewrite Z.land_ones by lia. change (2 ^ 1) with 2.
  assert (0 <= n / 2 < 2 ^ (w - 1))
    by (split; [apply Z.div_pos; lia|apply Z.div_lt_upper_bound; lia]).
  pose proof (Z.mod_pos_bound n 2 ltac:(lia)).
  rewrite !wrap_s_id by (unfold in_s; lia). unfold unzigzag. rewrite Zmod_even.
  destruct (Z.even n); [apply Z.lxor_0_r|].
  change (- (1)) with (-1). rewrite Z.lxor_m1_r. unfold Z.lnot. lia.
Qed.

(** [(v | 0x80) as u8]. *)
Lemma lor128_u8 v : as_u8 (Z.lor v 128) = Z.lor (Z.land v 127) 128.
Proof.
  unfold wrap_u. rewrite <- Z.land_ones by lia. apply Z.bits_inj'. intros i Hi.
  rewrite Z.land_spec, !Z.lor_spec, Z.land_spec. change 127 with (Z.ones 7).
  change 128 with (2 ^ 7).
  destruct (Z.lt_ge_cases i 7).
  { rewrite !Z.ones_spec_low, Z.pow2_bits_false by lia. by destruct (Z.testbit v i). }
  rewrite (Z.ones_spec_high 7) by lia.
  destruct (Z.eq_dec i 7) as [->|].
  { rewrite Z.pow2_bits_true, Z.ones_spec_low by lia. by destruct (Z.testbit v 7). }
  rewrite Z.pow2_bits_false, Z.ones_spec_high by lia. by destruct (Z.testbit v i).
Qed.

Lemma wrap_s_even w a : 1 < w -> Z.even a = true -> Z.even (wrap_s w a) = true.
Proof.
  intros Hw He. unfold wrap_s.
  assert (Z.even (2 ^ (w - 1)) = true) as E1 by (rewrite Z.even_pow by lia; done).
  assert (Z.even (2 ^ w) = true) as E2 by (rewrite Z.even_pow by lia; done).
  rewrite Z.even_sub, E1. rewrite Z.mod_eq by lia.
  rewrite Z.even_sub, Z.even_add, Z.even_mul, E1, E2, He. done.
Qed.

Lemma uvarint_bytes_S fuel v :
  uvarint_bytes (S fuel) v =
  if v <? 128 then [v] else Z.lor (Z.land v 127) 128 :: uvarint_bytes fuel (Z.shiftr v 7).
Proof. done. Qed.

(** [str::parse::<u64>]: an optional plus sign and digits within range. *)
Fixpoint parse_digits (acc : Z) (bs : bytes) : option Z :=
  match bs with
  | [] => Some acc
  | b :: bs =>
      if in_rng 48 57 b then
        let acc := acc * 10 + (b - 48) in
        if 2 ^ 64 <=? acc then None else parse_digits acc bs
      else None
  end.
Definition parse_u64 (bs : bytes) : option Z :=
  match bs with
  | [] => None
  | b :: rest => if b =? 43 then match rest with [] => None | _ => parse_digits 0 rest end
                 else parse_digits 0 bs
  end.

Global Arguments le_bytes : simpl never.
Global Arguments be_bytes : simpl never.
Global Arguments le_val : simpl never.
Global Arguments be_val : simpl never.
Global Arguments uvarint_bytes : simpl never.
Global Arguments wrap_u : simpl never.
Global Arguments wrap_s : simpl never.

(** One step of a panic-freedom proof: descend through binds and branches,
    closing readers with the lemmas of the [safe] database. *)
Ltac safe_step :=
  match goal with
  | |- safe _ (mret _) => apply safe_ret
  | |- safe _ (_ ≫= _) => eapply safe_bind; [solve [eauto with safe]|intros ? ?]
  | |- safe _ (if ?b then _ else _) => destruct b eqn:?
  | |- safe _ (rd_err _) => apply safe_err
  end.
Ltac safe_auto := repeat (cbv zeta; safe_step); try done; eauto with safe.

(** ** Readers only consume

    [shrinks p]: a successful read leaves no more bytes than it was given. *)
Definition shrinks {A} (p : rd A) : Prop :=
  forall bs a rest, p bs = Ok (a, rest) -> (length rest <= length bs)%nat.

Lemma shrinks_ret {A} (a : A) : shrinks (mret a).
Proof. by intros bs ? ? [= _ ->]. Qed.
Lemma shrinks_err {A} r : shrinks (@rd_fail A r).
Proof. intros bs a rest. unfold rd_fail. by destruct r as [[]| |]. Qed.
Lemma shrinks_bind {A B} (p : rd A) (k : A -> rd B) :
  shrinks p -> (forall a, shrinks (k a)) -> shrinks (p ≫= k).
Proof.
  intros Hp Hk bs b rest. unfold mbind, rd_bind.
  destruct (p bs) as [[a r]| |] eqn:E; try done. intros H.
  apply Hp in E. apply Hk in H. lia.
Qed.
Lemma shrinks_take short n : shrinks (rd_take short n).
Proof.
  intros bs a rest. unfold rd_take. destruct (_ <? _); [apply shrinks_err|].
  intros [= _ <-]. rewrite length_drop. lia.
Qed.
Lemma shrinks_lift {A} (r : res A) : shrinks (rd_lift r).
Proof. intros bs a rest. unfold rd_lift. by destruct r; intros [= _ ->]. Qed.
Lemma shrinks_if {A} (b : bool) (p q : rd A) :
  shrinks p -> shrinks q -> shrinks (if b then p else q).
Proof. by destruct b. Qed.
Lemma shrinks_be_u short n : shrinks (rd_be_u short n).
Proof. apply shrinks_bind; [apply shrinks_take|]. intros. apply shrinks_ret. Qed.
Lemma shrinks_be_s short n : shrinks (rd_be_s short n).
Proof. apply shrinks_bind; [apply shrinks_be_u|]. intros. apply shrinks_ret. Qed.
Lemma shrinks_repeat {A} n (p : rd A) : shrinks p -> shrinks (rd_repeat n p).
Proof.
  intros Hp. induction n; cbn; [apply shrinks_ret|].
  apply shrinks_bind; [done|]. intros. apply shrinks_bind; [done|]. intros. apply shrinks_ret.
Qed.
Lemma shrinks_varint w lim short long : shrinks (varint_loop w lim short long 0 0).
Proof. intros bs a rest H. apply varint_loop_consumes in H. lia. Qed.

Create HintDb shrinks discriminated.
#[export] Hint Resolve shrinks_ret shrinks_err shrinks_take shrinks_lift shrinks_be_u
  shrinks_be_s shrinks_varint shrinks_repeat : shrinks.
Ltac shrinks_auto :=
  repeat first [apply shrinks_bind; [|intros ?] | apply shrinks_if | case_match];
  eauto with shrinks.

(** ** Filters that keep everything or nothing *)

Lemma filter_all {A} (P : A -> Prop) `{!forall x, Decision (P x)} (l : list A) :
  Forall P l -> filter P l = l.
Proof. induction 1 as [|x l Hx _ IH]; [done|]. by rewrite filter_cons_True, IH. Qed.

Lemma filter_none {A} (P : A -> Prop) `{!forall x, Decision (P x)} (l : list A) :
  Forall (fun x => ~ P x) l -> filter P l = [].
Proof. induction 1 as [|x l Hx _ IH]; [done|]. by rewrite filter_cons_False, IH. Qed.

(** Side conditions on concrete data: split, and evaluate each atom. *)
Ltac concrete :=
  lazymatch goal with
  | |- True => exact I
  | |- _ /\ _ => split; concrete
  | |- Forall ?P ?l =>
      let l' := eval hnf in l in change (Forall P l');
      first [apply Forall_nil_2 | apply Forall_cons_2; concrete]
  | |- @eq _ _ _ => vm_compute; reflexivity
  | |- Z.le _ _ => vm_compute; congruence
  | |- Z.lt _ _ => vm_compute; reflexivity
  | |- lt _ _ => vm_compute; lia
  | |- le _ _ => vm_compute; lia
  | |- not _ => vm_compute; congruence
  | |- _ = _ -> False => vm_compute; congruence
  | |- _ => progress hnf; concrete
  end.
