(* ===== verification/Extern.v ===== *)
(** Third-party code the program calls and this development does not model: the
    checksum crates (crc32c, crc32fast) and the block compressors (flate2, snap,
    lz4_flex, zstd).  Each is an interface with the documented facts the program
    relies on; theorems are proved for every implementation of the interface.
    The concrete instances at the end show the interfaces are inhabited and let
    witnesses compute. *)
From stdpp Require Import base list numbers strings.
From Stdlib Require Import ZArith Lia.
From S2P Require Import Prelude.
Local Open Scope Z_scope.

(** [crc32c::crc32c]: CRC-32C of a byte slice, a [u32]. *)
Class Crc32c : Type := {
  crc32c : bytes -> Z;
  crc32c_u32 : forall bs, in_u 32 (crc32c bs) }.

(** [crc32fast::Hasher]: CRC-32 (IEEE) of the concatenated updates, a [u32]. *)
Class Crc32 : Type := {
  crc32 : bytes -> Z;
  crc32_u32 : forall bs, in_u 32 (crc32 bs) }.

(** The compression libraries, by algorithm. *)
Inductive algo : Type := AGzip | AZlib | ASnappy | ALz4 | AZstd.

Class BlockCodec : Type := {
  compress : algo -> bytes -> res bytes;
  decompress : algo -> bytes -> res bytes;
  compress_no_panic : forall a bs, compress a bs <> Panic;
  decompress_no_panic : forall a bs, decompress a bs <> Panic;
  (** What was compressed is what is decompressed. *)
  decompress_compress : forall a bs z, compress a bs = Ok z -> decompress a z = Ok bs }.

(** ** Concrete instances *)

(** The reflected bitwise CRC-32 with the given polynomial. *)
Definition crc_bit (poly c : Z) : Z :=
  if Z.testbit c 0 then Z.lxor (Z.shiftr c 1) poly else Z.shiftr c 1.

Definition crc_byte (poly c b : Z) : Z :=
  Nat.iter 8 (crc_bit poly) (Z.lxor c b).

Definition crc_bitwise (poly : Z) (bs : bytes) : Z :=
  as_u32 (Z.lxor (foldl (crc_byte poly) (2 ^ 32 - 1) bs) (2 ^ 32 - 1)).

Lemma crc_bitwise_u32 poly bs : in_u 32 (crc_bitwise poly bs).
Proof. apply wrap_u_range. lia. Qed.

(** CRC-32C (Castagnoli) and CRC-32 (IEEE), reflected polynomials. *)
Definition crc32c_bitwise : Crc32c :=
  {| crc32c := crc_bitwise 2197175160; crc32c_u32 := crc_bitwise_u32 _ |}.
Definition crc32_bitwise : Crc32 :=
  {| crc32 := crc_bitwise 3988292384; crc32_u32 := crc_bitwise_u32 _ |}.

(** The check values of the two algorithms: the CRC of the string 123456789. *)
Example crc32c_check : @crc32c crc32c_bitwise (bytes_of_string "123456789") = 3808858755.
Proof. vm_compute. reflexivity. Qed.
Example crc32_check : @crc32 crc32_bitwise (bytes_of_string "123456789") = 3421780262.
Proof. vm_compute. reflexivity. Qed.

(** A codec that stores its input behind one marker byte. *)
Definition stored_compress (_ : algo) (bs : bytes) : res bytes := Ok (0 :: bs).
Definition stored_decompress (_ : algo) (z : bytes) : res bytes :=
  match z with
  | b :: bs => if b =? 0 then Ok bs else Err (EInternal "stored: bad marker")
  | [] => Err (EInternal "stored: empty")
  end.

Definition stored_codec : BlockCodec.
Proof.
  refine {| compress := stored_compress; decompress := stored_decompress |}.
  - abstract done.
  - abstract (intros a [|b bs]; cbn; [done|]; by destruct (b =? 0)).
  - abstract (by intros a bs z [= <-]).
Defined.
