(* ===== verification/Wire.v ===== *)
(** The Kafka wire protocol of chronik-protocol: API keys and their version
    tables, the primitive decoder and encoder, the request header parser
    (crates/chronik-protocol/src/parser.rs), and the header of a response
    (make_response of handler.rs). *)
From stdpp Require Import base list numbers strings.
From Stdlib Require Import ZArith Lia.
From S2P Require Import Prelude.
Local Open Scope Z_scope.

(** * API keys *)
Module Api.

(** [enum ApiKey], [#[repr(i16)]]. *)
Inductive ApiKey : Type :=
| Produce
| Fetch
| ListOffsets
| Metadata
| LeaderAndIsr
| StopReplica
| UpdateMetadata
| ControlledShutdown
| OffsetCommit
| OffsetFetch
| FindCoordinator
| JoinGroup
| Heartbeat
| LeaveGroup
| SyncGroup
| DescribeGroups
| ListGroups
| SaslHandshake
| ApiVersions
| CreateTopics
| DeleteTopics
| DeleteRecords
| InitProducerId
| OffsetForLeaderEpoch
| AddPartitionsToTxn
| AddOffsetsToTxn
| EndTxn
| WriteTxnMarkers
| TxnOffsetCommit
| DescribeAcls
| CreateAcls
| DeleteAcls
| DescribeConfigs
| AlterConfigs
| AlterReplicaLogDirs
| DescribeLogDirs
| SaslAuthenticate
| CreatePartitions
| CreateDelegationToken
| RenewDelegationToken
| ExpireDelegationToken
| DescribeDelegationToken
| DeleteGroups
| ElectLeaders
| IncrementalAlterConfigs
| AlterPartitionReassignments
| ListPartitionReassignments
| OffsetDelete
| DescribeClientQuotas
| AlterClientQuotas
| DescribeUserScramCredentials
| AlterUserScramCredentials
| AlterPartition
| UpdateFeatures
| Envelope
| DescribeCluster
| DescribeProducers
| DescribeTransactions
| ListTransactions
| AllocateProducerIds.

#[global] Instance ApiKey_eq_dec : EqDecision ApiKey.
Proof. solve_decision. Defined.

(** The discriminant written on the wire. *)
Definition to_i16 (k : ApiKey) : Z :=
  match k with
  | Produce => 0
  | Fetch => 1
  | ListOffsets => 2
  | Metadata => 3
  | LeaderAndIsr => 4
  | StopReplica => 5
  | UpdateMetadata => 6
  | ControlledShutdown => 7
  | OffsetCommit => 8
  | OffsetFetch => 9
  | FindCoordinator => 10
  | JoinGroup => 11
  | Heartbeat => 12
  | LeaveGroup => 13
  | SyncGroup => 14
  | DescribeGroups => 15
  | ListGroups => 16
  | SaslHandshake => 17
  | ApiVersions => 18
  | CreateTopics => 19
  | DeleteTopics => 20
  | DeleteRecords => 21
  | InitProducerId => 22
  | OffsetForLeaderEpoch => 23
  | AddPartitionsToTxn => 24
  | AddOffsetsToTxn => 25
  | EndTxn => 26
  | WriteTxnMarkers => 27
  | TxnOffsetCommit => 28
  | DescribeAcls => 29
  | CreateAcls => 30
  | DeleteAcls => 31
  | DescribeConfigs => 32
  | AlterConfigs => 33
  | AlterReplicaLogDirs => 34
  | DescribeLogDirs => 35
  | SaslAuthenticate => 36
  | CreatePartitions => 37
  | CreateDelegationToken => 38
  | RenewDelegationToken => 39
  | ExpireDelegationToken => 40
  | DescribeDelegationToken => 41
  | DeleteGroups => 42
  | ElectLeaders => 43
  | IncrementalAlterConfigs => 44
  | AlterPartitionReassignments => 45
  | ListPartitionReassignments => 46
  | OffsetDelete => 47
  | DescribeClientQuotas => 48
  | AlterClientQuotas => 49
  | DescribeUserScramCredentials => 50
  | AlterUserScramCredentials => 51
  | AlterPartition => 56
  | UpdateFeatures => 57
  | Envelope => 58
  | DescribeCluster => 60
  | DescribeProducers => 61
  | DescribeTransactions => 65
  | ListTransactions => 66
  | AllocateProducerIds => 67
  end.

(** [ApiKey::from_i16]. *)
Definition from_i16 (value : Z) : option ApiKey :=
  match value with
  | 0 => Some Produce
  | 1 => Some Fetch
  | 2 => Some ListOffsets
  | 3 => Some Metadata
  | 4 => Some LeaderAndIsr
  | 5 => Some StopReplica
  | 6 => Some UpdateMetadata
  | 7 => Some ControlledShutdown
  | 8 => Some OffsetCommit
  | 9 => Some OffsetFetch
  | 10 => Some FindCoordinator
  | 11 => Some JoinGroup
  | 12 => Some Heartbeat
  | 13 => Some LeaveGroup
  | 14 => Some SyncGroup
  | 15 => Some DescribeGroups
  | 16 => Some ListGroups
  | 17 => Some SaslHandshake
  | 18 => Some ApiVersions
  | 19 => Some CreateTopics
  | 20 => Some DeleteTopics
  | 21 => Some DeleteRecords
  | 22 => Some InitProducerId
  | 23 => Some OffsetForLeaderEpoch
  | 24 => Some AddPartitionsToTxn
  | 25 => Some AddOffsetsToTxn
  | 26 => Some EndTxn
  | 27 => Some WriteTxnMarkers
  | 28 => Some TxnOffsetCommit
  | 29 => Some DescribeAcls
  | 30 => Some CreateAcls
  | 31 => Some DeleteAcls
  | 32 => Some DescribeConfigs
  | 33 => Some AlterConfigs
  | 34 => Some AlterReplicaLogDirs
  | 35 => Some DescribeLogDirs
  | 36 => Some SaslAuthenticate
  | 37 => Some CreatePartitions
  | 38 => Some CreateDelegationToken
  | 39 => Some RenewDelegationToken
  | 40 => Some ExpireDelegationToken
  | 41 => Some DescribeDelegationToken
  | 42 => Some DeleteGroups
  | 43 => Some ElectLeaders
  | 44 => Some IncrementalAlterConfigs
  | 45 => Some AlterPartitionReassignments
  | 46 => Some ListPartitionReassignments
  | 47 => Some OffsetDelete
  | 48 => Some DescribeClientQuotas
  | 49 => Some AlterClientQuotas
  | 50 => Some DescribeUserScramCredentials
  | 51 => Some AlterUserScramCredentials
  | 56 => Some AlterPartition
  | 57 => Some UpdateFeatures
  | 58 => Some Envelope
  | 60 => Some DescribeCluster
  | 61 => Some DescribeProducers
  | 65 => Some DescribeTransactions
  | 66 => Some ListTransactions
  | 67 => Some AllocateProducerIds
  | _ => None
  end.


(** [is_flexible_version]. *)
Definition is_flexible_version (api_key : ApiKey) (api_version : Z) : bool :=
  match api_key with
  | Produce => 9 <=? api_version
  | Fetch => 12 <=? api_version
  | ListOffsets => 6 <=? api_version
  | Metadata => 9 <=? api_version
  | OffsetCommit => 8 <=? api_version
  | OffsetFetch => 6 <=? api_version
  | FindCoordinator => 3 <=? api_version
  | JoinGroup => 6 <=? api_version
  | Heartbeat => 4 <=? api_version
  | LeaveGroup => 4 <=? api_version
  | SyncGroup => 4 <=? api_version
  | DescribeGroups => 5 <=? api_version
  | ListGroups => 3 <=? api_version
  | SaslHandshake => false
  | SaslAuthenticate => 2 <=? api_version
  | ApiVersions => 3 <=? api_version
  | CreateTopics => 5 <=? api_version
  | DeleteTopics => 4 <=? api_version
  | DescribeConfigs => 4 <=? api_version
  | AlterConfigs => 2 <=? api_version
  | IncrementalAlterConfigs => 1 <=? api_version
  | DescribeCluster => 1 <=? api_version
  | DeleteRecords => 2 <=? api_version
  | DeleteGroups => 2 <=? api_version
  | CreatePartitions => 2 <=? api_version
  | ElectLeaders => 2 <=? api_version
  | DescribeLogDirs => 2 <=? api_version
  | AlterReplicaLogDirs => 2 <=? api_version
  | OffsetForLeaderEpoch => 4 <=? api_version
  | AlterPartitionReassignments => true
  | ListPartitionReassignments => true
  | DescribeClientQuotas => 1 <=? api_version
  | AlterClientQuotas => 1 <=? api_version
  | DescribeUserScramCredentials => true
  | AlterUserScramCredentials => true
  | DescribeProducers => true
  | DescribeTransactions => true
  | ListTransactions => true
  | OffsetDelete => false
  | CreateDelegationToken => 2 <=? api_version
  | RenewDelegationToken => 2 <=? api_version
  | ExpireDelegationToken => 2 <=? api_version
  | DescribeDelegationToken => 2 <=? api_version
  | InitProducerId => 2 <=? api_version
  | AddPartitionsToTxn => 3 <=? api_version
  | AddOffsetsToTxn => 3 <=? api_version
  | EndTxn => 3 <=? api_version
  | TxnOffsetCommit => 3 <=? api_version
  | DescribeAcls => 2 <=? api_version
  | CreateAcls => 2 <=? api_version
  | DeleteAcls => 2 <=? api_version
  | _ => false
  end.


(** ** Properties of the tables *)

Lemma from_to_i16 k : from_i16 (to_i16 k) = Some k.
Proof. by destruct k. Qed.


Lemma to_i16_range k : in_s 16 (to_i16 k).
Proof. unfold in_s. by destruct k. Qed.

(** Flexibility is upward closed in the version. *)
Lemma is_flexible_mono k v v' :
  is_flexible_version k v = true -> v <= v' -> is_flexible_version k v' = true.
Proof. destruct k; cbn; try done; intros; apply Z.leb_le; lia. Qed.

End Api.

(** * Decoder and encoder primitives *)
Module Codec.

Definition ep (m : string) : res Empty_set := Err (EProtocol m).

(** [Decoder::skip] and [Decoder::advance]. *)
Definition skip (n : Z) : rd unit := _ ← rd_take (ep "Cannot skip") n; mret tt.
Definition advance (n : Z) : rd unit := _ ← rd_take (ep "Cannot advance") n; mret tt.

Definition read_bool : rd bool :=
  b ← rd_be_u (ep "Not enough bytes for bool") 1; mret (negb (b =? 0)).
Definition read_i8 : rd Z := rd_be_s (ep "Not enough bytes for i8") 1.
Definition read_i16 : rd Z := rd_be_s (ep "Not enough bytes for i16") 2.
Definition read_i32 : rd Z := rd_be_s (ep "Not enough bytes for i32") 4.
Definition read_i64 : rd Z := rd_be_s (ep "Not enough bytes for i64") 8.

Definition read_unsigned_varint : rd Z :=
  varint_loop 32 35 (EProtocol "Incomplete varint") (EProtocol "Varint too long") 0 0.

(** [Decoder::read_string]: a negative length is null; the length check comes
    before the allocation. *)
Definition read_string : rd (option bytes) :=
  n ← read_i16;
  if n <? 0 then mret None else
  let n := as_usize n in
  bs ← rd_take (ep "Not enough bytes for string") n;
  _ ← rd_alloc 1 n;
  s ← rd_lift (from_utf8 (EProtocol "Invalid UTF-8 in string") bs);
  mret (Some s).

Definition read_bytes : rd (option bytes) :=
  n ← read_i32;
  if n <? 0 then mret None else
  bs ← rd_take (ep "Not enough bytes for byte array") (as_usize n);
  mret (Some bs).

(** [self.read_unsigned_varint()? as i32 - 1]. *)
Definition compact_len : rd Z :=
  v ← read_unsigned_varint; mret (as_i32 (as_i32 v - 1)).

Definition read_compact_string : rd (option bytes) :=
  n ← compact_len;
  if n <? 0 then mret None else
  let n := as_usize n in
  bs ← rd_take (ep "Not enough bytes for compact string") n;
  _ ← rd_alloc 1 n;
  s ← rd_lift (from_utf8 (EProtocol "Invalid UTF-8 in string") bs);
  mret (Some s).

Definition read_compact_bytes : rd (option bytes) :=
  n ← compact_len;
  if n <? 0 then mret None else
  bs ← rd_take (ep "Not enough bytes for compact byte array") (as_usize n);
  mret (Some bs).

Definition skip_tagged_field : rd unit :=
  _ ← read_unsigned_varint;
  size ← read_unsigned_varint;
  _ ← rd_take (ep "Not enough bytes for tagged field") size;
  mret tt.

Definition skip_tagged_fields : rd unit :=
  count ← read_unsigned_varint;
  _ ← rd_repeat (Z.to_nat count) skip_tagged_field;
  mret tt.

(** The encoder appends; each [write_*] is the bytes it appends. *)
Definition write_bool (value : bool) : bytes := be_bytes 1 (if value then 1 else 0).
Definition write_i8 (value : Z) : bytes := be_bytes 1 value.
Definition write_i16 (value : Z) : bytes := be_bytes 2 value.
Definition write_i32 (value : Z) : bytes := be_bytes 4 value.
Definition write_i64 (value : Z) : bytes := be_bytes 8 value.

Definition write_string (value : option bytes) : bytes :=
  match value with
  | Some s => write_i16 (as_i16 (len s)) ++ s
  | None => write_i16 (-1)
  end.

Definition write_non_nullable_string (value : bytes) : bytes :=
  write_i16 (as_i16 (len value)) ++ value.

Definition write_bytes (value : option bytes) : bytes :=
  match value with
  | Some b => write_i32 (as_i32 (len b)) ++ b
  | None => write_i32 (-1)
  end.

(** [while (value & !0x7F) != 0], at most four continuation bytes for a [u32]
    ([write_unsigned_varint_loop] below). *)
Fixpoint write_unsigned_varint_fuel (fuel : nat) (value : Z) : bytes :=
  match fuel with
  | O => [as_u8 value]
  | S fuel =>
      if negb (Z.land value (as_u32 (Z.lnot 127)) =? 0) then
        Z.lor (as_u8 (Z.land value 127)) 128
          :: write_unsigned_varint_fuel fuel (Z.shiftr value 7)
      else [as_u8 value]
  end.
Definition write_unsigned_varint (value : Z) : bytes :=
  write_unsigned_varint_fuel 4 value.

Definition write_compact_string (value : option bytes) : bytes :=
  match value with
  | Some s => write_unsigned_varint (as_u32 (len s + 1)) ++ s
  | None => write_unsigned_varint 0
  end.

Definition write_compact_bytes (value : option bytes) : bytes :=
  match value with
  | Some b => write_unsigned_varint (as_u32 (len b + 1)) ++ b
  | None => write_unsigned_varint 0
  end.

Definition write_compact_array_len (n : Z) : bytes :=
  write_unsigned_varint (as_u32 (n + 1)).
Definition write_tagged_fields : bytes := write_unsigned_varint 0.
Definition write_raw_bytes (bs : bytes) : bytes := bs.

(** ** The varint writer *)

Lemma write_unsigned_varint_fuel_eq fuel v :
  in_u 32 v -> write_unsigned_varint_fuel fuel v = uvarint_bytes fuel v.
Proof.
  revert v. induction fuel as [|fuel IH]; intros v Hv;
    cbn [write_unsigned_varint_fuel]; [done|].
  rewrite uvarint_bytes_S, land_high_bits, land127_u8 by (done || lia).
  rewrite IH by (apply shiftr7_range; [lia|done]).
  unfold in_u in Hv. destruct (Z.ltb_spec v 128); cbn; [|done].
  f_equal. unfold wrap_u. apply Z.mod_small. lia.
Qed.

(** The bound on the loop is enough: the function satisfies the loop's own
    equation on every [u32]. *)
Lemma write_unsigned_varint_loop v : in_u 32 v ->
  write_unsigned_varint v =
  if negb (Z.land v (as_u32 (Z.lnot 127)) =? 0)
  then Z.lor (as_u8 (Z.land v 127)) 128 :: write_unsigned_varint (Z.shiftr v 7)
  else [as_u8 v].
Proof.
  intros Hv. change (write_unsigned_varint v) with
    (if negb (Z.land v (as_u32 (Z.lnot 127)) =? 0)
     then Z.lor (as_u8 (Z.land v 127)) 128 :: write_unsigned_varint_fuel 3 (Z.shiftr v 7)
     else [as_u8 v]).
  destruct (negb _); [|done]. f_equal.
  assert (0 <= Z.shiftr v 7 < 2 ^ 28) as Hs.
  { unfold in_u in Hv. rewrite Z.shiftr_div_pow2 by lia. split; [apply Z.div_pos; lia|].
    apply Z.div_lt_upper_bound; lia. }
  unfold write_unsigned_varint. rewrite !write_unsigned_varint_fuel_eq by (unfold in_u; lia).
  symmetry. by apply (uvarint_bytes_fuel 3).
Qed.

Lemma write_unsigned_varint_eq v : in_u 32 v -> write_unsigned_varint v = uvarint_bytes 4 v.
Proof. apply write_unsigned_varint_fuel_eq. Qed.

Lemma parses_unsigned_varint v :
  in_u 32 v -> parses read_unsigned_varint (write_unsigned_varint v) v.
Proof.
  intros Hv. rewrite write_unsigned_varint_eq by done.
  apply varint_roundtrip; [intros; lia|lia|done|lia].
Qed.

Lemma parses_unsigned_varint_small v rest : 1 <= v < 128 -> read_unsigned_varint (v :: rest) = Ok (v, rest).
Proof.
  intros Hv. assert (write_unsigned_varint v = [v]) as E.
  { rewrite write_unsigned_varint_eq by (unfold in_u; lia). rewrite uvarint_bytes_S. by destruct (Z.ltb_spec v 128); [|lia]. }
  pose proof (parses_unsigned_varint v ltac:(unfold in_u; lia) rest) as H. by rewrite E in H.
Qed.

(** ** Round trips of the primitives *)

Lemma parses_i8 v : in_s 8 v -> parses read_i8 (write_i8 v) v.
Proof. intros. by apply parses_be_s; [lia|]. Qed.
Lemma parses_i16 v : in_s 16 v -> parses read_i16 (write_i16 v) v.
Proof. intros. by apply parses_be_s; [lia|]. Qed.
Lemma parses_i32 v : in_s 32 v -> parses read_i32 (write_i32 v) v.
Proof. intros. by apply parses_be_s; [lia|]. Qed.
Lemma parses_i64 v : in_s 64 v -> parses read_i64 (write_i64 v) v.
Proof. intros. by apply parses_be_s; [lia|]. Qed.

Lemma parses_bool b : parses read_bool (write_bool b) b.
Proof.
  eapply parses_bind_nil; [apply parses_be_u|].
  - unfold in_u. by destruct b.
  - intros rest. by destruct b.
Qed.

Definition str_ok (bound : Z) (s : option bytes) : Prop :=
  match s with Some s => len s <= bound /\ utf8_valid s = true | None => True end.

Lemma parses_string s : str_ok 32767 s -> parses read_string (write_string s) s.
Proof.
  intros Hs. destruct s as [s|]; cbn [write_string].
  - destruct Hs as [Hl Hu]. pose proof (len_nonneg s).
    assert (as_i16 (len s) = len s) as -> by (apply wrap_s_id; unfold in_s; lia).
    eapply parses_bind; [apply parses_i16; unfold in_s; lia|]. cbn beta.
    destruct (Z.ltb_spec (len s) 0); [lia|]. cbv zeta.
    rewrite wrap_u_id by (unfold in_u; lia).
    eapply parses_bind_nil; [by apply parses_take|].
    eapply parses_bind_nil; [apply parses_alloc; unfold isize_max; lia|].
    eapply parses_bind_nil; [by apply parses_utf8|]. apply parses_ret.
  - eapply parses_bind_nil; [apply parses_i16; unfold in_s; lia|]. apply parses_ret.
Qed.

Lemma parses_bytes_opt b :
  match b with Some b => len b < 2 ^ 31 | None => True end ->
  parses read_bytes (write_bytes b) b.
Proof.
  intros Hb. destruct b as [b|]; cbn [write_bytes].
  - pose proof (len_nonneg b).
    assert (as_i32 (len b) = len b) as -> by (apply wrap_s_id; unfold in_s; lia).
    eapply parses_bind; [apply parses_i32; unfold in_s; lia|]. cbn beta.
    destruct (Z.ltb_spec (len b) 0); [lia|].
    rewrite wrap_u_id by (unfold in_u; lia).
    eapply parses_bind_nil; [by apply parses_take|]. apply parses_ret.
  - eapply parses_bind_nil; [apply parses_i32; unfold in_s; lia|]. apply parses_ret.
Qed.

Lemma parses_compact_len n :
  -1 <= n < 2 ^ 31 - 1 -> parses compact_len (write_unsigned_varint (as_u32 (n + 1))) n.
Proof.
  intros Hn. rewrite wrap_u_id by (unfold in_u; lia).
  eapply parses_bind_nil; [apply parses_unsigned_varint; unfold in_u; lia|].
  intros rest. cbn. unfold mret, rd_ret.
  rewrite (wrap_s_id 32 (n + 1)) by (unfold in_s; lia).
  rewrite wrap_s_id by (unfold in_s; lia). do 2 f_equal. lia.
Qed.

Lemma parses_compact_string s :
  str_ok (2 ^ 31 - 2) s -> parses read_compact_string (write_compact_string s) s.
Proof.
  intros Hs. destruct s as [s|]; cbn [write_compact_string].
  - destruct Hs as [Hl Hu]. pose proof (len_nonneg s).
    eapply parses_bind; [apply parses_compact_len; lia|]. cbn beta.
    destruct (Z.ltb_spec (len s) 0); [lia|]. cbv zeta.
    rewrite wrap_u_id by (unfold in_u; lia).
    eapply parses_bind_nil; [by apply parses_take|].
    eapply parses_bind_nil; [apply parses_alloc; unfold isize_max; lia|].
    eapply parses_bind_nil; [by apply parses_utf8|]. apply parses_ret.
  - eapply parses_bind_nil; [apply (parses_compact_len (-1)); lia|]. apply parses_ret.
Qed.

Lemma parses_compact_bytes b :
  match b with Some b => len b < 2 ^ 31 - 1 | None => True end ->
  parses read_compact_bytes (write_compact_bytes b) b.
Proof.
  intros Hb. destruct b as [b|]; cbn [write_compact_bytes].
  - pose proof (len_nonneg b).
    eapply parses_bind; [apply parses_compact_len; lia|]. cbn beta.
    destruct (Z.ltb_spec (len b) 0); [lia|].
    rewrite wrap_u_id by (unfold in_u; lia).
    eapply parses_bind_nil; [by apply parses_take|]. apply parses_ret.
  - eapply parses_bind_nil; [apply (parses_compact_len (-1)); lia|]. apply parses_ret.
Qed.

(** ** The decoder never panics *)

Lemma safe_i8 : safe (in_s 8) read_i8.
Proof. apply safe_be_s. lia. Qed.
Lemma safe_i16 : safe (in_s 16) read_i16.
Proof. apply safe_be_s. lia. Qed.
Lemma safe_i32 : safe (in_s 32) read_i32.
Proof. apply safe_be_s. lia. Qed.
Lemma safe_i64 : safe (in_s 64) read_i64.
Proof. apply safe_be_s. lia. Qed.
Lemma safe_unsigned_varint : safe (in_u 32) read_unsigned_varint.
Proof. apply varint_loop_safe; [lia|]. unfold in_u. lia. Qed.
Lemma safe_compact_len : safe (in_s 32) compact_len.
Proof.
  eapply safe_bind; [apply safe_unsigned_varint|]. intros. apply safe_ret, wrap_s_range. lia.
Qed.

#[local] Hint Resolve safe_i8 safe_i16 safe_i32 safe_i64 safe_unsigned_varint
  safe_compact_len safe_utf8 : safe.

Lemma safe_alloc1 w n : in_s w n -> 0 < w <= 32 -> 0 <= n ->
  safe (fun _ => True) (rd_alloc 1 (as_usize n)).
Proof.
  intros [_ H] Hw Hn. assert (2 ^ (w - 1) <= 2 ^ 31) by (apply Z.pow_le_mono_r; lia).
  apply safe_alloc. rewrite wrap_u_id by (unfold in_u; lia). unfold isize_max. lia.
Qed.

Lemma safe_string : safe (fun _ => True) read_string.
Proof.
  eapply safe_bind; [apply safe_i16|]. intros n Hn.
  destruct (Z.ltb_spec n 0); [by apply safe_ret|]. cbv zeta.
  eapply safe_bind; [apply safe_take|]. intros bs _.
  eapply safe_bind; [by apply (safe_alloc1 16)|]. intros _ _. safe_auto.
Qed.

Lemma safe_compact_string : safe (fun _ => True) read_compact_string.
Proof.
  eapply safe_bind; [apply safe_compact_len|]. intros n Hn.
  destruct (Z.ltb_spec n 0); [by apply safe_ret|]. cbv zeta.
  eapply safe_bind; [apply safe_take|]. intros bs _.
  eapply safe_bind; [by apply (safe_alloc1 32)|]. intros _ _. safe_auto.
Qed.

Lemma safe_bytes : safe (fun _ => True) read_bytes.
Proof. unfold read_bytes. safe_auto. Qed.
Lemma safe_compact_bytes : safe (fun _ => True) read_compact_bytes.
Proof. unfold read_compact_bytes. safe_auto. Qed.
Lemma safe_tagged_field : safe (fun _ => True) skip_tagged_field.
Proof. unfold skip_tagged_field. safe_auto. Qed.
Lemma safe_tagged_fields : safe (fun _ => True) skip_tagged_fields.
Proof.
  unfold skip_tagged_fields. eapply safe_bind; [apply safe_unsigned_varint|]. intros.
  eapply safe_bind; [apply safe_repeat, safe_tagged_field|]. by intros; apply safe_ret.
Qed.

End Codec.

#[export] Hint Resolve Codec.safe_i8 Codec.safe_i16 Codec.safe_i32 Codec.safe_i64
  Codec.safe_unsigned_varint Codec.safe_compact_len Codec.safe_string
  Codec.safe_compact_string Codec.safe_bytes Codec.safe_compact_bytes
  Codec.safe_tagged_fields safe_utf8 : safe.

(** * Request and response headers *)
Module Header.
Import Api Codec.

(** [struct RequestHeader], [struct PartialRequestHeader], [struct ResponseHeader]. *)
Record RequestHeader : Type := mkRequestHeader {
  api_key : ApiKey;
  api_version : Z;
  correlation_id : Z;
  client_id : option bytes }.

Record PartialRequestHeader : Type := mkPartialRequestHeader {
  p_api_key_raw : Z;
  p_api_version : Z;
  p_correlation_id : Z;
  p_client_id : option bytes }.

Record ResponseHeader : Type := mkResponseHeader { rh_correlation_id : Z }.

(** ApiVersions never has a flexible request header. *)
Definition header_flexible (api_key_raw api_version : Z) : bool :=
  match from_i16 api_key_raw with
  | Some api_key =>
      if decide (api_key = ApiVersions) then false
      else is_flexible_version api_key api_version
  | None => false
  end.

(** The client id of a flexible header: the first byte decides between the
    INT16-length string of the Java client and the compact string of
    librdkafka. *)
Definition read_flexible_client_id : rd (option bytes) :=
  buf ← rd_peek;
  match buf with
  | first_byte :: _ :: _ =>
      if first_byte =? 0 then read_string else read_compact_string
  | _ => read_compact_string
  end.

Definition skip_header_tagged_field : rd unit :=
  _ ← read_unsigned_varint;
  tag_size ← read_unsigned_varint;
  if 1000000 <? tag_size then rd_err (EProtocol "Tagged field has unreasonable size")
  else advance tag_size.

(** [parse_request_header_with_correlation]. *)
Definition parse_request_header_with_correlation
    : rd (RequestHeader * option PartialRequestHeader) :=
  api_key_raw ← read_i16;
  api_version ← read_i16;
  correlation_id ← read_i32;
  let flexible := header_flexible api_key_raw api_version in
  client_id ← (if flexible then read_flexible_client_id else read_string);
  _ ← (if flexible then
         tagged_field_count ← read_unsigned_varint;
         _ ← rd_repeat (Z.to_nat tagged_field_count) skip_header_tagged_field;
         mret tt
       else mret tt);
  match from_i16 api_key_raw with
  | Some api_key =>
      mret (mkRequestHeader api_key api_version correlation_id client_id,
            Some (mkPartialRequestHeader api_key_raw api_version correlation_id client_id))
  | None => rd_err (EProtocolWithCorrelation "Unknown API key" correlation_id)
  end.

(** [parse_request_header]. *)
Definition parse_request_header : rd RequestHeader :=
  p ← parse_request_header_with_correlation; mret p.1.

(** [write_response_header], [write_response_header_flexible]. *)
Definition write_response_header (header : ResponseHeader) : bytes :=
  write_i32 (rh_correlation_id header).

Definition write_response_header_flexible (header : ResponseHeader) (k : ApiKey)
    (version : Z) (throttle_time_ms : option Z) : bytes :=
  write_i32 (rh_correlation_id header)
  ++ (match throttle_time_ms with Some t => write_i32 t | None => [] end)
  ++ (if is_flexible_version k version then write_unsigned_varint 0 else []).



(** ** What a client sends

    The two encodings of the client id met in the field, and the header bytes a
    client of each kind produces. *)
Inductive client_style : Type := IntLen | Compact.

Definition client_wire (st : client_style) (s : option bytes) : bytes :=
  match st with IntLen => write_string s | Compact => write_compact_string s end.

Definition header_wire (st : client_style) (h : RequestHeader) : bytes :=
  write_i16 (to_i16 (api_key h)) ++ write_i16 (api_version h)
  ++ write_i32 (correlation_id h)
  ++ (if header_flexible (to_i16 (api_key h)) (api_version h)
      then client_wire st (client_id h) ++ write_tagged_fields
      else write_string (client_id h)).

(** The client ids a header form can carry, null included. *)
Definition client_sent (flexible : bool) (st : client_style) (s : option bytes) : Prop :=
  match flexible, st with
  | true, Compact => str_ok (2 ^ 31 - 2) s
  | _, _ => str_ok 32767 s
  end.
Definition header_sent (st : client_style) (h : RequestHeader) : Prop :=
  in_s 16 (api_version h) /\ in_s 32 (correlation_id h)
  /\ client_sent (header_flexible (to_i16 (api_key h)) (api_version h)) st (client_id h).

(** The ones the detection by the first byte tells apart: in a flexible header not null, and below 256
    bytes in the INT16 style. *)
Definition client_detected (flexible : bool) (st : client_style) (s : option bytes) : bool :=
  match flexible, s with
  | false, _ => true
  | true, None => false
  | true, Some s => match st with IntLen => len s <? 256 | Compact => true end
  end.

(** ** Parsing what a client sends *)

Lemma uvarint_head_nonzero v : 0 < v < 2 ^ 32 ->
  exists b t, write_unsigned_varint v = b :: t /\ b <> 0.
Proof.
  intros Hv. rewrite write_unsigned_varint_eq by (unfold in_u; lia).
  rewrite uvarint_bytes_S. destruct (Z.ltb_spec v 128); [eexists _, _; split; [done|lia]|].
  eexists _, _. split; [done|]. rewrite cont_byte. pose proof (Z.mod_pos_bound v 128). lia.
Qed.

Lemma flexible_client_id_string buf b t :
  buf = 0 :: b :: t -> read_flexible_client_id buf = read_string buf.
Proof. by intros ->. Qed.

Lemma flexible_client_id_compact buf b t :
  buf = b :: t -> b <> 0 -> read_flexible_client_id buf = read_compact_string buf.
Proof.
  intros -> Hb. unfold read_flexible_client_id, mbind, rd_bind, rd_peek.
  destruct t; [done|]. by destruct (Z.eqb_spec b 0).
Qed.

Lemma parses_flexible_client_id st s rest :
  client_sent true st s -> client_detected true st s = true ->
  read_flexible_client_id (client_wire st s ++ write_tagged_fields ++ rest)
  = Ok (s, write_tagged_fields ++ rest).
Proof.
  intros Hok Hdet. destruct s as [s|]; [|done]. destruct st; cbn in Hok, Hdet; destruct Hok as [Hl Hu];
    cbn [client_wire]; pose proof (len_nonneg s).
  - erewrite flexible_client_id_string; [apply parses_string; split; [lia|done]|].
    cbn [write_string]. rewrite wrap_s_id by (unfold in_s; lia).
    unfold write_i16. change (be_bytes 2 (len s)) with [len s / 256 mod 256; len s mod 256].
    by rewrite (Z.div_small (len s) 256) by lia.
  - destruct (uvarint_head_nonzero (len s + 1)) as (b & t & E & Hb); [lia|].
    erewrite flexible_client_id_compact; [apply parses_compact_string; split; [lia|done]| |exact Hb].
    cbn [write_compact_string]. by rewrite wrap_u_id, E by (unfold in_u; lia).
Qed.

(** A compact string is never null when its length is positive, and has that length. *)
Lemma compact_string_len v t buf s rest : read_unsigned_varint buf = Ok (v, t) -> 0 < v < 2 ^ 31 ->
  read_compact_string buf = Ok (s, rest) -> exists x, s = Some x /\ len x = v - 1.
Proof.
  intros Hv Hr. unfold read_compact_string, compact_len, mbind, rd_bind. rewrite Hv. unfold mret, rd_ret.
  rewrite (wrap_s_id 32 v), (wrap_s_id 32 (v - 1)) by (unfold in_s; lia).
  destruct (Z.ltb_spec (v - 1) 0); [lia|]. rewrite (wrap_u_id 64 (v - 1)) by (unfold in_u; lia).
  unfold rd_take. destruct (Z.ltb_spec (len t) (v - 1)); [done|]. unfold rd_alloc, rd_lift, from_utf8.
  destruct (_ <? _); [done|]. destruct (utf8_valid _); [|done]. intros [= <- _].
  eexists. split; [done|]. unfold len in *. rewrite length_take. lia.
Qed.

(** The client ids the detection gets wrong are read as something else. *)
Lemma misread_client_id st s rest s' rest' :
  client_sent true st s -> client_detected true st s = false ->
  read_flexible_client_id (client_wire st s ++ write_tagged_fields ++ rest) = Ok (s', rest') -> s' <> s.
Proof.
  intros Hok Hdet Hr. destruct s as [s|]; destruct st; cbn in Hdet; try done.
  - destruct Hok as [Hl _]. apply Z.ltb_ge in Hdet. cbn [client_wire write_string] in Hr.
    rewrite wrap_s_id in Hr by (unfold in_s; lia). unfold write_i16 in Hr. change (be_bytes 2 (len s)) with [len s / 256 mod 256; len s mod 256] in Hr.
    assert (1 <= len s / 256 < 128) as Hq by (split; [apply Z.div_le_lower_bound|apply Z.div_lt_upper_bound]; lia).
    rewrite (Z.mod_small (len s / 256) 256) in Hr by lia.
    erewrite flexible_client_id_compact in Hr; [|reflexivity|lia]. set (t := _ ++ write_tagged_fields ++ rest) in Hr.
    destruct (compact_string_len (len s / 256) (len s mod 256 :: s ++ write_tagged_fields ++ rest) _ s' rest' (parses_unsigned_varint_small _ _ Hq) ltac:(lia) Hr)
      as (x & -> & Hx). intros [= ->]. pose proof (Z.mod_pos_bound (len s) 256). pose proof (Z.div_mod (len s) 256). lia.
  - erewrite flexible_client_id_compact in Hr; [|reflexivity|done].
    assert (read_unsigned_varint (client_wire IntLen None ++ write_tagged_fields ++ rest) = Ok (16383, rest)) as Hv by reflexivity.
    by destruct (compact_string_len 16383 rest _ s' rest' Hv ltac:(lia) Hr) as (x & -> & _).
  - erewrite flexible_client_id_string in Hr; [|reflexivity].
    change (client_wire Compact None ++ write_tagged_fields ++ rest) with (write_string (Some []) ++ rest) in Hr.
    rewrite parses_string in Hr by done. by injection Hr as <- _.
Qed.

Lemma parses_header st h :
  header_sent st h -> client_detected (header_flexible (to_i16 (api_key h)) (api_version h)) st (client_id h) = true ->
  parses parse_request_header (header_wire st h) h.
Proof.
  destruct h as [k v cid client]. unfold header_sent.
  cbn [api_key api_version correlation_id client_id].
  intros (Hv & Hc & Hcl) Hdet rest. unfold header_wire, parse_request_header,
    parse_request_header_with_correlation. cbn [api_key api_version correlation_id client_id].
  unfold mbind, rd_bind. rewrite <- !app_assoc.
  rewrite (parses_i16 _ (to_i16_range k)), (parses_i16 _ Hv), (parses_i32 _ Hc).
  destruct (header_flexible (to_i16 k) v).
  - rewrite <- app_assoc, parses_flexible_client_id by done.
    unfold write_tagged_fields. rewrite parses_unsigned_varint by (unfold in_u; lia).
    cbn. by rewrite from_to_i16.
  - rewrite parses_string by (by destruct st). cbn. by rewrite from_to_i16.
Qed.

(** A header whose client id the detection gets wrong comes back with another one, if at all. *)
Lemma misread_header st h body h' rest :
  header_sent st h -> client_detected (header_flexible (to_i16 (api_key h)) (api_version h)) st (client_id h) = false ->
  parse_request_header (header_wire st h ++ body) = Ok (h', rest) -> client_id h' <> client_id h.
Proof.
  destruct h as [k v cid client]. unfold header_sent. cbn [api_key api_version correlation_id client_id].
  intros (Hv & Hc & Hcl) Hdet. unfold header_wire, parse_request_header, parse_request_header_with_correlation.
  cbn [api_key api_version correlation_id client_id]. unfold mbind, rd_bind. rewrite <- !app_assoc.
  rewrite (parses_i16 _ (to_i16_range k)), (parses_i16 _ Hv), (parses_i32 _ Hc).
  destruct (header_flexible (to_i16 k) v); [|done]. rewrite <- app_assoc.
  destruct (read_flexible_client_id _) as [[s' r']| |] eqn:Er; [|done|done].
  destruct (read_unsigned_varint r') as [[n r'']| |]; [|done|done].
  destruct (rd_repeat _ _ r'') as [[u r3]| |]; [|done|done]. unfold mret, rd_ret. rewrite from_to_i16. intros [= <- _]. cbn [client_id fst].
  by eapply misread_client_id.
Qed.

Lemma safe_parse_request_header : safe (fun _ => True) parse_request_header.
Proof.
  eapply safe_bind with (Q := fun _ => True); [|intros; by apply safe_ret].
  unfold parse_request_header_with_correlation.
  do 3 (eapply safe_bind; [eauto with safe|intros ? ?]). cbv zeta.
  eapply safe_bind with (Q := fun _ => True).
  { destruct (header_flexible _ _); [|apply safe_string].
    eapply safe_bind; [apply safe_peek|]. intros buf _.
    destruct buf as [|? [|? ?]]; eauto with safe. apply safe_if; eauto with safe. }
  intros client _. eapply safe_bind with (Q := fun _ => True).
  { destruct (header_flexible _ _); [|by apply safe_ret].
    eapply safe_bind; [eauto with safe|intros ? ?].
    eapply safe_bind; [apply safe_repeat with (Q := fun _ => True)|intros; by apply safe_ret].
    unfold skip_header_tagged_field, advance. safe_auto. }
  intros _ _. destruct (from_i16 _); [by apply safe_ret|apply safe_err].
Qed.

End Header.

(** * Properties *)
Module WireProps.
Import Api Codec Header.

(** Every [u32] written by [write_unsigned_varint] is read back exactly by
    [read_unsigned_varint], whatever bytes follow, and takes between one and five
    bytes. *)
Theorem unsigned_varint_roundtrip (v : Z) (rest : bytes) :
  in_u 32 v ->
  read_unsigned_varint (write_unsigned_varint v ++ rest) = Ok (v, rest)
  /\ 1 <= len (write_unsigned_varint v) <= 5
  /\ Forall is_byte (write_unsigned_varint v).
Proof.
  intros Hv. split; [by apply parses_unsigned_varint|].
  rewrite write_unsigned_varint_eq by done. split.
  - pose proof (uvarint_bytes_length 4 v). unfold len. lia.
  - apply uvarint_bytes_byte. apply Hv.
Qed.

Lemma unsigned_varint_roundtrip_witness :
  read_unsigned_varint (write_unsigned_varint 16384 ++ [7]) = Ok (16384, [7]).
Proof. apply (unsigned_varint_roundtrip 16384 [7]). unfold in_u. lia. Defined.

(** A nullable string written by [write_string] (up to 32767 bytes) or by
    [write_compact_string] (up to 2^31 - 2 bytes) is read back exactly, null
    included. *)
Theorem string_roundtrip (s : option bytes) (rest : bytes) :
  (str_ok 32767 s -> read_string (write_string s ++ rest) = Ok (s, rest))
  /\ (str_ok (2 ^ 31 - 2) s ->
      read_compact_string (write_compact_string s ++ rest) = Ok (s, rest)).
Proof. split; intros H; [by apply parses_string|by apply parses_compact_string]. Qed.

Lemma string_roundtrip_witness :
  read_string (write_string (Some (bytes_of_string "orders")) ++ [1; 2])
  = Ok (Some (bytes_of_string "orders"), [1; 2])
  /\ read_compact_string (write_compact_string None ++ [1; 2]) = Ok (None, [1; 2]).
Proof.
  split.
  - apply (proj1 (string_roundtrip (Some (bytes_of_string "orders")) [1; 2])).
    split; [vm_compute; congruence|reflexivity].
  - apply (proj2 (string_roundtrip None [1; 2])). exact I.
Defined.

(** [C21] A request header of any API and version, with any client id the wire form can carry, null
    included: it is recovered, and the body after it, when the header is not flexible, or when it is
    flexible and the client id is not null and, in the INT16 style, shorter than 256 bytes.  In
    the remaining cases no parse returns the client id that was sent. *)
Theorem request_header_roundtrip (st : client_style) (h : RequestHeader) (body : bytes) :
  header_sent st h ->
  if client_detected (header_flexible (to_i16 (api_key h)) (api_version h)) st (client_id h)
  then parse_request_header (header_wire st h ++ body) = Ok (h, body)
  else forall h' rest, parse_request_header (header_wire st h ++ body) = Ok (h', rest) -> client_id h' <> client_id h.
Proof.
  intros H. destruct (client_detected _ _ _) eqn:E; [by apply parses_header|]. intros h' rest. by apply misread_header.
Qed.

Definition sample_header : RequestHeader :=
  mkRequestHeader Produce 9 77 (Some (bytes_of_string "rdkafka")).

Lemma request_header_roundtrip_witness :
  parse_request_header (header_wire Compact sample_header ++ [5]) = Ok (sample_header, [5]).
Proof.
  apply (request_header_roundtrip Compact sample_header [5]).
  vm_compute. repeat split; congruence.
Defined.

(** [C34] Parsing a request header never panics: every byte sequence yields a
    header or an error. *)
Theorem parse_request_header_total (bs : bytes) : parse_request_header bs <> Panic.
Proof. eapply safe_no_panic, safe_parse_request_header. Qed.

(** [C35] A request with an API key the broker does not know is answered with an
    error that carries the request's correlation id. *)
Theorem unknown_api_key_keeps_correlation (raw version cid : Z) (client : option bytes)
    (body : bytes) :
  in_s 16 raw -> from_i16 raw = None -> in_s 16 version -> in_s 32 cid ->
  str_ok 32767 client ->
  parse_request_header
    (write_i16 raw ++ write_i16 version ++ write_i32 cid ++ write_string client ++ body)
  = Err (EProtocolWithCorrelation "Unknown API key" cid).
Proof.
  intros Hr Hn Hv Hc Hs.
  unfold parse_request_header, parse_request_header_with_correlation, mbind, rd_bind.
  rewrite (parses_i16 _ Hr), (parses_i16 _ Hv), (parses_i32 _ Hc).
  unfold header_flexible. rewrite Hn. cbv zeta. by rewrite parses_string by done.
Qed.

Lemma unknown_api_key_witness :
  parse_request_header
    (write_i16 999 ++ write_i16 0 ++ write_i32 67890 ++ write_string None ++ [])
  = Err (EProtocolWithCorrelation "Unknown API key" 67890).
Proof.
  apply (unknown_api_key_keeps_correlation 999 0 67890 None []);
    first [reflexivity | unfold in_s; lia | exact I].
Defined.

(** A flexible request header whose client id is null in the INT16 form of
    the Kafka header schema (length -1) is rejected: its first byte is taken for
    a compact string of 16382 bytes.  The parse fails whatever the API, unless
    the body happens to be that long. *)
Theorem flexible_null_client_id_rejected (k : ApiKey) (version cid : Z) (body : bytes) :
  k <> ApiVersions -> is_flexible_version k version = true ->
  in_s 16 version -> in_s 32 cid -> len body < 16382 ->
  parse_request_header
    (write_i16 (to_i16 k) ++ write_i16 version ++ write_i32 cid
     ++ write_string None ++ write_tagged_fields ++ body)
  = Err (EProtocol "Not enough bytes for compact string").
Proof.
  intros Hk Hf Hv Hc Hb.
  unfold parse_request_header, parse_request_header_with_correlation, mbind, rd_bind.
  rewrite (parses_i16 _ (to_i16_range k)), (parses_i16 _ Hv), (parses_i32 _ Hc).
  unfold header_flexible. rewrite from_to_i16, decide_False, Hf by done.
  erewrite flexible_client_id_compact; [|reflexivity|done].
  change (write_string None ++ write_tagged_fields ++ body) with ([255; 255; 0] ++ body).
  unfold read_compact_string, compact_len, mbind, rd_bind.
  change (read_unsigned_varint ([255; 255; 0] ++ body)) with
    (Ok (16383, body) : res (Z * bytes)).
  cbn -[Z.ltb]. change (as_usize (as_i32 (as_i32 16383 - 1))) with 16382.
  change (as_i32 (as_i32 16383 - 1) <? 0) with false. cbv iota beta. unfold rd_take.
  destruct (Z.ltb_spec (len body) 16382); [done|lia].
Qed.

Lemma flexible_null_client_id_witness :
  parse_request_header
    (write_i16 (to_i16 Metadata) ++ write_i16 9 ++ write_i32 1
     ++ write_string None ++ write_tagged_fields ++ [0; 0])
  = Err (EProtocol "Not enough bytes for compact string").
Proof.
  apply (flexible_null_client_id_rejected Metadata 9 1 [0; 0]);
    first [discriminate | reflexivity | unfold in_s; lia].
Defined.





End WireProps.
