(* ===== verification/Frame.v ===== *)
(** Length-prefixed framing of the Kafka connection
    (crates/chronik-protocol/src/frame.rs): the [KafkaFrameCodec] that splits the
    byte stream of a connection into frames, and the correlation id peeked from a
    request frame. *)
From stdpp Require Import base list numbers strings.
From Stdlib Require Import ZArith Lia.
From S2P Require Import Prelude.
Local Open Scope Z_scope.

Definition MAX_FRAME_SIZE : Z := 100 * 1024 * 1024.
Definition MIN_FRAME_SIZE : Z := 6.

(** [struct KafkaFrameCodec]. *)
Record KafkaFrameCodec : Type := mkKafkaFrameCodec { max_frame_size : Z }.

Definition codec_new : KafkaFrameCodec := mkKafkaFrameCodec MAX_FRAME_SIZE.
Definition with_max_frame_size (n : Z) : KafkaFrameCodec := mkKafkaFrameCodec n.

Definition too_small {A} : res A := Err (EProtocol "Frame size is below minimum").
Definition too_large {A} : res A := Err (EProtocol "Frame size exceeds maximum").

(** [Decoder::decode]: the result and what is left in [src].  The length is an
    [i32] cast to [usize], so a negative length is a huge one. *)
Definition frame_decode (c : KafkaFrameCodec) (src : bytes) : res (option bytes) * bytes :=
  if len src <? 4 then (Ok None, src) else
  let length := as_usize (as_i32 (be_val (take 4 src))) in
  if length <? MIN_FRAME_SIZE then (too_small, src) else
  if max_frame_size c <? length then (too_large, src) else
  if len src <? 4 + length then (Ok None, src) else
  let src := drop 4 src in
  (Ok (Some (take (Z.to_nat length) src)), drop (Z.to_nat length) src).

(** [Encoder::encode]: the destination buffer after the call. *)
Definition frame_encode (c : KafkaFrameCodec) (item dst : bytes) : res bytes :=
  let length := len item in
  if length <? MIN_FRAME_SIZE then too_small else
  if max_frame_size c <? length then too_large else
  Ok (dst ++ be_bytes 4 (as_i32 length) ++ item).

(** [struct Frame] and its correlation id. *)
Record Frame : Type := mkFrame { data : bytes; frame_correlation_id : option Z }.

Definition frame_new (data : bytes) : Frame := mkFrame data None.
Definition frame_with_correlation_id (data : bytes) (cid : Z) : Frame := mkFrame data (Some cid).
Definition frame_size (f : Frame) : Z := len (data f).

Definition extract_correlation_id (f : Frame) : option Z * Frame :=
  match frame_correlation_id f with
  | Some _ => (frame_correlation_id f, f)
  | None =>
      if 8 <=? len (data f) then
        let cid := as_i32 (be_val (take 4 (drop 4 (data f)))) in
        (Some cid, mkFrame (data f) (Some cid))
      else (None, f)
  end.

(** ** The codec over a stream

    [Framed] calls [decode] until it asks for more data or errs: the frames read
    and the bytes kept for the next read. *)
Fixpoint decode_all (fuel : nat) (c : KafkaFrameCodec) (src : bytes)
    : list bytes * res unit * bytes :=
  match fuel with
  | O => ([], Err EFuel, src)
  | S fuel =>
      match frame_decode c src with
      | (Ok (Some f), rest) =>
          let '(fs, r, rest) := decode_all fuel c rest in (f :: fs, r, rest)
      | (Ok None, rest) => ([], Ok tt, rest)
      | (Err e, rest) => ([], Err e, rest)
      | (Panic, rest) => ([], Panic, rest)
      end
  end.

Definition frame_ok (c : KafkaFrameCodec) (f : bytes) : Prop :=
  MIN_FRAME_SIZE <= len f <= max_frame_size c.

(** A codec whose limit fits the [i32] length prefix, as the default does. *)
Definition codec_ok (c : KafkaFrameCodec) : Prop := max_frame_size c < 2 ^ 31.

Definition framed (f : bytes) : bytes := be_bytes 4 (len f) ++ f.

Section Codec.
Context (c : KafkaFrameCodec) (Hc : codec_ok c).

Lemma frame_encode_ok f dst : frame_ok c f -> frame_encode c f dst = Ok (dst ++ framed f).
Proof.
  intros [H1 H2]. unfold codec_ok in Hc. unfold frame_encode, framed.
  destruct (Z.ltb_spec (len f) MIN_FRAME_SIZE); [lia|].
  destruct (Z.ltb_spec (max_frame_size c) (len f)); [lia|].
  pose proof (len_nonneg f). rewrite wrap_s_id by (unfold in_s; lia). done.
Qed.

Lemma frame_length_prefix n rest : 0 <= n < 2 ^ 31 ->
  as_usize (as_i32 (be_val (take 4 (be_bytes 4 n ++ rest)))) = n.
Proof.
  intros Hn. rewrite take_app_length' by by rewrite length_be_bytes.
  rewrite be_val_be_bytes. change (256 ^ Z.of_nat 4) with (2 ^ 32).
  rewrite Z.mod_small, wrap_s_id, wrap_u_id by (unfold in_s, in_u; lia). done.
Qed.

(** A complete frame at the head of the buffer is split off exactly. *)
Lemma frame_decode_framed f rest :
  frame_ok c f -> frame_decode c (framed f ++ rest) = (Ok (Some f), rest).
Proof.
  intros [H1 H2]. unfold codec_ok in Hc. unfold MIN_FRAME_SIZE in *. unfold frame_decode, framed.
  pose proof (len_nonneg rest).
  rewrite <- app_assoc, frame_length_prefix by lia. rewrite !len_app, len_be_bytes.
  destruct (Z.ltb_spec (Z.of_nat 4 + (len f + len rest)) 4); [lia|].
  destruct (Z.ltb_spec (len f) MIN_FRAME_SIZE); [unfold MIN_FRAME_SIZE in *; lia|].
  destruct (Z.ltb_spec (max_frame_size c) (len f)); [lia|].
  destruct (Z.ltb_spec (Z.of_nat 4 + (len f + len rest)) (4 + len f)); [lia|].
  rewrite drop_app_length' by by rewrite length_be_bytes.
  unfold len. by rewrite Nat2Z.id, take_app_length, drop_app_length.
Qed.

(** A proper prefix of a frame is kept whole, waiting for the rest. *)
Lemma frame_decode_partial f k :
  frame_ok c f -> (k < length (framed f))%nat ->
  frame_decode c (take k (framed f)) = (Ok None, take k (framed f)).
Proof.
  intros [H1 H2] Hk. unfold codec_ok in Hc. unfold MIN_FRAME_SIZE in *. unfold frame_decode.
  assert (length (framed f) = 4 + length f)%nat as Hl
    by (unfold framed; rewrite length_app, length_be_bytes; done).
  assert (len (take k (framed f)) = Z.of_nat k) as -> by (unfold len; rewrite length_take; lia).
  destruct (Z.ltb_spec (Z.of_nat k) 4); [done|].
  assert (as_usize (as_i32 (be_val (take 4 (take k (framed f))))) = len f) as ->
    by (rewrite take_take, Nat.min_l by lia; apply frame_length_prefix; lia).
  destruct (Z.ltb_spec (len f) MIN_FRAME_SIZE); [unfold MIN_FRAME_SIZE in *; lia|].
  destruct (Z.ltb_spec (max_frame_size c) (len f)); [lia|].
  destruct (Z.ltb_spec (Z.of_nat k) (4 + len f)); [done|]. unfold len in *. lia.
Qed.

Lemma decode_all_frames fs tail fuel :
  Forall (frame_ok c) fs -> (length fs < fuel)%nat ->
  frame_decode c tail = (Ok None, tail) ->
  decode_all fuel c (concat (framed <$> fs) ++ tail) = (fs, Ok tt, tail).
Proof.
  intros Hfs. revert fuel. induction Hfs as [|f fs Hf _ IH]; intros fuel Hfuel Ht.
  - destruct fuel; [lia|]. cbn [fmap list_fmap concat app decode_all]. by rewrite Ht.
  - destruct fuel; [lia|]. cbn [decode_all fmap list_fmap concat].
    rewrite <- app_assoc, frame_decode_framed by done. rewrite IH; [done|cbn in Hfuel; lia|done].
Qed.

End Codec.

(** Each frame consumes at least ten bytes, so a bound of the buffer's length is
    never reached. *)
Lemma frame_decode_shrinks c src f rest :
  frame_decode c src = (Ok (Some f), rest) -> (length rest < length src)%nat.
Proof.
  unfold frame_decode, too_small, too_large. intros H.
  destruct (Z.ltb_spec (len src) 4) as [|H4]; [by simplify_eq|].
  cbv zeta in H. set (n := as_usize _) in *.
  destruct (n <? _); [by simplify_eq|]. destruct (_ <? n); [by simplify_eq|].
  destruct (_ <? 4 + n); [by simplify_eq|]. simplify_eq.
  rewrite !length_drop. unfold len in H4. lia.
Qed.

Lemma decode_all_fuel c fuel src :
  (length src < fuel)%nat -> (decode_all fuel c src).1.2 <> Err EFuel.
Proof.
  revert src. induction fuel as [|fuel IH]; intros src Hf; [lia|]. cbn [decode_all].
  destruct (frame_decode c src) as [[[f|]|e|] rest] eqn:E; cbn; try done.
  - apply frame_decode_shrinks in E. specialize (IH rest ltac:(lia)).
    by destruct (decode_all fuel c rest) as [[? ?] ?].
  - intros [= ->]. revert E. unfold frame_decode, too_small, too_large.
    repeat (case_match; try done).
Qed.

(** * Properties *)

(** [C22] A stream of encoded frames followed by an incomplete one is decoded to
    exactly those frames, in order, and the incomplete tail is kept for the next
    read; a bound of one more than the number of frames suffices. *)
Theorem frame_stream_roundtrip (c : KafkaFrameCodec) (fs : list bytes) (last : bytes) (k : nat) :
  codec_ok c -> Forall (frame_ok c) fs -> frame_ok c last -> (k < length (framed last))%nat ->
  exists stream,
    foldl (fun acc f => dst ← acc; frame_encode c f dst) (Ok []) fs = Ok stream
    /\ decode_all (S (length fs)) c (stream ++ take k (framed last))
       = (fs, Ok tt, take k (framed last)).
Proof.
  intros Hc Hfs Hl Hk. exists (concat (framed <$> fs)). split.
  - change (concat (framed <$> fs)) with ([] ++ concat (framed <$> fs)).
    generalize (@nil Z) as dst. induction Hfs as [|f fs Hf _ IH]; intros dst; cbn.
    + by rewrite app_nil_r.
    + rewrite frame_encode_ok by done. cbn. by rewrite IH, <- app_assoc.
  - apply decode_all_frames; try done; [lia|]. by apply frame_decode_partial.
Qed.

Lemma frame_stream_roundtrip_witness :
  exists stream,
    foldl (fun acc f => dst ← acc; frame_encode codec_new f dst) (Ok [])
      [[1; 2; 3; 4; 5; 6]; [9; 9; 9; 9; 9; 9; 9]] = Ok stream
    /\ decode_all 3 codec_new (stream ++ take 5 (framed [0; 0; 0; 0; 0; 7]))
       = ([[1; 2; 3; 4; 5; 6]; [9; 9; 9; 9; 9; 9; 9]], Ok tt,
          take 5 (framed [0; 0; 0; 0; 0; 7])).
Proof.
  refine (frame_stream_roundtrip codec_new [[1; 2; 3; 4; 5; 6]; [9; 9; 9; 9; 9; 9; 9]]
           [0; 0; 0; 0; 0; 7] 5 _ _ _ _).
  - reflexivity.
  - constructor; [|constructor; [|constructor]]; split; vm_compute; congruence.
  - split; vm_compute; congruence.
  - vm_compute. lia.
Defined.

(** [C33] What the frame decoder does is determined by the buffer, for a limit that fits the length
    prefix.  With [n] the signed big-endian length in the first four bytes: it asks for more exactly when
    the prefix or a frame of an allowed length is incomplete; it errs exactly when the length is below
    the minimum or above the limit, a negative length being too large; otherwise it yields the
    [n] bytes after the prefix and leaves exactly what follows.  Waiting and erring leave the buffer
    unchanged, and nothing panics. *)
Theorem frame_decode_sound (c : KafkaFrameCodec) (src : bytes) :
  codec_ok c ->
  let n := as_i32 (be_val (take 4 src)) in
  match frame_decode c src with
  | (Ok (Some f), rest) =>
      4 <= len src /\ MIN_FRAME_SIZE <= n <= max_frame_size c /\ len f = n /\ src = take 4 src ++ f ++ rest
  | (Ok None, rest) =>
      rest = src /\ (len src < 4 \/ (MIN_FRAME_SIZE <= n <= max_frame_size c /\ len src < 4 + n))
  | (Err e, rest) =>
      rest = src /\ 4 <= len src
      /\ ((0 <= n < MIN_FRAME_SIZE /\ e = EProtocol "Frame size is below minimum")
          \/ ((n < 0 \/ max_frame_size c < n) /\ e = EProtocol "Frame size exceeds maximum"))
  | (Panic, _) => False
  end.
Proof.
  intros Hc n. unfold codec_ok in Hc. unfold frame_decode, too_small, too_large.
  destruct (Z.ltb_spec (len src) 4) as [|H4]; [auto|]. fold n. cbv zeta.
  assert (in_s 32 n) as Hn by (apply wrap_s_range; lia). unfold in_s in Hn.
  assert (as_usize n = if n <? 0 then n + 2 ^ 64 else n) as En.
  { destruct (Z.ltb_spec n 0); [|apply wrap_u_id; unfold in_u; lia]. unfold wrap_u. rewrite <- (Z.mod_add n 1) by lia.
    rewrite Z.mod_small; lia. }
  unfold MIN_FRAME_SIZE in *. rewrite En. destruct (Z.ltb_spec n 0).
  - destruct (Z.ltb_spec (n + 2 ^ 64) 6); [lia|]. destruct (Z.ltb_spec (max_frame_size c) (n + 2 ^ 64)); [|lia]. auto 6.
  - destruct (Z.ltb_spec n 6); [auto 7|]. destruct (Z.ltb_spec (max_frame_size c) n); [auto 7|].
    destruct (Z.ltb_spec (len src) (4 + n)); [split; [done|lia]|]. split; [done|]. split; [lia|]. unfold len in *. split.
    + rewrite length_take, length_drop. lia.
    + by rewrite !take_drop.
Qed.

Lemma frame_decode_sound_witness :
  let src := [0; 0; 0; 6; 1; 2; 3; 4; 5; 6; 9] in
  match frame_decode codec_new src with
  | (Ok (Some f), rest) => len f = 6 /\ src = [0; 0; 0; 6] ++ f ++ rest
  | _ => False
  end.
Proof.
  intros src. pose proof (frame_decode_sound codec_new src) as H. change (frame_decode codec_new src) with
    (@Ok (option bytes) (Some [1; 2; 3; 4; 5; 6]), [9]) in *.
  destruct H as (_ & _ & Hl & Hs); [reflexivity|]. split; [exact Hl|exact Hs].
Defined.
