(* ===== verification/ProtoRecords.v ===== *)
(** The record batch of chronik-protocol (crates/chronik-protocol/src/records.rs
    and the codec ids of compression.rs): building a batch, encoding it and
    decoding it, with the panics of the decoder kept apart from its errors. *)
From stdpp Require Import base list numbers strings.
From Stdlib Require Import ZArith Lia.
From S2P Require Import Prelude Extern.
Local Open Scope Z_scope.

Definition MAGIC_V2 : Z := 2.

(** [enum CompressionType] with its codec ids. *)
Inductive CompressionType : Type := CNone | CGzip | CSnappy | CLz4 | CZstd.

Definition from_id (id : Z) : option CompressionType :=
  match id with
  | 0 => Some CNone
  | 1 => Some CGzip
  | 2 => Some CSnappy
  | 3 => Some CLz4
  | 4 => Some CZstd
  | _ => None
  end.

Definition codec_id (c : CompressionType) : Z :=
  match c with CNone => 0 | CGzip => 1 | CSnappy => 2 | CLz4 => 3 | CZstd => 4 end.

Definition is_compressed (c : CompressionType) : bool :=
  match c with CNone => false | _ => true end.

Inductive TimestampType : Type := CreateTime | LogAppendTime.

(** [struct RecordAttributes]. *)
Record RecordAttributes : Type := mkRecordAttributes {
  compression : CompressionType;
  timestamp_type : TimestampType;
  is_transactional : bool;
  is_control_batch : bool }.

Definition from_byte (attrs : Z) : RecordAttributes :=
  mkRecordAttributes
    (default CNone (from_id (Z.land attrs 7)))
    (if negb (Z.land attrs 8 =? 0) then LogAppendTime else CreateTime)
    (negb (Z.land attrs 16 =? 0))
    (negb (Z.land attrs 32 =? 0)).

Definition to_byte (a : RecordAttributes) : Z :=
  let attrs := codec_id (compression a) in
  let attrs := match timestamp_type a with LogAppendTime => Z.lor attrs 8 | _ => attrs end in
  let attrs := if is_transactional a then Z.lor attrs 16 else attrs in
  if is_control_batch a then Z.lor attrs 32 else attrs.

(** [struct RecordHeader], [struct Record], [struct RecordBatch]. *)
Record RecordHeader : Type := mkRecordHeader { h_key : bytes; h_value : option bytes }.

Record Record_ : Type := mkRecord {
  offset : Z;
  timestamp : Z;
  key : option bytes;
  value : option bytes;
  headers : list RecordHeader }.

Record RecordBatch : Type := mkRecordBatch {
  base_offset : Z;
  batch_length : Z;
  partition_leader_epoch : Z;
  magic : Z;
  crc : Z;
  attributes : RecordAttributes;
  last_offset_delta : Z;
  first_timestamp : Z;
  max_timestamp : Z;
  producer_id : Z;
  producer_epoch : Z;
  base_sequence : Z;
  records : list Record_ }.

(** [RecordBatch::new] at the clock reading [now]. *)
Definition batch_new (now base_offset producer_id producer_epoch : Z) : RecordBatch :=
  mkRecordBatch base_offset 0 (-1) MAGIC_V2 0
    (mkRecordAttributes CNone CreateTime false false)
    0 now now producer_id producer_epoch 0 [].

(** [RecordBatch::add_record] at the clock reading [now]. *)
Definition add_record (now : Z) (k v : option bytes) (hs : list RecordHeader)
    (b : RecordBatch) : RecordBatch :=
  let offset_delta := as_i32 (Z.of_nat (length (records b))) in
  mkRecordBatch (base_offset b) (batch_length b) (partition_leader_epoch b) (magic b)
    (crc b) (attributes b) offset_delta
    (match records b with [] => now | _ => first_timestamp b end)
    now (producer_id b) (producer_epoch b) (base_sequence b)
    (records b ++ [mkRecord (as_i64 (base_offset b + offset_delta)) now k v hs]).

(** [write_varint]: zig-zag, then seven bits per byte; at most nine continuation
    bytes for a [u64]. *)
Definition zigzag_encode (value : Z) : Z :=
  as_u64 (if value <? 0 then Z.lor (as_i64 (Z.shiftl (Z.lnot value) 1)) 1
          else as_i64 (Z.shiftl value 1)).

Fixpoint put_uvarint (fuel : nat) (val : Z) : bytes :=
  match fuel with
  | O => [as_u8 val]
  | S fuel =>
      if negb (Z.land val (as_u64 (Z.lnot 127)) =? 0) then
        Z.lor (as_u8 (Z.land val 127)) 128 :: put_uvarint fuel (Z.shiftr val 7)
      else [as_u8 val]
  end.

Definition write_varint (value : Z) : bytes := put_uvarint 9 (zigzag_encode value).

Definition zigzag_decode (result : Z) : Z :=
  if Z.land result 1 =? 0 then as_i64 (Z.shiftr result 1)
  else as_i64 (- as_i64 (Z.shiftr result 1) - 1).

Definition read_varint : rd Z :=
  result ← varint_loop 64 64 (EProtocol "Incomplete varint") (EProtocol "Varint too long") 0 0;
  mret (zigzag_decode result).

(** A nullable byte string: its length and content, or -1. *)
Definition write_nullable (b : option bytes) : bytes :=
  match b with
  | Some b => write_varint (len b) ++ b
  | None => write_varint (-1)
  end.

Definition encode_header (h : RecordHeader) : bytes :=
  write_varint (len (h_key h)) ++ h_key h ++ write_nullable (h_value h).

Definition record_body (r : Record_) (offset_delta base_timestamp : Z) : bytes :=
  be_bytes 1 0
  ++ write_varint (as_i64 (timestamp r - base_timestamp))
  ++ write_varint offset_delta
  ++ write_nullable (key r)
  ++ write_nullable (value r)
  ++ write_varint (Z.of_nat (length (headers r)))
  ++ concat (encode_header <$> headers r).

(** [encode_record]: the length is one byte, written over a placeholder once the
    record is complete. *)
Definition encode_record (r : Record_) (offset_delta base_timestamp : Z) : bytes :=
  let buf := be_bytes 1 0 ++ record_body r offset_delta base_timestamp in
  let record_length := len buf - 1 in
  splice 0 [as_u8 record_length] buf.

Fixpoint encode_records (rs : list Record_) (i base_timestamp : Z) : bytes :=
  match rs with
  | [] => []
  | r :: rs => encode_record r (as_i32 i) base_timestamp
               ++ encode_records rs (i + 1) base_timestamp
  end.

(** The header from the attributes on, then the records. *)
Definition crc_tail (b : RecordBatch) (record_count : Z) (records_data : bytes) : bytes :=
  be_bytes 2 (to_byte (attributes b))
  ++ be_bytes 4 (last_offset_delta b) ++ be_bytes 8 (first_timestamp b)
  ++ be_bytes 8 (max_timestamp b) ++ be_bytes 8 (producer_id b)
  ++ be_bytes 2 (producer_epoch b) ++ be_bytes 4 (base_sequence b)
  ++ be_bytes 4 record_count ++ records_data.

(** The bytes the CRC of this crate covers: the header from the partition leader
    epoch with the CRC field zeroed, then the records. *)
Definition crc_input (b : RecordBatch) (record_count : Z) (records_data : bytes) : bytes :=
  be_bytes 4 (partition_leader_epoch b) ++ be_bytes 1 (magic b) ++ be_bytes 4 0
  ++ crc_tail b record_count records_data.

Section WithLibraries.
Context `{!Crc32c, !BlockCodec}.

(** [CompressionHandler]: one function per codec; zstd is refused both ways. *)
Definition compress_gzip (d : bytes) : res bytes := compress AGzip d.
Definition decompress_gzip (d : bytes) : res bytes := decompress AGzip d.
Definition compress_snappy (d : bytes) : res bytes := compress ASnappy d.
Definition decompress_snappy (d : bytes) : res bytes := decompress ASnappy d.
Definition compress_lz4 (d : bytes) : res bytes := compress ALz4 d.
Definition decompress_lz4 (d : bytes) : res bytes := decompress ALz4 d.
Definition compress_zstd (d : bytes) : res bytes :=
  Err (EProtocol "Zstd compression not yet implemented").
Definition decompress_zstd (d : bytes) : res bytes :=
  Err (EProtocol "Zstd decompression not yet implemented").

Definition handler_compress (d : bytes) (codec : CompressionType) : res bytes :=
  match codec with
  | CNone => Ok d
  | CGzip => compress_gzip d
  | CSnappy => compress_snappy d
  | CLz4 => compress_lz4 d
  | CZstd => compress_zstd d
  end.

Definition handler_decompress (d : bytes) (codec : CompressionType) : res bytes :=
  match codec with
  | CNone => Ok d
  | CGzip => decompress_gzip d
  | CSnappy => decompress_snappy d
  | CLz4 => decompress_lz4 d
  | CZstd => decompress_zstd d
  end.

Definition compress_with (c : CompressionType) (d : bytes) : res bytes :=
  if is_compressed c then handler_compress d c else Ok d.
Definition decompress_with (c : CompressionType) (d : bytes) : res bytes :=
  if is_compressed c then handler_decompress d c else Ok d.

(** [RecordBatch::encode]: four bytes of padding, the header with a zero length
    and CRC, the records; then the length and the CRC are written over the
    placeholders and the padding is dropped. *)
Definition encode (b : RecordBatch) : res bytes :=
  let records_buf := encode_records (records b) 0 (first_timestamp b) in
  records_data ← compress_with (compression (attributes b)) records_buf;
  let buf :=
    be_bytes 4 0 ++ be_bytes 8 (base_offset b) ++ be_bytes 4 (batch_length b)
    ++ crc_input b (as_i32 (Z.of_nat (length (records b)))) records_data in
  let batch_length := as_i32 (len buf - 12) in
  let buf := splice 12 (be_bytes 4 batch_length) buf in
  let buf := splice 21 (be_bytes 4 0) buf in
  let crc := crc32c (drop 16 buf) in
  let buf := splice 21 (le_bytes 4 crc) buf in
  Ok (drop 4 buf).

(** [decode_record]: reads past the end of the buffer panic. *)
Definition read_nullable : rd (option bytes) :=
  n ← read_varint;
  if 0 <=? n then b ← rd_take Panic (as_usize n); mret (Some b) else mret None.

Definition decode_header : rd RecordHeader :=
  key_len ← read_varint;
  key_bytes ← rd_take Panic (as_usize key_len);
  key ← rd_lift (from_utf8 (EProtocol "Invalid header key") key_bytes);
  value ← read_nullable;
  mret (mkRecordHeader key value).

Definition decode_record (base_offset offset_delta base_timestamp : Z) : rd Record_ :=
  _ ← read_varint;
  _ ← rd_take Panic 1;
  timestamp_delta ← read_varint;
  _ ← read_varint;
  key ← read_nullable;
  value ← read_nullable;
  header_count ← read_varint;
  _ ← rd_alloc 56 (as_usize header_count);
  headers ← rd_repeat (Z.to_nat header_count) decode_header;
  mret (mkRecord (as_i64 (base_offset + offset_delta))
          (as_i64 (base_timestamp + timestamp_delta)) key value headers).

Fixpoint decode_records (n : nat) (i base_offset base_timestamp : Z) : rd (list Record_) :=
  match n with
  | O => mret []
  | S n =>
      r ← decode_record base_offset i base_timestamp;
      rs ← decode_records n (i + 1) base_offset base_timestamp;
      mret (r :: rs)
  end.

(** The fixed header, read field by field. *)
Definition decode_batch_header : rd (RecordBatch * Z) :=
  base_offset ← rd_be_s Panic 8;
  batch_length ← rd_be_s Panic 4;
  partition_leader_epoch ← rd_be_s Panic 4;
  magic ← rd_be_s Panic 1;
  if negb (magic =? MAGIC_V2) then rd_err (EProtocol "Unsupported magic byte") else
  stored_crc ← rd_le_u Panic 4;
  attrs ← rd_be_s Panic 2;
  last_offset_delta ← rd_be_s Panic 4;
  first_timestamp ← rd_be_s Panic 8;
  max_timestamp ← rd_be_s Panic 8;
  producer_id ← rd_be_s Panic 8;
  producer_epoch ← rd_be_s Panic 2;
  base_sequence ← rd_be_s Panic 4;
  record_count ← rd_be_s Panic 4;
  mret (mkRecordBatch base_offset batch_length partition_leader_epoch magic stored_crc
          (from_byte (as_i8 attrs)) last_offset_delta first_timestamp max_timestamp
          producer_id producer_epoch base_sequence [], record_count).

Definition with_records (b : RecordBatch) (rs : list Record_) : RecordBatch :=
  mkRecordBatch (base_offset b) (batch_length b) (partition_leader_epoch b) (magic b)
    (crc b) (attributes b) (last_offset_delta b) (first_timestamp b) (max_timestamp b)
    (producer_id b) (producer_epoch b) (base_sequence b) rs.

(** [RecordBatch::decode]. *)
Definition decode (data : bytes) : res RecordBatch :=
  if len data <? 61 then Err (EProtocol "Record batch too small") else
  '(h, record_count, data) ← decode_batch_header data;
  records_data ← decompress_with (compression (attributes h)) data;
  let calculated_crc := crc32c (crc_input h record_count data) in
  if negb (calculated_crc =? crc h) then Err (EProtocol "Record is corrupt") else
  '(_, _) ← rd_alloc 104 (as_usize record_count) [];
  '(rs, _) ← decode_records (Z.to_nat record_count) 0 (base_offset h) (first_timestamp h)
               records_data;
  Ok (with_records h rs).

End WithLibraries.

(** * Attributes *)

(** Each bit of the attribute byte is read back. *)
Lemma from_to_byte a : from_byte (to_byte a) = a.
Proof. by destruct a as [[] [] [] []]. Qed.

Lemma to_byte_range a : 0 <= to_byte a < 64.
Proof. destruct a as [[] [] [] []]; vm_compute; split; congruence. Qed.

(** * Varints *)

Lemma zigzag_encode_eq v : in_s 64 v -> zigzag_encode v = zigzag v.
Proof.
  intros Hv. pose proof (zigzag_range 64 v ltac:(lia) Hv) as Hz.
  unfold zigzag_encode, zigzag in *. destruct (Z.ltb_spec v 0).
  - assert (Z.shiftl (Z.lnot v) 1 = -2 * v - 2) as ->
      by (rewrite Z.shiftl_mul_pow2 by lia; unfold Z.lnot; lia).
    rewrite lor_1_even by (apply wrap_s_even; [lia|];
      replace (-2 * v - 2) with (2 * (- v - 1)) by lia; by rewrite Z.even_mul).
    unfold wrap_u. rewrite <- Z.add_mod_idemp_l by lia.
    fold (as_u64 (as_i64 (-2 * v - 2))). rewrite wrap_u_wrap_s by lia.
    unfold wrap_u. rewrite Z.add_mod_idemp_l by lia.
    replace (-2 * v - 2 + 1) with (-2 * v - 1) by lia. by apply Z.mod_small.
  - rewrite wrap_u_wrap_s, Z.shiftl_mul_pow2 by lia.
    rewrite wrap_u_id by (replace (v * 2 ^ 1) with (2 * v) by lia; done). lia.
Qed.

Lemma land_1 n : Z.land n 1 = n mod 2.
Proof. change 1 with (Z.ones 1). by rewrite Z.land_ones by lia. Qed.

Lemma zigzag_decode_eq n : in_u 64 n -> zigzag_decode n = unzigzag n.
Proof.
  intros Hn. unfold in_u in Hn. unfold zigzag_decode, unzigzag.
  rewrite land_1, Z.shiftr_div_pow2 by lia. change (2 ^ 1) with 2.
  assert (0 <= n / 2 < 2 ^ 63) by (split; [apply Z.div_pos; lia|apply Z.div_lt_upper_bound; lia]).
  rewrite (wrap_s_id 64 (n / 2)) by (unfold in_s; lia).
  rewrite Zmod_even. destruct (Z.even n); cbn; [done|].
  rewrite wrap_s_id by (unfold in_s; lia). done.
Qed.

Lemma put_uvarint_eq fuel v : in_u 64 v -> put_uvarint fuel v = uvarint_bytes fuel v.
Proof.
  revert v. induction fuel as [|fuel IH]; intros v Hv; cbn [put_uvarint]; [done|].
  rewrite uvarint_bytes_S, land_high_bits, land127_u8 by (done || lia).
  rewrite IH by (apply shiftr7_range; [lia|done]).
  unfold in_u in Hv. destruct (Z.ltb_spec v 128); cbn; [|done].
  f_equal. unfold wrap_u. apply Z.mod_small. lia.
Qed.

Lemma write_varint_eq v : in_s 64 v -> write_varint v = uvarint_bytes 9 (zigzag v).
Proof.
  intros Hv. unfold write_varint. rewrite zigzag_encode_eq by done.
  apply put_uvarint_eq, zigzag_range; [lia|done].
Qed.

Lemma proto_parses_varint v : in_s 64 v -> parses read_varint (write_varint v) v.
Proof.
  intros Hv. rewrite write_varint_eq by done.
  pose proof (zigzag_range 64 v ltac:(lia) Hv) as Hz.
  eapply parses_bind_nil; [apply varint_roundtrip; [intros; lia|lia|done|lia]|].
  intros rest. cbn. unfold mret, rd_ret. by rewrite zigzag_decode_eq, unzigzag_zigzag.
Qed.

(** The bound on the loop is enough: [put_uvarint] satisfies the loop's equation. *)
Lemma write_varint_loop v : in_u 64 v ->
  put_uvarint 9 v =
  if negb (Z.land v (as_u64 (Z.lnot 127)) =? 0)
  then Z.lor (as_u8 (Z.land v 127)) 128 :: put_uvarint 9 (Z.shiftr v 7)
  else [as_u8 v].
Proof.
  intros Hv. change (put_uvarint 9 v) with
    (if negb (Z.land v (as_u64 (Z.lnot 127)) =? 0)
     then Z.lor (as_u8 (Z.land v 127)) 128 :: put_uvarint 8 (Z.shiftr v 7)
     else [as_u8 v]).
  destruct (negb _); [|done]. f_equal.
  pose proof (shiftr7_range 64 v ltac:(lia) Hv).
  rewrite !put_uvarint_eq by done. symmetry. apply (uvarint_bytes_fuel 8).
  unfold in_u in Hv. rewrite Z.shiftr_div_pow2 by lia. split; [apply Z.div_pos; lia|].
  apply Z.div_lt_upper_bound; lia.
Qed.

(** * Records *)

Definition opt_ok (b : option bytes) : Prop :=
  match b with Some b => len b < 2 ^ 63 | None => True end.

Definition header_ok (h : RecordHeader) : Prop :=
  len (h_key h) < 2 ^ 63 /\ utf8_valid (h_key h) = true /\ opt_ok (h_value h).

Definition record_ok (base_timestamp : Z) (r : Record_) : Prop :=
  in_s 64 (timestamp r) /\ opt_ok (key r) /\ opt_ok (value r)
  /\ Forall header_ok (headers r) /\ 56 * Z.of_nat (length (headers r)) <= isize_max.

(** The length byte of the encoded record has its high bit clear. *)
Definition short_record (r : Record_) (offset_delta base_timestamp : Z) : Prop :=
  len (record_body r offset_delta base_timestamp) mod 256 < 128.

Lemma proto_parses_nullable b : opt_ok b -> parses read_nullable (write_nullable b) b.
Proof.
  intros Hb. destruct b as [b|]; cbn [write_nullable].
  - pose proof (len_nonneg b).
    eapply parses_bind; [apply proto_parses_varint; unfold in_s; cbn in Hb; lia|]. cbn beta.
    destruct (Z.leb_spec 0 (len b)); [|lia].
    rewrite wrap_u_id by (unfold in_u; cbn in Hb; lia).
    eapply parses_bind_nil; [by apply parses_take|apply parses_ret].
  - eapply parses_bind_nil; [apply proto_parses_varint; unfold in_s; lia|apply parses_ret].
Qed.

Lemma proto_parses_record_header h : header_ok h -> parses decode_header (encode_header h) h.
Proof.
  destruct h as [k v]. intros (Hk & Hu & Hv). unfold encode_header. cbn in *.
  pose proof (len_nonneg k).
  eapply parses_bind; [apply proto_parses_varint; unfold in_s; lia|]. cbn beta.
  rewrite wrap_u_id by (unfold in_u; lia).
  eapply parses_bind; [by apply parses_take|].
  eapply parses_bind_pure; [by apply parses_utf8|].
  eapply parses_bind_nil; [by apply proto_parses_nullable|apply parses_ret].
Qed.

Lemma encode_record_eq r d bt :
  encode_record r d bt = as_u8 (len (record_body r d bt)) :: record_body r d bt.
Proof.
  unfold encode_record. rewrite len_app, len_be_bytes.
  replace (Z.of_nat 1 + len (record_body r d bt) - 1) with (len (record_body r d bt)) by lia.
  done.
Qed.

Lemma proto_parses_record bo d d' bt r :
  in_s 64 d -> record_ok bt r -> short_record r d bt ->
  parses (decode_record bo d' bt) (encode_record r d bt)
    (mkRecord (as_i64 (bo + d')) (timestamp r) (key r) (value r) (headers r)).
Proof.
  destruct r as [o ts k v hs]. intros Hd (Hts & Hk & Hv & Hhs & Hn) Hs.
  cbn [offset timestamp key value headers] in *.
  rewrite encode_record_eq. unfold short_record in Hs.
  change (?a :: ?b) with ([a] ++ b). set (L := len _) in *.
  eapply parses_bind.
  { eapply (parses_bind_nil _ _ _ (as_u8 L)).
    - intros rest. cbn [app]. rewrite varint_loop_last; [by rewrite Z.mul_1_r, Z.add_0_l|lia|lia| |].
      + pose proof (wrap_u_range 8 L ltac:(lia)) as [? ?]. lia.
      + exact Hs.
    - apply parses_ret. }
  unfold record_body. cbn [offset timestamp key value headers].
  eapply parses_bind; [by apply parses_take|].
  eapply parses_bind; [apply proto_parses_varint, wrap_s_range; lia|].
  eapply parses_bind; [by apply proto_parses_varint|].
  eapply parses_bind; [by apply proto_parses_nullable|].
  eapply parses_bind; [by apply proto_parses_nullable|].
  assert (0 <= Z.of_nat (length hs) < 2 ^ 63) by (unfold isize_max in Hn; lia).
  eapply parses_bind; [apply proto_parses_varint; unfold in_s; lia|].
  rewrite wrap_u_id by (unfold in_u; lia).
  eapply parses_bind_pure; [by apply parses_alloc|].
  eapply parses_bind_nil.
  { apply parses_repeat; [by rewrite Nat2Z.id|].
    eapply Forall_impl; [exact Hhs|]. intros h Hh. by apply proto_parses_record_header. }
  rewrite wrap_s_add_wrap by lia. replace (bt + (ts - bt)) with ts by lia.
  rewrite (wrap_s_id 64 ts) by (lia || done). apply parses_ret.
Qed.

(** The records of a batch, at consecutive deltas. *)
Fixpoint renumber (rs : list Record_) (i bo : Z) : list Record_ :=
  match rs with
  | [] => []
  | r :: rs => mkRecord (as_i64 (bo + i)) (timestamp r) (key r) (value r) (headers r)
               :: renumber rs (i + 1) bo
  end.

Fixpoint records_ok (rs : list Record_) (i bt : Z) : Prop :=
  match rs with
  | [] => True
  | r :: rs => record_ok bt r /\ short_record r i bt /\ records_ok rs (i + 1) bt
  end.

Lemma parses_records bo bt rs : forall i,
  0 <= i -> i + Z.of_nat (length rs) < 2 ^ 31 -> records_ok rs i bt ->
  parses (decode_records (length rs) i bo bt) (encode_records rs i bt) (renumber rs i bo).
Proof.
  induction rs as [|r rs IH]; intros i Hi Hl Hok; cbn [length encode_records decode_records].
  - apply parses_ret.
  - destruct Hok as (Hr & Hs & Hrs). cbn in Hl.
    rewrite (wrap_s_id 32 i) by (unfold in_s; lia).
    eapply parses_bind; [apply proto_parses_record; [unfold in_s; lia|done|done]|].
    eapply parses_bind_nil; [apply IH; [lia|lia|done]|apply parses_ret].
Qed.

(** * Batches *)
Section Batch.
Context `{!Crc32c, !BlockCodec}.

Definition fields_ok (b : RecordBatch) : Prop :=
  in_s 64 (base_offset b) /\ in_s 32 (partition_leader_epoch b) /\ magic b = MAGIC_V2
  /\ in_s 32 (last_offset_delta b) /\ in_s 64 (first_timestamp b)
  /\ in_s 64 (max_timestamp b) /\ in_s 64 (producer_id b) /\ in_s 16 (producer_epoch b)
  /\ in_s 32 (base_sequence b).

Definition batch_ok (b : RecordBatch) : Prop :=
  fields_ok b /\ Z.of_nat (length (records b)) < 2 ^ 31
  /\ records_ok (records b) 0 (first_timestamp b).

(** The encoded form of a header, a record count and the record bytes, with its
    placeholders filled. *)
Definition wire (b : RecordBatch) (n : Z) (z : bytes) : bytes :=
  be_bytes 8 (base_offset b)
  ++ be_bytes 4 (as_i32 (53 + len z))
  ++ be_bytes 4 (partition_leader_epoch b) ++ be_bytes 1 (magic b)
  ++ le_bytes 4 (crc32c (crc_input b n z))
  ++ crc_tail b n z.

Lemma len_crc_tail b n z : len (crc_tail b n z) = 40 + len z.
Proof. unfold crc_tail. rewrite !len_app, !len_be_bytes. lia. Qed.

Lemma len_wire b n z : len (wire b n z) = 61 + len z.
Proof.
  unfold wire. rewrite !len_app, !len_be_bytes, len_le_bytes, len_crc_tail. lia.
Qed.

Lemma proto_encode_wire b z :
  Z.of_nat (length (records b)) < 2 ^ 31 ->
  compress_with (compression (attributes b))
    (encode_records (records b) 0 (first_timestamp b)) = Ok z ->
  encode b = Ok (wire b (Z.of_nat (length (records b))) z).
Proof.
  intros Hn Hz. unfold encode, wire. rewrite Hz. cbn [mbind res_bind]. cbv zeta.
  rewrite (wrap_s_id 32 (Z.of_nat (length (records b)))) by (unfold in_s; lia).
  set (n := Z.of_nat _). unfold crc_input.
  rewrite !len_app, !len_be_bytes, len_crc_tail.
  replace (Z.of_nat 4 + (Z.of_nat 8 + (Z.of_nat 4 + (Z.of_nat 4 + (Z.of_nat 1 +
    (Z.of_nat 4 + (40 + len z)))))) - 12) with (53 + len z) by lia.
  rewrite (app_assoc (be_bytes 4 0)), splice_app
    by (rewrite ?length_app, ?length_be_bytes; done).
  set (hd := (be_bytes 4 0 ++ be_bytes 8 (base_offset b)) ++ be_bytes 4 (as_i32 (53 + len z))
             ++ be_bytes 4 (partition_leader_epoch b) ++ be_bytes 1 (magic b)).
  assert (forall x, (be_bytes 4 0 ++ be_bytes 8 (base_offset b))
    ++ be_bytes 4 (as_i32 (53 + len z)) ++ be_bytes 4 (partition_leader_epoch b)
    ++ be_bytes 1 (magic b) ++ x = hd ++ x) as Hhd by (intros; unfold hd; by rewrite <- !app_assoc).
  assert (length hd = 21%nat) as Hl
    by (unfold hd; rewrite !length_app, !length_be_bytes; done).
  rewrite Hhd, splice_app by (rewrite ?length_be_bytes; done).
  rewrite (splice_app 21 (le_bytes 4 _)) by (rewrite ?length_be_bytes, ?length_le_bytes; done).
  unfold hd. rewrite <- !app_assoc.
  rewrite drop_app_length' by by rewrite length_be_bytes.
  rewrite (app_assoc (be_bytes 4 0)), (app_assoc (_ ++ _) (be_bytes 4 (as_i32 _))).
  rewrite drop_app_length' by by rewrite !length_app, !length_be_bytes. done.
Qed.

(** What decoding yields: the length and checksum filled in, and the records. *)
Definition decoded (b : RecordBatch) (n : Z) (z : bytes) (rs : list Record_) : RecordBatch :=
  mkRecordBatch (base_offset b) (as_i32 (53 + len z)) (partition_leader_epoch b) (magic b)
    (crc32c (crc_input b n z)) (attributes b)
    (last_offset_delta b) (first_timestamp b) (max_timestamp b) (producer_id b)
    (producer_epoch b) (base_sequence b) rs.

Lemma decode_header_wire b n z :
  fields_ok b -> in_s 32 n ->
  decode_batch_header (wire b n z) = Ok ((decoded b n z [], n), z).
Proof.
  intros (H1 & H2 & H3 & H4 & H5 & H6 & H7 & H8 & H9) Hn.
  unfold wire, decode_batch_header, crc_tail, mbind, rd_bind. cbv zeta.
  rewrite H3. rewrite <- ?app_assoc.
  rewrite (parses_be_s _ 8) by (lia || done).
  rewrite (parses_be_s _ 4) by (lia || (apply wrap_s_range; lia)).
  rewrite (parses_be_s _ 4) by (lia || done).
  rewrite (parses_be_s _ 1) by (lia || (unfold in_s, MAGIC_V2; lia)).
  change (negb (MAGIC_V2 =? MAGIC_V2)) with false. cbv iota beta.
  rewrite (parses_le_u _ 4) by apply crc32c_u32.
  pose proof (to_byte_range (attributes b)).
  rewrite (parses_be_s _ 2) by (lia || (unfold in_s; lia)).
  rewrite (parses_be_s _ 4), (parses_be_s _ 8), (parses_be_s _ 8), (parses_be_s _ 8),
    (parses_be_s _ 2), (parses_be_s _ 4), (parses_be_s _ 4) by (lia || done).
  rewrite (wrap_s_id 8), from_to_byte by (unfold in_s; lia).
  unfold decoded. cbn. by rewrite H3.
Qed.

(** Decoding a well-formed header comes down to decoding the records. *)
Lemma proto_decode_wire b n z d :
  fields_ok b -> in_s 32 n ->
  decompress_with (compression (attributes b)) z = Ok d ->
  decode (wire b n z) =
  ('(_, _) ← rd_alloc 104 (as_usize n) [];
   '(rs, _) ← decode_records (Z.to_nat n) 0 (base_offset b) (first_timestamp b) d;
   Ok (decoded b n z rs)).
Proof.
  intros Hok Hn Hd. unfold decode. rewrite len_wire. pose proof (len_nonneg z).
  destruct (Z.ltb_spec (61 + len z) 61); [lia|].
  rewrite decode_header_wire by done. cbn [mbind res_bind decoded attributes].
  rewrite Hd. cbn [mbind res_bind].
  assert (crc_input (decoded b n z []) n z = crc_input b n z) as Hci by done.
  fold (decoded b n z []). rewrite Hci. cbn [decoded crc]. by rewrite Z.eqb_refl.
Qed.

Lemma decompress_compress_with c d z :
  compress_with c d = Ok z -> decompress_with c z = Ok d.
Proof.
  destruct c; cbn; first [apply decompress_compress | unfold compress_zstd; congruence].
Qed.

Lemma alloc_count n : 0 <= n < 2 ^ 31 -> rd_alloc 104 (as_usize n) [] = Ok (tt, []).
Proof.
  intros Hn. rewrite wrap_u_id by (unfold in_u; lia).
  apply (parses_whole _ [] tt), parses_alloc. unfold isize_max. lia.
Qed.

End Batch.

(** Batches built by [new] and [add_record] number their records consecutively. *)
Inductive built (bo pid pe : Z) : RecordBatch -> Prop :=
| built_new now : built bo pid pe (batch_new now bo pid pe)
| built_add now k v hs b :
    built bo pid pe b -> built bo pid pe (add_record now k v hs b).

Lemma renumber_app rs r i bo :
  renumber (rs ++ [r]) i bo =
  renumber rs i bo ++ [mkRecord (as_i64 (bo + (i + Z.of_nat (length rs)))) (timestamp r)
                         (key r) (value r) (headers r)].
Proof.
  revert i. induction rs as [|r' rs IH]; intros i; cbn.
  - by rewrite Z.add_0_r.
  - rewrite IH. do 5 f_equal. lia.
Qed.

Lemma built_renumber bo pid pe b :
  built bo pid pe b -> Z.of_nat (length (records b)) < 2 ^ 31 ->
  renumber (records b) 0 bo = records b /\ base_offset b = bo.
Proof.
  induction 1 as [|now k v hs b Hb IH]; [done|]. cbn. rewrite length_app. cbn. intros Hl.
  destruct IH as [IH ->]; [lia|]. rewrite renumber_app, IH. cbn.
  rewrite (wrap_s_id 32 (Z.of_nat (length (records b)))) by (unfold in_s; lia). done.
Qed.

(** * What a successful read consumes *)

(** A successful varint read of [k] bytes yields a value below [128^k]. *)
Lemma varint_loop_bound w lim short long bs : 0 <= w -> forall shift acc v rest,
  0 <= shift -> in_u shift acc ->
  varint_loop w lim short long shift acc bs = Ok (v, rest) ->
  exists k, (1 <= k)%nat /\ length bs = (k + length rest)%nat /\ in_u (shift + 7 * Z.of_nat k) v.
Proof.
  intros Hw. induction bs as [|b bs IH]; intros shift acc v rest Hs Ha; cbn [varint_loop]; [done|].
  set (acc' := Z.lor _ _). assert (in_u (shift + 7) acc') as Ha'.
  { apply lor_range; [lia| |]; unfold in_u in *; rewrite Z.pow_add_r by lia; [nia|].
    rewrite land127, Z.shiftl_mul_pow2 by lia. pose proof (Z.mod_pos_bound b 128 ltac:(lia)).
    assert (0 < 2 ^ shift) by (apply Z.pow_pos_nonneg; lia). unfold wrap_u.
    assert (0 < 2 ^ w) by (apply Z.pow_pos_nonneg; lia). set (x := _ * _).
    assert (0 <= x < 2 ^ shift * 2 ^ 7) by (unfold x; change (2 ^ 7) with 128; nia).
    pose proof (Z.mod_pos_bound x (2 ^ w) ltac:(lia)).
    pose proof (Z.mod_le x (2 ^ w) ltac:(lia) ltac:(lia)). lia. }
  destruct (_ =? 0); [intros [= <- <-]; by exists 1%nat|]. destruct (_ <=? _); [done|].
  intros H. destruct (IH (shift + 7) acc' v rest ltac:(lia) Ha' H) as (k & Hk & Hl & Hv).
  exists (S k). split; [lia|]. split; [cbn [length]; lia|].
  by replace (shift + 7 * Z.of_nat (S k)) with (shift + 7 + 7 * Z.of_nat k) by lia.
Qed.

Lemma uvarint_bytes_minimal fuel : forall v k,
  (1 <= k)%nat -> in_u (7 * Z.of_nat k) v -> (length (uvarint_bytes fuel v) <= k)%nat.
Proof.
  induction fuel as [|fuel IH]; intros v k Hk [Hv0 Hv]; [done|]. rewrite uvarint_bytes_S.
  destruct (Z.ltb_spec v 128); [done|]. destruct k as [|[|k]]; [lia|cbn in Hv; lia|].
  cbn [length]. apply le_n_S, (IH _ (S k)); [lia|]. unfold in_u.
  rewrite Z.shiftr_div_pow2 by lia. split; [apply Z.div_pos; lia|].
  apply Z.div_lt_upper_bound; [lia|]. rewrite <- Z.pow_add_r by lia.
  by replace (7 + 7 * Z.of_nat (S k)) with (7 * Z.of_nat (S (S k))) by lia.
Qed.

(** [p] never consumes fewer bytes than [enc] needs to write what it returned. *)
Lemma read_varint_cost bs v rest :
  read_varint bs = Ok (v, rest) -> in_s 64 v /\ len (write_varint v) + len rest <= len bs.
Proof.
  unfold read_varint, mbind, rd_bind.
  destruct (varint_loop 64 64 _ _ 0 0 bs) as [[n bs']| |] eqn:E; [|done|done].
  intros [= <- <-].
  pose proof (varint_loop_safe 64 64 (EProtocol "Incomplete varint") (EProtocol "Varint too long")
    0 0 ltac:(lia) ltac:(unfold in_u; lia) bs) as Hn. rewrite E in Hn.
  apply varint_loop_bound in E as (k & Hk & Hl & Hv); [|lia|lia|unfold in_u; cbn; lia].
  rewrite zigzag_decode_eq by done.
  assert (in_s 64 (unzigzag n) /\ zigzag (unzigzag n) = n) as [Hs Hz].
  { unfold unzigzag, zigzag, in_s, in_u in *. pose proof (Zmod_even n) as Hm.
    destruct (Z.even n).
    - destruct (Z.ltb_spec (n / 2) 0); Z.div_mod_to_equations; lia.
    - destruct (Z.ltb_spec (- (n / 2) - 1) 0); Z.div_mod_to_equations; lia. }
  split; [done|]. rewrite write_varint_eq, Hz by done.
  pose proof (uvarint_bytes_minimal 9 n k Hk Hv). unfold len. lia.
Qed.

Lemma read_bind_inv {A B} (p : rd A) (k : A -> rd B) bs b rest :
  (p ≫= k) bs = Ok (b, rest) -> exists a bs', p bs = Ok (a, bs') /\ k a bs' = Ok (b, rest).
Proof. unfold mbind, rd_bind. destruct (p bs) as [[a bs']| |]; [by eauto|done|done]. Qed.

Lemma read_take_inv n bs x rest :
  0 <= n -> rd_take Panic n bs = Ok (x, rest) -> len x = n /\ len x + len rest = len bs.
Proof.
  intros Hn. unfold rd_take. destruct (Z.ltb_spec (len bs) n) as [|Hl]; [done|]. intros [= <- <-].
  unfold len in *. rewrite length_take, length_drop. lia.
Qed.

Ltac read_inv H x bs E := apply read_bind_inv in H as (x & bs & E & H).

Lemma len_write_varint v : in_s 64 v -> 1 <= len (write_varint v).
Proof.
  intros Hv. rewrite write_varint_eq by done. pose proof (uvarint_bytes_length 9 (zigzag v)).
  unfold len. lia.
Qed.

Lemma read_nullable_cost bs b rest :
  read_nullable bs = Ok (b, rest) -> len (write_nullable b) + len rest <= len bs.
Proof.
  intros H. read_inv H n bs1 E1. apply read_varint_cost in E1 as [Hn E1].
  destruct (Z.leb_spec 0 n) as [Hp|Hp].
  - read_inv H x bs2 E2. rewrite wrap_u_id in E2 by (unfold in_u, in_s in *; lia).
    apply read_take_inv in E2 as [Hl E2]; [|done]. injection H as <- <-.
    cbn [write_nullable]. rewrite len_app, Hl in *. lia.
  - injection H as <- <-. pose proof (len_write_varint n Hn).
    change (len (write_nullable None)) with 1. lia.
Qed.

Lemma decode_header_cost bs h rest :
  decode_header bs = Ok (h, rest) -> len (h_key h) < 2 ^ 63 ->
  len (encode_header h) + len rest <= len bs.
Proof.
  intros H Hk. read_inv H n bs1 E1. apply read_varint_cost in E1 as [Hn E1].
  read_inv H x bs2 E2. apply read_take_inv in E2 as [Hl E2]; [|apply wrap_u_range; lia].
  read_inv H s bs3 E3. read_inv H v bs4 E4. apply read_nullable_cost in E4.
  injection H as <- <-. unfold rd_lift, from_utf8 in E3. destruct (utf8_valid x); [|done].
  injection E3 as <- <-. unfold encode_header. cbn [h_key h_value] in *. rewrite !len_app.
  assert (len x = n) as Hnx; [|rewrite Hnx in *; lia].
  rewrite Hl in *. unfold wrap_u, in_s in *. destruct (Z.lt_ge_cases n 0).
  - rewrite <- (Z.mod_add n 1), Z.mod_small in Hk by lia. lia.
  - by rewrite Z.mod_small by lia.
Qed.

Lemma decode_headers_cost n : forall bs hs rest,
  rd_repeat n decode_header bs = Ok (hs, rest) -> Forall header_ok hs ->
  length hs = n /\ len (concat (encode_header <$> hs)) + len rest <= len bs.
Proof.
  induction n as [|n IH]; intros bs hs rest H Hok.
  - injection H as <- <-. split; [done|]. cbn [fmap list_fmap concat]. rewrite len_nil. lia.
  - cbn [rd_repeat] in H. read_inv H h bs1 E1. read_inv H hs' bs2 E2. injection H as <- <-.
    apply Forall_cons in Hok as [[Hk _] Hok]. apply decode_header_cost in E1; [|done].
    destruct (IH _ _ _ E2 Hok) as [<- Hc]. split; [done|].
    cbn [fmap list_fmap concat]. rewrite len_app. lia.
Qed.

(** The fields of a record after its length and attributes. *)
Definition fields_size (r : Record_) (bt : Z) : Z := len (record_body r 0 bt).

Lemma decode_fields_cost bo i bt bs r rest (p := decode_record bo i bt) :
  p bs = Ok (r, rest) -> Forall header_ok (headers r) ->
  exists v bs1, read_varint bs = Ok (v, bs1) /\ fields_size r bt + len rest <= len bs1.
Proof.
  intros H Hok. unfold p, decode_record in H. read_inv H n bs1 E1. exists n, bs1. split; [done|].
  read_inv H a bs2 E2. apply read_take_inv in E2 as [Ha E2]; [|lia].
  read_inv H td bs3 E3. apply read_varint_cost in E3 as [Htd E3].
  read_inv H od bs4 E4. apply read_varint_cost in E4 as [Hod E4]. pose proof (len_write_varint od Hod).
  read_inv H k bs5 E5. apply read_nullable_cost in E5. read_inv H v bs6 E6. apply read_nullable_cost in E6.
  read_inv H c bs7 E7. apply read_varint_cost in E7 as [Hc E7]. read_inv H u bs8 E8.
  read_inv H hs bs9 E9. injection H as <- <-. cbn [headers] in Hok.
  destruct (decode_headers_cost _ _ _ _ E9 Hok) as [Hn E9']. unfold rd_alloc in E8.
  destruct (Z.ltb_spec isize_max (56 * as_usize c)) as [|Hal]; [done|]. injection E8 as _ <-.
  assert (c = Z.of_nat (length hs)) as ->.
  { rewrite Hn. unfold wrap_u, in_s, isize_max in *. destruct (Z.lt_ge_cases c 0); [|lia].
    rewrite <- (Z.mod_add c 1), Z.mod_small in Hal by lia. lia. }
  unfold fields_size, record_body. cbn [timestamp key value headers]. rewrite !len_app, len_be_bytes.
  replace (as_i64 (as_i64 (bt + td) - bt)) with td.
  - change (len (write_varint 0)) with 1. lia.
  - replace (as_i64 (bt + td) - bt) with (- bt + as_i64 (bt + td)) by lia.
    rewrite wrap_s_add_wrap by lia. replace (- bt + (bt + td)) with td by lia.
    by rewrite wrap_s_id by (lia || done).
Qed.

Definition sizes (rs : list Record_) (bt : Z) : Z := foldr (fun r n => 1 + fields_size r bt + n) 0 rs.

Lemma decode_records_cost bo bt n : forall i bs rs rest,
  decode_records n i bo bt bs = Ok (rs, rest) -> Forall (record_ok bt) rs ->
  sizes rs bt + len rest <= len bs.
Proof.
  induction n as [|n IH]; intros i bs rs rest H Hok; cbn [decode_records] in H.
  - injection H as <- <-. cbn. lia.
  - read_inv H r bs1 E1. read_inv H rs' bs2 E2. injection H as <- <-.
    apply Forall_cons in Hok as [(_ & _ & _ & Hh & _) Hok].
    destruct (decode_fields_cost _ _ _ _ _ _ E1 Hh) as (v & bs0 & Hv & Hc).
    apply read_varint_cost in Hv as [Hv Hc0]. pose proof (len_write_varint v Hv).
    specialize (IH _ _ _ _ E2 Hok). cbn [sizes foldr]. fold (sizes rs' bt). lia.
Qed.

(** An offset delta below 64 is one byte long. *)
Lemma record_body_size r d bt : 0 <= d < 64 -> len (record_body r d bt) = fields_size r bt.
Proof.
  intros Hd. unfold fields_size, record_body. rewrite !len_app. do 3 f_equal.
  rewrite write_varint_eq by (unfold in_s; lia). unfold zigzag.
  destruct (Z.ltb_spec d 0); [lia|]. rewrite uvarint_bytes_S.
  destruct (Z.ltb_spec (2 * d) 128); [done|lia].
Qed.

Lemma encode_records_size rs bt : forall i,
  0 <= i -> i + Z.of_nat (length rs) <= 64 -> len (encode_records rs i bt) = sizes rs bt.
Proof.
  induction rs as [|r rs IH]; intros i Hi Hl; [done|]. cbn [length] in Hl.
  cbn [encode_records sizes foldr]. fold (sizes rs bt).
  rewrite wrap_s_id, len_app, IH, encode_record_eq, len_cons, record_body_size
    by (unfold in_s in *; lia). lia.
Qed.

(** The length byte of a record whose body is 128 to 255 bytes long (modulo
    256) has its high bit set, and the decoder takes it for the first byte of a
    longer varint: it swallows the attributes byte of the record with it. *)
Lemma long_record_misaligned (r : Record_) (d bt : Z) (rest : bytes) :
  128 <= len (record_body r d bt) mod 256 ->
  exists v, read_varint (encode_record r d bt ++ rest)
            = Ok (v, drop 1 (record_body r d bt) ++ rest).
Proof.
  intros H. rewrite encode_record_eq. set (L := len _) in *.
  assert (exists t, record_body r d bt = 0 :: t) as [t ->] by by eexists.
  cbn [app drop]. unfold read_varint, mbind, rd_bind.
  assert (as_u8 L = (L - 128) mod 128 + 128) as ->.
  { unfold wrap_u. change (2 ^ 8) with 256. clearbody L.
    Z.div_mod_to_equations. lia. }
  rewrite <- cont_byte, varint_loop_cont by lia.
  rewrite varint_loop_last; [by eexists|lia| |lia|lia].
  pose proof (Z.mod_pos_bound (L - 128) 128 ltac:(lia)). lia.
Qed.

Lemma renumber_ok rs bo bt : forall i,
  Forall (record_ok bt) rs ->
  Forall (record_ok bt) (renumber rs i bo) /\ sizes (renumber rs i bo) bt = sizes rs bt.
Proof.
  induction rs as [|r rs IH]; intros i Hok; [done|]. apply Forall_cons in Hok as [Hr Hok].
  destruct (IH (i + 1) Hok) as [IH1 IH2]. split; [by constructor|].
  cbn [renumber sizes foldr]. fold (sizes (renumber rs (i + 1) bo) bt) (sizes rs bt).
  by rewrite IH2.
Qed.

(** When one record of a batch is misread, what follows cannot yield the batch's own
    records: they would need more bytes than there are. *)
Lemma long_record_not_reread bo bt r rs : forall i rest,
  0 <= i -> i + Z.of_nat (length (r :: rs)) <= 64 -> Forall (record_ok bt) (r :: rs) ->
  ~ short_record r i bt ->
  decode_records (length (r :: rs)) i bo bt (encode_records (r :: rs) i bt)
  <> Ok (renumber (r :: rs) i bo, rest).
Proof.
  intros i rest Hi Hl Hok Hs H. cbn [length] in Hl. apply Forall_cons in Hok as [Hr Hok].
  cbn [length decode_records encode_records renumber] in H. rewrite wrap_s_id in H by (unfold in_s; lia).
  read_inv H r' bs1 E1. read_inv H rs' bs2 E2. injection H as -> -> ->.
  destruct (decode_fields_cost _ _ _ _ _ _ E1) as (v & bs0 & Hv & Hc); [by destruct Hr as (_ & _ & _ & ? & _)|].
  destruct (long_record_misaligned r i bt (encode_records rs (i + 1) bt)) as [v' Hv'];
    [by apply Z.nlt_ge in Hs|]. 
  assert (bs0 = drop 1 (record_body r i bt) ++ encode_records rs (i + 1) bt) as -> by congruence.
  destruct (renumber_ok rs bo bt (i + 1) Hok) as [Hok' Hsz].
  apply decode_records_cost in E2; [|done]. rewrite Hsz in E2.
  rewrite len_app, encode_records_size in Hc by lia.
  assert (len (drop 1 (record_body r i bt)) = fields_size r bt - 1) as Hd.
  { rewrite <- (record_body_size r i bt) by lia. unfold len. rewrite length_drop.
    unfold record_body. rewrite !length_app, length_be_bytes. lia. }
  unfold fields_size in *. change (record_body (mkRecord _ _ _ _ _) 0 bt) with (record_body r 0 bt) in Hc.
  pose proof (len_nonneg rest). lia.
Qed.

Lemma reread_short bo bt rs : forall i rest,
  0 <= i -> i + Z.of_nat (length rs) <= 64 -> Forall (record_ok bt) rs ->
  decode_records (length rs) i bo bt (encode_records rs i bt) = Ok (renumber rs i bo, rest) ->
  records_ok rs i bt.
Proof.
  induction rs as [|r rs IH]; intros i rest Hi Hl Hok H; [done|].
  destruct (Z.lt_ge_cases (len (record_body r i bt) mod 256) 128) as [Hs|Hs].
  2:{ exfalso. apply long_record_not_reread in H; [done|done|done|done|]. unfold short_record. lia. }
  apply Forall_cons in Hok as [Hr Hok]. cbn [length] in Hl. split; [done|]. split; [done|].
  cbn [length decode_records encode_records renumber] in H. rewrite wrap_s_id in H by (unfold in_s; lia).
  unfold mbind, rd_bind in H. rewrite proto_parses_record in H by (done || (unfold in_s; lia)).
  destruct (decode_records _ _ _ _ _) as [[rs' rest']| |] eqn:E; [|done|done].
  injection H as -> ->. apply IH in E; [done|lia|lia|done].
Qed.

Lemma records_ok_lookup bt rs : forall i,
  records_ok rs i bt <->
  Forall (record_ok bt) rs /\ forall j r, rs !! j = Some r -> short_record r (i + Z.of_nat j) bt.
Proof.
  induction rs as [|r rs IH]; intros i; cbn [records_ok]; [by rewrite Forall_nil|].
  rewrite IH, Forall_cons. split.
  - intros (Hr & Hs & Hrs & Hss). split; [done|]. intros [|j] r'.
    + intros [= <-]. by rewrite Z.add_0_r.
    + intros Hj. replace (i + Z.of_nat (S j)) with (i + 1 + Z.of_nat j) by lia. by apply Hss.
  - intros ([Hr Hrs] & Hss). split_and!; [done| |done|].
    + rewrite <- (Z.add_0_r i). by apply (Hss 0%nat).
    + intros j r' Hj. replace (i + 1 + Z.of_nat j) with (i + Z.of_nat (S j)) by lia. by apply Hss.
Qed.

(** * Properties *)

(** Every [i64] written by [write_varint] is read back exactly by
    [read_varint], in at most ten bytes. *)
Theorem proto_varint_roundtrip (v : Z) (rest : bytes) :
  in_s 64 v ->
  read_varint (write_varint v ++ rest) = Ok (v, rest) /\ 1 <= len (write_varint v) <= 10.
Proof.
  intros Hv. split; [by apply proto_parses_varint|]. rewrite write_varint_eq by done.
  pose proof (uvarint_bytes_length 9 (zigzag v)). unfold len. lia.
Qed.

Lemma proto_varint_roundtrip_witness :
  read_varint (write_varint (- 2 ^ 63) ++ [1]) = Ok (- 2 ^ 63, [1])
  /\ 1 <= len (write_varint (- 2 ^ 63)) <= 10.
Proof. apply (proto_varint_roundtrip (- 2 ^ 63) [1]). unfold in_s. lia. Defined.

(** [C24] A batch built with [new] and [add_record] whose records are short (the
    length byte of each is below 128) survives encoding and decoding, for every
    compressor and checksum implementation: the decoded batch has the same header,
    attributes, offsets, keys, values and headers, with the length and checksum
    fields filled in. *)
Theorem proto_batch_roundtrip `{!Crc32c, !BlockCodec} (bo pid pe : Z) (b : RecordBatch)
    (z : bytes) :
  built bo pid pe b -> batch_ok b ->
  compress_with (compression (attributes b))
    (encode_records (records b) 0 (first_timestamp b)) = Ok z ->
  exists out,
    encode b = Ok out
    /\ decode out = Ok (decoded b (Z.of_nat (length (records b))) z (records b)).
Proof.
  intros Hb (Hf & Hn & Hrs) Hz.
  exists (wire b (Z.of_nat (length (records b))) z). split; [by apply proto_encode_wire|].
  rewrite (proto_decode_wire b (Z.of_nat (length (records b))) z _ Hf
    ltac:(unfold in_s; lia) (decompress_compress_with _ _ _ Hz)).
  rewrite alloc_count by lia. cbn [mbind res_bind]. rewrite Nat2Z.id.
  rewrite (parses_whole _ _ _ (parses_records (base_offset b) (first_timestamp b)
    (records b) 0 ltac:(lia) ltac:(lia) Hrs)).
  cbn [mbind res_bind]. destruct (built_renumber _ _ _ _ Hb Hn) as [Hr ->]. by rewrite Hr.
Qed.

Definition sample_batch : RecordBatch :=
  add_record 1001 None (Some [1; 2; 3]) []
    (add_record 1000 (Some [7]) (Some [8; 9]) [mkRecordHeader (bytes_of_string "h") None]
       (batch_new 990 100 12345 1)).

Lemma proto_batch_roundtrip_witness :
  exists out,
    @encode crc32c_bitwise stored_codec sample_batch = Ok out
    /\ @decode crc32c_bitwise stored_codec out
       = Ok (@decoded crc32c_bitwise sample_batch 2
               (encode_records (records sample_batch) 0 1000) (records sample_batch)).
Proof.
  refine (@proto_batch_roundtrip crc32c_bitwise stored_codec 100 12345 1 sample_batch
            (encode_records (records sample_batch) 0 1000) _ _ _).
  - repeat constructor.
  - concrete.
  - reflexivity.
Defined.

(** [C39] A batch of at most 64 records built with [new] and [add_record] is always encoded, and it
    decodes to a batch with its own records exactly when the body of every record is 0 to 127 bytes
    long modulo 256: the encoder keeps the low eight bits of the length, the decoder takes a length
    byte of 128 or more for the start of a longer varint and reads the rest of the batch out of
    step. *)
Theorem records_survive_iff_short `{!Crc32c, !BlockCodec} (bo pid pe : Z) (b : RecordBatch) :
  built bo pid pe b -> fields_ok b -> (length (records b) <= 64)%nat ->
  Forall (record_ok (first_timestamp b)) (records b) ->
  exists out, encode b = Ok out /\
    ((exists b', decode out = Ok b' /\ records b' = records b) <->
     (forall i r, records b !! i = Some r ->
        len (record_body r (Z.of_nat i) (first_timestamp b)) mod 256 < 128)).
Proof.
  intros Hb Hf Hn Hok. destruct (built_renumber _ _ _ _ Hb ltac:(lia)) as [Hr Hbo].
  set (z := encode_records (records b) 0 (first_timestamp b)).
  assert (compression (attributes b) = CNone) as Hc by (clear -Hb; induction Hb; done).
  exists (wire b (Z.of_nat (length (records b))) z).
  split; [apply proto_encode_wire; [lia|by rewrite Hc]|].
  rewrite (proto_decode_wire b (Z.of_nat (length (records b))) z z Hf
    ltac:(unfold in_s; lia) ltac:(by rewrite Hc)).
  rewrite alloc_count by lia. cbn [mbind res_bind]. rewrite Nat2Z.id.
  change (forall i r, _) with (forall i r, records b !! i = Some r ->
    short_record r (0 + Z.of_nat i) (first_timestamp b)). split.
  - intros (b' & Hd & Hrs). destruct (decode_records _ _ _ _ _) as [[rs rest]| |] eqn:E; [|done|done].
    cbn [mbind res_bind] in Hd. injection Hd as <-. cbn [decoded records] in Hrs. subst rs.
    apply (records_ok_lookup (first_timestamp b) (records b) 0).
    apply (reread_short (base_offset b) _ _ _ rest); [lia|lia|done|]. fold z. rewrite E. by rewrite Hbo, Hr.
  - intros Hs. exists (decoded b (Z.of_nat (length (records b))) z (records b)). split; [|done].
    pose proof (parses_whole _ _ _ (parses_records (base_offset b) (first_timestamp b) (records b) 0
      ltac:(lia) ltac:(lia) (proj2 (records_ok_lookup _ _ _) (conj Hok Hs)))) as Hp.
    fold z in Hp. rewrite Hp. cbn [mbind res_bind]. by rewrite Hbo, Hr.
Qed.

(** Two values, of 100 and of 200 bytes. *)
Definition long_batch : RecordBatch :=
  add_record 1001 None (Some (replicate 200 65)) []
    (add_record 1000 None (Some (replicate 100 66)) [] (batch_new 990 100 12345 1)).

Lemma records_survive_iff_short_witness :
  exists out, @encode crc32c_bitwise stored_codec long_batch = Ok out /\
    ((exists b', @decode crc32c_bitwise stored_codec out = Ok b' /\ records b' = records long_batch) <->
     (forall i r, records long_batch !! i = Some r ->
        len (record_body r (Z.of_nat i) 1000) mod 256 < 128)).
Proof.
  apply (@records_survive_iff_short crc32c_bitwise stored_codec 100 12345 1 long_batch).
  - repeat constructor.
  - concrete.
  - cbn. lia.
  - concrete.
Defined.

(** A 200-byte value is lost; a 250-byte one, whose length byte is 1, is read back. *)
Example long_values :
  let reread n :=
    out ← @encode crc32c_bitwise stored_codec
            (add_record 1000 None (Some (replicate n 65)) [] (batch_new 990 100 12345 1));
    b ← @decode crc32c_bitwise stored_codec out; Ok (value <$> records b) in
  is_ok (reread 200%nat) = false /\ reread 250%nat = Ok [Some (replicate 250 65)].
Proof. vm_compute. done. Qed.

(** Decoding can panic on a batch with a valid checksum: when a record is cut
    short after its length, and when the record count is negative, whatever the
    other header fields. *)
Theorem proto_decode_panics `{!Crc32c, !BlockCodec} (b : RecordBatch) (n : Z) :
  fields_ok b -> compression (attributes b) = CNone -> - 2 ^ 31 <= n < 0 ->
  decode (wire b 1 [0]) = Panic /\ decode (wire b n []) = Panic.
Proof.
  intros Hf Hc Hn. split.
  - rewrite (proto_decode_wire b 1 [0] [0]) by (done || (unfold in_s; lia) || (by rewrite Hc)). done.
  - rewrite (proto_decode_wire b n [] []) by (done || (unfold in_s; lia) || (by rewrite Hc)).
    assert (as_usize n = n + 2 ^ 64) as ->.
    { unfold wrap_u. rewrite <- (Z.mod_add n 1) by lia. rewrite Z.mod_small; lia. }
    unfold rd_alloc. destruct (Z.ltb_spec isize_max (104 * (n + 2 ^ 64))); [done|].
    unfold isize_max in *. lia.
Qed.

Lemma proto_decode_panics_witness :
  @decode crc32c_bitwise stored_codec (@wire crc32c_bitwise sample_batch 1 [0]) = Panic
  /\ @decode crc32c_bitwise stored_codec (@wire crc32c_bitwise sample_batch (-1) []) = Panic.
Proof.
  apply (@proto_decode_panics crc32c_bitwise stored_codec sample_batch (-1)).
  - concrete.
  - reflexivity.
  - lia.
Defined.
