(* ===== verification/KafkaRecords.v ===== *)
(** The Kafka record batch of chronik-storage
    (crates/chronik-storage/src/kafka_records.rs) and the transaction control
    batches built on it (control_batch.rs): the format v2 encoder and decoder, and
    the conversion of legacy v0/v1 message sets. *)
From stdpp Require Import base list numbers strings.
From Stdlib Require Import ZArith Lia.
From S2P Require Import Prelude Extern.
Local Open Scope Z_scope.

Definition MAGIC_V2 : Z := 2.
Definition MAGIC_V1 : Z := 1.
Definition MAGIC_V0 : Z := 0.

(** [mod attributes]. *)
Definition COMPRESSION_CODEC_MASK : Z := 7.
Definition TIMESTAMP_TYPE_MASK : Z := 8.
Definition TRANSACTIONAL_FLAG : Z := 16.
Definition CONTROL_FLAG : Z := 32.

Inductive CompressionType : Type := CNone | CGzip | CSnappy | CLz4 | CZstd.

#[global] Instance CompressionType_eq_dec : EqDecision CompressionType.
Proof. solve_decision. Defined.

Definition compression_code (c : CompressionType) : Z :=
  match c with CNone => 0 | CGzip => 1 | CSnappy => 2 | CLz4 => 3 | CZstd => 4 end.

Definition from_attributes (attributes : Z) : CompressionType :=
  match Z.land attributes COMPRESSION_CODEC_MASK with
  | 0 => CNone
  | 1 => CGzip
  | 2 => CSnappy
  | 3 => CLz4
  | 4 => CZstd
  | _ => CNone
  end.

(** [struct RecordBatchHeader], [KafkaRecord], [RecordHeader], [KafkaRecordBatch]. *)
Record RecordBatchHeader : Type := mkRecordBatchHeader {
  base_offset : Z;
  batch_length : Z;
  partition_leader_epoch : Z;
  magic : Z;
  crc : Z;
  attributes : Z;
  last_offset_delta : Z;
  base_timestamp : Z;
  max_timestamp : Z;
  producer_id : Z;
  producer_epoch : Z;
  base_sequence : Z;
  records_count : Z }.

Record RecordHeader : Type := mkRecordHeader { h_key : bytes; h_value : option bytes }.

Record KafkaRecord : Type := mkKafkaRecord {
  r_length : Z;
  r_attributes : Z;
  timestamp_delta : Z;
  offset_delta : Z;
  r_key : option bytes;
  r_value : option bytes;
  r_headers : list RecordHeader }.

Record KafkaRecordBatch : Type := mkKafkaRecordBatch {
  header : RecordBatchHeader;
  records : list KafkaRecord;
  compressed_records_data : option bytes }.

(** [KafkaRecordBatch::new]. *)
Definition kafka_batch_new (base_offset base_timestamp producer_id producer_epoch
    base_sequence : Z) (compression : CompressionType) (is_transactional : bool)
    : KafkaRecordBatch :=
  let attributes := compression_code compression in
  let attributes := if is_transactional then Z.lor attributes TRANSACTIONAL_FLAG else attributes in
  mkKafkaRecordBatch
    (mkRecordBatchHeader base_offset 0 (-1) MAGIC_V2 0 attributes 0 base_timestamp
       base_timestamp producer_id producer_epoch base_sequence 0)
    [] None.

(** [KafkaRecordBatch::add_record]. *)
Definition kafka_add_record (key value : option bytes) (headers : list RecordHeader)
    (timestamp : Z) (b : KafkaRecordBatch) : KafkaRecordBatch :=
  let h := header b in
  let offset_delta := as_i32 (Z.of_nat (length (records b))) in
  let timestamp_delta := as_i64 (timestamp - base_timestamp h) in
  let max_ts := if max_timestamp h <? timestamp then timestamp else max_timestamp h in
  let record := mkKafkaRecord 0 0 timestamp_delta offset_delta key value headers in
  let rs := records b ++ [record] in
  mkKafkaRecordBatch
    (mkRecordBatchHeader (base_offset h) (batch_length h) (partition_leader_epoch h)
       (magic h) (crc h) (attributes h) offset_delta (base_timestamp h) max_ts
       (producer_id h) (producer_epoch h) (base_sequence h) (as_i32 (Z.of_nat (length rs))))
    rs (compressed_records_data b).

(** ** Varints

    [while v >= 0x80], at most four continuation bytes for a [u32] and nine for a
    [u64]. *)
Fixpoint push_uvarint (fuel : nat) (v : Z) : bytes :=
  match fuel with
  | O => [as_u8 v]
  | S fuel =>
      if 128 <=? v then as_u8 (Z.lor v 128) :: push_uvarint fuel (Z.shiftr v 7)
      else [as_u8 v]
  end.

Definition encode_varint (value : Z) : bytes :=
  push_uvarint 4 (as_u32 (Z.lxor (as_i32 (Z.shiftl value 1)) (Z.shiftr value 31))).
Definition encode_varlong (value : Z) : bytes :=
  push_uvarint 9 (as_u64 (Z.lxor (as_i64 (Z.shiftl value 1)) (Z.shiftr value 63))).

Definition decode_varint : rd Z :=
  value ← varint_loop 32 32 (EInternal "Failed to read varint") (EInternal "Varint too long") 0 0;
  mret (Z.lxor (as_i32 (Z.shiftr value 1)) (- as_i32 (Z.land value 1))).
Definition decode_varlong : rd Z :=
  value ← varint_loop 64 64 (EInternal "Failed to read varlong") (EInternal "Varlong too long") 0 0;
  mret (Z.lxor (as_i64 (Z.shiftr value 1)) (- as_i64 (Z.land value 1))).

(** ** Reading primitives *)
Definition ei (m : string) : res Empty_set := Err (EInternal m).
Definition read_i8 : rd Z := rd_be_s (ei "Failed to read i8") 1.
Definition read_i16 : rd Z := rd_be_s (ei "Failed to read i16") 2.
Definition read_i32 : rd Z := rd_be_s (ei "Failed to read i32") 4.
Definition read_i64 : rd Z := rd_be_s (ei "Failed to read i64") 8.
Definition read_u16 : rd Z := rd_be_u (ei "Failed to read u16") 2.
Definition read_u32 : rd Z := rd_be_u (ei "Failed to read u32") 4.

(** ** Encoding a record *)
Definition encode_nullable (b : option bytes) : bytes :=
  match b with
  | Some b => encode_varint (as_i32 (len b)) ++ b
  | None => encode_varint (-1)
  end.

Definition encode_header (h : RecordHeader) : bytes :=
  encode_varint (as_i32 (len (h_key h))) ++ h_key h ++ encode_nullable (h_value h).

(** The record without its length: the [record_buf] of [encode_record]. *)
Definition record_buf (r : KafkaRecord) : bytes :=
  [as_u8 (r_attributes r)]
  ++ encode_varlong (timestamp_delta r)
  ++ encode_varint (offset_delta r)
  ++ encode_nullable (r_key r)
  ++ encode_nullable (r_value r)
  ++ encode_varint (as_i32 (Z.of_nat (length (r_headers r))))
  ++ concat (encode_header <$> r_headers r).

Definition encode_record (r : KafkaRecord) : bytes :=
  encode_varint (as_i32 (len (record_buf r))) ++ record_buf r.

(** ** Decoding records *)
Definition read_nullable (m : string) : rd (option bytes) :=
  n ← decode_varint;
  if 0 <=? n then b ← rd_take (ei m) n; mret (Some b) else mret None.

Definition decode_header : rd RecordHeader :=
  key_len ← decode_varint;
  if (key_len <? 0) || (10000 <? key_len) then rd_err (EInternal "Invalid header key length") else
  key_buf ← rd_take (ei "Failed to read header key") key_len;
  key ← rd_lift (from_utf8 (EInternal "Invalid header key") key_buf);
  value_len ← decode_varint;
  if 0 <=? value_len then
    if 1000000 <? value_len then rd_err (EInternal "Invalid header value length") else
    b ← rd_take (ei "Failed to read header value") value_len;
    mret (mkRecordHeader key (Some b))
  else mret (mkRecordHeader key None).

(** One iteration of the loop of [decode_records]. *)
Definition decode_record : rd KafkaRecord :=
  length ← decode_varint;
  attributes ← read_i8;
  timestamp_delta ← decode_varlong;
  offset_delta ← decode_varint;
  key ← read_nullable "Failed to read key";
  value ← read_nullable "Failed to read value";
  headers_count ← decode_varint;
  if (headers_count <? 0) || (1000 <? headers_count)
  then rd_err (EInternal "Invalid headers count") else
  headers ← rd_repeat (Z.to_nat headers_count) decode_header;
  mret (mkKafkaRecord length attributes timestamp_delta offset_delta key value headers).

(** [decode_records]: while bytes remain, and until [count] records are read when
    [count] is not negative.  Each iteration consumes at least one byte, so the
    number of bytes bounds the loop ([decode_records_loop_fuel]). *)
Fixpoint decode_records_loop (fuel : nat) (count records_read : Z) (data : bytes)
    : res (list KafkaRecord) :=
  match data with
  | [] => Ok []
  | _ =>
      if (0 <=? count) && (count <=? records_read) then Ok [] else
      match fuel with
      | O => Err EFuel
      | S fuel =>
          '(r, rest) ← decode_record data;
          rs ← decode_records_loop fuel count (records_read + 1) rest;
          Ok (r :: rs)
      end
  end.

Definition decode_records (data : bytes) (count : Z) : res (list KafkaRecord) :=
  decode_records_loop (length data) count 0 data.

(** ** Batches *)

Definition XERIAL_HEADER : bytes := [130; 83; 78; 65; 80; 80; 89; 0].

Definition starts_with (p bs : bytes) : bool := bool_decide (take (length p) bs = p).

(** The bytes of a batch from the attributes on: what Kafka's CRC-32C covers. *)
Definition crc_region (h : RecordBatchHeader) (records_data : bytes) : bytes :=
  be_bytes 2 (attributes h) ++ be_bytes 4 (last_offset_delta h)
  ++ be_bytes 8 (base_timestamp h) ++ be_bytes 8 (max_timestamp h)
  ++ be_bytes 8 (producer_id h) ++ be_bytes 2 (producer_epoch h)
  ++ be_bytes 4 (base_sequence h) ++ be_bytes 4 (records_count h) ++ records_data.

Definition empty_batch : KafkaRecordBatch :=
  mkKafkaRecordBatch
    (mkRecordBatchHeader 0 0 (-1) MAGIC_V2 0 0 0 0 0 (-1) (-1) (-1) 0) [] None.

Section WithLibraries.
Context `{!Crc32c, !BlockCodec}.

(** [encode_records]. *)
Definition encode_records (b : KafkaRecordBatch) : res bytes :=
  let buf := concat (encode_record <$> records b) in
  match from_attributes (attributes (header b)) with
  | CNone => Ok buf
  | CGzip => compress AGzip buf
  | CSnappy => compress ASnappy buf
  | CLz4 => compress ALz4 buf
  | CZstd => compress AZstd buf
  end.

(** [KafkaRecordBatch::encode]: header with placeholders, records, then the length
    and the CRC are written in place. *)
Definition encode (b : KafkaRecordBatch) : res bytes :=
  let h := header b in
  records_data ← encode_records b;
  let buf :=
    be_bytes 8 (base_offset h) ++ be_bytes 4 0
    ++ be_bytes 4 (partition_leader_epoch h) ++ be_bytes 1 (magic h) ++ be_bytes 4 0
    ++ crc_region h records_data in
  let batch_length_pos := 8%nat in
  let crc_pos := 17%nat in
  let batch_length := as_i32 (len buf - Z.of_nat batch_length_pos - 4) in
  let buf := splice batch_length_pos (be_bytes 4 batch_length) buf in
  let crc := crc32c (drop (crc_pos + 4) buf) in
  Ok (splice crc_pos (be_bytes 4 crc) buf).

(** The blocks of the Xerial framing: a 16-byte header, then length-prefixed snappy
    blocks while four bytes remain. *)
Fixpoint xerial_blocks (fuel : nat) (buf : bytes) : res bytes :=
  if len buf <? 4 then Ok [] else
  match fuel with
  | O => Err EFuel
  | S fuel =>
      let block_size := be_val (take 4 buf) in
      let buf := drop 4 buf in
      if (block_size =? 0) || (len buf <? block_size)
      then Err (EInternal "Invalid Xerial block size") else
      block ← decompress ASnappy (take (Z.to_nat block_size) buf);
      rest ← xerial_blocks fuel (drop (Z.to_nat block_size) buf);
      Ok (block ++ rest)
  end.

Definition decompress_snappy (buf : bytes) : res bytes :=
  if (16 <? len buf) && starts_with XERIAL_HEADER buf
  then xerial_blocks (length buf) (drop 16 buf)
  else decompress ASnappy buf.

Definition decompress_records (c : CompressionType) (buf : bytes) : res bytes :=
  match c with
  | CNone => Ok buf
  | CGzip => decompress AGzip buf
  | CSnappy => decompress_snappy buf
  | CLz4 => decompress ALz4 buf
  | CZstd => decompress AZstd buf
  end.

(** *** Legacy message sets *)

(** What the loop of [decode_legacy_message_set] carries. *)
Record legacy_state : Type := mkLegacy {
  l_records : list KafkaRecord;
  l_base_offset : Z;
  l_base_timestamp : Z;
  l_max_timestamp : Z }.

(** [read_i32] followed by that many bytes, or null when negative. *)
Definition read_legacy_bytes (m : string) : rd (option bytes) :=
  n ← read_i32;
  if 0 <=? n then b ← rd_take (ei m) n; mret (Some b) else mret None.

Definition legacy_timestamp (magic : Z) (st : legacy_state) : rd (Z * legacy_state) :=
  if magic =? MAGIC_V1 then
    ts ← read_i64;
    let mx := if l_max_timestamp st <? ts then ts else l_max_timestamp st in
    let bt := if (l_base_timestamp st =? 0) || (ts <? l_base_timestamp st)
              then ts else l_base_timestamp st in
    mret (ts, mkLegacy (l_records st) (l_base_offset st) bt mx)
  else mret (0, st).

(** Adding the records of a nested, compressed message set. *)
Definition legacy_extend (nested : list KafkaRecord) (st : legacy_state) : legacy_state :=
  let mx := foldl (fun mx r =>
              let record_timestamp := as_i64 (l_base_timestamp st + timestamp_delta r) in
              if mx <? record_timestamp then record_timestamp else mx)
              (l_max_timestamp st) nested in
  mkLegacy (l_records st ++ nested) (l_base_offset st) (l_base_timestamp st) mx.

Definition legacy_push (offset timestamp : Z) (key value : option bytes) (st : legacy_state)
    : legacy_state :=
  mkLegacy (l_records st ++
    [mkKafkaRecord 0 0 (as_i64 (timestamp - l_base_timestamp st))
       (as_i32 (offset - l_base_offset st)) key value []])
    (l_base_offset st) (l_base_timestamp st) (l_max_timestamp st).

(** One message after its offset and size; [nested] decodes a nested set. *)
Definition legacy_message (nested : bytes -> res (KafkaRecordBatch * Z)) (offset : Z)
    (st : legacy_state) : rd legacy_state :=
  _ ← read_u32;
  magic ← read_i8;
  attrs ← read_i8;
  let compression := from_attributes (as_u16 attrs) in
  '(timestamp, st) ← legacy_timestamp magic st;
  key ← read_legacy_bytes "Failed to read key";
  value ← read_legacy_bytes "Failed to read value";
  let value_bytes := default [] value in
  if bool_decide (compression ≠ CNone) && negb (bool_decide (value_bytes = [])) then
    decompressed ← rd_lift (decompress_records compression value_bytes);
    '(nested_batch, _) ← rd_lift (nested decompressed);
    mret (legacy_extend (records nested_batch) st)
  else mret (legacy_push offset timestamp key value st).

(** The loop: stop when fewer than twelve bytes remain, or when the message runs
    past the buffer (its offset and size are consumed then). *)
Fixpoint legacy_loop (fuel : nat) (nested : bytes -> res (KafkaRecordBatch * Z))
    (st : legacy_state) (data : bytes) : res (legacy_state * bytes) :=
  if len data <? 12 then Ok (st, data) else
  match fuel with
  | O => Err EFuel
  | S fuel =>
      '(offset, data) ← read_i64 data;
      let st := if l_base_offset st =? 0
                then mkLegacy (l_records st) offset (l_base_timestamp st) (l_max_timestamp st)
                else st in
      '(message_size, data) ← read_i32 data;
      if len data <? as_usize message_size then Ok (st, data) else
      '(st, data) ← legacy_message nested offset st data;
      legacy_loop fuel nested st data
  end.

(** [decode_legacy_message_set]; [depth] bounds the nesting of compressed sets. *)
Fixpoint decode_legacy_message_set (depth : nat) (data : bytes)
    : res (KafkaRecordBatch * Z) :=
  match depth with
  | O => Err EFuel
  | S depth =>
      '(st, rest) ← legacy_loop (length data) (decode_legacy_message_set depth)
                      (mkLegacy [] 0 0 0) data;
      let n := Z.of_nat (length (l_records st)) in
      Ok (mkKafkaRecordBatch
            (mkRecordBatchHeader (l_base_offset st) 0 (-1) MAGIC_V2 0 0
               (as_i32 (as_i32 n - 1)) (l_base_timestamp st) (l_max_timestamp st)
               (-1) (-1) (-1) (as_i32 n))
            (l_records st) None,
          len data - len rest)
  end.

(** [KafkaRecordBatch::decode]. *)
Definition decode (depth : nat) (data : bytes) : res (KafkaRecordBatch * Z) :=
  if bool_decide (data = []) then Ok (empty_batch, 0) else
  if len data <? 17 then Ok (empty_batch, 0) else
  let possible_magic := nth 16 data 0 in
  if (possible_magic =? MAGIC_V0) || (possible_magic =? MAGIC_V1)
  then decode_legacy_message_set depth data else
  '(base_offset, cur) ← read_i64 data;
  '(batch_length, cur) ← read_i32 cur;
  let expected_total_size := as_usize (12 + as_usize batch_length) in
  if len data <? expected_total_size then Err (EInternal "RecordBatch truncated") else
  '(partition_leader_epoch, cur) ← read_i32 cur;
  '(magic, cur) ← read_i8 cur;
  if negb (magic =? MAGIC_V2) then
    if (magic =? MAGIC_V0) || (magic =? MAGIC_V1)
    then decode_legacy_message_set depth data
    else Err (EInternal "Unsupported magic byte")
  else
  '(crc, cur) ← read_u32 cur;
  '(attributes, cur) ← read_u16 cur;
  '(last_offset_delta, cur) ← read_i32 cur;
  '(base_timestamp, cur) ← read_i64 cur;
  '(max_timestamp, cur) ← read_i64 cur;
  '(producer_id, cur) ← read_i64 cur;
  '(producer_epoch, cur) ← read_i16 cur;
  '(base_sequence, cur) ← read_i32 cur;
  '(records_count, cur) ← read_i32 cur;
  let h := mkRecordBatchHeader base_offset batch_length partition_leader_epoch magic crc
             attributes last_offset_delta base_timestamp max_timestamp producer_id
             producer_epoch base_sequence records_count in
  records_data ← decompress_records (from_attributes attributes) cur;
  rs ← decode_records records_data records_count;
  Ok (mkKafkaRecordBatch h rs (Some cur), as_usize (12 + as_usize batch_length)).

(** ** Transaction control batches *)

(** [enum ControlMarker]. *)
Inductive ControlMarker : Type := MAbort | MCommit.
Definition marker_code (m : ControlMarker) : Z :=
  match m with MAbort => 0 | MCommit => 1 end.

Definition or_attributes (flag : Z) (b : KafkaRecordBatch) : KafkaRecordBatch :=
  let h := header b in
  mkKafkaRecordBatch
    (mkRecordBatchHeader (base_offset h) (batch_length h) (partition_leader_epoch h)
       (magic h) (crc h) (Z.lor (attributes h) flag) (last_offset_delta h)
       (base_timestamp h) (max_timestamp h) (producer_id h) (producer_epoch h)
       (base_sequence h) (records_count h))
    (records b) (compressed_records_data b).

(** The batch [build_end_txn_marker] encodes. *)
Definition end_txn_batch (base_offset producer_id producer_epoch : Z)
    (marker : ControlMarker) (timestamp : Z) : KafkaRecordBatch :=
  let key := be_bytes 2 0 ++ be_bytes 2 (marker_code marker) in
  let value := be_bytes 2 0 ++ be_bytes 4 0 in
  let batch := kafka_batch_new base_offset timestamp producer_id producer_epoch 0 CNone true in
  let batch := or_attributes CONTROL_FLAG batch in
  kafka_add_record (Some key) (Some value) [] timestamp batch.

(** [build_end_txn_marker]: an encoding error gives no bytes. *)
Definition build_end_txn_marker (base_offset producer_id producer_epoch : Z)
    (marker : ControlMarker) (timestamp : Z) : bytes :=
  match encode (end_txn_batch base_offset producer_id producer_epoch marker timestamp) with
  | Ok b => b
  | _ => []
  end.

End WithLibraries.

(** * Varints *)

Lemma push_uvarint_eq fuel v : 0 <= v -> push_uvarint fuel v = uvarint_bytes fuel v.
Proof.
  revert v. induction fuel as [|fuel IH]; intros v Hv; cbn [push_uvarint]; [done|].
  rewrite uvarint_bytes_S, lor128_u8, IH by (by apply Z.shiftr_nonneg).
  destruct (Z.leb_spec 128 v), (Z.ltb_spec v 128); try lia; [done|].
  f_equal. unfold wrap_u. apply Z.mod_small. lia.
Qed.

Lemma encode_varint_eq v : in_s 32 v -> encode_varint v = uvarint_bytes 4 (zigzag v).
Proof.
  intros Hv. unfold encode_varint. change 31 with (32 - 1).
  rewrite zigzag_xor_encode by (lia || done).
  apply push_uvarint_eq, (zigzag_range 32); [lia|done].
Qed.

Lemma encode_varlong_eq v : in_s 64 v -> encode_varlong v = uvarint_bytes 9 (zigzag v).
Proof.
  intros Hv. unfold encode_varlong. change 63 with (64 - 1).
  rewrite zigzag_xor_encode by (lia || done).
  apply push_uvarint_eq, (zigzag_range 64); [lia|done].
Qed.

Lemma parses_varint v : in_s 32 v -> parses decode_varint (encode_varint v) v.
Proof.
  intros Hv. rewrite encode_varint_eq by done.
  pose proof (zigzag_range 32 v ltac:(lia) Hv) as Hz.
  eapply parses_bind_nil; [apply varint_roundtrip; [intros; lia|lia|done|lia]|].
  cbn beta. rewrite zigzag_xor_decode, unzigzag_zigzag by (lia || done). apply parses_ret.
Qed.

Lemma parses_varlong v : in_s 64 v -> parses decode_varlong (encode_varlong v) v.
Proof.
  intros Hv. rewrite encode_varlong_eq by done.
  pose proof (zigzag_range 64 v ltac:(lia) Hv) as Hz.
  eapply parses_bind_nil; [apply varint_roundtrip; [intros; lia|lia|done|lia]|].
  cbn beta. rewrite zigzag_xor_decode, unzigzag_zigzag by (lia || done). apply parses_ret.
Qed.

(** * Records *)

Definition opt_ok (bound : Z) (b : option bytes) : Prop :=
  match b with Some b => len b <= bound | None => True end.

Definition header_ok (h : RecordHeader) : Prop :=
  len (h_key h) <= 10000 /\ utf8_valid (h_key h) = true /\ opt_ok 1000000 (h_value h).

(** What a record must satisfy to be read back: fields in range, and headers within
    the limits the decoder enforces. *)
Definition record_ok (r : KafkaRecord) : Prop :=
  in_s 8 (r_attributes r) /\ in_s 64 (timestamp_delta r) /\ in_s 32 (offset_delta r)
  /\ opt_ok (2 ^ 31 - 1) (r_key r) /\ opt_ok (2 ^ 31 - 1) (r_value r)
  /\ Z.of_nat (length (r_headers r)) <= 1000 /\ Forall header_ok (r_headers r)
  /\ len (record_buf r) < 2 ^ 31.

Definition with_length (r : KafkaRecord) : KafkaRecord :=
  mkKafkaRecord (len (record_buf r)) (r_attributes r) (timestamp_delta r) (offset_delta r)
    (r_key r) (r_value r) (r_headers r).

Lemma parses_len n : 0 <= n < 2 ^ 31 -> parses decode_varint (encode_varint (as_i32 n)) n.
Proof.
  intros Hn. rewrite wrap_s_id by (unfold in_s; lia). apply parses_varint. unfold in_s. lia.
Qed.

Lemma parses_nullable m b :
  opt_ok (2 ^ 31 - 1) b -> parses (read_nullable m) (encode_nullable b) b.
Proof.
  intros Hb. destruct b as [b|]; cbn [encode_nullable].
  - cbn in Hb. pose proof (len_nonneg b).
    eapply parses_bind; [apply parses_len; lia|]. cbn beta.
    destruct (Z.leb_spec 0 (len b)); [|lia].
    eapply parses_bind_nil; [by apply parses_take|apply parses_ret].
  - eapply parses_bind_nil; [apply parses_varint; unfold in_s; lia|apply parses_ret].
Qed.

Lemma parses_record_header h : header_ok h -> parses decode_header (encode_header h) h.
Proof.
  destruct h as [k v]. intros (Hk & Hu & Hv). unfold encode_header, decode_header. cbn in *.
  pose proof (len_nonneg k).
  eapply parses_bind; [apply parses_len; lia|]. cbn beta.
  destruct (Z.ltb_spec (len k) 0), (Z.ltb_spec 10000 (len k)); try lia. cbn [orb].
  eapply parses_bind; [by apply parses_take|].
  eapply parses_bind_pure; [by apply parses_utf8|].
  destruct v as [v|]; cbn [encode_nullable].
  - cbn in Hv. pose proof (len_nonneg v).
    eapply parses_bind; [apply parses_len; lia|]. cbn beta.
    destruct (Z.leb_spec 0 (len v)); [|lia]. destruct (Z.ltb_spec 1000000 (len v)); [lia|].
    eapply parses_bind_nil; [by apply parses_take|apply parses_ret].
  - eapply parses_bind_nil; [apply parses_varint; unfold in_s; lia|apply parses_ret].
Qed.

Lemma parses_record r : record_ok r -> parses decode_record (encode_record r) (with_length r).
Proof.
  intros (Ha & Ht & Ho & Hk & Hv & Hn & Hhs & Hl). unfold encode_record, decode_record.
  eapply parses_bind; [apply parses_len; pose proof (len_nonneg (record_buf r)); lia|].
  set (L := len (record_buf r)). unfold with_length. fold L. unfold record_buf.
  change [as_u8 (r_attributes r)] with (be_bytes 1 (r_attributes r)).
  eapply parses_bind; [by apply parses_be_s; [lia|]|].
  eapply parses_bind; [by apply parses_varlong|].
  eapply parses_bind; [by apply parses_varint|].
  eapply parses_bind; [by apply parses_nullable|].
  eapply parses_bind; [by apply parses_nullable|].
  eapply parses_bind; [apply parses_len; lia|]. cbn beta.
  destruct (Z.ltb_spec (Z.of_nat (length (r_headers r))) 0),
    (Z.ltb_spec 1000 (Z.of_nat (length (r_headers r)))); try lia. cbn [orb].
  eapply parses_bind_nil; [|apply parses_ret].
  apply parses_repeat; [by rewrite Nat2Z.id|].
  eapply Forall_impl; [exact Hhs|]. intros h Hh. by apply parses_record_header.
Qed.

Lemma encode_varint_nonempty v : exists b t, encode_varint v = b :: t.
Proof. unfold encode_varint. cbn [push_uvarint]. case_match; by eexists _, _. Qed.

Lemma encode_record_nonempty r : exists b t, encode_record r = b :: t.
Proof.
  unfold encode_record. destruct (encode_varint_nonempty (as_i32 (len (record_buf r)))) as (b & t & ->).
  by eexists _, _.
Qed.

Lemma decode_records_loop_encoded rs rest : forall fuel n,
  Forall record_ok rs -> 0 <= n -> (length rs <= fuel)%nat ->
  decode_records_loop fuel (n + Z.of_nat (length rs)) n (concat (encode_record <$> rs) ++ rest)
  = Ok (with_length <$> rs).
Proof.
  induction rs as [|r rs IH]; intros fuel n Hrs Hn Hf.
  - cbn [fmap list_fmap concat app length]. rewrite Z.add_0_r.
    unfold decode_records_loop. destruct rest; [by destruct fuel|].
    destruct fuel; destruct (Z.leb_spec 0 n), (Z.leb_spec n n); (done || lia).
  - apply Forall_cons in Hrs as [Hr Hrs]. destruct fuel as [|fuel]; [cbn in Hf; lia|].
    cbn [fmap list_fmap concat]. rewrite <- app_assoc.
    destruct (encode_record_nonempty r) as (b & t & E).
    cbn [decode_records_loop]. rewrite E at 1. cbn [app].
    destruct (Z.leb_spec (n + Z.of_nat (length (r :: rs))) n); [cbn in *; lia|].
    rewrite andb_false_r, (parses_record r Hr). cbn [mbind res_bind].
    replace (n + Z.of_nat (length (r :: rs))) with (n + 1 + Z.of_nat (length rs)) by (cbn; lia).
    rewrite IH by (cbn in *; (done || lia)). done.
Qed.

Lemma length_concat_records rs : (length rs <= length (concat (encode_record <$> rs)))%nat.
Proof.
  induction rs as [|r rs IH]; cbn [fmap list_fmap concat length]; [lia|]. rewrite length_app.
  destruct (encode_record_nonempty r) as (b & t & ->). cbn. lia.
Qed.

Lemma decode_records_encoded rs rest :
  Forall record_ok rs ->
  decode_records (concat (encode_record <$> rs) ++ rest) (Z.of_nat (length rs))
  = Ok (with_length <$> rs).
Proof.
  intros Hrs. unfold decode_records. rewrite <- (Z.add_0_l (Z.of_nat _)).
  apply decode_records_loop_encoded; [done|lia|].
  rewrite length_app. pose proof (length_concat_records rs). lia.
Qed.

(** ** The bound on the record loop is enough *)

Lemma shrinks_decode_varint : shrinks decode_varint.
Proof. unfold decode_varint. shrinks_auto. Qed.
Lemma shrinks_decode_header : shrinks decode_header.
Proof. unfold decode_header, decode_varint. shrinks_auto. Qed.

Lemma decode_record_consumes bs r rest :
  decode_record bs = Ok (r, rest) -> (length rest < length bs)%nat.
Proof.
  unfold decode_record. intros H. unfold mbind at 1, rd_bind at 1 in H.
  destruct (decode_varint bs) as [[n r1]| |] eqn:E; try done.
  assert (length r1 < length bs)%nat.
  { unfold decode_varint, mbind, rd_bind in E.
    destruct (varint_loop _ _ _ _ _ _ bs) as [[v r2]| |] eqn:E2; try done.
    injection E as _ <-. by eapply varint_loop_consumes. }
  assert (length rest <= length r1)%nat; [|lia].
  revert H. generalize r rest. generalize r1. clear.
  unfold read_nullable, decode_varlong, decode_varint, read_i8.
  match goal with |- forall r1 r rest, ?p r1 = _ -> _ => change (shrinks p) end.
  shrinks_auto. apply shrinks_repeat, shrinks_decode_header.
Qed.

Lemma decode_records_loop_fuel fuel1 : forall fuel2 count n data,
  (length data <= fuel1)%nat -> (length data <= fuel2)%nat ->
  decode_records_loop fuel1 count n data = decode_records_loop fuel2 count n data.
Proof.
  induction fuel1 as [|fuel1 IH]; intros [|fuel2] count n [|b data] H1 H2;
    try done; try (cbn in *; lia).
  cbn [decode_records_loop]. destruct (_ && _); [done|].
  destruct (decode_record (b :: data)) as [[r rest]|e|] eqn:E; cbn [mbind res_bind]; try done.
  apply decode_record_consumes in E. by rewrite (IH fuel2) by (cbn in *; lia).
Qed.

(** * Batches on the wire *)
Section Batch.
Context `{!Crc32c, !BlockCodec}.

Definition header_fields_ok (h : RecordBatchHeader) : Prop :=
  in_s 64 (base_offset h) /\ in_s 32 (partition_leader_epoch h) /\ magic h = MAGIC_V2
  /\ in_u 16 (attributes h) /\ in_s 32 (last_offset_delta h)
  /\ in_s 64 (base_timestamp h) /\ in_s 64 (max_timestamp h) /\ in_s 64 (producer_id h)
  /\ in_s 16 (producer_epoch h) /\ in_s 32 (base_sequence h) /\ in_s 32 (records_count h).

(** The bytes of a batch with the given length and CRC fields. *)
Definition batch_wire (h : RecordBatchHeader) (bl c : Z) (z : bytes) : bytes :=
  be_bytes 8 (base_offset h) ++ be_bytes 4 bl ++ be_bytes 4 (partition_leader_epoch h)
  ++ be_bytes 1 (magic h) ++ be_bytes 4 c ++ crc_region h z.

Definition with_wire (h : RecordBatchHeader) (bl c : Z) : RecordBatchHeader :=
  mkRecordBatchHeader (base_offset h) bl (partition_leader_epoch h) (magic h) c
    (attributes h) (last_offset_delta h) (base_timestamp h) (max_timestamp h)
    (producer_id h) (producer_epoch h) (base_sequence h) (records_count h).

Lemma len_batch_wire h bl c z : len (batch_wire h bl c z) = 61 + len z.
Proof. unfold batch_wire, crc_region. rewrite !len_app, !len_be_bytes. lia. Qed.

Lemma batch_wire_app h bl c z rest :
  batch_wire h bl c z ++ rest = batch_wire h bl c (z ++ rest).
Proof. unfold batch_wire, crc_region. by rewrite <- !app_assoc. Qed.

Lemma encode_wire b z :
  encode_records b = Ok z ->
  encode b = Ok (batch_wire (header b) (as_i32 (49 + len z))
                   (crc32c (crc_region (header b) z)) z).
Proof.
  intros Hz. unfold encode, batch_wire. rewrite Hz. cbn [mbind res_bind]. cbv zeta.
  rewrite !len_app, !len_be_bytes.
  assert (len (crc_region (header b) z) = 40 + len z) as ->
    by (unfold crc_region; rewrite !len_app, !len_be_bytes; lia).
  replace (_ - Z.of_nat 8 - 4) with (49 + len z) by lia.
  rewrite (splice_app 8) by (rewrite ?length_be_bytes; done).
  set (bl := be_bytes 4 (as_i32 (49 + len z))).
  assert (forall x, be_bytes 8 (base_offset (header b)) ++ bl
    ++ be_bytes 4 (partition_leader_epoch (header b)) ++ be_bytes 1 (magic (header b)) ++ x
    = (be_bytes 8 (base_offset (header b)) ++ bl
    ++ be_bytes 4 (partition_leader_epoch (header b)) ++ be_bytes 1 (magic (header b))) ++ x)
    as Hassoc by (intros; by rewrite <- !app_assoc).
  rewrite !Hassoc. set (hd := _ ++ bl ++ _ ++ _).
  assert (length hd = 17%nat) as Hl by (unfold hd, bl; rewrite !length_app, !length_be_bytes; done).
  rewrite splice_app by (rewrite ?length_be_bytes; done).
  assert (drop (17 + 4) (hd ++ be_bytes 4 0 ++ crc_region (header b) z)
          = crc_region (header b) z) as ->; [|done].
  rewrite app_assoc. apply drop_app_length'. by rewrite length_app, Hl, length_be_bytes.
Qed.

Lemma wire_magic h bl c z : magic h = MAGIC_V2 -> nth 16 (batch_wire h bl c z) 0 = 2.
Proof.
  intros Hm. unfold batch_wire. rewrite Hm. rewrite (app_assoc (be_bytes 8 _)), app_assoc.
  rewrite app_nth2; rewrite ?length_app, ?length_be_bytes; [done|lia].
Qed.

(** Decoding a v2 batch comes down to its records section; the CRC field is carried
    along, and the section runs to the end of the buffer. *)
Lemma decode_wire depth h bl c z :
  header_fields_ok h -> in_s 32 bl -> in_u 32 c ->
  as_usize (12 + as_usize bl) <= 61 + len z ->
  decode depth (batch_wire h bl c z) =
  (d ← decompress_records (from_attributes (attributes h)) z;
   rs ← decode_records d (records_count h);
   Ok (mkKafkaRecordBatch (with_wire h bl c) rs (Some z), as_usize (12 + as_usize bl))).
Proof.
  intros (H1 & H2 & H3 & H4 & H5 & H6 & H7 & H8 & H9 & H10 & H11) Hbl Hc Hlen.
  pose proof (len_batch_wire h bl c z) as Hl. pose proof (len_nonneg z).
  unfold decode. rewrite bool_decide_eq_false_2 by (intros E; rewrite E, len_nil in Hl; lia).
  rewrite Hl. destruct (Z.ltb_spec (61 + len z) 17); [lia|].
  rewrite wire_magic by done. change ((2 =? MAGIC_V0) || (2 =? MAGIC_V1)) with false.
  cbv iota zeta. unfold batch_wire, crc_region.
  unfold read_i64, read_i32, read_i16, read_i8, read_u16, read_u32.
  rewrite (parses_be_s _ 8) by (lia || done). cbn [mbind res_bind].
  rewrite (parses_be_s _ 4) by (lia || done). cbn [mbind res_bind].
  destruct (Z.ltb_spec (61 + len z) (as_usize (12 + as_usize bl))); [lia|].
  rewrite (parses_be_s _ 4) by (lia || done). cbn [mbind res_bind].
  rewrite H3, (parses_be_s _ 1) by (lia || (unfold in_s, MAGIC_V2; lia)). cbn [mbind res_bind].
  change (negb (MAGIC_V2 =? MAGIC_V2)) with false. cbv iota.
  rewrite (parses_be_u _ 4) by done. cbn [mbind res_bind].
  rewrite (parses_be_u _ 2) by done. cbn [mbind res_bind].
  rewrite (parses_be_s _ 4) by (lia || done). cbn [mbind res_bind].
  do 3 (rewrite (parses_be_s _ 8) by (lia || done); cbn [mbind res_bind]).
  rewrite (parses_be_s _ 2) by (lia || done). cbn [mbind res_bind].
  do 2 (rewrite (parses_be_s _ 4) by (lia || done); cbn [mbind res_bind]).
  unfold with_wire. by rewrite H3.
Qed.

(** The length field [encode] writes spans the batch. *)
Lemma encoded_length z : 49 + len z < 2 ^ 31 ->
  in_s 32 (as_i32 (49 + len z)) /\ as_usize (12 + as_usize (as_i32 (49 + len z))) = 61 + len z.
Proof.
  intros Hlt. pose proof (len_nonneg z). split; [apply wrap_s_range; lia|].
  rewrite (wrap_s_id 32) by (unfold in_s; lia).
  rewrite (wrap_u_id 64 (49 + len z)), wrap_u_id by (unfold in_u; lia). lia.
Qed.

(** A raw snappy block the decoder does not mistake for the Xerial framing. *)
Definition not_xerial (z : bytes) : Prop :=
  (16 <? len z) && starts_with XERIAL_HEADER z = false.

Lemma decompress_encoded b z :
  encode_records b = Ok z -> not_xerial z ->
  decompress_records (from_attributes (attributes (header b))) z
  = Ok (concat (encode_record <$> records b)).
Proof.
  unfold encode_records, decompress_records, decompress_snappy. intros Hz Hx.
  destruct (from_attributes _); [by injection Hz as ->| | | | ];
    rewrite ?Hx; by eapply decompress_compress.
Qed.

(** A batch [encode] can represent. *)
Definition kafka_batch_ok (b : KafkaRecordBatch) : Prop :=
  header_fields_ok (header b) /\ records_count (header b) = Z.of_nat (length (records b))
  /\ Forall record_ok (records b).

(** Its form after a round trip. *)
Definition decoded_batch (b : KafkaRecordBatch) (z : bytes) : KafkaRecordBatch :=
  mkKafkaRecordBatch
    (with_wire (header b) (49 + len z) (crc32c (crc_region (header b) z)))
    (with_length <$> records b) (Some z).

Lemma splice_crc h bl c c' z :
  splice 17 (be_bytes 4 c') (batch_wire h bl c z) = batch_wire h bl c' z.
Proof.
  unfold batch_wire.
  rewrite 3 app_assoc, splice_app by (rewrite ?length_app, ?length_be_bytes; done).
  by rewrite <- 3 app_assoc.
Qed.

(** The record and the batch of an end-of-transaction marker. *)
Lemma end_txn_len bo pid pe m ts :
  len (concat (encode_record <$> records (end_txn_batch bo pid pe m ts))) = 17
  /\ not_xerial (concat (encode_record <$> records (end_txn_batch bo pid pe m ts))).
Proof.
  unfold end_txn_batch, kafka_add_record. cbn. rewrite Z.sub_diag, app_nil_r.
  destruct m; vm_compute; split; reflexivity.
Qed.

Lemma end_txn_batch_ok bo pid pe m ts :
  in_s 64 bo -> in_s 64 pid -> in_s 16 pe -> in_s 64 ts ->
  kafka_batch_ok (end_txn_batch bo pid pe m ts).
Proof.
  intros Hbo Hpid Hpe Hts. unfold end_txn_batch, kafka_add_record, kafka_batch_ok. cbn.
  rewrite Z.sub_diag. split; [|split; [done|]].
  - unfold header_fields_ok. cbn. destruct (Z.ltb_spec ts ts); [lia|].
    split_and!; first [assumption|concrete].
  - destruct m; concrete.
Qed.

Lemma decode_encoded depth b z :
  kafka_batch_ok b -> encode_records b = Ok z -> not_xerial z -> 49 + len z < 2 ^ 31 ->
  decode depth (batch_wire (header b) (as_i32 (49 + len z)) (crc32c (crc_region (header b) z)) z)
  = Ok (decoded_batch b z, 61 + len z).
Proof.
  intros (Hh & Hc & Hrs) Hz Hx Hl. destruct (encoded_length z Hl) as [Hbl Htot].
  rewrite decode_wire by (done || apply crc32c_u32 || lia).
  rewrite (decompress_encoded _ _ Hz Hx), Hc, Htot. cbn [mbind res_bind].
  rewrite <- (app_nil_r (concat _)), decode_records_encoded by done.
  cbn [mbind res_bind]. unfold decoded_batch.
  pose proof (len_nonneg z). by rewrite wrap_s_id by (unfold in_s; lia).
Qed.

End Batch.

(** * Legacy message sets *)

(** A v1 message as it stands on the wire: offset, checksum, attributes, timestamp, key and
    value.  The checksum is any 32-bit number: the decoder reads it and does not verify it. *)
Record v1_message : Type := mkV1 {
  m_offset : Z;
  m_crc : Z;
  m_attributes : Z;
  m_timestamp : Z;
  m_key : option bytes;
  m_value : option bytes }.

Definition legacy_bytes (b : option bytes) : bytes :=
  match b with Some b => be_bytes 4 (len b) ++ b | None => be_bytes 4 (-1) end.

Definition v1_body (m : v1_message) : bytes :=
  be_bytes 4 (m_crc m) ++ be_bytes 1 MAGIC_V1 ++ be_bytes 1 (m_attributes m) ++ be_bytes 8 (m_timestamp m)
  ++ legacy_bytes (m_key m) ++ legacy_bytes (m_value m).

Definition v1_wire (m : v1_message) : bytes :=
  be_bytes 8 (m_offset m) ++ be_bytes 4 (len (v1_body m)) ++ v1_body m.

(** The message is not compressed (bits 0 to 2 of its attributes are clear, the others, the
    timestamp type among them, are free), and its fields fit their widths. *)
Definition v1_ok (bo bt : Z) (m : v1_message) : Prop :=
  in_u 32 (m_crc m) /\ in_s 8 (m_attributes m) /\ Z.land (m_attributes m) 7 = 0
  /\ in_s 64 (m_offset m) /\ in_s 64 (m_timestamp m)
  /\ in_s 32 (m_offset m - bo) /\ bt <= m_timestamp m < bt + 2 ^ 63
  /\ opt_ok (2 ^ 31 - 1) (m_key m) /\ opt_ok (2 ^ 31 - 1) (m_value m)
  /\ len (v1_body m) < 2 ^ 31.

(** The record a message becomes, relative to the base of its set. *)
Definition v1_record (bo bt : Z) (m : v1_message) : KafkaRecord :=
  mkKafkaRecord 0 0 (m_timestamp m - bt) (m_offset m - bo) (m_key m) (m_value m) [].

Section Legacy.
Context `{!BlockCodec}.

Lemma parses_legacy_bytes e b :
  opt_ok (2 ^ 31 - 1) b -> parses (read_legacy_bytes e) (legacy_bytes b) b.
Proof.
  intros Hb. destruct b as [b|]; cbn [legacy_bytes].
  - cbn in Hb. pose proof (len_nonneg b).
    eapply parses_bind; [apply parses_be_s; [lia|]; unfold in_s; lia|]. cbn beta.
    destruct (Z.leb_spec 0 (len b)); [|lia].
    eapply parses_bind_nil; [by apply parses_take|apply parses_ret].
  - eapply parses_bind_nil; [apply parses_be_s; [lia|]; unfold in_s; lia|apply parses_ret].
Qed.

Lemma from_attributes_none (a : Z) : Z.land a 7 = 0 -> from_attributes (as_u16 a) = CNone.
Proof.
  intros Ha. unfold from_attributes, COMPRESSION_CODEC_MASK, wrap_u.
  rewrite <- Z.land_ones, <- Z.land_assoc by lia.
  change (Z.land (Z.ones 16) 7) with 7. by rewrite Ha.
Qed.

(** One uncompressed v1 message, once the base offset and timestamp are set. *)
Lemma legacy_message_v1 nested bo bt m st :
  v1_ok bo bt m -> l_base_offset st = bo ->
  l_base_timestamp st = bt \/ (l_base_timestamp st = 0 /\ m_timestamp m = bt) -> bt <> 0 ->
  parses (legacy_message nested (m_offset m) st) (v1_body m)
    (mkLegacy (l_records st ++ [v1_record bo bt m]) bo bt
       (Z.max (l_max_timestamp st) (m_timestamp m))).
Proof.
  intros (Hc & Ha & Ha7 & Ho & Ht & Hd & Hbt & Hk & Hv & _) <- Hb Hnz. unfold legacy_message, v1_body.
  eapply parses_bind; [by apply parses_be_u|].
  eapply parses_bind; [apply parses_be_s; [lia|]; unfold in_s, MAGIC_V1; lia|].
  eapply parses_bind; [by apply parses_be_s; [lia|]|]. cbv zeta.
  eapply parses_bind.
  { unfold legacy_timestamp. change (MAGIC_V1 =? MAGIC_V1) with true. cbv iota.
    eapply parses_bind_nil; [by apply parses_be_s; [lia|]|]. cbv zeta. apply parses_ret. }
  cbv beta iota.
  eapply parses_bind; [by apply parses_legacy_bytes|].
  eapply parses_bind_nil; [by apply parses_legacy_bytes|].
  rewrite (from_attributes_none _ Ha7).
  rewrite bool_decide_eq_false_2 by (intros Hne; by apply Hne). cbn [andb].
  eapply parses_eq; [apply parses_ret|done|].
  unfold legacy_push, v1_record. cbn [l_records l_base_offset l_base_timestamp l_max_timestamp].
  assert ((if (l_base_timestamp st =? 0) || (m_timestamp m <? l_base_timestamp st)
           then m_timestamp m else l_base_timestamp st) = bt) as ->.
  { destruct (Z.eqb_spec (l_base_timestamp st) 0); [cbn; lia|].
    destruct (Z.ltb_spec (m_timestamp m) (l_base_timestamp st)); cbn; lia. }
  rewrite !wrap_s_id by (lia || done || (unfold in_s in *; lia)).
  f_equal. destruct (Z.ltb_spec (l_max_timestamp st) (m_timestamp m)); lia.
Qed.

(** One iteration of the loop on a complete message. *)
Lemma legacy_loop_step nested bo bt m st tl fuel :
  v1_ok bo bt m -> bt <> 0 ->
  (l_base_offset st = bo /\ bo <> 0) \/ (l_base_offset st = 0 /\ m_offset m = bo) ->
  l_base_timestamp st = bt \/ (l_base_timestamp st = 0 /\ m_timestamp m = bt) ->
  legacy_loop (S fuel) nested st (v1_wire m ++ tl)
  = legacy_loop fuel nested
      (mkLegacy (l_records st ++ [v1_record bo bt m]) bo bt
         (Z.max (l_max_timestamp st) (m_timestamp m))) tl.
Proof.
  intros Hm Hbt Hso Hst. pose proof Hm as (_ & _ & _ & Ho & _ & _ & _ & _ & _ & Hl).
  pose proof (len_nonneg (v1_body m)). pose proof (len_nonneg tl).
  cbn [legacy_loop]. unfold v1_wire. rewrite !len_app, !len_be_bytes.
  destruct (Z.ltb_spec (Z.of_nat 8 + (Z.of_nat 4 + len (v1_body m)) + len tl) 12); [lia|].
  rewrite <- !app_assoc. unfold read_i64, read_i32.
  rewrite (parses_be_s _ 8) by (lia || done). cbn [mbind res_bind].
  rewrite (parses_be_s _ 4) by (lia || (unfold in_s; lia)). cbn [mbind res_bind].
  rewrite len_app, (wrap_u_id 64) by (unfold in_u; lia).
  destruct (Z.ltb_spec (len (v1_body m) + len tl) (len (v1_body m))); [lia|].
  destruct (Z.eqb_spec (l_base_offset st) 0) as [E|E].
  - rewrite (legacy_message_v1 nested bo bt) by (done || (cbn; lia)). done.
  - rewrite (legacy_message_v1 nested bo bt) by (done || lia). done.
Qed.

Lemma legacy_loop_nil fuel nested st : legacy_loop fuel nested st [] = Ok (st, []).
Proof. by destruct fuel. Qed.

Lemma v1_wire_magic m tl : nth 16 (v1_wire m ++ tl) 0 = MAGIC_V1 /\ 17 <= len (v1_wire m ++ tl).
Proof.
  unfold v1_wire, v1_body. pose proof (len_nonneg tl).
  set (n := be_bytes 4 (len _)). assert (length n = 4%nat) as Hn by apply length_be_bytes.
  set (x := _ ++ legacy_bytes _ ++ _). clearbody n. pose proof (len_nonneg x). split.
  - rewrite (app_assoc n), (app_assoc (be_bytes 8 _)), <- app_assoc.
    rewrite app_nth2; rewrite !length_app, !length_be_bytes, Hn; [done|lia].
  - rewrite !len_app, !len_be_bytes. unfold len at 1. rewrite Hn. lia.
Qed.

(** A set that begins with a v1 message takes the legacy path. *)
Lemma decode_v1 depth m ms :
  decode depth (concat (v1_wire <$> m :: ms))
  = decode_legacy_message_set depth (concat (v1_wire <$> m :: ms)).
Proof.
  cbn [fmap list_fmap concat]. set (tl := concat _).
  destruct (v1_wire_magic m tl) as [Hm Hl]. unfold decode.
  rewrite bool_decide_eq_false_2 by (intros E; rewrite E, len_nil in Hl; lia).
  destruct (Z.ltb_spec (len (v1_wire m ++ tl)) 17); [lia|]. rewrite Hm. done.
Qed.

Lemma legacy_loop_v1 nested bo bt ms : forall fuel st,
  Forall (v1_ok bo bt) ms -> bo <> 0 -> bt <> 0 ->
  l_base_offset st = bo -> l_base_timestamp st = bt -> (length ms <= fuel)%nat ->
  legacy_loop fuel nested st (concat (v1_wire <$> ms))
  = Ok (mkLegacy (l_records st ++ (v1_record bo bt <$> ms)) bo bt
          (foldl (fun a m => Z.max a (m_timestamp m)) (l_max_timestamp st) ms), []).
Proof.
  induction ms as [|m ms IH]; intros fuel st Hms Hbo Hbt Hso Hst Hf.
  - destruct st; cbn in *; subst. destruct fuel; cbn; by rewrite app_nil_r.
  - apply Forall_cons in Hms as [Hm Hms]. destruct fuel as [|fuel]; [cbn in Hf; lia|].
    cbn [fmap list_fmap concat]. rewrite (legacy_loop_step nested bo bt) by auto.
    rewrite IH by (cbn in *; (done || lia)). cbn [l_records l_max_timestamp].
    by rewrite <- app_assoc.
Qed.

Lemma length_v1_wires ms : (length ms <= length (concat (v1_wire <$> ms)))%nat.
Proof.
  induction ms as [|m ms IH]; cbn [fmap list_fmap concat length]; [lia|].
  unfold v1_wire at 1. rewrite !length_app, !length_be_bytes. lia.
Qed.

End Legacy.

(** What an end-of-transaction marker decodes to. *)
Lemma end_txn_decoded `{!Crc32c, !BlockCodec} (depth : nat)
    (bo pid pe : Z) (m : ControlMarker) (ts : Z) :
  in_s 64 bo -> in_s 64 pid -> in_s 16 pe -> in_s 64 ts ->
  exists b r,
    decode depth (build_end_txn_marker bo pid pe m ts)
    = Ok (b, len (build_end_txn_marker bo pid pe m ts))
    /\ records b = [r] /\ offset_delta r = 0 /\ timestamp_delta r = 0
    /\ r_key r = Some [0; 0; 0; marker_code m]
    /\ base_offset (header b) = bo /\ producer_id (header b) = pid
    /\ producer_epoch (header b) = pe /\ max_timestamp (header b) = ts
    /\ attributes (header b) = TRANSACTIONAL_FLAG + CONTROL_FLAG.
Proof.
  intros Hbo Hpid Hpe Hts. pose proof (end_txn_batch_ok bo pid pe m ts Hbo Hpid Hpe Hts) as Hok.
  set (b := end_txn_batch bo pid pe m ts) in *.
  assert (encode_records b = Ok (concat (encode_record <$> records b))) as Hz by done.
  pose proof (end_txn_len bo pid pe m ts) as [Hlen Hx]. fold b in Hlen, Hx.
  unfold build_end_txn_marker. fold b. rewrite (encode_wire _ _ Hz).
  eexists _, _. rewrite decode_encoded, len_batch_wire
    by (done || (rewrite Hlen; lia)).
  split; [done|]. unfold decoded_batch, b, end_txn_batch. cbn.
  rewrite Z.sub_diag. change (max_timestamp _) with ts.
  destruct (Z.ltb_spec ts ts); [lia|]. destruct m; repeat split; done.
Qed.

(** The batches [new] and [add_record] build. *)
Inductive kafka_built (bo bt pid pe bs : Z) (c : CompressionType) (txn : bool)
    : KafkaRecordBatch -> Prop :=
| kafka_built_new : kafka_built bo bt pid pe bs c txn (kafka_batch_new bo bt pid pe bs c txn)
| kafka_built_add k v hs ts b :
    kafka_built bo bt pid pe bs c txn b -> in_s 64 ts ->
    kafka_built bo bt pid pe bs c txn (kafka_add_record k v hs ts b).

(** * Properties *)

(** Every [i32] and every [i64] survives the zig-zag varint coding of the
    storage crate, in at most five and ten bytes. *)
Theorem storage_varint_roundtrip (v : Z) (rest : bytes) :
  (in_s 32 v -> decode_varint (encode_varint v ++ rest) = Ok (v, rest)
                /\ 1 <= len (encode_varint v) <= 5)
  /\ (in_s 64 v -> decode_varlong (encode_varlong v ++ rest) = Ok (v, rest)
                   /\ 1 <= len (encode_varlong v) <= 10).
Proof.
  split; intros Hv; (split; [by apply parses_varint || by apply parses_varlong|]).
  - rewrite encode_varint_eq by done. pose proof (uvarint_bytes_length 4 (zigzag v)).
    unfold len. lia.
  - rewrite encode_varlong_eq by done. pose proof (uvarint_bytes_length 9 (zigzag v)).
    unfold len. lia.
Qed.

Lemma storage_varint_roundtrip_witness :
  decode_varint (encode_varint (- 2 ^ 31) ++ []) = Ok (- 2 ^ 31, [])
  /\ 1 <= len (encode_varint (- 2 ^ 31)) <= 5.
Proof. apply (proj1 (storage_varint_roundtrip (- 2 ^ 31) [])). unfold in_s. lia. Defined.

(** [C9] Encoding a batch and decoding it gives the batch back: the same header
    fields with the length and checksum filled in, the same records with their
    lengths, and exactly the encoded bytes consumed.  The length field spans the
    rest of the batch and the checksum covers the bytes from the attributes on.
    This holds for every compressor and checksum implementation; a snappy block
    must not begin with the Xerial marker. *)
Theorem kafka_batch_roundtrip `{!Crc32c, !BlockCodec} (depth : nat) (b : KafkaRecordBatch)
    (z : bytes) :
  kafka_batch_ok b -> encode_records b = Ok z -> not_xerial z -> 49 + len z < 2 ^ 31 ->
  exists out,
    encode b = Ok out /\ decode depth out = Ok (decoded_batch b z, len out).
Proof.
  intros Hok Hz Hx Hl. eexists. split; [by apply encode_wire|].
  rewrite decode_encoded, len_batch_wire by done. done.
Qed.

Definition sample_kafka_batch : KafkaRecordBatch :=
  kafka_add_record None (Some [1; 2; 3]) [] 1005
    (kafka_add_record (Some [7]) (Some [8; 9])
       [mkRecordHeader (bytes_of_string "h") (Some [1])] 1000
       (kafka_batch_new 100 1000 (-1) (-1) (-1) CGzip false)).

Lemma kafka_batch_roundtrip_witness :
  exists out,
    @encode crc32c_bitwise stored_codec sample_kafka_batch = Ok out
    /\ @decode stored_codec 1 out
       = Ok (@decoded_batch crc32c_bitwise sample_kafka_batch
               (0 :: concat (encode_record <$> records sample_kafka_batch)), len out).
Proof.
  refine (@kafka_batch_roundtrip crc32c_bitwise stored_codec 1 sample_kafka_batch
            (0 :: concat (encode_record <$> records sample_kafka_batch)) _ _ _ _);
    [concrete|reflexivity|reflexivity|concrete].
Defined.

(** [C28] Batches built with [new] and [add_record] keep their header in step with
    their records: the record count, the last offset delta, consecutive offset
    deltas from zero, and a maximum timestamp no record exceeds. *)
Theorem kafka_built_consistent (bo bt pid pe bs : Z) (c : CompressionType) (txn : bool)
    (b : KafkaRecordBatch) :
  kafka_built bo bt pid pe bs c txn b -> in_s 64 bt ->
  Z.of_nat (length (records b)) < 2 ^ 31 ->
  records_count (header b) = Z.of_nat (length (records b))
  /\ last_offset_delta (header b) = Z.max 0 (Z.of_nat (length (records b)) - 1)
  /\ offset_delta <$> records b = Z.of_nat <$> seq 0 (length (records b))
  /\ Forall (fun r => as_i64 (bt + timestamp_delta r) <= max_timestamp (header b)) (records b)
  /\ base_timestamp (header b) = bt /\ bt <= max_timestamp (header b).
Proof.
  intros Hb Hbt. induction Hb as [|k v hs ts b Hb IH Hts]; [cbn; intros; repeat split; auto; lia|].
  cbn. rewrite length_app. cbn. intros Hl.
  destruct IH as (H1 & H2 & H3 & H4 & H5 & H6); [lia|].
  rewrite !wrap_s_id by (unfold in_s; lia). split; [lia|]. split; [lia|]. split.
  { rewrite Nat.add_1_r, seq_S, !fmap_app, H3. done. }
  rewrite H5. split; [|split; [done|destruct (Z.ltb_spec (max_timestamp (header b)) ts); lia]].
  apply Forall_app. split.
  - eapply Forall_impl; [exact H4|]. intros r Hr. cbn in Hr.
    destruct (Z.ltb_spec (max_timestamp (header b)) ts); lia.
  - constructor; [|constructor]. cbn. rewrite wrap_s_add_wrap by lia.
    replace (bt + (ts - bt)) with ts by lia. rewrite wrap_s_id by (lia || done).
    destruct (Z.ltb_spec (max_timestamp (header b)) ts); lia.
Qed.

Lemma kafka_built_consistent_witness :
  records_count (header sample_kafka_batch) = 2
  /\ max_timestamp (header sample_kafka_batch) = 1005.
Proof.
  pose proof (kafka_built_consistent 100 1000 (-1) (-1) (-1) CGzip false sample_kafka_batch) as H.
  destruct H as (H & _); [apply kafka_built_add; [apply kafka_built_add; [apply kafka_built_new|]|]; concrete|concrete|concrete|].
  split; [exact H|reflexivity].
Defined.

(** The checksum of a stored batch is never compared: replacing the CRC field of
    an encoded batch by any value still decodes, to the same records. *)
Theorem kafka_crc_unchecked `{!Crc32c, !BlockCodec} (depth : nat) (b : KafkaRecordBatch)
    (z : bytes) (c : Z) :
  kafka_batch_ok b -> encode_records b = Ok z -> not_xerial z -> 49 + len z < 2 ^ 31 ->
  in_u 32 c ->
  exists out b',
    encode b = Ok out
    /\ decode depth (splice 17 (be_bytes 4 c) out) = Ok (b', len out)
    /\ crc (header b') = c /\ records b' = with_length <$> records b.
Proof.
  intros (Hh & Hn & Hrs) Hz Hx Hl Hc. destruct (encoded_length z Hl) as [Hbl Htot].
  eexists _, _. split; [by apply encode_wire|].
  rewrite splice_crc, decode_wire by (done || lia).
  rewrite (decompress_encoded _ _ Hz Hx), Hn, Htot, len_batch_wire. cbn [mbind res_bind].
  rewrite <- (app_nil_r (concat _)), decode_records_encoded by done. done.
Qed.

Lemma kafka_crc_unchecked_witness :
  exists out b',
    @encode crc32c_bitwise stored_codec sample_kafka_batch = Ok out
    /\ @decode stored_codec 1 (splice 17 (be_bytes 4 0) out) = Ok (b', len out)
    /\ crc (header b') = 0 /\ records b' = with_length <$> records sample_kafka_batch.
Proof.
  refine (@kafka_crc_unchecked crc32c_bitwise stored_codec 1 sample_kafka_batch
            (0 :: concat (encode_record <$> records sample_kafka_batch)) 0 _ _ _ _ _);
    [concrete|reflexivity|reflexivity|concrete|concrete].
Defined.

(** Decoding does not stop at the end of the batch: an uncompressed batch followed
    by further bytes reports its own length as consumed and decodes its own records,
    but the raw section it keeps for pass-through also holds the bytes that follow. *)
Theorem kafka_trailing_bytes_kept `{!Crc32c, !BlockCodec} (depth : nat)
    (b : KafkaRecordBatch) (z rest : bytes) :
  kafka_batch_ok b -> from_attributes (attributes (header b)) = CNone ->
  encode_records b = Ok z -> 49 + len z < 2 ^ 31 ->
  exists out b',
    encode b = Ok out /\ decode depth (out ++ rest) = Ok (b', len out)
    /\ records b' = with_length <$> records b
    /\ compressed_records_data b' = Some (z ++ rest).
Proof.
  intros (Hh & Hn & Hrs) Hc Hz Hl. destruct (encoded_length z Hl) as [Hbl Htot].
  eexists _, _. split; [by apply encode_wire|]. pose proof (len_nonneg rest).
  rewrite batch_wire_app, decode_wire, Hc
    by (done || apply crc32c_u32 || (rewrite len_app; lia)).
  unfold encode_records in Hz. rewrite Hc in Hz. injection Hz as <-.
  cbn [decompress_records mbind res_bind].
  rewrite Hn, decode_records_encoded, Htot, len_batch_wire by done. done.
Qed.

Lemma kafka_trailing_bytes_kept_witness :
  exists out b',
    @encode crc32c_bitwise stored_codec (end_txn_batch 5 9 1 MCommit 1000) = Ok out
    /\ @decode stored_codec 1 (out ++ [1; 2; 3]) = Ok (b', len out)
    /\ records b' = with_length <$> records (end_txn_batch 5 9 1 MCommit 1000)
    /\ compressed_records_data b'
       = Some (concat (encode_record <$> records (end_txn_batch 5 9 1 MCommit 1000)) ++ [1; 2; 3]).
Proof.
  refine (@kafka_trailing_bytes_kept crc32c_bitwise stored_codec 1
            (end_txn_batch 5 9 1 MCommit 1000) _ [1; 2; 3] _ _ _ _);
    [concrete|reflexivity|reflexivity|concrete].
Defined.

(** [C26] The control batch that ends a transaction decodes to one record at the base
    offset whose key carries the marker type, in a batch with the transactional and the
    control bit set and no compression, for every producer and offset. *)
Theorem end_txn_marker_roundtrip `{!Crc32c, !BlockCodec} (depth : nat)
    (bo pid pe : Z) (m : ControlMarker) (ts : Z) :
  in_s 64 bo -> in_s 64 pid -> in_s 16 pe -> in_s 64 ts ->
  exists b r,
    decode depth (build_end_txn_marker bo pid pe m ts)
    = Ok (b, len (build_end_txn_marker bo pid pe m ts))
    /\ records b = [r] /\ offset_delta r = 0 /\ timestamp_delta r = 0
    /\ r_key r = Some [0; 0; 0; marker_code m]
    /\ base_offset (header b) = bo /\ producer_id (header b) = pid
    /\ producer_epoch (header b) = pe /\ max_timestamp (header b) = ts
    /\ attributes (header b) = TRANSACTIONAL_FLAG + CONTROL_FLAG.
Proof. apply end_txn_decoded. Qed.

Lemma end_txn_marker_roundtrip_witness :
  exists b r,
    @decode stored_codec 1 (@build_end_txn_marker crc32c_bitwise stored_codec 42 7 3 MAbort 1000)
    = Ok (b, len (@build_end_txn_marker crc32c_bitwise stored_codec 42 7 3 MAbort 1000))
    /\ records b = [r] /\ offset_delta r = 0 /\ timestamp_delta r = 0
    /\ r_key r = Some [0; 0; 0; marker_code MAbort]
    /\ base_offset (header b) = 42 /\ producer_id (header b) = 7
    /\ producer_epoch (header b) = 3 /\ max_timestamp (header b) = 1000
    /\ attributes (header b) = TRANSACTIONAL_FLAG + CONTROL_FLAG.
Proof.
  refine (@end_txn_marker_roundtrip crc32c_bitwise stored_codec 1 42 7 3 MAbort 1000 _ _ _ _);
    concrete.
Defined.

(** [C25] A set of uncompressed v1 messages, with any checksums and any attributes that name no
    codec, whose first offset and timestamp are not zero
    and whose first timestamp is the smallest decodes completely: base offset and base
    timestamp are the first message's, each record has its offset and timestamp relative
    to them, its key and its value, and the whole set is consumed. *)
Theorem legacy_set_decoded `{!BlockCodec} (depth : nat) (m : v1_message) (ms : list v1_message) :
  m_offset m <> 0 -> m_timestamp m <> 0 ->
  Forall (v1_ok (m_offset m) (m_timestamp m)) (m :: ms) ->
  Z.of_nat (length (m :: ms)) < 2 ^ 31 ->
  exists b,
    decode (S depth) (concat (v1_wire <$> m :: ms)) = Ok (b, len (concat (v1_wire <$> m :: ms)))
    /\ records b = v1_record (m_offset m) (m_timestamp m) <$> m :: ms
    /\ base_offset (header b) = m_offset m /\ base_timestamp (header b) = m_timestamp m
    /\ records_count (header b) = Z.of_nat (length (m :: ms)).
Proof.
  intros Ho Ht Hms Hl. eexists. rewrite decode_v1 by done. cbn [decode_legacy_message_set].
  apply Forall_cons in Hms as [Hm Hms].
  pose proof (length_v1_wires (m :: ms)) as Hf. cbn [length] in Hf, Hl.
  destruct (length (concat (v1_wire <$> m :: ms))) as [|fuel]; [lia|].
  cbn [fmap list_fmap concat].
  rewrite (legacy_loop_step _ (m_offset m) (m_timestamp m)) by (cbn; auto).
  rewrite (legacy_loop_v1 _ (m_offset m) (m_timestamp m)) by (cbn; (done || lia)).
  cbn [mbind res_bind l_records app]. rewrite len_nil, Z.sub_0_r. split; [done|].
  cbn. rewrite length_fmap, wrap_s_id by (unfold in_s; lia). done.
Qed.

Definition v1_sample : list v1_message :=
  [mkV1 7 3735928559 0 1000 (Some [1]) (Some [2; 3]); mkV1 8 195948557 8 1004 None (Some [4]);
   mkV1 9 12648430 (-128) 1002 None None].

Lemma legacy_set_decoded_witness :
  exists b,
    @decode stored_codec 1 (concat (v1_wire <$> v1_sample))
    = Ok (b, len (concat (v1_wire <$> v1_sample)))
    /\ records b = v1_record 7 1000 <$> v1_sample
    /\ base_offset (header b) = 7 /\ base_timestamp (header b) = 1000
    /\ records_count (header b) = 3.
Proof.
  refine (@legacy_set_decoded stored_codec 0 (mkV1 7 3735928559 0 1000 (Some [1]) (Some [2; 3]))
            [mkV1 8 195948557 8 1004 None (Some [4]); mkV1 9 12648430 (-128) 1002 None None] _ _ _ _); concrete.
Defined.

(** Offset zero does not count as a base: in a set that starts at offset 0 the base
    moves to the second message, so the messages at offsets 0 and 1 decode to the same
    offset, whatever their keys and values. *)
Theorem legacy_zero_offset_collapses `{!BlockCodec} (depth : nat) (m0 m1 : v1_message) :
  m_offset m0 = 0 -> m_offset m1 = 1 -> m_timestamp m0 <> 0 ->
  v1_ok 0 (m_timestamp m0) m0 -> v1_ok 1 (m_timestamp m0) m1 ->
  exists b n,
    decode (S depth) (concat (v1_wire <$> [m0; m1])) = Ok (b, n)
    /\ base_offset (header b) = 1
    /\ (offset_delta <$> records b) = [0; 0]
    /\ (r_value <$> records b) = [m_value m0; m_value m1].
Proof.
  intros H0 H1 Ht Hok0 Hok1. rewrite decode_v1 by done.
  cbn [fmap list_fmap concat decode_legacy_message_set]. rewrite app_nil_r.
  assert (exists f, length (v1_wire m0 ++ v1_wire m1) = S (S f)) as [fuel ->].
  { unfold v1_wire at 1. rewrite !length_app, !length_be_bytes. cbn. eauto. }
  rewrite (legacy_loop_step _ 0 (m_timestamp m0)) by (cbn; auto).
  rewrite <- (app_nil_r (v1_wire m1)).
  rewrite (legacy_loop_step _ 1 (m_timestamp m0)) by (cbn; auto).
  rewrite (legacy_loop_nil fuel). eexists _, _. split; [reflexivity|].
  cbn. rewrite H0, H1. done.
Qed.

Lemma legacy_zero_offset_collapses_witness :
  exists b n,
    @decode stored_codec 1 (concat (v1_wire <$> [mkV1 0 77 0 5 None (Some [1]); mkV1 1 78 0 5 None (Some [2])]))
    = Ok (b, n)
    /\ base_offset (header b) = 1
    /\ (offset_delta <$> records b) = [0; 0]
    /\ (r_value <$> records b) = [Some [1]; Some [2]].
Proof.
  refine (@legacy_zero_offset_collapses stored_codec 0 (mkV1 0 77 0 5 None (Some [1]))
            (mkV1 1 78 0 5 None (Some [2])) _ _ _ _ _); concrete.
Defined.
