(* ===== verification/WalRecord.v ===== *)
(** The write-ahead log's record format: crates/chronik-wal/src/record.rs.

    A record is a single message (V1) or a batch (V2).  [to_bytes] and [from_bytes]
    are the on-disk coding, [write_to_pooled] the pooled-buffer variant. *)
From stdpp Require Import base list numbers strings.
From Stdlib Require Import ZArith Lia.
From S2P Require Import Prelude Extern.
Local Open Scope Z_scope.

Definition WAL_MAGIC : Z := 51838.
Definition WAL_VERSION_V1 : Z := 1.
Definition WAL_VERSION_V2 : Z := 2.

(** [enum WalRecord]; each variant's fields are a record. *)
Record WalV1 : Type := mkV1 {
  v1_magic : Z;
  v1_version : Z;
  v1_flags : Z;
  v1_length : Z;
  v1_offset : Z;
  v1_timestamp : Z;
  v1_crc32 : Z;
  v1_key : option bytes;
  v1_value : bytes;
  v1_headers : list (bytes * bytes) }.

Record WalV2 : Type := mkV2 {
  v2_magic : Z;
  v2_version : Z;
  v2_flags : Z;
  v2_length : Z;
  v2_crc32 : Z;
  v2_topic : bytes;
  v2_partition : Z;
  v2_canonical_data : bytes;
  v2_base_offset : Z;
  v2_last_offset : Z;
  v2_record_count : Z }.

Inductive WalRecord : Type := V1 (r : WalV1) | V2 (r : WalV2).

#[global] Instance WalV1_eq_dec : EqDecision WalV1.
Proof. solve_decision. Defined.
#[global] Instance WalV2_eq_dec : EqDecision WalV2.
Proof. solve_decision. Defined.
#[global] Instance WalRecord_eq_dec : EqDecision WalRecord.
Proof. solve_decision. Defined.

(** ** Accessors *)

Definition get_length (w : WalRecord) : Z :=
  match w with V1 r => v1_length r | V2 r => v2_length r end.
Definition get_crc32 (w : WalRecord) : Z :=
  match w with V1 r => v1_crc32 r | V2 r => v2_crc32 r end.
Definition get_offset (w : WalRecord) : option Z :=
  match w with V1 r => Some (v1_offset r) | V2 _ => None end.
Definition get_base_offset (w : WalRecord) : Z :=
  match w with V1 r => v1_offset r | V2 r => v2_base_offset r end.
Definition get_last_offset (w : WalRecord) : Z :=
  match w with V1 r => v1_offset r | V2 r => v2_last_offset r end.
Definition get_record_count (w : WalRecord) : Z :=
  match w with V1 _ => 1 | V2 r => v2_record_count r end.
Definition get_topic_partition (w : WalRecord) : option (bytes * Z) :=
  match w with V1 _ => None | V2 r => Some (v2_topic r, v2_partition r) end.
Definition get_canonical_data (w : WalRecord) : option bytes :=
  match w with V1 _ => None | V2 r => Some (v2_canonical_data r) end.
Definition get_key (w : WalRecord) : option bytes :=
  match w with V1 r => v1_key r | V2 _ => None end.
Definition get_value (w : WalRecord) : option bytes :=
  match w with V1 r => Some (v1_value r) | V2 _ => None end.
Definition get_timestamp (w : WalRecord) : option Z :=
  match w with V1 r => Some (v1_timestamp r) | V2 _ => None end.
Definition is_v1 (w : WalRecord) : bool := match w with V1 _ => true | V2 _ => false end.
Definition is_v2 (w : WalRecord) : bool := match w with V1 _ => false | V2 _ => true end.

Definition HEADER : Z := 64.
Definition heap_size (w : WalRecord) : Z :=
  match w with
  | V1 r =>
      as_usize (HEADER + match v1_key r with Some k => len k | None => 0 end
                + len (v1_value r)
                + foldr (fun '(k, v) n => len k + len v + n) 0 (v1_headers r))
  | V2 r => as_usize (HEADER + len (v2_topic r) + len (v2_canonical_data r))
  end.

(** [calculate_length], in wrapping [u32] arithmetic: the whole record for V1, what
    follows the twelve-byte header for V2. *)
Definition calculate_length (w : WalRecord) : Z :=
  match w with
  | V1 r =>
      as_u32 (28 + 4 + match v1_key r with Some k => len k | None => 0 end
              + (4 + len (v1_value r)) + 4
              + foldr (fun '(name, value) n => 2 + len name + 4 + len value + n) 0
                  (v1_headers r))
  | V2 r =>
      as_u32 (2 + len (v2_topic r) + 4 + 4 + len (v2_canonical_data r) + 8 + 8 + 4)
  end.

(** ** Writing

    The field layout, for a given way to put an [n]-byte integer. *)
Section Layout.
Variable put : nat -> Z -> bytes.

Definition put_key (k : option bytes) : bytes :=
  match k with Some k => put 4 (as_i32 (len k)) ++ k | None => put 4 (-1) end.

Definition put_header (h : bytes * bytes) : bytes :=
  put 2 (as_u16 (len h.1)) ++ h.1 ++ put 4 (as_u32 (len h.2)) ++ h.2.

Definition v1_body (r : WalV1) : bytes :=
  put_key (v1_key r) ++ put 4 (as_i32 (len (v1_value r))) ++ v1_value r
  ++ put 4 (as_i32 (Z.of_nat (length (v1_headers r)))) ++ concat (put_header <$> v1_headers r).

Definition v2_body (r : WalV2) : bytes :=
  put 2 (as_u16 (len (v2_topic r))) ++ v2_topic r ++ put 4 (v2_partition r)
  ++ put 4 (as_u32 (len (v2_canonical_data r))) ++ v2_canonical_data r
  ++ put 8 (v2_base_offset r) ++ put 8 (v2_last_offset r) ++ put 4 (v2_record_count r).

Definition write_record (w : WalRecord) : bytes :=
  match w with
  | V1 r =>
      put 2 (v1_magic r) ++ put 1 (v1_version r) ++ put 1 (v1_flags r) ++ put 4 (v1_length r)
      ++ put 8 (v1_offset r) ++ put 8 (v1_timestamp r) ++ put 4 (v1_crc32 r) ++ v1_body r
  | V2 r =>
      put 2 (v2_magic r) ++ put 1 (v2_version r) ++ put 1 (v2_flags r) ++ put 4 (v2_length r)
      ++ put 4 (v2_crc32 r) ++ v2_body r
  end.
End Layout.

(** [to_bytes] writes little-endian, [write_to_pooled] ([BufMut::put_*]) big-endian. *)
Definition to_bytes (w : WalRecord) : bytes := write_record le_bytes w.
Definition write_to_pooled (w : WalRecord) : bytes := write_record be_bytes w.
Definition write_to (w : WalRecord) (buf : bytes) : bytes := buf ++ to_bytes w.

Section WithCrc.
Context `{!Crc32}.

(** The bytes fed to the hasher: every field but the checksum. *)
Definition calculate_checksum (w : WalRecord) : Z :=
  crc32 match w with
  | V1 r =>
      le_bytes 2 (v1_magic r) ++ [v1_version r; v1_flags r] ++ le_bytes 4 (v1_length r)
      ++ le_bytes 8 (v1_offset r) ++ le_bytes 8 (v1_timestamp r) ++ v1_body le_bytes r
  | V2 r =>
      le_bytes 2 (v2_magic r) ++ [v2_version r; v2_flags r] ++ le_bytes 4 (v2_length r)
      ++ v2_body le_bytes r
  end.

Definition set_length (l : Z) (w : WalRecord) : WalRecord :=
  match w with
  | V1 r => V1 (mkV1 (v1_magic r) (v1_version r) (v1_flags r) l (v1_offset r) (v1_timestamp r)
                  (v1_crc32 r) (v1_key r) (v1_value r) (v1_headers r))
  | V2 r => V2 (mkV2 (v2_magic r) (v2_version r) (v2_flags r) l (v2_crc32 r) (v2_topic r)
                  (v2_partition r) (v2_canonical_data r) (v2_base_offset r) (v2_last_offset r)
                  (v2_record_count r))
  end.

Definition set_crc32 (c : Z) (w : WalRecord) : WalRecord :=
  match w with
  | V1 r => V1 (mkV1 (v1_magic r) (v1_version r) (v1_flags r) (v1_length r) (v1_offset r)
                  (v1_timestamp r) c (v1_key r) (v1_value r) (v1_headers r))
  | V2 r => V2 (mkV2 (v2_magic r) (v2_version r) (v2_flags r) (v2_length r) c (v2_topic r)
                  (v2_partition r) (v2_canonical_data r) (v2_base_offset r) (v2_last_offset r)
                  (v2_record_count r))
  end.

(** The length is set first: the checksum covers it. *)
Definition update_length_and_checksum (w : WalRecord) : WalRecord :=
  let w := set_length (calculate_length w) w in
  set_crc32 (calculate_checksum w) w.

Definition wal_new (offset : Z) (key : option bytes) (value : bytes) (timestamp : Z)
    : WalRecord :=
  update_length_and_checksum
    (V1 (mkV1 WAL_MAGIC WAL_VERSION_V1 0 0 offset timestamp 0 key value [])).

Definition new_v2 (topic : bytes) (partition : Z) (canonical_data : bytes)
    (base_offset last_offset record_count : Z) : WalRecord :=
  update_length_and_checksum
    (V2 (mkV2 WAL_MAGIC WAL_VERSION_V2 0 0 0 topic partition canonical_data base_offset
           last_offset record_count)).

(** The checksum of a V2 record is not compared. *)
Definition verify_checksum (w : WalRecord) : res unit :=
  if is_v2 w then Ok tt else
  let computed := calculate_checksum w in
  let stored := get_crc32 w in
  if negb (computed =? stored)
  then Err (EChecksumMismatch (default (-1) (get_offset w)) stored computed)
  else Ok tt.

(** ** Reading *)

Definition eof : res Empty_set := Err (EIo "failed to fill whole buffer").
Definition read_u8 : rd Z := rd_le_u eof 1.
Definition read_u16 : rd Z := rd_le_u eof 2.
Definition read_u32 : rd Z := rd_le_u eof 4.
Definition read_i32 : rd Z := rd_le_s eof 4.
Definition read_i64 : rd Z := rd_le_s eof 8.

(** [vec![0u8; n]] and [read_exact]. *)
Definition read_vec (n : Z) : rd bytes := _ ← rd_alloc 1 n; rd_take eof n.

Definition read_string (n : Z) : rd bytes :=
  b ← read_vec n; rd_lift (from_utf8 (EInvalidFormat "invalid utf-8") b).

Definition read_wal_header : rd (bytes * bytes) :=
  name_len ← read_u16;
  name ← read_string name_len;
  value_len ← read_u32;
  value ← read_vec value_len;
  mret (name, value).

Definition read_wal_key : rd (option bytes) :=
  key_len ← read_i32;
  if 0 <=? key_len then k ← read_vec (as_usize key_len); mret (Some k) else mret None.

(** The V1 branch of [from_bytes]; a header is a pair of 24-byte vectors. *)
Definition read_v1 (magic version : Z) : rd WalRecord :=
  flags ← read_u8;
  length ← read_u32;
  offset ← read_i64;
  timestamp ← read_i64;
  crc32 ← read_u32;
  key ← read_wal_key;
  value_len ← read_i32;
  value ← read_vec (as_usize value_len);
  headers_count ← read_i32;
  _ ← rd_alloc 48 (as_usize headers_count);
  headers ← rd_repeat (Z.to_nat headers_count) read_wal_header;
  let record := V1 (mkV1 magic version flags length offset timestamp crc32 key value headers) in
  _ ← rd_lift (verify_checksum record);
  mret record.

Definition read_v2 (magic version : Z) : rd WalRecord :=
  flags ← read_u8;
  length ← read_u32;
  crc32 ← read_u32;
  topic_len ← read_u16;
  topic ← read_string topic_len;
  partition ← read_i32;
  data_len ← read_u32;
  canonical_data ← read_vec data_len;
  base_offset ← read_i64;
  last_offset ← read_i64;
  record_count ← read_i32;
  let record := V2 (mkV2 magic version flags length crc32 topic partition canonical_data
                      base_offset last_offset record_count) in
  _ ← rd_lift (verify_checksum record);
  mret record.

Definition read_record : rd WalRecord :=
  magic ← read_u16;
  if negb (magic =? WAL_MAGIC) then rd_err (EInvalidFormat "Invalid magic number") else
  version ← read_u8;
  if version =? WAL_VERSION_V1 then read_v1 magic version
  else if version =? WAL_VERSION_V2 then read_v2 magic version
  else rd_err (EInvalidFormat "Unsupported version").

(** [from_bytes] reads at the front of [data] and ignores what follows. *)
Definition from_bytes (data : bytes) : res WalRecord :=
  '(record, _) ← read_record data; Ok record.

End WithCrc.

(** * Lemmas *)

(** Field values a writer can hold. *)
Definition wal_header_ok (h : bytes * bytes) : Prop :=
  len h.1 < 2 ^ 16 /\ utf8_valid h.1 = true /\ len h.2 < 2 ^ 32.

Definition v1_fields_ok (r : WalV1) : Prop :=
  v1_magic r = WAL_MAGIC /\ v1_version r = WAL_VERSION_V1 /\ in_u 8 (v1_flags r)
  /\ in_u 32 (v1_length r) /\ in_s 64 (v1_offset r) /\ in_s 64 (v1_timestamp r)
  /\ in_u 32 (v1_crc32 r)
  /\ match v1_key r with Some k => len k < 2 ^ 31 | None => True end
  /\ len (v1_value r) < 2 ^ 31 /\ Z.of_nat (length (v1_headers r)) < 2 ^ 31
  /\ Forall wal_header_ok (v1_headers r).

Definition v2_fields_ok (r : WalV2) : Prop :=
  v2_magic r = WAL_MAGIC /\ v2_version r = WAL_VERSION_V2 /\ in_u 8 (v2_flags r)
  /\ in_u 32 (v2_length r) /\ in_u 32 (v2_crc32 r)
  /\ len (v2_topic r) < 2 ^ 16 /\ utf8_valid (v2_topic r) = true /\ in_s 32 (v2_partition r)
  /\ len (v2_canonical_data r) < 2 ^ 32 /\ in_s 64 (v2_base_offset r)
  /\ in_s 64 (v2_last_offset r) /\ in_s 32 (v2_record_count r).

Lemma parses_read_vec n b : n = len b -> n < 2 ^ 63 -> parses (read_vec n) b b.
Proof.
  intros -> Hn. eapply parses_bind_pure; [apply parses_alloc|by apply parses_take].
  unfold isize_max. lia.
Qed.

Lemma parses_read_string n b :
  n = len b -> n < 2 ^ 63 -> utf8_valid b = true -> parses (read_string n) b b.
Proof.
  intros. eapply parses_bind_nil; [by apply parses_read_vec|by apply parses_utf8].
Qed.

Lemma parses_len_i32 n :
  0 <= n < 2 ^ 31 -> parses read_i32 (le_bytes 4 (as_i32 n)) n.
Proof.
  intros. rewrite wrap_s_id by (unfold in_s; lia). apply parses_le_s; [lia|unfold in_s; lia].
Qed.
Lemma parses_len_u16 n : 0 <= n < 2 ^ 16 -> parses read_u16 (le_bytes 2 (as_u16 n)) n.
Proof. intros. rewrite wrap_u_id by done. by apply parses_le_u. Qed.
Lemma parses_len_u32 n : 0 <= n < 2 ^ 32 -> parses read_u32 (le_bytes 4 (as_u32 n)) n.
Proof. intros. rewrite wrap_u_id by done. by apply parses_le_u. Qed.

Lemma parses_wal_header h : wal_header_ok h -> parses read_wal_header (put_header le_bytes h) h.
Proof.
  destruct h as [name value]. intros (H1 & H2 & H3). unfold put_header.
  cbn [fst snd] in *.
  pose proof (len_nonneg name). pose proof (len_nonneg value).
  eapply parses_bind; [apply parses_len_u16; lia|].
  eapply parses_bind; [apply parses_read_string; [done|lia|done]|].
  eapply parses_bind; [apply parses_len_u32; lia|].
  eapply parses_bind_nil; [apply parses_read_vec; [done|lia]|apply parses_ret].
Qed.

Lemma parses_key k :
  match k with Some k => len k < 2 ^ 31 | None => True end ->
  parses read_wal_key (put_key le_bytes k) k.
Proof.
  intros Hk. destruct k as [k|]; cbn [put_key] in *.
  - pose proof (len_nonneg k). eapply parses_bind; [apply parses_len_i32; lia|]. cbv beta.
    destruct (Z.leb_spec 0 (len k)); [|lia]. rewrite wrap_u_id by (unfold in_u; lia).
    eapply parses_bind_nil; [apply parses_read_vec; [done|lia]|apply parses_ret].
  - eapply parses_bind_nil; [apply parses_le_s; [lia|unfold in_s; lia]|apply parses_ret].
Qed.

Section RoundTrip.
Context `{Hcrc32 : !Crc32}.

Lemma parses_verify w : verify_checksum w = Ok tt -> parses (rd_lift (verify_checksum w)) [] tt.
Proof. intros H rest. by rewrite H. Qed.

Lemma parses_v1 r :
  v1_fields_ok r -> calculate_checksum (V1 r) = v1_crc32 r ->
  parses read_record (to_bytes (V1 r)) (V1 r).
Proof.
  intros (Hm & Hv & Hf & Hl & Ho & Ht & Hc & Hk & Hval & Hn & Hh) Hcrc.
  pose proof (len_nonneg (v1_value r)).
  unfold to_bytes, write_record, read_record. rewrite Hm, Hv.
  eapply parses_bind; [by apply parses_le_u|]. cbn [negb Z.eqb].
  change (WAL_MAGIC =? WAL_MAGIC) with true. cbn [negb].
  eapply parses_bind; [by apply parses_le_u|].
  change (WAL_VERSION_V1 =? WAL_VERSION_V1) with true. cbv iota. unfold read_v1.
  eapply parses_bind; [by apply parses_le_u|].
  eapply parses_bind; [by apply parses_le_u|].
  do 2 (eapply parses_bind; [by apply parses_le_s; [lia|]|]).
  eapply parses_bind; [by apply parses_le_u|]. unfold v1_body.
  eapply parses_bind; [by apply parses_key|].
  eapply parses_bind; [apply parses_len_i32; lia|].
  eapply parses_bind; [apply parses_read_vec; rewrite wrap_u_id; (done || unfold in_u; lia)|].
  eapply parses_bind; [apply parses_len_i32; lia|].
  eapply parses_bind_pure.
  { apply parses_alloc. rewrite wrap_u_id by (unfold in_u; lia). unfold isize_max. lia. }
  rewrite Nat2Z.id. eapply parses_bind_nil.
  { apply parses_repeat; [done|]. eapply Forall_impl; [exact Hh|]. apply parses_wal_header. }
  cbv zeta. eapply parses_bind_nil; [apply parses_verify|].
  - unfold verify_checksum. cbn [is_v2 get_crc32 v1_crc32].
    rewrite <- Hm, <- Hv in *. destruct r; cbn in *. rewrite Hcrc, Z.eqb_refl. done.
  - rewrite <- Hm, <- Hv. destruct r. apply parses_ret.
Qed.

Lemma parses_v2 r : v2_fields_ok r -> parses read_record (to_bytes (V2 r)) (V2 r).
Proof.
  intros (Hm & Hv & Hf & Hl & Hc & Ht & Hu & Hp & Hd & Hb & Hlo & Hn).
  pose proof (len_nonneg (v2_topic r)). pose proof (len_nonneg (v2_canonical_data r)).
  unfold to_bytes, write_record, read_record. rewrite Hm, Hv.
  eapply parses_bind; [by apply parses_le_u|].
  change (WAL_MAGIC =? WAL_MAGIC) with true. cbn [negb].
  eapply parses_bind; [by apply parses_le_u|].
  change (WAL_VERSION_V2 =? WAL_VERSION_V1) with false.
  change (WAL_VERSION_V2 =? WAL_VERSION_V2) with true. cbv iota. unfold read_v2, v2_body.
  do 3 (eapply parses_bind; [by apply parses_le_u|]).
  eapply parses_bind; [apply parses_len_u16; lia|].
  eapply parses_bind; [apply parses_read_string; [done|lia|done]|].
  eapply parses_bind; [by apply parses_le_s; [lia|]|].
  eapply parses_bind; [apply parses_len_u32; lia|].
  eapply parses_bind; [apply parses_read_vec; [done|lia]|].
  do 2 (eapply parses_bind; [by apply parses_le_s; [lia|]|]).
  eapply parses_bind_nil; [by apply parses_le_s; [lia|]|].
  eapply parses_bind_nil; [by apply parses_verify|].
  rewrite <- Hm, <- Hv. destruct r. apply parses_ret.
Qed.

(** What the constructors build is well formed, with the length field they promise. *)
Lemma len_to_bytes_v2 r :
  len (to_bytes (V2 r)) = 12 + (30 + len (v2_topic r) + len (v2_canonical_data r)).
Proof. unfold to_bytes, write_record, v2_body. rewrite !len_app, !len_le_bytes. lia. Qed.

Definition new_v2_ok (topic : bytes) (partition : Z) (data : bytes) (bo lo n : Z) : Prop :=
  len topic < 2 ^ 16 /\ utf8_valid topic = true /\ in_s 32 partition
  /\ 30 + len topic + len data < 2 ^ 32 /\ in_s 64 bo /\ in_s 64 lo /\ in_s 32 n.

Lemma new_v2_fields topic partition data bo lo n :
  new_v2_ok topic partition data bo lo n ->
  exists r, new_v2 topic partition data bo lo n = V2 r /\ v2_fields_ok r
    /\ v2_length r = 30 + len topic + len data /\ v2_topic r = topic
    /\ v2_partition r = partition /\ v2_canonical_data r = data
    /\ v2_base_offset r = bo /\ v2_last_offset r = lo /\ v2_record_count r = n.
Proof.
  intros (Ht & Hu & Hp & Hd & Hb & Hl & Hn).
  pose proof (len_nonneg topic). pose proof (len_nonneg data).
  eexists. split; [reflexivity|]. cbn -[Z.add Z.pow]. rewrite wrap_u_id by (unfold in_u; lia).
  split; [|split_and!; (done || lia)].
  unfold v2_fields_ok. cbn -[Z.add Z.pow crc32].
  split_and!; try done; try lia; try (unfold in_u; lia). apply crc32_u32.
Qed.

Definition wal_new_ok (offset : Z) (key : option bytes) (value : bytes) (ts : Z) : Prop :=
  in_s 64 offset /\ in_s 64 ts
  /\ match key with Some k => len k < 2 ^ 31 | None => True end /\ len value < 2 ^ 31
  /\ 40 + match key with Some k => len k | None => 0 end + len value < 2 ^ 32.

Lemma wal_new_fields offset key value ts :
  wal_new_ok offset key value ts ->
  exists r, wal_new offset key value ts = V1 r /\ v1_fields_ok r
    /\ calculate_checksum (V1 r) = v1_crc32 r
    /\ v1_length r = len (to_bytes (V1 r))
    /\ v1_offset r = offset /\ v1_timestamp r = ts /\ v1_key r = key /\ v1_value r = value.
Proof.
  intros (Ho & Ht & Hk & Hv & Hl). pose proof (len_nonneg value).
  assert (0 <= match key with Some k => len k | None => 0 end < 2 ^ 31) as Hkl.
  { destruct key as [k|]; [|lia]. pose proof (len_nonneg k). lia. }
  eexists. split; [reflexivity|]. cbn -[Z.add Z.pow crc32 len to_bytes].
  rewrite wrap_u_id by (unfold in_u; lia).
  split; [|split; [done|split; [|done]]].
  - unfold v1_fields_ok. cbn -[Z.add Z.pow crc32 len].
    split_and!; try done; try lia; try (unfold in_u; lia). apply crc32_u32.
  - unfold to_bytes, write_record, v1_body, put_key. cbn -[Z.add Z.pow crc32 len le_bytes].
    rewrite !len_app, !len_le_bytes. destruct key; rewrite ?len_app, ?len_le_bytes, len_nil; lia.
Qed.

Lemma from_bytes_parses w rest : parses read_record (to_bytes w) w ->
  from_bytes (to_bytes w ++ rest) = Ok w.
Proof. intros H. unfold from_bytes. by rewrite H. Qed.

(** A V1 record that was read passed its checksum. *)
Lemma read_v1_checked magic version bs w rest :
  read_v1 magic version bs = Ok (w, rest) -> verify_checksum w = Ok tt.
Proof.
  unfold read_v1, mbind, rd_bind, rd_lift, mret, rd_ret. intros H.
  repeat (case_match; simplify_eq; try done).
  match goal with |- Ok ?u = _ => by destruct u end.
Qed.
End RoundTrip.

(** A record that was read as V1 passed its checksum. *)
Lemma from_bytes_checked `{!Crc32} bs w : from_bytes bs = Ok w -> verify_checksum w = Ok tt.
Proof.
  unfold from_bytes, read_record, mbind, res_bind, rd_bind. intros E.
  destruct (read_u16 bs) as [[m l]| |]; try done.
  destruct (negb (m =? WAL_MAGIC)); [done|].
  destruct (read_u8 l) as [[v l']| |]; try done.
  destruct (v =? WAL_VERSION_V1).
  - destruct (read_v1 m v l') as [[w' rest]| |] eqn:E1; try done.
    injection E as <-. by eapply read_v1_checked.
  - destruct (v =? WAL_VERSION_V2); [|done].
    destruct (read_v2 m v l') as [[w' rest]| |] eqn:E2; try done. injection E as <-.
    unfold read_v2, mbind, rd_bind, rd_lift, mret, rd_ret in E2.
    repeat (case_match; simplify_eq; try done).
Qed.

(** * Properties *)

(** [C32] A V1 record built by [new] is read back from its bytes, whatever follows them in
    the log; its length field is the length of those bytes and its checksum verifies. *)
Theorem wal_v1_roundtrip `{!Crc32} (offset : Z) (key : option bytes) (value : bytes) (ts : Z)
    (rest : bytes) :
  wal_new_ok offset key value ts ->
  from_bytes (to_bytes (wal_new offset key value ts) ++ rest)
  = Ok (wal_new offset key value ts)
  /\ get_length (wal_new offset key value ts) = len (to_bytes (wal_new offset key value ts))
  /\ verify_checksum (wal_new offset key value ts) = Ok tt.
Proof.
  intros Hok. destruct (wal_new_fields _ _ _ _ Hok) as (r & -> & Hr & Hc & Hl & _).
  pose proof (from_bytes_parses _ rest (parses_v1 r Hr Hc)) as E.
  split_and!; [done|exact Hl|by apply (from_bytes_checked _ _ E)].
Qed.

Lemma wal_v1_roundtrip_witness :
  @from_bytes crc32_bitwise
    (to_bytes (@wal_new crc32_bitwise 100 (Some [1; 2]) [3; 4; 5] 1234) ++ [9])
  = Ok (@wal_new crc32_bitwise 100 (Some [1; 2]) [3; 4; 5] 1234)
  /\ get_length (@wal_new crc32_bitwise 100 (Some [1; 2]) [3; 4; 5] 1234)
     = len (to_bytes (@wal_new crc32_bitwise 100 (Some [1; 2]) [3; 4; 5] 1234))
  /\ @verify_checksum crc32_bitwise (@wal_new crc32_bitwise 100 (Some [1; 2]) [3; 4; 5] 1234)
     = Ok tt.
Proof.
  apply (@wal_v1_roundtrip crc32_bitwise 100 (Some [1; 2]) [3; 4; 5] 1234 [9]). concrete.
Defined.

(** [C10] A V2 record built by [new_v2] is read back from its bytes, whatever follows them;
    the record occupies twelve bytes more than its length field.  The checksum plays no
    part: the record with any other checksum is read back as well. *)
Theorem wal_v2_roundtrip `{!Crc32} (topic : bytes) (partition : Z) (data : bytes)
    (bo lo n c : Z) (rest : bytes) :
  new_v2_ok topic partition data bo lo n -> in_u 32 c ->
  let w := new_v2 topic partition data bo lo n in
  from_bytes (to_bytes w ++ rest) = Ok w
  /\ len (to_bytes w) = 12 + get_length w
  /\ get_canonical_data w = Some data /\ get_topic_partition w = Some (topic, partition)
  /\ from_bytes (to_bytes (set_crc32 c w) ++ rest) = Ok (set_crc32 c w).
Proof.
  intros Hok Hc w. destruct (new_v2_fields _ _ _ _ _ _ Hok)
    as (r & Hw & Hr & Hl & Ht & Hp & Hd & _). unfold w. rewrite Hw.
  split_and!.
  - by apply from_bytes_parses, parses_v2.
  - rewrite len_to_bytes_v2. cbn. rewrite Hl, Ht, Hd. done.
  - cbn. by rewrite Hd.
  - cbn. by rewrite Ht, Hp.
  - apply from_bytes_parses, parses_v2. unfold v2_fields_ok in *. cbn. tauto.
Qed.

Lemma wal_v2_roundtrip_witness :
  let w := @new_v2 crc32_bitwise (bytes_of_string "orders") 3 [1; 2; 3] 10 12 3 in
  @from_bytes crc32_bitwise (to_bytes w ++ [255]) = Ok w
  /\ len (to_bytes w) = 12 + get_length w
  /\ get_canonical_data w = Some [1; 2; 3]
  /\ get_topic_partition w = Some (bytes_of_string "orders", 3)
  /\ @from_bytes crc32_bitwise (to_bytes (set_crc32 7 w) ++ [255]) = Ok (set_crc32 7 w).
Proof.
  apply (@wal_v2_roundtrip crc32_bitwise (bytes_of_string "orders") 3 [1; 2; 3] 10 12 3 7 [255]);
    concrete.
Defined.

(** A V1 record is only ever read with its checksum intact. *)
Theorem wal_v1_checked `{!Crc32} (bs : bytes) (r : WalV1) :
  from_bytes bs = Ok (V1 r) -> calculate_checksum (V1 r) = v1_crc32 r.
Proof.
  intros E%from_bytes_checked. unfold verify_checksum in E. cbn [is_v2 get_crc32] in E.
  by destruct (Z.eqb_spec (calculate_checksum (V1 r)) (v1_crc32 r)).
Qed.

Lemma wal_v1_checked_witness :
  exists r, @from_bytes crc32_bitwise (to_bytes (@wal_new crc32_bitwise 5 None [7] 99)) = Ok (V1 r)
  /\ @calculate_checksum crc32_bitwise (V1 r) = v1_crc32 r.
Proof.
  eexists. assert (@from_bytes crc32_bitwise (to_bytes (@wal_new crc32_bitwise 5 None [7] 99))
    = Ok (@wal_new crc32_bitwise 5 None [7] 99)) as E by (vm_compute; reflexivity).
  split; [exact E|exact (@wal_v1_checked crc32_bitwise _ _ E)].
Defined.

(** Reading panics on a V1 header whose value length is negative, whatever the rest
    of the header and of the buffer hold: the length is cast to [usize] before the
    buffer for it is allocated. *)
Theorem wal_negative_value_panics `{!Crc32} (r : WalV1) (n : Z) (rest : bytes) :
  v1_fields_ok r -> in_s 32 n -> n < 0 ->
  from_bytes (le_bytes 2 (v1_magic r) ++ le_bytes 1 (v1_version r) ++ le_bytes 1 (v1_flags r)
              ++ le_bytes 4 (v1_length r) ++ le_bytes 8 (v1_offset r)
              ++ le_bytes 8 (v1_timestamp r) ++ le_bytes 4 (v1_crc32 r)
              ++ put_key le_bytes (v1_key r) ++ le_bytes 4 n ++ rest) = Panic.
Proof.
  intros (Hm & Hv & Hf & Hl & Ho & Ht & Hc & Hk & _) Hn Hneg. rewrite Hm, Hv.
  unfold from_bytes, read_record, mbind, res_bind, rd_bind.
  unfold read_u16 at 1. rewrite (parses_le_u eof 2) by done.
  change (WAL_MAGIC =? WAL_MAGIC) with true. cbn [negb].
  unfold read_u8 at 1. rewrite (parses_le_u eof 1) by done.
  change (WAL_VERSION_V1 =? WAL_VERSION_V1) with true. cbv iota.
  unfold read_v1, read_u8, read_u32, read_i64, mbind, rd_bind.
  rewrite (parses_le_u _ 1), (parses_le_u _ 4) by done.
  rewrite (parses_le_s _ 8), (parses_le_s _ 8) by (lia || done).
  rewrite (parses_le_u _ 4), parses_key by done.
  unfold read_i32 at 1. rewrite (parses_le_s eof 4 n) by (lia || done).
  unfold read_vec, mbind, rd_bind, rd_alloc.
  assert (as_usize n = n + 2 ^ 64) as ->.
  { unfold in_s in Hn. unfold wrap_u. rewrite <- (Z.mod_add n 1) by lia.
    rewrite Z.mod_small by lia. lia. }
  unfold in_s in Hn. destruct (Z.ltb_spec isize_max (1 * (n + 2 ^ 64))); [done|].
  unfold isize_max in *. lia.
Qed.

Lemma wal_negative_value_panics_witness :
  @from_bytes crc32_bitwise
    (le_bytes 2 WAL_MAGIC ++ le_bytes 1 1 ++ le_bytes 1 0 ++ le_bytes 4 0 ++ le_bytes 8 0
     ++ le_bytes 8 0 ++ le_bytes 4 0 ++ put_key le_bytes None ++ le_bytes 4 (-1) ++ []) = Panic.
Proof.
  apply (@wal_negative_value_panics crc32_bitwise
           (mkV1 WAL_MAGIC WAL_VERSION_V1 0 0 0 0 0 None [] []) (-1) []); concrete.
Defined.

(** Bytes produced by [write_to_pooled] are never readable: it writes the fields
    big-endian, so the magic number does not match. *)
Theorem wal_pooled_unreadable `{!Crc32} (w : WalRecord) (rest : bytes) :
  match w with V1 r => v1_magic r | V2 r => v2_magic r end = WAL_MAGIC ->
  from_bytes (write_to_pooled w ++ rest) = Err (EInvalidFormat "Invalid magic number").
Proof.
  intros Hm. destruct w; unfold write_to_pooled, write_record; rewrite Hm, <- app_assoc;
    change (be_bytes 2 WAL_MAGIC) with (le_bytes 2 32458);
    unfold from_bytes, read_record, read_u16, mbind, res_bind, rd_bind;
    by rewrite (parses_le_u eof 2) by done.
Qed.

Lemma wal_pooled_unreadable_witness :
  @from_bytes crc32_bitwise (write_to_pooled (@wal_new crc32_bitwise 5 None [7] 99) ++ [])
  = Err (EInvalidFormat "Invalid magic number").
Proof. apply wal_pooled_unreadable. reflexivity. Defined.
