(* ===== verification/WalTruncate.v ===== *)
(** Suffix truncation of a partition's log: crates/chronik-wal/src/truncate.rs and the
    file surgery of crates/chronik-wal/src/group_commit.rs ([truncate_partition_files]).

    A partition directory is its segment files in id order, the order [sort_by_key]
    puts the directory listing in; a removed file is [None].  Input/output errors other
    than a missing file are not modelled. *)
From stdpp Require Import base list numbers strings gmap.
From Stdlib Require Import ZArith Lia.
From S2P Require Import Prelude Extern WalRecord.
Local Open Scope Z_scope.

(** * Planning one segment *)

(** [struct RecordSpan]. *)
Record RecordSpan : Type := mkSpan {
  total_size : Z;
  span_base : Z;
  span_last : Z }.

#[global] Instance RecordSpan_eq_dec : EqDecision RecordSpan.
Proof. solve_decision. Defined.

Definition RECORD_HEADER_LEN : Z := 12.

(** [d.get(p..p + n)]. *)
Definition get_range (d : bytes) (p n : Z) : option bytes :=
  if p + n <=? len d then Some (take (Z.to_nat n) (drop (Z.to_nat p) d)) else None.

Definition le_u16 (d : bytes) (p : Z) : option Z := le_val <$> get_range d p 2.
Definition le_u32 (d : bytes) (p : Z) : option Z := le_val <$> get_range d p 4.
Definition le_i64 (d : bytes) (p : Z) : option Z :=
  (fun b => as_i64 (le_val b)) <$> get_range d p 8.

(** [usize::checked_add]. *)
Definition checked_add (a b : Z) : option Z := if a + b <? 2 ^ 64 then Some (a + b) else None.

Definition declared_record_size (header : bytes) : option Z :=
  if len header <? RECORD_HEADER_LEN then None else
  magic ← le_u16 header 0;
  if negb (magic =? WAL_MAGIC) || negb (nth 2 header 0 =? WAL_VERSION_V2) then None else
  length ← le_u32 header 4;
  if length =? 0 then None else checked_add RECORD_HEADER_LEN length.

Definition parse_record_span (data : bytes) : option RecordSpan :=
  total_size ← declared_record_size data;
  if len data <? total_size then None else
  topic_len ← le_u16 data 12;
  data_len_pos ← checked_add 18 topic_len;
  canonical_len ← le_u32 data data_len_pos;
  t ← checked_add 22 topic_len;
  trailer ← checked_add t canonical_len;
  fin ← checked_add trailer 20;
  if negb (fin =? total_size) then None else
  base_offset ← le_i64 data trailer;
  last_offset ← le_i64 data (trailer + 8);
  Some (mkSpan total_size base_offset last_offset).

Definition first_record_range (data : bytes) : option (Z * Z) :=
  (fun s => (span_base s, span_last s)) <$> parse_record_span data.

(** [enum SegmentVerdict]. *)
Inductive SegmentVerdict : Type :=
| Empty
| KeepWhole (last_offset : Z)
| DeleteWhole
| Cut (keep_bytes last_offset : Z).

(** The loop of [plan_segment_truncation]: [cursor] and [last_kept] are its variables. *)
Fixpoint plan_loop (fuel : nat) (data : bytes) (target : Z) (cursor : Z)
    (last_kept : option Z) : SegmentVerdict :=
  let finish :=
    match last_kept with None => Empty | Some last_offset => KeepWhole last_offset end in
  match fuel with
  | O => finish
  | S fuel =>
      if cursor <? len data then
        match parse_record_span (drop (Z.to_nat cursor) data) with
        | None => finish
        | Some span =>
            if target <=? span_last span then
              match last_kept with
              | None => DeleteWhole
              | Some last_offset => Cut cursor last_offset
              end
            else plan_loop fuel data target (cursor + total_size span) (Some (span_last span))
        end
      else finish
  end.

Definition plan_segment_truncation (data : bytes) (target : Z) : SegmentVerdict :=
  plan_loop (length data) data target 0 None.

(** * The partition directory *)

(** [struct TruncateOutcome]. *)
Record TruncateOutcome : Type := mkOutcome {
  new_log_end_offset : option Z;
  segments_deleted : Z;
  bytes_discarded : Z;
  buffered_writes_dropped : Z }.

Definition untouched (e : option Z) : TruncateOutcome := mkOutcome e 0 0 0.

Definition touched_disk (o : TruncateOutcome) : bool :=
  (0 <? segments_deleted o) || (0 <? bytes_discarded o).

(** The segment files and the registry of sealed segments (id to recorded size). *)
Record wal_dir : Type := mkDir {
  files : list (Z * option bytes);
  sealed_segments : gmap Z Z }.

Definition first_record_offset (file : option bytes) : option Z :=
  data ← file;
  if len data <? RECORD_HEADER_LEN then None else
  size ← declared_record_size (take (Z.to_nat RECORD_HEADER_LEN) data);
  if len data <? size then None else
  fst <$> first_record_range (take (Z.to_nat size) data).

Definition last_record_offset (file : option bytes) : option Z :=
  data ← file;
  match plan_segment_truncation data (2 ^ 63 - 1) with
  | KeepWhole last_offset => Some last_offset
  | _ => None
  end.

(** The last segment whose first record is below the target, stopping at the first
    one whose first record is not. *)
Fixpoint find_straddler (target : Z) (index : nat) (straddler : option nat)
    (segs : list (Z * option bytes)) : option nat :=
  match segs with
  | [] => straddler
  | (_, f) :: segs =>
      match first_record_offset f with
      | None => find_straddler target (S index) straddler segs
      | Some base =>
          if base <? target then find_straddler target (S index) (Some index) segs
          else straddler
      end
  end.

Definition remove_truncated_segment (index : nat) (d : wal_dir) : wal_dir :=
  match files d !! index with
  | Some (id, _) => mkDir (<[index := (id, None)]> (files d)) (delete id (sealed_segments d))
  | None => d
  end.

Definition cut_segment (index : nat) (keep_bytes : Z) (d : wal_dir) : wal_dir :=
  match files d !! index with
  | Some (id, Some data) =>
      mkDir (<[index := (id, Some (take (Z.to_nat keep_bytes) data))]> (files d))
        (alter (fun _ => keep_bytes) id (sealed_segments d))
  | _ => d
  end.

Definition file_size (file : option bytes) : Z := match file with Some d => len d | None => 0 end.

(** What the straddling segment undergoes. *)
Definition truncate_straddler (target : Z) (index : nat) (data : bytes) (d : wal_dir)
    (o : TruncateOutcome) : wal_dir * TruncateOutcome * option Z :=
  match plan_segment_truncation data target with
  | Empty => (d, o, None)
  | KeepWhole last_offset => (d, o, Some last_offset)
  | DeleteWhole =>
      (remove_truncated_segment index d,
       mkOutcome (new_log_end_offset o) (segments_deleted o + 1) (bytes_discarded o + len data)
         (buffered_writes_dropped o), None)
  | Cut keep_bytes last_offset =>
      (cut_segment index keep_bytes d,
       mkOutcome (new_log_end_offset o) (segments_deleted o)
         (bytes_discarded o + (len data - keep_bytes)) (buffered_writes_dropped o),
       Some last_offset)
  end.

(** The deletion loop over the segments from [index] on: empty files stay. *)
Fixpoint delete_segments (segs : list (Z * option bytes)) (index : nat) (d : wal_dir)
    (o : TruncateOutcome) (deleted : list nat) : wal_dir * TruncateOutcome * list nat :=
  match segs with
  | [] => (d, o, deleted)
  | (_, f) :: segs =>
      let size := file_size f in
      if size =? 0 then delete_segments segs (S index) d o deleted
      else delete_segments segs (S index) (remove_truncated_segment index d)
             (mkOutcome (new_log_end_offset o) (segments_deleted o + 1)
                (bytes_discarded o + size) (buffered_writes_dropped o))
             (deleted ++ [index])
  end.

(** The last offset of the last surviving segment: the loop over the segments in
    reverse, [segs] reversed and [index] one past the next index. *)
Fixpoint find_log_end (deleted : list nat) (index : nat) (rsegs : list (Z * option bytes))
    : option Z :=
  match rsegs with
  | [] => None
  | (_, f) :: rsegs =>
      let index := pred index in
      if bool_decide (index ∈ deleted) then find_log_end deleted index rsegs
      else match last_record_offset f with
           | Some last => Some last
           | None => find_log_end deleted index rsegs
           end
  end.

(** [truncate_partition_files] on an existing directory. *)
Definition truncate_partition_files (target : Z) (d : wal_dir) : wal_dir * TruncateOutcome :=
  let segments := files d in
  let o := untouched None in
  let '(d, o, last_kept, delete_from) :=
    match find_straddler target 0 None segments with
    | None => (d, o, None, 0%nat)
    | Some index =>
        let data := match segments !! index with Some (_, Some data) => data | _ => [] end in
        let '(d, o, last_kept) := truncate_straddler target index data d o in
        (d, o, last_kept, S index)
    end in
  let '(d, o, deleted) := delete_segments (drop delete_from segments) delete_from d o [] in
  let last_kept :=
    match last_kept with
    | Some l => Some l
    | None => find_log_end deleted (length (files d)) (rev (files d))
    end in
  (d, mkOutcome ((fun last => as_i64 (last + 1)) <$> last_kept) (segments_deleted o)
        (bytes_discarded o) (buffered_writes_dropped o)).

(** * The records of a segment

    The reference reading of a segment's bytes: the spans that parse from the front,
    up to the first position that does not. *)
Fixpoint spans_fuel (fuel : nat) (data : bytes) : list RecordSpan :=
  match fuel with
  | O => []
  | S fuel =>
      match parse_record_span data with
      | None => []
      | Some s => s :: spans_fuel fuel (drop (Z.to_nat (total_size s)) data)
      end
  end.

Definition spans (data : bytes) : list RecordSpan := spans_fuel (length data) data.

Definition file_spans (file : option bytes) : list RecordSpan :=
  match file with Some data => spans data | None => [] end.

(** The log of a partition: the records of its segments in order. *)
Definition log (segs : list (Z * option bytes)) : list RecordSpan :=
  concat ((fun f => file_spans f.2) <$> segs).

Definition sizes (ss : list RecordSpan) : Z := foldr (fun s n => total_size s + n) 0 ss.

Lemma get_range_app a b p n :
  0 <= p -> 0 <= n -> p + n <= len a -> get_range (a ++ b) p n = get_range a p n.
Proof.
  intros Hp Hn Hl. unfold get_range. rewrite len_app. pose proof (len_nonneg b).
  destruct (Z.leb_spec (p + n) (len a + len b)), (Z.leb_spec (p + n) (len a)); try lia.
  unfold len in *. rewrite drop_app_le by lia. rewrite take_app_le; [done|].
  rewrite length_drop. lia.
Qed.

Definition is_bytes (data : bytes) : Prop := Forall is_byte data.

Lemma is_bytes_drop n data : is_bytes data -> is_bytes (drop n data).
Proof. apply Forall_drop. Qed.
Lemma is_bytes_take n data : is_bytes data -> is_bytes (take n data).
Proof. apply Forall_take. Qed.

Lemma get_range_bytes d p n b : is_bytes d -> get_range d p n = Some b -> is_bytes b.
Proof.
  unfold get_range. intros Hd. case_match; [|done]. intros [= <-].
  by apply is_bytes_take, is_bytes_drop.
Qed.

Lemma le_u16_nonneg d p x : is_bytes d -> le_u16 d p = Some x -> 0 <= x.
Proof.
  unfold le_u16. intros Hd. destruct (get_range d p 2) eqn:E; [|done]. intros [= <-].
  eapply le_val_nonneg, get_range_bytes; eauto.
Qed.
Lemma le_u32_nonneg d p x : is_bytes d -> le_u32 d p = Some x -> 0 <= x.
Proof.
  unfold le_u32. intros Hd. destruct (get_range d p 4) eqn:E; [|done]. intros [= <-].
  eapply le_val_nonneg, get_range_bytes; eauto.
Qed.

Lemma checked_add_Some a b x : checked_add a b = Some x -> x = a + b /\ a + b < 2 ^ 64.
Proof. unfold checked_add. destruct (Z.ltb_spec (a + b) (2 ^ 64)); by intros [= <-]. Qed.

(** The shape of a span: where its fields sit, and that they lie inside it. *)
Lemma declared_record_size_inv d n : declared_record_size d = Some n ->
  exists l, le_u16 d 0 = Some WAL_MAGIC /\ nth 2 d 0 = WAL_VERSION_V2
  /\ le_u32 d 4 = Some l /\ l <> 0 /\ n = 12 + l /\ 12 <= len d.
Proof.
  unfold declared_record_size. destruct (Z.ltb_spec (len d) RECORD_HEADER_LEN); [done|].
  destruct (le_u16 d 0) as [m|]; [|done]. cbn [mbind option_bind].
  destruct (Z.eqb_spec m WAL_MAGIC) as [->|]; [|done].
  destruct (Z.eqb_spec (nth 2 d 0) WAL_VERSION_V2); [|done]. cbn [negb orb].
  destruct (le_u32 d 4) as [l|]; [|done]. cbn [mbind option_bind].
  destruct (Z.eqb_spec l 0); [done|]. intros [-> _]%checked_add_Some.
  exists l. unfold RECORD_HEADER_LEN in *. split_and!; (done || lia).
Qed.

Lemma parse_span_inv d s : is_bytes d -> parse_record_span d = Some s ->
  exists tl cl, declared_record_size d = Some (total_size s)
  /\ le_u16 d 12 = Some tl /\ le_u32 d (18 + tl) = Some cl
  /\ total_size s = 42 + tl + cl /\ 0 <= tl /\ 0 <= cl /\ total_size s <= len d
  /\ 42 + tl + cl < 2 ^ 64
  /\ le_i64 d (22 + tl + cl) = Some (span_base s)
  /\ le_i64 d (22 + tl + cl + 8) = Some (span_last s).
Proof.
  intros Hd. unfold parse_record_span.
  destruct (declared_record_size d) as [n|]; [|done]. cbn [mbind option_bind].
  destruct (Z.ltb_spec (len d) n); [done|].
  destruct (le_u16 d 12) as [tl|] eqn:Etl; [|done]. cbn [mbind option_bind].
  destruct (checked_add 18 tl) as [p|] eqn:Ep; [|done]. cbn [mbind option_bind].
  apply checked_add_Some in Ep as [-> _].
  destruct (le_u32 d (18 + tl)) as [cl|] eqn:Ecl; [|done]. cbn [mbind option_bind].
  destruct (checked_add 22 tl) as [t|] eqn:Et; [|done]. cbn [mbind option_bind].
  apply checked_add_Some in Et as [-> _].
  destruct (checked_add (22 + tl) cl) as [tr|] eqn:Etr; [|done]. cbn [mbind option_bind].
  apply checked_add_Some in Etr as [-> _].
  destruct (checked_add (22 + tl + cl) 20) as [fin|] eqn:Ef; [|done]. cbn [mbind option_bind].
  apply checked_add_Some in Ef as [-> Hlt].
  destruct (Z.eqb_spec (22 + tl + cl + 20) n); [|done]. cbn [negb].
  destruct (le_i64 d (22 + tl + cl)) as [bo|] eqn:Eb; [|done]. cbn [mbind option_bind].
  destruct (le_i64 d (22 + tl + cl + 8)) as [lo|] eqn:El; [|done]. cbn [mbind option_bind].
  intros [= <-]. cbn. exists tl, cl.
  pose proof (le_u16_nonneg _ _ _ Hd Etl). pose proof (le_u32_nonneg _ _ _ Hd Ecl).
  split_and!; (done || lia || (f_equal; lia)).
Qed.

Lemma parse_span_intro d tl cl bo lo : 0 <= tl -> 0 <= cl -> 42 + tl + cl < 2 ^ 64 ->
  declared_record_size d = Some (42 + tl + cl) -> 42 + tl + cl <= len d ->
  le_u16 d 12 = Some tl -> le_u32 d (18 + tl) = Some cl ->
  le_i64 d (22 + tl + cl) = Some bo -> le_i64 d (22 + tl + cl + 8) = Some lo ->
  parse_record_span d = Some (mkSpan (42 + tl + cl) bo lo).
Proof.
  intros Htl Hcl Hlt Hd Hl H1 H2 H3 H4. unfold parse_record_span. rewrite Hd.
  cbn [mbind option_bind]. destruct (Z.ltb_spec (len d) (42 + tl + cl)); [lia|].
  rewrite H1. cbn [mbind option_bind]. unfold checked_add.
  do 2 (match goal with |- context [?a <? 2 ^ 64] => destruct (Z.ltb_spec a (2 ^ 64)); [|lia] end;
        cbn [mbind option_bind]; rewrite ?H2; cbn [mbind option_bind]).
  do 2 (match goal with |- context [?a <? 2 ^ 64] => destruct (Z.ltb_spec a (2 ^ 64)); [|lia] end;
        cbn [mbind option_bind]).
  destruct (Z.eqb_spec (22 + tl + cl + 20) (42 + tl + cl)); [|lia]. cbn [negb].
  by rewrite H3; cbn [mbind option_bind]; rewrite H4.
Qed.

Lemma declared_record_size_app a b n :
  12 <= len a -> declared_record_size (a ++ b) = Some n <-> declared_record_size a = Some n.
Proof.
  intros Hl. unfold declared_record_size, le_u16, le_u32. rewrite len_app.
  pose proof (len_nonneg b). unfold RECORD_HEADER_LEN.
  destruct (Z.ltb_spec (len a + len b) 12), (Z.ltb_spec (len a) 12); try lia.
  rewrite !get_range_app by lia. rewrite app_nth1 by (unfold len in Hl; lia). done.
Qed.

(** Parsing looks at the record's own bytes only. *)
Lemma parse_span_app a b s : is_bytes (a ++ b) -> total_size s <= len a ->
  parse_record_span (a ++ b) = Some s <-> parse_record_span a = Some s.
Proof.
  intros Hb Hs. split; intros H.
  - destruct (parse_span_inv _ _ Hb H) as (tl & cl & H0 & H1 & H2 & H3 & H4 & H5 & H6 & H7 & H8 & H9).
    destruct s as [n bo lo]; cbn in *; subst n.
    unfold le_u16, le_u32, le_i64 in *. rewrite get_range_app in H1, H2, H8, H9 by lia.
    apply parse_span_intro; try done. eapply declared_record_size_app; [lia|done].
  - assert (is_bytes a) as Ha by (by apply Forall_app in Hb as [? _]).
    destruct (parse_span_inv _ _ Ha H) as (tl & cl & H0 & H1 & H2 & H3 & H4 & H5 & H6 & H7 & H8 & H9).
    destruct s as [n bo lo]; cbn in *; subst n. pose proof (len_nonneg b).
    unfold le_u16, le_u32, le_i64 in *.
    apply parse_span_intro; unfold le_u16, le_u32, le_i64; rewrite ?len_app, ?get_range_app;
      try done; try lia. apply declared_record_size_app; [lia|done].
Qed.

Lemma parse_span_size d s :
  is_bytes d -> parse_record_span d = Some s -> 42 <= total_size s <= len d.
Proof.
  intros Hb H. destruct (parse_span_inv _ _ Hb H) as (tl & cl & _ & _ & _ & ? & ? & ? & ? & _). lia.
Qed.

Lemma spans_fuel_enough f1 : forall f2 data, is_bytes data ->
  (length data <= f1)%nat -> (length data <= f2)%nat -> spans_fuel f1 data = spans_fuel f2 data.
Proof.
  induction f1 as [|f1 IH]; intros [|f2] data Hb H1 H2; [done| | |];
    try (destruct data; [|cbn in *; lia]; done).
  cbn. destruct (parse_record_span data) as [s|] eqn:E; [|done].
  pose proof (parse_span_size _ _ Hb E). f_equal. unfold len in *.
  apply IH; [by apply is_bytes_drop| |]; rewrite length_drop; lia.
Qed.

Lemma spans_step data : is_bytes data ->
  spans data = match parse_record_span data with
               | None => []
               | Some s => s :: spans (drop (Z.to_nat (total_size s)) data)
               end.
Proof.
  intros Hb. unfold spans. destruct (length data) as [|n] eqn:El.
  - destruct data; [|done]. done.
  - cbn. destruct (parse_record_span data) as [s|] eqn:E; [|done]. f_equal.
    pose proof (parse_span_size _ _ Hb E). unfold len in *.
    apply spans_fuel_enough; [by apply is_bytes_drop| |]; rewrite length_drop; lia.
Qed.

Lemma spans_nil : spans [] = [].
Proof. done. Qed.

Lemma sizes_app a b : sizes (a ++ b) = sizes a + sizes b.
Proof. induction a as [|s a IH]; cbn; [done|]. unfold sizes in *. lia. Qed.

(** Cutting a segment after some of its records leaves exactly those records. *)
Lemma spans_take k : forall data r, is_bytes data -> spans data = k ++ r ->
  0 <= sizes k <= len data /\ spans (take (Z.to_nat (sizes k)) data) = k.
Proof.
  induction k as [|s k IH]; intros data r Hb E; cbn [sizes foldr].
  { split; [pose proof (len_nonneg data); lia|]. done. }
  fold (sizes k). rewrite spans_step in E by done.
  destruct (parse_record_span data) as [s'|] eqn:Es; [|done]. cbn in E. injection E as -> E.
  pose proof (parse_span_size _ _ Hb Es) as Hs.
  destruct (IH _ _ (is_bytes_drop _ _ Hb) E) as [Hk IHk].
  assert (len (drop (Z.to_nat (total_size s)) data) = len data - total_size s) as Hld
    by (unfold len in *; rewrite length_drop; lia).
  split; [lia|]. rewrite spans_step by by apply is_bytes_take.
  assert (parse_record_span (take (Z.to_nat (total_size s + sizes k)) data) = Some s) as ->.
  { rewrite <- (take_drop (Z.to_nat (total_size s + sizes k)) data) in Es, Hb.
    eapply parse_span_app; [exact Hb| |exact Es]. unfold len in *. rewrite length_take. lia. }
  f_equal. rewrite <- IHk at 2. f_equal. rewrite skipn_firstn_comm. f_equal. lia.
Qed.

(** * Ordered logs *)

(** Offsets increase from record to record, as the writer assigns them. *)
Fixpoint ordered (ss : list RecordSpan) : Prop :=
  match ss with
  | [] => True
  | s :: ss =>
      span_base s <= span_last s /\ Forall (fun t => span_last s < span_base t) ss /\ ordered ss
  end.

Lemma ordered_app a b : ordered (a ++ b) <->
  ordered a /\ ordered b /\ Forall (fun s => Forall (fun t => span_last s < span_base t) b) a.
Proof.
  induction a as [|s a IH]; cbn.
  - split; [intros; split_and!; done|by intros (_ & ? & _)].
  - rewrite IH, Forall_app, Forall_cons. tauto.
Qed.

Lemma ordered_base_last ss : ordered ss -> Forall (fun s => span_base s <= span_last s) ss.
Proof. induction ss as [|s ss IH]; cbn; [done|]. intros (? & _ & ?). constructor; auto. Qed.

(** The records a truncation keeps. *)
Definition below (target : Z) (ss : list RecordSpan) : list RecordSpan :=
  filter (fun s => span_last s < target) ss.

Lemma below_all target ss : Forall (fun s => span_last s < target) ss -> below target ss = ss.
Proof.
  induction 1 as [|s ss Hs _ IH]; [done|]. unfold below in *.
  rewrite filter_cons_True by done. by rewrite IH.
Qed.
Lemma below_none target ss : Forall (fun s => target <= span_last s) ss -> below target ss = [].
Proof.
  induction 1 as [|s ss Hs _ IH]; [done|]. unfold below in *.
  by rewrite filter_cons_False by lia.
Qed.
Lemma below_app target a b : below target (a ++ b) = below target a ++ below target b.
Proof. apply filter_app. Qed.

Lemma ordered_above target s ss : ordered (s :: ss) -> target <= span_base s ->
  Forall (fun t => target <= span_base t /\ target <= span_last t) (s :: ss).
Proof.
  intros (Hs & Hlt & Ho) Ht. constructor; [lia|]. apply ordered_base_last in Ho.
  rewrite Forall_forall in *. intros t Hin. specialize (Hlt t Hin). specialize (Ho t Hin). lia.
Qed.

(** In an ordered log the kept records are a prefix. *)
Lemma below_prefix target ss : ordered ss ->
  exists r, ss = below target ss ++ r /\ Forall (fun s => target <= span_last s) r.
Proof.
  induction ss as [|s ss IH]; [by exists []|]. intros Ho. pose proof Ho as (Hs & Hlt & Ho').
  destruct (Z.lt_ge_cases (span_last s) target) as [Hl|Hl].
  - destruct (IH Ho') as (r & E & Hr). exists r. unfold below in *.
    rewrite filter_cons_True by done. cbn. split; [by f_equal|done].
  - exists (s :: ss). apply ordered_base_last in Ho'.
    assert (Forall (fun t => target <= span_last t) (s :: ss)) as Hall.
    { constructor; [lia|]. rewrite Forall_forall in *. intros t Hin.
      specialize (Hlt t Hin). specialize (Ho' t Hin). lia. }
    by rewrite below_none.
Qed.

(** * What the plan decides *)

(** The verdict as a function of the kept records and whether any is discarded. *)
Definition verdict (kept discarded : list RecordSpan) : SegmentVerdict :=
  match last kept, discarded with
  | None, [] => Empty
  | Some l, [] => KeepWhole (span_last l)
  | None, _ => DeleteWhole
  | Some l, _ => Cut (sizes kept) (span_last l)
  end.

Lemma verdict_done k : verdict k [] =
  match span_last <$> last k with None => Empty | Some l => KeepWhole l end.
Proof. unfold verdict. by destruct (last k). Qed.

Lemma plan_loop_spans fuel : forall data target k b d,
  is_bytes data -> spans (drop (Z.to_nat (sizes k)) data) = b ++ d -> 0 <= sizes k ->
  (length (drop (Z.to_nat (sizes k)) data) <= fuel)%nat ->
  Forall (fun s => span_last s < target) b -> Forall (fun s => target <= span_last s) d ->
  plan_loop fuel data target (sizes k) (span_last <$> last k) = verdict (k ++ b) d.
Proof.
  induction fuel as [|fuel IH]; intros data target k b d Hb Hr Hk Hf Hlt Hge; cbn [plan_loop];
    rewrite <- verdict_done.
  { destruct (drop _ data); [|cbn in Hf; lia].
    symmetry in Hr. apply app_nil in Hr as [-> ->]. by rewrite app_nil_r. }
  destruct (Z.ltb_spec (sizes k) (len data)).
  2:{ rewrite drop_ge in Hr by (unfold len in *; lia).
      symmetry in Hr. apply app_nil in Hr as [-> ->]. by rewrite app_nil_r. }
  assert (is_bytes (drop (Z.to_nat (sizes k)) data)) as Hbd by by apply is_bytes_drop.
  rewrite spans_step in Hr by done.
  destruct (parse_record_span _) as [s|] eqn:Es.
  2:{ symmetry in Hr. apply app_nil in Hr as [-> ->]. by rewrite app_nil_r. }
  pose proof (parse_span_size _ _ Hbd Es) as Hs.
  destruct b as [|s' b]; cbn [app] in Hr.
  - destruct d as [|s' d]; [done|]. injection Hr as <- _. apply Forall_cons in Hge as [Hge _].
    destruct (Z.leb_spec target (span_last s)); [|lia].
    rewrite app_nil_r. unfold verdict. by destruct (last k).
  - injection Hr as <- Hr. apply Forall_cons in Hlt as [Hls Hlt].
    destruct (Z.leb_spec target (span_last s)); [lia|].
    rewrite drop_drop in Hr. specialize (IH data target (k ++ [s]) b d Hb).
    rewrite sizes_app, last_snoc, <- app_assoc in IH. cbn [sizes foldr fmap option_fmap] in IH.
    rewrite Z.add_0_r in IH. apply IH; try done; [|lia|].
    + rewrite <- Hr. do 2 f_equal. lia.
    + rewrite length_drop in *. unfold len in *. lia.
Qed.

Lemma plan_ordered data target : is_bytes data -> ordered (spans data) ->
  exists d, spans data = below target (spans data) ++ d
  /\ Forall (fun s => target <= span_last s) d
  /\ plan_segment_truncation data target = verdict (below target (spans data)) d.
Proof.
  intros Hb Ho. destruct (below_prefix target _ Ho) as (d & E & Hd). exists d.
  split; [done|split; [done|]].
  apply (plan_loop_spans (length data) data target [] _ d); try done.
  unfold below. apply Forall_forall. intros s Hs%list_elem_of_filter. tauto.
Qed.

(** * What happens to the directory *)

Lemma log_app a b : log (a ++ b) = log a ++ log b.
Proof. unfold log. by rewrite fmap_app, concat_app. Qed.
Lemma log_cons id f segs : log ((id, f) :: segs) = file_spans f ++ log segs.
Proof. done. Qed.

Definition file_bytes (f : Z * option bytes) : Prop :=
  match f.2 with Some data => is_bytes data | None => True end.

Lemma first_record_offset_spans f : file_bytes f ->
  first_record_offset f.2 = span_base <$> head (file_spans f.2).
Proof.
  destruct f as [id [data|]]; [|done]. unfold file_bytes, first_record_offset. cbn. intros Hb.
  rewrite spans_step by done.
  destruct (Z.ltb_spec (len data) RECORD_HEADER_LEN) as [Hl|Hl].
  { destruct (parse_record_span data) eqn:E; [|done].
    apply parse_span_size in E; [|done]. unfold RECORD_HEADER_LEN in Hl. lia. }
  set (n := Z.to_nat RECORD_HEADER_LEN).
  assert (12 <= len (take n data)) as Hn
    by (unfold len, n in *; rewrite length_take; unfold RECORD_HEADER_LEN in *; lia).
  assert (declared_record_size (take n data) = declared_record_size data) as Hd.
  { apply option_eq. intros m. rewrite <- (take_drop n data) at 2.
    by rewrite declared_record_size_app. }
  rewrite Hd. unfold first_record_range.
  destruct (declared_record_size data) as [size|] eqn:Es; cbn [mbind option_bind].
  2:{ unfold parse_record_span. by rewrite Es. }
  assert (12 <= size) as Hsz.
  { apply declared_record_size_inv in Es as (l & _ & _ & Hl4 & _ & -> & _).
    apply le_u32_nonneg in Hl4; [lia|done]. }
  destruct (Z.ltb_spec (len data) size) as [Hlt|Hlt].
  { unfold parse_record_span. rewrite Es. cbn [mbind option_bind].
    by destruct (Z.ltb_spec (len data) size); [|lia]. }
  assert (forall s, parse_record_span (take (Z.to_nat size) data) = Some s
                    <-> parse_record_span data = Some s) as Hiff.
  { intros s. rewrite <- (take_drop (Z.to_nat size) data) at 2.
    assert (len (take (Z.to_nat size) data) = size) as Hlen
      by (unfold len in *; rewrite length_take; lia).
    assert (is_bytes (take (Z.to_nat size) data)) as Hbt by by apply is_bytes_take.
    split; intros H.
    - apply parse_span_app; [by rewrite take_drop| |done].
      apply parse_span_size in H; [lia|done].
    - assert (total_size s = size) as Hts.
      { rewrite take_drop in H. destruct (parse_span_inv _ _ Hb H) as (tl & cl & E & _).
        rewrite Es in E. by injection E. }
      eapply parse_span_app; [|rewrite Hlen; lia|exact H]. by rewrite take_drop. }
  apply option_eq in Hiff. rewrite Hiff. by destruct (parse_record_span data).
Qed.

Lemma find_straddler_spec target segs : forall index st,
  Forall file_bytes segs -> ordered (log segs) ->
  (find_straddler target index st segs = st
   /\ Forall (fun s => target <= span_base s /\ target <= span_last s) (log segs))
  \/ exists pre f post s,
       segs = pre ++ f :: post
       /\ find_straddler target index st segs = Some (index + length pre)%nat
       /\ head (file_spans f.2) = Some s /\ span_base s < target
       /\ Forall (fun t => target <= span_base t /\ target <= span_last t) (log post).
Proof.
  induction segs as [|[id f] segs IH]; intros index st Hb Ho; [by left|].
  apply Forall_cons in Hb as [Hf Hb]. cbn [find_straddler].
  rewrite log_cons in Ho |- *. pose proof Ho as Ho'. apply ordered_app in Ho' as (_ & Hos & _).
  rewrite (first_record_offset_spans (id, f) Hf : first_record_offset f = _). cbn [snd].
  destruct (file_spans f) as [|s ss] eqn:Ef; cbn [head fmap option_fmap].
  - destruct (IH (S index) st Hb Hos) as [?|(pre & g & post & s & -> & -> & ?)]; [by left|].
    right. exists ((id, f) :: pre), g, post, s. cbn. split; [done|split; [|done]]. f_equal. lia.
  - cbn [option_map]. destruct (Z.ltb_spec (span_base s) target) as [Hlt|Hge].
    + right. destruct (IH (S index) (Some index) Hb Hos)
        as [[-> Hall]|(pre & g & post & s' & -> & -> & ?)].
      * exists [], (id, f), segs, s. cbn. rewrite Ef. cbn. rewrite Nat.add_0_r. done.
      * exists ((id, f) :: pre), g, post, s'. cbn. split; [done|split; [|done]]. f_equal. lia.
    + left. split; [done|]. by apply (ordered_above target s (ss ++ log segs)).
Qed.

(** The deletion loop empties every segment that holds bytes. *)
Definition emptied (f : Z * option bytes) : Z * option bytes :=
  if file_size f.2 =? 0 then f else (f.1, None).

Lemma delete_segments_spec segs : forall a d o deleted,
  files d = a ++ segs ->
  exists d' o' deleted',
    delete_segments segs (length a) d o deleted = (d', o', deleted')
    /\ files d' = a ++ (emptied <$> segs)
    /\ forall j, j ∈ deleted' -> j ∈ deleted \/ exists f, files d' !! j = Some (f, None).
Proof.
  induction segs as [|[id f] segs IH]; intros a d o deleted Hd; cbn [delete_segments].
  { exists d, o, deleted. split; [done|]. split; [done|]. auto. }
  replace (S (length a)) with (length (a ++ [emptied (id, f)]))
    by (rewrite length_app; cbn; lia).
  destruct (file_size f =? 0) eqn:E.
  - assert (emptied (id, f) = (id, f)) as He by (unfold emptied; cbn; by rewrite E).
    rewrite He. destruct (IH (a ++ [(id, f)]) d o deleted) as (d' & o' & dl & -> & Hf & Hj);
      [by rewrite Hd, <- app_assoc|].
    exists d', o', dl. split; [done|]. split; [|exact Hj].
    rewrite Hf, <- app_assoc. cbn. by rewrite He.
  - assert (emptied (id, f) = (id, None)) as He by (unfold emptied; cbn; by rewrite E).
    rewrite He.
    assert (files (remove_truncated_segment (length a) d) = (a ++ [(id, None)]) ++ segs) as Hr.
    { unfold remove_truncated_segment. rewrite Hd, list_lookup_middle by done. cbn.
      rewrite insert_app_r_alt by lia. rewrite Nat.sub_diag. cbn. by rewrite <- app_assoc. }
    destruct (IH _ _ (mkOutcome (new_log_end_offset o) (segments_deleted o + 1)
      (bytes_discarded o + file_size f) (buffered_writes_dropped o)) (deleted ++ [length a]) Hr)
      as (d' & o' & dl & -> & Hf & Hj).
    exists d', o', dl. split; [done|]. split.
    { rewrite Hf, <- app_assoc. cbn. by rewrite He. }
    intros j [Hin|Hin]%Hj; [|by right].
    apply elem_of_app in Hin as [?|Hin]; [by left|]. apply list_elem_of_singleton in Hin as ->.
    right. exists id. rewrite Hf, <- app_assoc. cbn. by rewrite list_lookup_middle.
Qed.

Lemma log_emptied segs : log (emptied <$> segs) = [].
Proof.
  induction segs as [|[id f] segs IH]; [done|]. rewrite fmap_cons.
  destruct (emptied (id, f)) as [id' f'] eqn:E. rewrite log_cons, IH, app_nil_r.
  unfold emptied in E. cbn in E. destruct (file_size f =? 0) eqn:Es; [|by injection E as <- <-].
  injection E as <- <-. destruct f as [data|]; [|done]. cbn in Es |- *.
  apply Z.eqb_eq in Es. destruct data; [done|]. rewrite len_cons in Es.
  pose proof (len_nonneg data). lia.
Qed.

Lemma last_record_offset_spans f : file_bytes f -> ordered (file_spans f.2) ->
  Forall (fun s => span_last s < 2 ^ 63 - 1) (file_spans f.2) ->
  last_record_offset f.2 = span_last <$> last (file_spans f.2).
Proof.
  destruct f as [id [data|]]; [|done]. unfold file_bytes, last_record_offset. cbn [snd].
  intros Hb Ho Hmax. cbn [mbind option_bind file_spans] in *.
  destruct (plan_ordered data (2 ^ 63 - 1) Hb Ho) as (d & E & Hd & ->).
  rewrite below_all in E |- * by done.
  rewrite <- (app_nil_r (spans data)) in E at 1. apply app_inv_head in E as <-.
  rewrite verdict_done. by destruct (span_last <$> last (spans data)).
Qed.

Lemma find_log_end_spec deleted rsegs :
  Forall file_bytes rsegs -> ordered (log (rev rsegs)) ->
  Forall (fun s => span_last s < 2 ^ 63 - 1) (log (rev rsegs)) ->
  (forall j f, j ∈ deleted -> rev rsegs !! j = Some f -> f.2 = None) ->
  find_log_end deleted (length rsegs) rsegs = span_last <$> last (log (rev rsegs)).
Proof.
  induction rsegs as [|[id f] rsegs IH]; intros Hb Ho Hmax Hdel; [done|].
  apply Forall_cons in Hb as [Hf Hb]. cbn [rev find_log_end length pred] in *.
  rewrite log_app in Ho, Hmax |- *. unfold log at 2 in Ho. unfold log at 2 in Hmax.
  unfold log at 2. cbn [fmap list_fmap concat snd] in *. rewrite app_nil_r in *.
  apply ordered_app in Ho as (Ho1 & Ho2 & _). apply Forall_app in Hmax as [Hm1 Hm2].
  assert (find_log_end deleted (length rsegs) rsegs = span_last <$> last (log (rev rsegs))) as IH'.
  { apply IH; try done. intros j g Hj Hg. apply (Hdel j g Hj).
    by apply lookup_app_l_Some. }
  rewrite last_app. case_bool_decide as Hin.
  - assert (f = None) as ->.
    { apply (Hdel (length rsegs) (id, f) Hin). rewrite <- length_rev.
      apply list_lookup_middle. done. }
    cbn. exact IH'.
  - rewrite (last_record_offset_spans (id, f) Hf Ho2 Hm2 : last_record_offset f = _). cbn [snd].
    by destruct (last (file_spans f)).
Qed.

Lemma truncate_straddler_spec target pre id data post d o :
  files d = pre ++ (id, Some data) :: post -> is_bytes data -> ordered (spans data) ->
  exists d' o' f',
    truncate_straddler target (length pre) data d o
    = (d', o', span_last <$> last (below target (spans data)))
    /\ files d' = pre ++ (id, f') :: post
    /\ file_spans f' = below target (spans data) /\ file_bytes (id, f').
Proof.
  intros Hd Hb Ho. destruct (plan_ordered data target Hb Ho) as (r & E & _ & Hp).
  unfold truncate_straddler. rewrite Hp. unfold verdict.
  set (k := below target (spans data)) in *.
  destruct (last k) as [l|] eqn:El.
  - destruct r as [|s r].
    + exists d, o, (Some data). rewrite app_nil_r in E. done.
    + eexists _, _, (Some (take (Z.to_nat (sizes k)) data)). split; [done|].
      destruct (spans_take k data (s :: r) Hb E) as [_ Hk].
      split; [|split; [exact Hk|by apply is_bytes_take]].
      unfold cut_segment. rewrite Hd, list_lookup_middle by done. cbn [files].
      by rewrite insert_app_r_alt, Nat.sub_diag by lia.
  - apply last_None in El. destruct r as [|s r].
    + exists d, o, (Some data). rewrite app_nil_r in E. cbn [file_spans]. rewrite E. done.
    + eexists _, _, None. split; [done|]. rewrite El. split; [|done].
      unfold remove_truncated_segment. rewrite Hd, list_lookup_middle by done. cbn [files].
      by rewrite insert_app_r_alt, Nat.sub_diag by lia.
Qed.

Lemma ordered_below target ss : ordered ss -> ordered (below target ss).
Proof.
  intros Ho. destruct (below_prefix target ss Ho) as (r & E & _).
  rewrite E in Ho. by apply ordered_app in Ho as [? _].
Qed.

Lemma emptied_bytes segs : Forall file_bytes segs -> Forall file_bytes (emptied <$> segs).
Proof.
  intros H. apply Forall_fmap. eapply Forall_impl; [exact H|]. intros [id f] Hf.
  unfold compose, emptied. by destruct (file_size _ =? 0).
Qed.

(** A directory as the writer leaves it: bytes, increasing offsets below the maximum. *)
Definition dir_ok (d : wal_dir) : Prop :=
  Forall file_bytes (files d) /\ ordered (log (files d))
  /\ Forall (fun s => - 2 ^ 63 <= span_last s < 2 ^ 63 - 1) (log (files d)).

(** The end of the function, once the files are in their final state. *)
Lemma log_end_spec deleted segs :
  Forall file_bytes segs -> ordered (log segs) ->
  Forall (fun s => - 2 ^ 63 <= span_last s < 2 ^ 63 - 1) (log segs) ->
  (forall j, j ∈ deleted -> exists f, segs !! j = Some (f, None)) ->
  find_log_end deleted (length segs) (rev segs) = span_last <$> last (log segs).
Proof.
  intros Hb Ho Hm Hdel. rewrite <- length_rev, find_log_end_spec; rewrite ?rev_involutive; try done.
  - by apply Forall_rev.
  - eapply Forall_impl; [exact Hm|]. cbn. lia.
  - intros j f Hj Hf. destruct (Hdel j Hj) as [id E]. rewrite E in Hf. by injection Hf as <-.
Qed.

(** What lies below the target around the segment that straddles it: all of the earlier
    segments and none of the later ones. *)
Lemma below_straddled target pre id data post s :
  ordered (log (pre ++ (id, Some data) :: post)) -> head (spans data) = Some s ->
  span_base s < target ->
  Forall (fun t => target <= span_base t /\ target <= span_last t) (log post) ->
  below target (log (pre ++ (id, Some data) :: post)) = log pre ++ below target (spans data).
Proof.
  rewrite log_app, log_cons. cbn [file_spans]. intros (_ & _ & Hpre)%ordered_app Hh Hs Hpost.
  rewrite !below_app.
  rewrite (below_none target (log post)) by (eapply Forall_impl; [exact Hpost|]; cbn; tauto).
  rewrite app_nil_r, below_all; [done|]. destruct (spans data) as [|s0 ss]; [done|].
  injection Hh as ->. eapply Forall_impl; [exact Hpre|]. cbn. intros t Ht.
  apply Forall_cons in Ht as [Ht _]. lia.
Qed.

(** The directory after truncation, and where its log ends. *)
Lemma truncate_partition_files_spec target d : dir_ok d ->
  exists d' o, truncate_partition_files target d = (d', o)
  /\ log (files d') = below target (log (files d))
  /\ new_log_end_offset o = (fun s => as_i64 (span_last s + 1)) <$> last (log (files d')).
Proof.
  intros (Hb & Ho & Hm). unfold truncate_partition_files.
  destruct (find_straddler_spec target (files d) 0 None Hb Ho)
    as [[-> Hall]|(pre & [id f] & post & s & E & -> & Hh & Hs & Hpost)].
  - destruct (delete_segments_spec (drop 0 (files d)) [] d (untouched None) [])
      as (d' & o' & dl & Heq & Hf & Hj); [done|]. cbn [length] in Heq. rewrite Heq. clear Heq.
    eexists _, _. split; [reflexivity|]. cbn [new_log_end_offset app] in *. rewrite drop_0 in Hf.
    assert (log (files d') = []) as Hl by (rewrite Hf; apply log_emptied).
    rewrite log_end_spec; rewrite ?Hl; try done.
    + split; [|done]. symmetry. apply below_none. eapply Forall_impl; [exact Hall|]. cbn. tauto.
    + rewrite Hf. by apply emptied_bytes.
    + intros j [Hin|?]%Hj; [by apply not_elem_of_nil in Hin|done].
  - destruct f as [data|]; [|done]. cbn [file_spans snd] in Hh.
    rewrite E in Hb, Ho. apply Forall_app in Hb as [Hbp Hb']. apply Forall_cons in Hb' as [Hbf Hbq].
    pose proof Ho as Hord. rewrite log_app, log_cons in Ho. cbn [file_spans] in Ho.
    apply ordered_app in Ho as (Hop & Ho2 & Hpre). apply ordered_app in Ho2 as (Hof & Hoq & _).
    cbv zeta. cbn [Nat.add].
    assert (files d !! length pre = Some (id, Some data)) as ->
      by (rewrite E; by apply list_lookup_middle).
    destruct (truncate_straddler_spec target pre id data post d (untouched None) E Hbf Hof)
      as (d1 & o1 & f' & -> & Hf1 & Hs1 & Hb1).
    assert (drop (S (length pre)) (files d) = post) as ->.
    { rewrite E, cons_middle, app_assoc. apply drop_app_length'. rewrite length_app. cbn. lia. }
    replace (S (length pre)) with (length (pre ++ [(id, f')])) by (rewrite length_app; cbn; lia).
    destruct (delete_segments_spec post (pre ++ [(id, f')]) d1 o1 [])
      as (d' & o' & dl & -> & Hf & Hj); [by rewrite Hf1, <- app_assoc|].
    eexists _, _. split; [reflexivity|]. cbn [new_log_end_offset].
    assert (log (files d') = log pre ++ below target (spans data)) as Hl.
    { by rewrite Hf, !log_app, log_emptied, app_nil_r, log_cons, Hs1, app_nil_r. }
    assert (below target (log (files d)) = log pre ++ below target (spans data)) as Hbl
      by (rewrite E; by eapply below_straddled).
    split; [by rewrite Hl, Hbl|].
    destruct (last (below target (spans data))) as [l|] eqn:El; cbn [fmap option_fmap option_map].
    + rewrite Hl, last_app, El. done.
    + rewrite log_end_spec; [by destruct (last (log (files d')))| | | |].
      * rewrite Hf. repeat (apply Forall_app; split); auto using emptied_bytes.
      * rewrite Hl, <- Hbl. apply ordered_below. by rewrite E.
      * rewrite Hl, <- Hbl. unfold below. apply Forall_forall. intros t Ht.
        apply list_elem_of_filter in Ht as [_ Ht]. rewrite Forall_forall in Hm. by apply Hm.
      * intros j [Hin|?]%Hj; [by apply not_elem_of_nil in Hin|done].
Qed.

(** * Records as the writer lays them out *)

Lemma get_range_middle a b c p n :
  p = len a -> n = len b -> get_range (a ++ b ++ c) p n = Some b.
Proof.
  intros -> ->. unfold get_range. rewrite !len_app. pose proof (len_nonneg c).
  destruct (Z.leb_spec (len a + len b) (len a + (len b + len c))); [|lia].
  unfold len. by rewrite !Nat2Z.id, drop_app_length, take_app_length.
Qed.

Lemma le_val_le n x : in_u (8 * Z.of_nat n) x -> le_val (le_bytes n x) = x.
Proof. intros H. rewrite le_val_le_bytes, pow256. by apply Z.mod_small. Qed.

Lemma i64_le x : in_s 64 x -> as_i64 (le_val (le_bytes 8 x)) = x.
Proof.
  intros H. rewrite le_val_le_bytes, pow256. change (x mod _) with (wrap_u 64 x).
  by rewrite wrap_s_wrap_u, wrap_s_id by (lia || done).
Qed.

(** A V2 record whose length field is right. *)
Definition v2_written (r : WalV2) : Prop :=
  v2_fields_ok r /\ v2_length r = 30 + len (v2_topic r) + len (v2_canonical_data r)
  /\ is_bytes (v2_topic r) /\ is_bytes (v2_canonical_data r).

Definition span_of (r : WalV2) : RecordSpan :=
  mkSpan (12 + v2_length r) (v2_base_offset r) (v2_last_offset r).

Lemma to_bytes_is_bytes r : v2_written r -> is_bytes (to_bytes (V2 r)).
Proof.
  intros (_ & _ & Ht & Hd). unfold to_bytes, write_record, v2_body, is_bytes in *.
  repeat (apply Forall_app; split); auto using le_bytes_byte.
Qed.

(** The field of [d] between [pre] and [post]. *)
Lemma field_at d pre b post p n :
  d = pre ++ b ++ post -> p = len pre -> n = len b -> get_range d p n = Some b.
Proof. intros ->. apply get_range_middle. Qed.

Lemma declared_written r :
  v2_fields_ok r -> v2_length r <> 0 ->
  declared_record_size (to_bytes (V2 r)) = Some (12 + v2_length r).
Proof.
  intros (Hm & Hv & Hf & Hl & _) Hnz. unfold declared_record_size, le_u16, le_u32.
  pose proof (len_to_bytes_v2 r). pose proof (len_nonneg (v2_topic r)).
  pose proof (len_nonneg (v2_canonical_data r)). unfold RECORD_HEADER_LEN.
  destruct (Z.ltb_spec (len (to_bytes (V2 r))) 12); [lia|].
  rewrite (field_at (to_bytes (V2 r)) [] (le_bytes 2 (v2_magic r)) _ 0 2 eq_refl) by (by rewrite ?len_le_bytes).
  cbn [fmap option_fmap option_map mbind option_bind]. rewrite le_val_le, Hm by (by rewrite Hm).
  assert (nth 2 (to_bytes (V2 r)) 0 = WAL_VERSION_V2) as ->.
  { unfold to_bytes, write_record. rewrite app_nth2; rewrite length_le_bytes; [|lia].
    by rewrite Hv. }
  cbn [negb orb]. change (WAL_MAGIC =? WAL_MAGIC) with true.
  change (WAL_VERSION_V2 =? WAL_VERSION_V2) with true. cbn [negb orb].
  rewrite (field_at (to_bytes (V2 r)) (le_bytes 2 (v2_magic r) ++ le_bytes 1 (v2_version r)
    ++ le_bytes 1 (v2_flags r)) (le_bytes 4 (v2_length r)) (le_bytes 4 (v2_crc32 r)
    ++ v2_body le_bytes r) 4 4)
    by ((unfold to_bytes, write_record; by rewrite <- !app_assoc)
        || (rewrite ?len_app, ?len_le_bytes; done)).
  cbn [fmap option_fmap option_map mbind option_bind]. rewrite le_val_le by done.
  destruct (Z.eqb_spec (v2_length r) 0); [done|]. unfold checked_add, in_u in *.
  by destruct (Z.ltb_spec (12 + v2_length r) (2 ^ 64)); [|lia].
Qed.

Lemma parse_span_written r : v2_written r ->
  parse_record_span (to_bytes (V2 r)) = Some (span_of r).
Proof.
  intros (Hok & Hlen & _ & _). pose proof (len_to_bytes_v2 r) as Htot.
  pose proof (len_nonneg (v2_topic r)) as Hnt. pose proof (len_nonneg (v2_canonical_data r)) as Hnd.
  pose proof (declared_written r Hok ltac:(lia)) as Hdecl.
  destruct Hok as (Hm & Hv & Hf & Hl & Hc & Ht & Hu & Hp & Hd & Hb & Hlo & Hn).
  set (h12 := le_bytes 2 (v2_magic r) ++ le_bytes 1 (v2_version r) ++ le_bytes 1 (v2_flags r)
    ++ le_bytes 4 (v2_length r) ++ le_bytes 4 (v2_crc32 r)).
  set (tl := le_bytes 2 (as_u16 (len (v2_topic r)))).
  set (pa := le_bytes 4 (v2_partition r)). set (cd := v2_canonical_data r) in *.
  set (cl := le_bytes 4 (as_u32 (len cd))). set (bo := le_bytes 8 (v2_base_offset r)).
  set (lo := le_bytes 8 (v2_last_offset r)). set (rc := le_bytes 4 (v2_record_count r)).
  assert (to_bytes (V2 r) = h12 ++ tl ++ v2_topic r ++ pa ++ cl ++ cd ++ bo ++ lo ++ rc) as E.
  { unfold h12. by rewrite <- !app_assoc. }
  assert (len h12 = 12 /\ len tl = 2 /\ len pa = 4 /\ len cl = 4 /\ len bo = 8 /\ len lo = 8)
    as (L12 & Ltl & Lpa & Lcl & Lbo & Llo).
  { unfold h12, tl, pa, cl, bo, lo. rewrite !len_app, !len_le_bytes. done. }
  unfold span_of. rewrite Hlen in *.
  replace (12 + (30 + len (v2_topic r) + len cd)) with (42 + len (v2_topic r) + len cd) in * by lia.
  apply parse_span_intro; try (done || lia); unfold le_u16, le_u32, le_i64; rewrite E.
  - rewrite (field_at _ h12 tl _ 12 2 eq_refl) by lia. cbn. unfold tl.
    by rewrite (wrap_u_id 16), le_val_le by (unfold in_u; lia).
  - rewrite (field_at _ (h12 ++ tl ++ v2_topic r ++ pa) cl (cd ++ bo ++ lo ++ rc) _ 4)
      by (by rewrite <- ?app_assoc || (rewrite ?len_app; lia)). cbn. unfold cl.
    by rewrite (wrap_u_id 32), le_val_le by (unfold in_u; lia).
  - rewrite (field_at _ (h12 ++ tl ++ v2_topic r ++ pa ++ cl ++ cd) bo (lo ++ rc) _ 8)
      by (by rewrite <- ?app_assoc || (rewrite ?len_app; lia)). cbn. unfold bo.
    by rewrite i64_le.
  - rewrite (field_at _ (h12 ++ tl ++ v2_topic r ++ pa ++ cl ++ cd ++ bo) lo rc _ 8)
      by (by rewrite <- ?app_assoc || (rewrite ?len_app; lia)). cbn. unfold lo.
    by rewrite i64_le.
Qed.

(** A segment written record by record reads back as those records. *)
Lemma spans_written rs :
  Forall v2_written rs ->
  is_bytes (concat ((fun r => to_bytes (V2 r)) <$> rs))
  /\ spans (concat ((fun r => to_bytes (V2 r)) <$> rs)) = span_of <$> rs.
Proof.
  induction 1 as [|r rs Hr _ [IHb IH]]; [by split; [apply Forall_nil_2|]|].
  cbn [fmap list_fmap concat].
  assert (is_bytes (to_bytes (V2 r) ++ concat ((fun r => to_bytes (V2 r)) <$> rs))) as Hb.
  { apply Forall_app. split; [by apply to_bytes_is_bytes|done]. }
  split; [done|]. rewrite spans_step by done.
  assert (total_size (span_of r) = len (to_bytes (V2 r))) as Hsz.
  { rewrite len_to_bytes_v2. destruct Hr as (_ & Hl & _). cbn. rewrite Hl. done. }
  assert (parse_record_span (to_bytes (V2 r) ++ concat ((fun r => to_bytes (V2 r)) <$> rs))
          = Some (span_of r)) as ->.
  { apply parse_span_app; [done|lia|by apply parse_span_written]. }
  rewrite Hsz. unfold len. rewrite Nat2Z.id, drop_app_length. f_equal. exact IH.
Qed.

(** * Properties *)

(** [C30] The bytes the writer appends to a segment, record after record, are read back by
    the truncation planner as exactly those records, with their sizes and offsets. *)
Theorem planner_reads_written_log (rs : list WalV2) :
  Forall v2_written rs ->
  spans (concat ((fun r => to_bytes (V2 r)) <$> rs)) = span_of <$> rs.
Proof. apply spans_written. Qed.

Definition sample_v2 (topic : string) (data : bytes) (bo lo : Z) : WalV2 :=
  mkV2 WAL_MAGIC WAL_VERSION_V2 0 (30 + len (bytes_of_string topic) + len data) 0
    (bytes_of_string topic) 0 data bo lo (lo - bo + 1).

Lemma planner_reads_written_log_witness :
  spans (concat ((fun r => to_bytes (V2 r)) <$> [sample_v2 "t" [1; 2] 0 4; sample_v2 "t" [3] 5 9]))
  = span_of <$> [sample_v2 "t" [1; 2] 0 4; sample_v2 "t" [3] 5 9].
Proof. apply planner_reads_written_log. concrete. Defined.

(** [C1] Truncating a partition whose log has increasing offsets keeps exactly the
    records that end below the target, in order: no record with an offset at or above
    the target survives and no other record is lost.  The reported log end is one past
    the last surviving record, or none when nothing survives. *)
Theorem truncation_exact (target : Z) (d : wal_dir) :
  dir_ok d ->
  let (d', o) := truncate_partition_files target d in
  log (files d') = below target (log (files d))
  /\ new_log_end_offset o = (fun s => span_last s + 1) <$> last (below target (log (files d))).
Proof.
  intros Hd. destruct (truncate_partition_files_spec target d Hd) as (d' & o & -> & Hl & He).
  split; [done|]. rewrite He, Hl. destruct Hd as (_ & _ & Hm).
  destruct (last (below _ _)) as [s|] eqn:E; [|done]. cbn. f_equal. apply wrap_s_id; [lia|].
  apply last_Some_elem_of, list_elem_of_filter in E as [_ Hin].
  rewrite Forall_forall in Hm. specialize (Hm s Hin). unfold in_s. lia.
Qed.

(** Three segments: a full one, one the target falls into, an empty active one. *)
Definition sample_dir : wal_dir :=
  mkDir
    [(1, Some (to_bytes (V2 (sample_v2 "t" [1; 2] 0 4)) ++ to_bytes (V2 (sample_v2 "t" [3] 5 9))));
     (2, Some (to_bytes (V2 (sample_v2 "t" [4] 10 14)) ++ to_bytes (V2 (sample_v2 "t" [5] 15 19))));
     (3, Some [])]
    (<[1 := 99]> (<[2 := 98]> ∅)).

Lemma truncation_exact_witness :
  let (d', o) := truncate_partition_files 17 sample_dir in
  log (files d') = below 17 (log (files sample_dir))
  /\ new_log_end_offset o = (fun s => span_last s + 1) <$> last (below 17 (log (files sample_dir))).
Proof. apply truncation_exact. concrete. Defined.

(** [C38] A segment that holds bytes but no parseable record is not left alone: when it is
    the only segment, truncation deletes it whatever the target. *)
Theorem unparseable_segment_deleted (target id : Z) (data : bytes) (sealed : gmap Z Z) :
  parse_record_span data = None -> data <> [] -> is_bytes data ->
  truncate_partition_files target (mkDir [(id, Some data)] sealed)
  = (mkDir [(id, None)] (delete id sealed), mkOutcome None 1 (len data) 0).
Proof.
  intros Hp Hne Hb. unfold truncate_partition_files. cbn [files find_straddler].
  rewrite (first_record_offset_spans (id, Some data) Hb : first_record_offset (Some data) = _).
  cbn [snd file_spans]. rewrite spans_step, Hp by done. cbn.
  destruct (Z.eqb_spec (len data) 0) as [E|E]; [|done].
  destruct data; [done|]. rewrite len_cons in E. pose proof (len_nonneg data). lia.
Qed.

Lemma unparseable_segment_deleted_witness :
  truncate_partition_files 1000 (mkDir [(7, Some [1; 2; 3])] ∅)
  = (mkDir [(7, None)] (delete 7 ∅), mkOutcome None 1 3 0).
Proof. apply (unparseable_segment_deleted 1000 7 [1; 2; 3] ∅); concrete. Defined.
