(* ===== verification/WalIndex.v ===== *)
(** Indexed reads of a partition's log: crates/chronik-wal/src/segment_index.rs.

    The file system is a parameter of the operations: a segment's content is the bytes
    its file holds ([None]: the file is gone), and the successive results of
    [File::read] are a list of chunks, so that theorems hold for every way the operating
    system splits a read.  A directory is the list of names and contents [read_dir] would give. *)
From stdpp Require Import base list numbers strings gmap sorting pretty.
From Stdlib Require Import ZArith Lia Sorted.
From S2P Require Import Prelude Extern WalRecord WalTruncate.
Local Open Scope Z_scope.

Definition MARK_INTERVAL : Z := 64 * 1024.
Definition HEADER_LEN : Z := 12.
Definition TRAILER_LEN : Z := 20.

(** [struct RecordLayout]; a range is its two ends. *)
Record RecordLayout : Type := mkLayout {
  total_len : Z;
  topic : Z * Z;
  payload : Z * Z;
  partition : Z;
  base_offset : Z;
  last_offset : Z;
  record_count : Z;
  magic : Z;
  version : Z;
  flags : Z;
  length_field : Z;
  crc32_field : Z }.

Inductive Parsed : Type :=
| Record_ (l : RecordLayout)
| Incomplete
| Invalid.

(** [n] bytes at [at]; [parse_record] checks the length before each access. *)
Definition bytes_at (b : bytes) (at_ n : Z) : bytes :=
  take (Z.to_nat n) (drop (Z.to_nat at_) b).
Definition le_u16 (b : bytes) (at_ : Z) : Z := le_val (bytes_at b at_ 2).
Definition le_u32 (b : bytes) (at_ : Z) : Z := le_val (bytes_at b at_ 4).
Definition le_i32 (b : bytes) (at_ : Z) : Z := as_i32 (le_val (bytes_at b at_ 4)).
Definition le_i64 (b : bytes) (at_ : Z) : Z := as_i64 (le_val (bytes_at b at_ 8)).

Definition parse_record (buf : bytes) : Parsed :=
  if len buf <? HEADER_LEN + 2 then Incomplete else
  let magic := le_u16 buf 0 in
  let version := nth 2 buf 0 in
  let flags := nth 3 buf 0 in
  let length := le_u32 buf 4 in
  let crc32 := le_u32 buf 8 in
  if negb (magic =? WAL_MAGIC) || negb (version =? WAL_VERSION_V2) || (length =? 0)
  then Invalid else
  let topic_len := le_u16 buf HEADER_LEN in
  let topic_at := HEADER_LEN + 2 in
  let partition_at := topic_at + topic_len in
  let cdl_at := partition_at + 4 in
  let payload_at := cdl_at + 4 in
  if len buf <? payload_at then Incomplete else
  let partition := le_i32 buf partition_at in
  let payload_len := le_u32 buf cdl_at in
  let meta_at := payload_at + payload_len in
  if 2 ^ 64 <=? meta_at then Invalid else
  let total_len := meta_at + TRAILER_LEN in
  if 2 ^ 64 <=? total_len then Invalid else
  if len buf <? total_len then Incomplete else
  Record_ (mkLayout total_len (topic_at, partition_at) (payload_at, meta_at) partition
             (le_i64 buf meta_at) (le_i64 buf (meta_at + 8)) (le_i32 buf (meta_at + 16))
             magic version flags length crc32).

Definition range (buf : bytes) (r : Z * Z) : bytes := bytes_at buf r.1 (r.2 - r.1).

(** [to_record]; a topic that is not UTF-8 gives no record. *)
Definition to_record (l : RecordLayout) (buf : bytes) : option WalRecord :=
  let t := range buf (topic l) in
  if utf8_valid t then
    Some (V2 (mkV2 (magic l) (version l) (flags l) (length_field l) (crc32_field l) t
                (partition l) (range buf (payload l)) (base_offset l) (last_offset l)
                (record_count l)))
  else None.

(** [struct SegmentMarks], its path left out. *)
Record SegmentMarks : Type := mkMarks {
  indexed_len : Z;
  first_offset : option Z;
  marks_last_offset : option Z;
  marks : list (Z * Z) }.

Definition marks_new : SegmentMarks := mkMarks 0 None None [].

(** The body of the scan in [refresh] for a record at [position]. *)
Definition index_record (l : RecordLayout) (position : Z) (m : SegmentMarks) : SegmentMarks :=
  let want_mark :=
    match last (marks m) with
    | None => true
    | Some (_, last_pos) => MARK_INTERVAL <=? position - last_pos
    end in
  mkMarks (indexed_len m)
    (match first_offset m with None => Some (base_offset l) | Some o => Some o end)
    (Some (last_offset l))
    (if want_mark then marks m ++ [(base_offset l, position)] else marks m).

Fixpoint refresh_loop (fuel : nat) (tail : bytes) (cursor : Z) (m : SegmentMarks)
    : SegmentMarks * Z :=
  match fuel with
  | O => (m, cursor)
  | S fuel =>
      match parse_record (drop (Z.to_nat cursor) tail) with
      | Record_ l =>
          refresh_loop fuel tail (cursor + total_len l)
            (index_record l (indexed_len m + cursor) m)
      | Incomplete | Invalid => (m, cursor)
      end
  end.

(** [SegmentMarks::refresh] against the file's present content. *)
Definition refresh (file : option bytes) (m : SegmentMarks) : SegmentMarks :=
  match file with
  | None => marks_new
  | Some data =>
      let m := if len data <? indexed_len m then marks_new else m in
      if len data =? indexed_len m then m else
      let tail := drop (Z.to_nat (indexed_len m)) data in
      let (m, cursor) := refresh_loop (length tail) tail 0 m in
      mkMarks (indexed_len m + cursor) (first_offset m) (marks_last_offset m) (marks m)
  end.

(** [binary_search_by] on marks with distinct keys: the index of the offset, or where
    it would be inserted. *)
Fixpoint binary_search (ms : list (Z * Z)) (offset : Z) (index : nat) : nat + nat :=
  match ms with
  | [] => inr index
  | (base, _) :: ms =>
      if base =? offset then inl index
      else if base <? offset then binary_search ms offset (S index)
      else inr index
  end.

Definition seek_to (m : SegmentMarks) (offset : Z) : option Z :=
  l ← marks_last_offset m;
  if l <? offset then None else
  match binary_search (marks m) offset 0 with
  | inl i => snd <$> marks m !! i
  | inr O => snd <$> head (marks m)
  | inr (S i) => snd <$> marks m !! i
  end.

(** ** Reading *)

(** Where a read stands: the messages counted and the records collected. *)
Record read_state : Type := mkRead { messages : Z; out : list WalRecord }.

Definition read_record_at (offset max_records : Z) (buf : bytes) (l : RecordLayout)
    (st : read_state) : read_state :=
  if (offset <=? last_offset l) && (messages st <? max_records) then
    match to_record l buf with
    | Some r => mkRead (as_usize (messages st + Z.max (record_count l) 1)) (out st ++ [r])
    | None => st
    end
  else st.

(** The inner loop over one buffer: the new state, the bytes left over, and whether to
    stop. *)
Fixpoint scan_buffer (fuel : nat) (offset max_records : Z) (buf : bytes) (st : read_state)
    : read_state * bytes * bool :=
  match fuel with
  | O => (st, buf, false)
  | S fuel =>
      match parse_record buf with
      | Record_ l =>
          let st := read_record_at offset max_records buf l st in
          let buf := drop (Z.to_nat (total_len l)) buf in
          if max_records <=? messages st then (st, buf, true)
          else scan_buffer fuel offset max_records buf st
      | Incomplete => (st, buf, false)
      | Invalid => (st, buf, true)
      end
  end.

(** The outer loop of [read_segment_from]: [chunks] are the results of [File::read]
    until it returns nothing. *)
Fixpoint read_chunks (offset max_records : Z) (chunks : list bytes) (buf : bytes)
    (st : read_state) : read_state :=
  match chunks with
  | [] => (scan_buffer (length buf) offset max_records buf st).1.1
  | c :: chunks =>
      let buf := buf ++ c in
      let '(st, buf, stop) := scan_buffer (length buf) offset max_records buf st in
      if stop then st else read_chunks offset max_records chunks buf st
  end.

(** [PartitionIndex]: the segments in id order with their files, and how the operating
    system chunks a read of [data]. *)
Section Partition.
Variable chunked : bytes -> list bytes.

Definition read_segment_from (file : option bytes) (start offset max_records : Z)
    (st : read_state) : read_state :=
  match file with
  | None => st
  | Some data =>
      read_chunks offset max_records (chunked (drop (Z.to_nat start) data)) [] st
  end.

(** The loop that ends [PartitionIndex::refresh]: every segment of the index is refreshed. *)
Definition refresh_all (segs : list (option bytes * SegmentMarks))
    : list (option bytes * SegmentMarks) :=
  (fun s => (s.1, refresh s.1 s.2)) <$> segs.

Fixpoint read_plan (plan : list (option bytes * Z)) (offset max_records : Z)
    (st : read_state) : read_state :=
  match plan with
  | [] => st
  | (file, start) :: plan =>
      if max_records <=? messages st then st
      else read_plan plan offset max_records (read_segment_from file start offset max_records st)
  end.

Definition read_from (segs : list (option bytes * SegmentMarks)) (offset max_records : Z)
    : list (option bytes * SegmentMarks) * list WalRecord :=
  let segs := refresh_all segs in
  let plan := omap (fun s => (fun pos => (s.1, pos)) <$> seek_to s.2 offset) segs in
  (segs, out (read_plan plan offset max_records (mkRead 0 []))).

(** The directory side of the index.  A directory is the names of its files with their content, in
    the order [read_dir] lists them ([None]: it cannot be listed). *)
Definition directory : Type := list (bytes * bytes).
Definition file_of (d : directory) (name : bytes) : option bytes :=
  (list_to_map d : gmap bytes bytes) !! name.

Definition strip_prefix (p s : bytes) : option bytes :=
  if bool_decide (take (length p) s = p) then Some (drop (length p) s) else None.
Definition strip_suffix (p s : bytes) : option bytes :=
  let n := (length s - length p)%nat in
  if bool_decide (drop n s = p) then Some (take n s) else None.

(** [segment_id]: the number in [wal_<partition>_<id>.log]. *)
Definition segment_id (name : bytes) (partition : Z) : option Z :=
  s ← strip_prefix (bytes_of_string ("wal_" +:+ pretty partition +:+ "_")) name;
  s ← strip_suffix (bytes_of_string ".log") s;
  parse_u64 s.

(** [struct PartitionIndex], its directory a parameter: each segment's path and marks by id. *)
Record PartitionIndex : Type := mkIndex {
  ix_partition : Z;
  ix_segments : gmap Z (bytes * SegmentMarks) }.

(** [BTreeMap::values]: in id order. *)
Definition in_order {A} (m : gmap Z A) : list A :=
  omap (fun id => m !! id) (merge_sort Z.le (elements (dom m))).

(** One directory entry: an id the index does not know gets fresh marks; the id is seen. *)
Definition list_entry (partition : Z) (acc : list Z * gmap Z (bytes * SegmentMarks)) (name : bytes)
    : list Z * gmap Z (bytes * SegmentMarks) :=
  match segment_id name partition with
  | Some id =>
      (acc.1 ++ [id],
       match acc.2 !! id with Some _ => acc.2 | None => <[id := (name, marks_new)]> acc.2 end)
  | None => acc
  end.
Definition list_segments (partition : Z) (names : list bytes) (segs : gmap Z (bytes * SegmentMarks))
    : gmap Z (bytes * SegmentMarks) :=
  let '(seen, segs) := foldl (list_entry partition) ([], segs) names in
  filter (fun s => s.1 ∈ seen) segs.

(** [PartitionIndex::refresh] and [PartitionIndex::read_from]. *)
Definition refresh_index (d : option directory) (ix : PartitionIndex) : res PartitionIndex :=
  match d with
  | None => Err (ENotFound "SegmentNotFound")
  | Some d =>
      Ok (mkIndex (ix_partition ix)
            ((fun s => (s.1, refresh (file_of d s.1) s.2))
               <$> list_segments (ix_partition ix) d.*1 (ix_segments ix)))
  end.
Definition read_partition (d : option directory) (ix : PartitionIndex) (offset max_records : Z)
    : res (PartitionIndex * list WalRecord) :=
  ix ← refresh_index d ix;
  let plan := omap (fun s => (fun pos => (file_of (default [] d) s.1, pos)) <$> seek_to s.2 offset)
                (in_order (ix_segments ix)) in
  Ok (ix, out (read_plan plan offset max_records (mkRead 0 []))).
End Partition.

(** * The reference reading of a segment *)

(** A record as [parse_record] sees it, with its own bytes. *)
Abbreviation entry := (RecordLayout * bytes)%type.

Fixpoint entries_fuel (fuel : nat) (data : bytes) : list entry :=
  match fuel with
  | O => []
  | S fuel =>
      match parse_record data with
      | Record_ l =>
          (l, take (Z.to_nat (total_len l)) data)
          :: entries_fuel fuel (drop (Z.to_nat (total_len l)) data)
      | _ => []
      end
  end.

Definition entries (data : bytes) : list entry := entries_fuel (length data) data.

Definition file_entries (file : option bytes) : list entry :=
  match file with Some data => entries data | None => [] end.

(** Reading a log without an index: every record in order until enough messages. *)
Fixpoint scan_log (offset max_records : Z) (es : list entry) (st : read_state) : read_state :=
  match es with
  | [] => st
  | (l, b) :: es =>
      let st := read_record_at offset max_records b l st in
      if max_records <=? messages st then st else scan_log offset max_records es st
  end.

Definition entry_span (e : entry) : RecordSpan :=
  mkSpan (total_len e.1) (base_offset e.1) (last_offset e.1).

Definition lens (es : list entry) : Z := sizes (entry_span <$> es).

Lemma lens_cons e es : lens (e :: es) = total_len e.1 + lens es.
Proof. done. Qed.
Lemma lens_app a b : lens (a ++ b) = lens a + lens b.
Proof. unfold lens. by rewrite fmap_app, sizes_app. Qed.

(** ** Parsing looks at the record's own bytes *)

Lemma bytes_at_app a b p n :
  0 <= p -> 0 <= n -> p + n <= len a -> bytes_at (a ++ b) p n = bytes_at a p n.
Proof.
  intros. unfold bytes_at, len in *. rewrite drop_app_le by lia.
  rewrite take_app_le; [done|]. rewrite length_drop. lia.
Qed.

Lemma bytes_at_nonneg b p n : is_bytes b -> 0 <= le_val (bytes_at b p n).
Proof. intros. by apply le_val_nonneg, is_bytes_take, is_bytes_drop. Qed.

(** The facts behind a complete record. *)
Lemma parse_record_inv buf l : is_bytes buf -> parse_record buf = Record_ l ->
  exists tl pl, le_u16 buf 12 = tl /\ le_u32 buf (18 + tl) = pl /\ 0 <= tl /\ 0 <= pl
  /\ total_len l = 42 + tl + pl /\ total_len l <= len buf
  /\ topic l = (14, 14 + tl) /\ payload l = (22 + tl, 22 + tl + pl).
Proof.
  intros Hb. unfold parse_record, HEADER_LEN, TRAILER_LEN.
  destruct (Z.ltb_spec (len buf) (12 + 2)); [done|].
  destruct (_ || _ || _); [done|].
  set (tl := le_u16 buf 12).
  destruct (Z.ltb_spec (len buf) (12 + 2 + tl + 4 + 4)); [done|].
  replace (12 + 2 + tl + 4) with (18 + tl) by lia. set (pl := le_u32 buf (18 + tl)).
  destruct (2 ^ 64 <=? _); [done|]. destruct (2 ^ 64 <=? _); [done|].
  destruct (Z.ltb_spec (len buf) (18 + tl + 4 + pl + 20)); [done|].
  intros [= <-]. exists tl, pl. cbn [total_len topic payload].
  pose proof (bytes_at_nonneg buf 12 2 Hb). pose proof (bytes_at_nonneg buf (18 + tl) 4 Hb).
  unfold tl, pl, le_u16, le_u32 in *. split_and!; try done; try lia; f_equal; lia.
Qed.

Lemma parse_record_app buf x l : is_bytes buf -> parse_record buf = Record_ l ->
  parse_record (buf ++ x) = Record_ l.
Proof.
  intros Hb E. destruct (parse_record_inv _ _ Hb E) as (tl & pl & Htl & Hpl & H1 & H2 & H3 & H4 & _).
  pose proof (len_nonneg x). revert E. unfold parse_record, HEADER_LEN, TRAILER_LEN. rewrite len_app.
  assert (le_u16 (buf ++ x) 12 = tl) as Etl.
  { rewrite <- Htl. unfold le_u16. by rewrite bytes_at_app by lia. }
  rewrite Etl, Htl. replace (12 + 2 + tl + 4) with (18 + tl) by lia.
  assert (le_u32 (buf ++ x) (18 + tl) = pl) as ->.
  { rewrite <- Hpl. unfold le_u32. by rewrite bytes_at_app by lia. }
  rewrite Hpl. replace (18 + tl + 4 + pl) with (22 + tl + pl) by lia.
  replace (18 + tl + 4) with (22 + tl) by lia. replace (12 + 2 + tl) with (14 + tl) by lia.
  unfold le_u16, le_u32, le_i32, le_i64. unfold len in *.
  rewrite !bytes_at_app by (unfold len; lia). rewrite !app_nth1 by lia.
  destruct (Z.ltb_spec (Z.of_nat (length buf)) (12 + 2)); [done|].
  destruct (Z.ltb_spec (Z.of_nat (length buf) + Z.of_nat (length x)) (12 + 2)); [lia|].
  destruct (_ || _ || _); [done|].
  destruct (Z.ltb_spec (Z.of_nat (length buf)) (22 + tl)); [done|].
  destruct (Z.ltb_spec (Z.of_nat (length buf) + Z.of_nat (length x)) (22 + tl)); [lia|].
  destruct (2 ^ 64 <=? _); [done|]. destruct (2 ^ 64 <=? _); [done|].
  destruct (Z.ltb_spec (Z.of_nat (length buf)) (22 + tl + pl + 20)); [done|].
  by destruct (Z.ltb_spec (Z.of_nat (length buf) + Z.of_nat (length x)) (22 + tl + pl + 20)); [lia|].
Qed.

Lemma parse_record_len buf l : is_bytes buf -> parse_record buf = Record_ l ->
  42 <= total_len l <= len buf.
Proof.
  intros Hb E. destruct (parse_record_inv _ _ Hb E) as (tl & pl & _ & _ & ? & ? & ? & ? & _). lia.
Qed.

(** Once the header is there, a rejected record stays rejected. *)
Lemma parse_record_app_invalid buf x : is_bytes (buf ++ x) -> parse_record buf = Invalid ->
  parse_record (buf ++ x) = Invalid.
Proof.
  intros Hbx. assert (is_bytes buf) as Hb by (by apply Forall_app in Hbx as [? _]).
  pose proof (len_nonneg x). unfold parse_record, HEADER_LEN, TRAILER_LEN. rewrite len_app.
  destruct (Z.ltb_spec (len buf) (12 + 2)); [done|].
  destruct (Z.ltb_spec (len buf + len x) (12 + 2)); [lia|].
  assert (forall p, 0 <= p -> p + 2 <= 14 -> le_u16 (buf ++ x) p = le_u16 buf p) as E16
    by (intros; unfold le_u16; by rewrite bytes_at_app by lia).
  assert (forall p, 0 <= p -> p + 4 <= len buf -> le_u32 (buf ++ x) p = le_u32 buf p) as E32
    by (intros; unfold le_u32; by rewrite bytes_at_app by lia).
  rewrite !E16, (E32 4) by lia. rewrite app_nth1 by (unfold len in *; lia).
  destruct (_ || _ || _); [done|].
  set (tl := le_u16 buf 12). assert (0 <= tl) by by apply bytes_at_nonneg.
  destruct (Z.ltb_spec (len buf) (12 + 2 + tl + 4 + 4)); [done|].
  destruct (Z.ltb_spec (len buf + len x) (12 + 2 + tl + 4 + 4)); [lia|].
  rewrite E32 by lia. destruct (2 ^ 64 <=? _); [done|]. destruct (2 ^ 64 <=? _); [done|].
  by destruct (len buf <? _).
Qed.

Lemma to_record_app buf x l : is_bytes buf -> parse_record buf = Record_ l ->
  to_record l (buf ++ x) = to_record l buf.
Proof.
  intros Hb E. destruct (parse_record_inv _ _ Hb E) as (tl & pl & _ & _ & H1 & H2 & H3 & H4 & Ht & Hp).
  unfold to_record, range. rewrite Ht, Hp. cbn [fst snd]. by rewrite !bytes_at_app by lia.
Qed.

Lemma to_record_own buf l : is_bytes buf -> parse_record buf = Record_ l ->
  to_record l (take (Z.to_nat (total_len l)) buf) = to_record l buf.
Proof.
  intros Hb E. destruct (parse_record_inv _ _ Hb E) as (tl & pl & _ & _ & H1 & H2 & H3 & H4 & Ht & Hp).
  rewrite <- (take_drop (Z.to_nat (total_len l)) buf) at 2.
  unfold to_record, range. rewrite Ht, Hp. cbn [fst snd].
  rewrite !(bytes_at_app (take _ _)); try done; try lia;
    unfold len in *; rewrite length_take; lia.
Qed.

Lemma entries_fuel_enough f1 : forall f2 data, is_bytes data ->
  (length data <= f1)%nat -> (length data <= f2)%nat -> entries_fuel f1 data = entries_fuel f2 data.
Proof.
  induction f1 as [|f1 IH]; intros [|f2] data Hb H1 H2; [done| | |];
    try (destruct data; [|cbn in *; lia]; done).
  cbn. destruct (parse_record data) as [l| |] eqn:E; try done.
  pose proof (parse_record_len _ _ Hb E). f_equal. unfold len in *.
  apply IH; [by apply is_bytes_drop| |]; rewrite length_drop; lia.
Qed.

Lemma entries_step data : is_bytes data ->
  entries data = match parse_record data with
                 | Record_ l => (l, take (Z.to_nat (total_len l)) data)
                                :: entries (drop (Z.to_nat (total_len l)) data)
                 | _ => []
                 end.
Proof.
  intros Hb. unfold entries. destruct (length data) as [|n] eqn:El.
  - destruct data; [|done]. done.
  - cbn. destruct (parse_record data) as [l| |] eqn:E; try done. f_equal.
    pose proof (parse_record_len _ _ Hb E). unfold len in *.
    apply entries_fuel_enough; [by apply is_bytes_drop| |]; rewrite length_drop; lia.
Qed.

(** Records read from a prefix of the file are read from the file. *)
Lemma entries_app_step buf x l : is_bytes (buf ++ x) -> parse_record buf = Record_ l ->
  entries (buf ++ x) = (l, take (Z.to_nat (total_len l)) buf)
                       :: entries (drop (Z.to_nat (total_len l)) buf ++ x).
Proof.
  intros Hbx E. assert (is_bytes buf) as Hb by (by apply Forall_app in Hbx as [? _]).
  pose proof (parse_record_len _ _ Hb E). rewrite entries_step by done.
  rewrite (parse_record_app _ _ _ Hb E). unfold len in *.
  by rewrite take_app_le, drop_app_le by lia.
Qed.

(** * Chunked reads *)

Lemma scan_log_full offset max es st : max <= messages st -> scan_log offset max es st = st.
Proof.
  intros H. destruct es as [|[l b] es]; [done|]. cbn. unfold read_record_at.
  destruct (Z.ltb_spec (messages st) max); [lia|]. rewrite andb_false_r.
  by destruct (Z.leb_spec max (messages st)); [|lia].
Qed.

Lemma read_record_at_own offset max buf l st : is_bytes buf -> parse_record buf = Record_ l ->
  read_record_at offset max (take (Z.to_nat (total_len l)) buf) l st
  = read_record_at offset max buf l st.
Proof. intros. unfold read_record_at. by rewrite to_record_own. Qed.

(** One pass over the buffer advances the reference scan of buffer and remaining bytes. *)
Lemma scan_buffer_spec offset max x : forall fuel buf st st' buf' stop,
  is_bytes (buf ++ x) -> (length buf <= fuel)%nat ->
  scan_buffer fuel offset max buf st = (st', buf', stop) ->
  (if stop then scan_log offset max (entries (buf ++ x)) st = st'
   else scan_log offset max (entries (buf ++ x)) st = scan_log offset max (entries (buf' ++ x)) st'
        /\ entries buf' = [] /\ is_bytes (buf' ++ x)).
Proof.
  induction fuel as [|fuel IH]; intros buf st st' buf' stop Hbx Hf; cbn [scan_buffer].
  { destruct buf; [|cbn in Hf; lia]. intros [= <- <- <-]. done. }
  assert (is_bytes buf) as Hb by (by apply Forall_app in Hbx as [? _]).
  destruct (parse_record buf) as [l| |] eqn:E.
  - rewrite (entries_app_step _ _ _ Hbx E). cbn [scan_log].
    rewrite read_record_at_own by done.
    destruct (Z.leb_spec max (messages (read_record_at offset max buf l st))) as [Hm|Hm].
    + intros [= <- <- <-]. done.
    + apply IH.
      * apply Forall_app in Hbx as [_ Hx]. apply Forall_app. split; [by apply is_bytes_drop|done].
      * pose proof (parse_record_len _ _ Hb E). unfold len in *. rewrite length_drop. lia.
  - intros [= <- <- <-]. split; [done|]. split; [|done].
    rewrite entries_step by done. by rewrite E.
  - intros [= <- <- <-]. rewrite entries_step by done.
    by rewrite parse_record_app_invalid.
Qed.

Lemma read_chunks_spec offset max chunks : forall buf st,
  is_bytes (buf ++ concat chunks) ->
  read_chunks offset max chunks buf st = scan_log offset max (entries (buf ++ concat chunks)) st.
Proof.
  induction chunks as [|c chunks IH]; intros buf st Hb; cbn [read_chunks concat] in *.
  - destruct (scan_buffer _ _ _ buf st) as [[st' buf'] stop] eqn:E. cbn [fst].
    apply (scan_buffer_spec _ _ []) in E; [|done|lia]. rewrite !app_nil_r in *. destruct stop; [done|].
    destruct E as (-> & E & _). by rewrite E.
  - rewrite app_assoc in Hb |- *.
    destruct (scan_buffer _ _ _ (buf ++ c) st) as [[st' buf'] stop] eqn:E.
    apply (scan_buffer_spec _ _ (concat chunks)) in E; [|done|lia].
    destruct stop; [done|]. destruct E as (-> & _ & Hb'). by apply IH.
Qed.

(** * The index *)

(** Indexing a list of records from a byte position on. *)
Fixpoint index_entries (position : Z) (es : list entry) (m : SegmentMarks) : SegmentMarks :=
  match es with
  | [] => m
  | (l, _) :: es => index_entries (position + total_len l) es (index_record l position m)
  end.

Lemma index_entries_app p a b m :
  index_entries p (a ++ b) m = index_entries (p + lens a) b (index_entries p a m).
Proof.
  revert p m. induction a as [|[l x] a IH]; intros p m; cbn [app index_entries].
  - by rewrite Z.add_0_r.
  - rewrite lens_cons, IH. cbn [fst]. f_equal. lia.
Qed.

Lemma index_entries_len p es m : indexed_len (index_entries p es m) = indexed_len m.
Proof. revert p m. induction es as [|[l b] es IH]; intros; cbn; [done|]. by rewrite IH. Qed.

Lemma refresh_loop_spec : forall fuel tail done_ m m' c,
  is_bytes tail -> 0 <= lens done_ -> entries tail = done_ ++ entries (drop (Z.to_nat (lens done_)) tail) ->
  (length (drop (Z.to_nat (lens done_)) tail) <= fuel)%nat ->
  refresh_loop fuel tail (lens done_) m = (m', c) ->
  m' = index_entries (indexed_len m + lens done_) (entries (drop (Z.to_nat (lens done_)) tail)) m
  /\ c = lens (entries tail).
Proof.
  induction fuel as [|fuel IH]; intros tail done_ m m' c Hb Hd He Hf; cbn [refresh_loop].
  - destruct (drop _ tail) eqn:E; [|cbn in Hf; lia]. intros [= <- <-].
    change (entries []) with (@nil entry) in *. rewrite app_nil_r in He. by rewrite He.
  - assert (is_bytes (drop (Z.to_nat (lens done_)) tail)) as Hbd by by apply is_bytes_drop.
    rewrite (entries_step (drop _ tail)) in * by done.
    destruct (parse_record _) as [l| |] eqn:E.
    2,3: intros [= <- <-]; rewrite app_nil_r in He; by rewrite He.
    set (e := (l, _)) in *. pose proof (parse_record_len _ _ Hbd E) as Hl.
    replace (lens done_ + total_len l) with (lens (done_ ++ [e]))
      by (rewrite lens_app, lens_cons; cbn; lia).
    rewrite drop_drop in *.
    replace (Z.to_nat (lens done_) + Z.to_nat (total_len l))%nat
      with (Z.to_nat (lens (done_ ++ [e]))) in *
      by (rewrite lens_app, lens_cons; cbn; lia).
    intros Hr. apply IH in Hr as [-> ->]; try done.
    + split; [|done]. cbn [index_entries]. cbn [indexed_len index_record].
      rewrite lens_app, lens_cons. cbn. f_equal. lia.
    + rewrite lens_app, lens_cons. cbn. lia.
    + by rewrite <- app_assoc.
    + unfold len in *. rewrite length_drop in *. rewrite lens_app, lens_cons. cbn. lia.
Qed.

Definition with_len (n : Z) (m : SegmentMarks) : SegmentMarks :=
  mkMarks n (first_offset m) (marks_last_offset m) (marks m).

Lemma index_entries_with_len n p es m :
  index_entries p es (with_len n m) = with_len n (index_entries p es m).
Proof. revert p m. induction es as [|[l b] es IH]; intros p m; cbn; [done|]. by rewrite <- IH. Qed.

(** The index of the records [es], and of a whole file. *)
Definition index_of (es : list entry) : SegmentMarks :=
  with_len (lens es) (index_entries 0 es marks_new).

Lemma refresh_spec data es : is_bytes data -> 0 <= lens es <= len data ->
  entries data = es ++ entries (drop (Z.to_nat (lens es)) data) ->
  refresh (Some data) (index_of es) = index_of (entries data).
Proof.
  intros Hb Hl He. unfold refresh. change (indexed_len (index_of es)) with (lens es).
  destruct (Z.ltb_spec (len data) (lens es)); [lia|].
  change (indexed_len (index_of es)) with (lens es).
  destruct (Z.eqb_spec (len data) (lens es)) as [E|E].
  - rewrite drop_ge in He by (unfold len in *; lia).
    change (entries []) with (@nil entry) in He. rewrite app_nil_r in He. by rewrite He.
  - set (tail := drop (Z.to_nat (lens es)) data) in *.
    destruct (refresh_loop (length tail) tail 0 _) as [m' c] eqn:Er.
    apply (refresh_loop_spec _ _ []) in Er as [-> ->];
      [|by apply is_bytes_drop|done|done|cbn; rewrite drop_0; lia].
    cbn [lens fmap list_fmap sizes foldr]. rewrite drop_0, index_entries_len, Z.add_0_r.
    unfold index_of. cbn [indexed_len with_len]. rewrite index_entries_with_len.
    rewrite He. rewrite index_entries_app, lens_app. done.
Qed.

Lemma lens_nonneg data : is_bytes data -> 0 <= lens (entries data) <= len data.
Proof.
  remember (length data) as n eqn:En. revert data En.
  induction n as [n IH] using lt_wf_ind. intros data En Hb. rewrite entries_step by done.
  pose proof (len_nonneg data). destruct (parse_record data) as [l| |] eqn:E; try (cbn; lia).
  pose proof (parse_record_len _ _ Hb E) as Hl. rewrite lens_cons. cbn [fst]. unfold len in *.
  destruct (IH (length (drop (Z.to_nat (total_len l)) data))) with
    (data := drop (Z.to_nat (total_len l)) data) as [? ?];
    [rewrite length_drop; lia|done|by apply is_bytes_drop|].
  unfold len in *. rewrite length_drop in *. lia.
Qed.

(** Appending to a file extends its records. *)
Lemma entries_append a b : is_bytes (a ++ b) ->
  entries (a ++ b) = entries a ++ entries (drop (Z.to_nat (lens (entries a))) (a ++ b)).
Proof.
  remember (length a) as n eqn:En. revert a En.
  induction n as [n IH] using lt_wf_ind. intros a En Hbx.
  assert (is_bytes a) as Hb by (by apply Forall_app in Hbx as [? _]).
  rewrite (entries_step a) by done. destruct (parse_record a) as [l| |] eqn:E; try (by rewrite drop_0).
  pose proof (parse_record_len _ _ Hb E) as Hl. rewrite (entries_app_step _ _ _ Hbx E).
  cbn [app]. f_equal. rewrite lens_cons. cbn [fst].
  set (a' := drop (Z.to_nat (total_len l)) a) in *.
  assert (is_bytes (a' ++ b)) as Hb'.
  { apply Forall_app in Hbx as [_ ?]. apply Forall_app. split; [by apply is_bytes_drop|done]. }
  pose proof (lens_nonneg a' ltac:(by apply is_bytes_drop)).
  rewrite (IH (length a')) by (unfold a' in *; unfold len in *; rewrite ?length_drop; (done || lia)).
  f_equal. f_equal. rewrite Z2Nat.inj_add by lia. rewrite <- drop_drop. f_equal.
  unfold len in *. by rewrite drop_app_le by lia.
Qed.

(** What the marks of an index say about the records. *)
Definition mark_at (es : list entry) (m : Z * Z) : Prop :=
  exists pre l b post, es = pre ++ (l, b) :: post /\ m = (base_offset l, lens pre).

Record marks_inv (es : list entry) (m : SegmentMarks) : Prop := {
  inv_at : Forall (mark_at es) (marks m);
  inv_head : head (marks m) = (fun e => (base_offset e.1, 0)) <$> head es;
  inv_last : marks_last_offset m = (fun e => last_offset e.1) <$> last es;
  inv_sorted : StronglySorted (fun a b => a.1 < b.1) (marks m) }.

Lemma mark_at_app es x m : mark_at es m -> mark_at (es ++ x) m.
Proof. intros (pre & l & b & post & -> & ->). exists pre, l, b, (post ++ x). by rewrite <- app_assoc. Qed.

Lemma StronglySorted_snoc_lt (ms : list (Z * Z)) x :
  StronglySorted (fun a b => a.1 < b.1) ms -> Forall (fun a => a.1 < x.1) ms ->
  StronglySorted (fun a b => a.1 < b.1) (ms ++ [x]).
Proof.
  induction ms as [|y ms IH]; intros Hs Hx; [by repeat constructor|].
  apply StronglySorted_inv in Hs as [Hs Hy]. apply Forall_cons in Hx as [Hyx Hx].
  constructor; [by apply IH|]. apply Forall_app. split; [done|]. by repeat constructor.
Qed.

Lemma ordered_mark_lt es l b m :
  ordered (entry_span <$> es ++ [(l, b)]) -> mark_at es m -> m.1 < base_offset l.
Proof.
  intros Ho (pre & l' & b' & post & -> & ->). rewrite fmap_app in Ho.
  apply ordered_app in Ho as (Ho & _ & Hlt). rewrite fmap_app in Ho, Hlt.
  apply ordered_app in Ho as (_ & (Hbl & _) & _).
  apply Forall_app in Hlt as [_ Hlt]. apply Forall_cons in Hlt as [Hlt _].
  apply Forall_cons in Hlt as [Hlt _]. cbn in *. lia.
Qed.

Lemma index_record_inv es l b m : ordered (entry_span <$> es ++ [(l, b)]) ->
  marks_inv es m -> marks_inv (es ++ [(l, b)]) (index_record l (lens es) m).
Proof.
  intros Ho [Hat Hhd Hla Hso].
  assert (mark_at (es ++ [(l, b)]) (base_offset l, lens es)) as Hnew by (by exists es, l, b, []).
  assert (Forall (mark_at (es ++ [(l, b)])) (marks m)) as Hold
    by (eapply Forall_impl; [exact Hat|]; intros; by apply mark_at_app).
  assert (Forall (fun a => a.1 < base_offset l) (marks m)) as Hlt
    by (eapply Forall_impl; [exact Hat|]; intros; by eapply ordered_mark_lt).
  unfold index_record. constructor; cbn [marks marks_last_offset].
  - destruct (match last (marks m) with None => true | Some (_, p) => _ end); [|done].
    apply Forall_app. split; [done|]. by repeat constructor.
  - destruct es as [|e es]; cbn in Hhd.
    + destruct (marks m); [|done]. done.
    + cbn. destruct (marks m) as [|x ms]; [done|]. cbn in Hhd. injection Hhd as ->.
      by destruct (match last _ with None => true | Some (_, p) => _ end).
  - by rewrite last_snoc.
  - destruct (match last (marks m) with None => true | Some (_, p) => _ end); [|done].
    by apply StronglySorted_snoc_lt.
Qed.

Lemma index_of_inv es : ordered (entry_span <$> es) -> marks_inv es (index_of es).
Proof.
  intros Ho. assert (marks_inv es (index_entries 0 es marks_new)) as [H1 H2 H3 H4];
    [|by constructor].
  induction es as [|[l b] es IH] using rev_ind; [by constructor; repeat constructor|].
  rewrite index_entries_app. cbn [index_entries]. rewrite Z.add_0_l.
  apply index_record_inv; [done|]. apply IH. rewrite fmap_app in Ho. by apply ordered_app in Ho as [? _].
Qed.

(** * Seeking *)

Lemma binary_search_spec offset ms : forall k,
  match binary_search ms offset k with
  | inl i => exists p j, i = (k + j)%nat /\ ms !! j = Some (offset, p)
  | inr i => i = k \/ exists b p j, i = S (k + j)%nat /\ ms !! j = Some (b, p) /\ b < offset
  end.
Proof.
  induction ms as [|[b p] ms IH]; intros k; cbn; [by left|].
  destruct (Z.eqb_spec b offset) as [->|Hne].
  { exists p, 0%nat. split; [lia|done]. }
  destruct (Z.ltb_spec b offset); [|by left]. specialize (IH (S k)).
  destruct (binary_search ms offset (S k)) as [i|i].
  - destruct IH as (q & j & -> & Hj). exists q, (S j). split; [lia|done].
  - right. destruct IH as [->|(b' & q & j & -> & Hj & Hb)].
    + exists b, p, 0%nat. split; [lia|]. done.
    + exists b', q, (S j). split; [lia|]. done.
Qed.

Lemma ordered_last_max es l : ordered (entry_span <$> es) -> last es = Some l ->
  Forall (fun e => last_offset e.1 <= last_offset l.1) es.
Proof.
  intros Ho [es' ->]%last_Some. rewrite fmap_app in Ho. apply ordered_app in Ho as (_ & [Hbl _] & Hlt).
  apply Forall_app. split; [|by repeat constructor]. apply Forall_fmap in Hlt.
  eapply Forall_impl; [exact Hlt|]. intros e He. cbn in He. apply Forall_cons in He as [He _].
  cbn in *. lia.
Qed.

(** A mark at or below the offset starts after records that all end below it. *)
Lemma mark_seek es offset b p : ordered (entry_span <$> es) -> mark_at es (b, p) -> b <= offset ->
  exists pre post, es = pre ++ post /\ p = lens pre
  /\ Forall (fun e => last_offset e.1 < offset) pre.
Proof.
  intros Ho (pre & l & x & post & -> & [= -> ->]) Hb. exists pre, ((l, x) :: post).
  split; [done|]. split; [done|]. rewrite fmap_app in Ho. apply ordered_app in Ho as (_ & _ & Hlt).
  apply Forall_fmap in Hlt. eapply Forall_impl; [exact Hlt|]. intros e He.
  cbn in He. apply Forall_cons in He as [He _]. cbn in He. lia.
Qed.

Lemma seek_to_spec es offset : ordered (entry_span <$> es) ->
  match seek_to (index_of es) offset with
  | Some p => exists pre post, es = pre ++ post /\ p = lens pre
              /\ Forall (fun e => last_offset e.1 < offset) pre
  | None => Forall (fun e => last_offset e.1 < offset) es
  end.
Proof.
  intros Ho. destruct (index_of_inv es Ho) as [Hat Hhd Hla _]. unfold seek_to. rewrite Hla.
  destruct (last es) as [e|] eqn:El; cbn [fmap option_fmap option_map mbind option_bind].
  2:{ apply last_None in El as ->. done. }
  destruct (Z.ltb_spec (last_offset e.1) offset) as [Hlt|Hge].
  { eapply Forall_impl; [by eapply ordered_last_max|]. cbn. lia. }
  pose proof (binary_search_spec offset (marks (index_of es)) 0) as Hs.
  assert (forall j b p, marks (index_of es) !! j = Some (b, p) -> b <= offset ->
    exists pre post, es = pre ++ post /\ p = lens pre
      /\ Forall (fun e => last_offset e.1 < offset) pre) as Hmark.
  { intros j b p Hj Hb. eapply mark_seek; [done| |exact Hb].
    by eapply Forall_lookup_1 in Hat. }
  destruct (binary_search _ _ _) as [i|[|i]].
  - destruct Hs as (p & j & -> & Hj). rewrite Nat.add_0_l, Hj. cbn. eapply Hmark; [exact Hj|lia].
  - rewrite Hhd. destruct es as [|e0 es]; [done|]. cbn. by exists [], (e0 :: es).
  - destruct Hs as [?|(b & p & j & [= ->] & Hj & Hb)]; [done|]. rewrite Hj. cbn.
    eapply Hmark; [exact Hj|lia].
Qed.

Lemma entries_drop pre : forall data post, is_bytes data -> entries data = pre ++ post ->
  0 <= lens pre /\ entries (drop (Z.to_nat (lens pre)) data) = post.
Proof.
  induction pre as [|[l b] pre IH]; intros data post Hb E; [by rewrite drop_0|].
  rewrite entries_step in E by done. destruct (parse_record data) as [l'| |] eqn:El; try done.
  pose proof (parse_record_len _ _ Hb El). cbn in E. injection E as <- <- E.
  apply IH in E as [Hp E]; [|by apply is_bytes_drop]. rewrite drop_drop in E.
  rewrite lens_cons. cbn [fst]. split; [lia|]. rewrite <- E. do 2 f_equal. lia.
Qed.

(** * Reading through the index *)

(** Records that end below the offset leave the state alone. *)
Lemma scan_log_skip offset max pre post st :
  Forall (fun e => last_offset e.1 < offset) pre ->
  scan_log offset max (pre ++ post) st = scan_log offset max post st.
Proof.
  induction 1 as [|[l b] pre He _ IH]; [done|]. cbn in He |- *. unfold read_record_at at 1 2 3.
  destruct (Z.leb_spec offset (last_offset l)); [lia|]. cbn [andb].
  destruct (Z.leb_spec max (messages st)); [by rewrite scan_log_full|done].
Qed.

Lemma scan_log_app offset max a b st :
  scan_log offset max (a ++ b) st = scan_log offset max b (scan_log offset max a st).
Proof.
  revert st. induction a as [|[l x] a IH]; intros st; [done|]. cbn.
  destruct (Z.leb_spec max (messages (read_record_at offset max x l st))); [by rewrite scan_log_full|].
  apply IH.
Qed.

(** A segment whose marks index a prefix of its file, as append-only growth leaves it. *)
Definition seg_ok (s : option bytes * SegmentMarks) : Prop :=
  match s.1 with
  | None => True
  | Some data => is_bytes data /\ exists a b, data = a ++ b /\ s.2 = index_of (entries a)
  end.

Lemma refresh_seg s : seg_ok s -> refresh s.1 s.2 = index_of (file_entries s.1).
Proof.
  destruct s as [[data|] m]; cbn; [|done]. intros (Hb & a & b & -> & ->).
  assert (is_bytes a) as Ha by (by apply Forall_app in Hb as [? _]).
  apply refresh_spec; [done| |by apply entries_append].
  pose proof (lens_nonneg a Ha). pose proof (len_nonneg b). rewrite len_app. lia.
Qed.

Section ReadFrom.
Variable chunked : bytes -> list bytes.
Hypothesis chunked_concat : forall data, concat (chunked data) = data.

Lemma read_segment_spec file pos offset max st :
  match file with Some data => is_bytes data | None => True end ->
  ordered (entry_span <$> file_entries file) ->
  seek_to (index_of (file_entries file)) offset = Some pos ->
  read_segment_from chunked file pos offset max st
  = scan_log offset max (file_entries file) st.
Proof.
  intros Hb Ho Hs. pose proof (seek_to_spec _ offset Ho) as Hk. rewrite Hs in Hk.
  destruct Hk as (pre & post & E & -> & Hpre). destruct file as [data|]; [|done]. cbn in *.
  destruct (entries_drop pre data post Hb E) as [_ Hd].
  rewrite read_chunks_spec; cbn [app]; rewrite chunked_concat; [|by apply is_bytes_drop].
  by rewrite E, Hd, scan_log_skip.
Qed.

Lemma read_plan_spec offset max segs : forall st,
  Forall (fun f => match f with Some data => is_bytes data | None => True end) segs ->
  ordered (entry_span <$> concat (file_entries <$> segs)) ->
  read_plan chunked
    (omap (fun s => (fun pos => (s.1, pos)) <$> seek_to s.2 offset)
       ((fun f => (f, index_of (file_entries f))) <$> segs)) offset max st
  = scan_log offset max (concat (file_entries <$> segs)) st.
Proof.
  induction segs as [|f segs IH]; intros st Hb Ho; [done|].
  apply Forall_cons in Hb as [Hf Hb]. cbn [fmap list_fmap concat] in Ho |- *.
  rewrite fmap_app in Ho. apply ordered_app in Ho as (Hof & Hos & _).
  cbn [omap list_omap fst snd]. rewrite scan_log_app.
  destruct (seek_to (index_of (file_entries f)) offset) as [pos|] eqn:Es;
    cbn [fmap option_fmap option_map].
  - cbn [read_plan]. destruct (Z.leb_spec max (messages st)).
    + by rewrite !scan_log_full by (rewrite ?scan_log_full; done).
    + rewrite read_segment_spec by done. by apply IH.
  - rewrite IH by done. f_equal. pose proof (seek_to_spec _ offset Hof) as Hn. rewrite Es in Hn.
    rewrite <- (app_nil_r (file_entries f)). by rewrite scan_log_skip.
Qed.
End ReadFrom.

Lemma read_from_spec chunked segs offset max :
  (forall data, concat (chunked data) = data) ->
  Forall seg_ok segs ->
  ordered (entry_span <$> concat (file_entries <$> (fst <$> segs))) ->
  read_from chunked segs offset max
  = ((fun f => (f, index_of (file_entries f))) <$> (fst <$> segs),
     out (scan_log offset max (concat (file_entries <$> (fst <$> segs))) (mkRead 0 []))).
Proof.
  intros Hc Hs Ho.
  assert (refresh_all segs = (fun f => (f, index_of (file_entries f))) <$> (fst <$> segs)) as Hr.
  { unfold refresh_all. rewrite <- list_fmap_compose. apply list_fmap_ext. intros i s Hi.
    cbn. f_equal. apply refresh_seg. by eapply Forall_lookup_1 in Hs. }
  unfold read_from. rewrite Hr. f_equal. f_equal. apply read_plan_spec; [done| |done].
  apply Forall_fmap. eapply Forall_impl; [exact Hs|]. intros [[data|] m]; [by intros [? _]|done].
Qed.

(** * The index over a directory *)

Lemma in_order_fmap {A B} (f : A -> B) (m : gmap Z A) : in_order (f <$> m) = f <$> in_order m.
Proof.
  unfold in_order. rewrite dom_fmap_L. induction (merge_sort _ _) as [|id l IH]; [done|].
  cbn [omap list_omap]. rewrite lookup_fmap. destruct (m !! id); cbn [fmap option_fmap option_map]; by rewrite IH.
Qed.

(** The entries gone through: every id of theirs is seen and known, a known segment stays as it
    was, and a new one has fresh marks and the name it was found under. *)
Lemma list_entries partition names : forall seen m,
  let '(seen', m') := foldl (list_entry partition) (seen, m) names in
  seen' = seen ++ omap (fun n => segment_id n partition) names
  /\ (forall i, i ∈ omap (fun n => segment_id n partition) names -> is_Some (m' !! i))
  /\ (forall i s, m !! i = Some s -> m' !! i = Some s)
  /\ (forall i s, m !! i = None -> m' !! i = Some s ->
       s.2 = marks_new /\ s.1 ∈ names /\ segment_id s.1 partition = Some i).
Proof.
  induction names as [|n names IH]; intros seen m.
  { cbn. rewrite app_nil_r. split_and!; [done|by intros i ?%elem_of_nil|done|congruence]. }
  cbn [foldl omap list_omap]. unfold list_entry at 2.
  destruct (segment_id n partition) as [k|] eqn:Ek; cbn [fst snd].
  2:{ specialize (IH seen m). destruct (foldl _ _ _) as [seen' m']. destruct IH as (H1 & H2 & H3 & H4).
      split_and!; [done|done|done|]. intros i s Hi Hs. destruct (H4 i s Hi Hs) as (Hm & Hn & Hid).
      split_and!; [done|by right|done]. }
  set (mk := match m !! k with Some _ => m | None => <[k := (n, marks_new)]> m end).
  assert (is_Some (mk !! k)) as [sk Hk].
  { unfold mk. destruct (m !! k) eqn:E; [by rewrite E|]. by rewrite lookup_insert_eq. }
  specialize (IH (seen ++ [k]) mk). destruct (foldl _ _ _) as [seen' m']. destruct IH as (H1 & H2 & H3 & H4).
  split_and!.
  - by rewrite H1, <- app_assoc.
  - intros i [->|Hi]%elem_of_cons; [|by apply H2]. by rewrite (H3 _ _ Hk).
  - intros i s Hi. apply H3. unfold mk. destruct (m !! k) eqn:E; [done|]. by rewrite lookup_insert_ne by congruence.
  - intros i s Hi Hs. destruct (mk !! i) as [s'|] eqn:E.
    + pose proof (H3 _ _ E) as Hs'. rewrite Hs in Hs'. injection Hs' as <-. unfold mk in E.
      destruct (m !! k) eqn:Em; [congruence|]. apply lookup_insert_Some in E as [[<- <-]|[_ E]]; [|congruence].
      split_and!; [done|by left|done].
    + destruct (H4 i s E Hs) as (Hm & Hn & Hid). split_and!; [done|by right|done].
Qed.

(** The index holds the segments the directory lists, with the marks it had of them. *)
Theorem list_segments_lookup partition names segs id :
  let live := list_segments partition names segs in
  (is_Some (live !! id) <-> id ∈ omap (fun n => segment_id n partition) names)
  /\ (forall s, segs !! id = Some s -> is_Some (live !! id) -> live !! id = Some s)
  /\ (forall s, segs !! id = None -> live !! id = Some s ->
       s.2 = marks_new /\ s.1 ∈ names /\ segment_id s.1 partition = Some id).
Proof.
  pose proof (list_entries partition names [] segs) as Hgen. unfold list_segments. cbv zeta.
  destruct (foldl _ _ _) as [seen m]. destruct Hgen as (-> & H2 & H3 & H4). cbn [app].
  split_and!.
  - split.
    + intros [s Hs]. by apply map_lookup_filter_Some in Hs as [_ Hs].
    + intros Hi. destruct (H2 id Hi) as [s Hs]. exists s. by apply map_lookup_filter_Some.
  - intros s Hs [s' Hs']. rewrite Hs'. apply map_lookup_filter_Some in Hs' as [Hs' _]. rewrite (H3 _ _ Hs) in Hs'. done.
  - intros s Hn Hs. apply map_lookup_filter_Some in Hs as [Hs _]. by apply (H4 id s).
Qed.

(** Reading a partition is reading the segments its directory lists, in id order. *)
Theorem partition_read_is_scan (chunked : bytes -> list bytes) (partition : Z) (d : directory)
    (segs : gmap Z (bytes * SegmentMarks)) (offset max_records : Z) :
  let live := list_segments partition d.*1 segs in
  let files := (fun s => file_of d s.1) <$> in_order live in
  (forall data, concat (chunked data) = data) ->
  Forall seg_ok ((fun s => (file_of d s.1, s.2)) <$> in_order live) ->
  ordered (entry_span <$> concat (file_entries <$> files)) ->
  exists ix,
    read_partition chunked (Some d) (mkIndex partition segs) offset max_records
    = Ok (ix, out (scan_log offset max_records (concat (file_entries <$> files)) (mkRead 0 [])))
    /\ in_order (ix_segments ix) = (fun s => (s.1, index_of (file_entries (file_of d s.1)))) <$> in_order live.
Proof.
  intros live files Hc Hs Ho. eexists. split.
  - unfold read_partition. cbn [refresh_index mbind res_bind ix_partition ix_segments default]. fold live.
    f_equal. f_equal. rewrite in_order_fmap.
    pose proof (read_from_spec chunked ((fun s => (file_of d s.1, s.2)) <$> in_order live) offset max_records Hc Hs) as Hr.
    assert (((fun s => (file_of d s.1, s.2)) <$> in_order live).*1 = files) as Hf by by rewrite <- list_fmap_compose.
    rewrite Hf in Hr. specialize (Hr Ho). apply (f_equal snd) in Hr. cbn [snd] in Hr. rewrite <- Hr.
    unfold read_from, refresh_all. cbn [snd]. f_equal. f_equal. rewrite <- list_fmap_compose. unfold compose. cbn [fst snd].
    clear. induction (in_order live) as [|s l IH]; [done|]. cbn [fmap list_fmap omap list_omap fst snd].
    by rewrite IH.
  - cbn [ix_segments]. fold live. rewrite in_order_fmap. apply list_fmap_ext. intros i s Hi. f_equal.
    apply (refresh_seg (file_of d s.1, s.2)). rewrite Forall_fmap in Hs. by eapply Forall_lookup_1 in Hs.
Qed.

(** * Records as the writer lays them out *)

Lemma bytes_at_field d pre b post p n :
  d = pre ++ b ++ post -> p = len pre -> n = len b -> bytes_at d p n = b.
Proof.
  intros -> -> ->. unfold bytes_at, len. by rewrite !Nat2Z.id, drop_app_length, take_app_length.
Qed.

Definition layout_of (r : WalV2) : RecordLayout :=
  let tl := len (v2_topic r) in
  let pl := len (v2_canonical_data r) in
  mkLayout (42 + tl + pl) (14, 14 + tl) (22 + tl, 22 + tl + pl) (v2_partition r)
    (v2_base_offset r) (v2_last_offset r) (v2_record_count r) (v2_magic r) (v2_version r)
    (v2_flags r) (v2_length r) (v2_crc32 r).

Lemma i32_le x : in_s 32 x -> as_i32 (le_val (le_bytes 4 x)) = x.
Proof.
  intros H. rewrite le_val_le_bytes, pow256. change (x mod _) with (wrap_u 32 x).
  by rewrite wrap_s_wrap_u, wrap_s_id by (lia || done).
Qed.

(** Split the written record at a field and read it. *)
Ltac read_field n :=
  match goal with |- bytes_at (to_bytes (V2 ?r)) _ _ = ?b =>
    let l := constr:([le_bytes 2 (v2_magic r); le_bytes 1 (v2_version r); le_bytes 1 (v2_flags r);
      le_bytes 4 (v2_length r); le_bytes 4 (v2_crc32 r); le_bytes 2 (as_u16 (len (v2_topic r)));
      v2_topic r; le_bytes 4 (v2_partition r); le_bytes 4 (as_u32 (len (v2_canonical_data r)));
      v2_canonical_data r; le_bytes 8 (v2_base_offset r); le_bytes 8 (v2_last_offset r);
      le_bytes 4 (v2_record_count r)]) in
    apply (bytes_at_field _ (concat (take n l)) b (concat (drop (S n) l)));
      cbn [take drop concat]; rewrite ?app_nil_r, <- ?app_assoc;
      [done | rewrite ?len_app, ?len_le_bytes, ?len_nil; lia | rewrite ?len_le_bytes; lia]
  end.

Lemma written_fields r (d := to_bytes (V2 r)) (t := len (v2_topic r))
    (c := len (v2_canonical_data r)) :
  bytes_at d 0 2 = le_bytes 2 (v2_magic r) /\ bytes_at d 2 1 = le_bytes 1 (v2_version r)
  /\ bytes_at d 3 1 = le_bytes 1 (v2_flags r) /\ bytes_at d 4 4 = le_bytes 4 (v2_length r)
  /\ bytes_at d 8 4 = le_bytes 4 (v2_crc32 r) /\ bytes_at d 12 2 = le_bytes 2 (as_u16 t)
  /\ bytes_at d 14 t = v2_topic r /\ bytes_at d (14 + t) 4 = le_bytes 4 (v2_partition r)
  /\ bytes_at d (18 + t) 4 = le_bytes 4 (as_u32 c) /\ bytes_at d (22 + t) c = v2_canonical_data r
  /\ bytes_at d (22 + t + c) 8 = le_bytes 8 (v2_base_offset r)
  /\ bytes_at d (22 + t + c + 8) 8 = le_bytes 8 (v2_last_offset r)
  /\ bytes_at d (22 + t + c + 16) 4 = le_bytes 4 (v2_record_count r).
Proof.
  unfold t, c, d. split_and!.
  - read_field 0%nat.
  - read_field 1%nat.
  - read_field 2%nat.
  - read_field 3%nat.
  - read_field 4%nat.
  - read_field 5%nat.
  - read_field 6%nat.
  - read_field 7%nat.
  - read_field 8%nat.
  - read_field 9%nat.
  - read_field 10%nat.
  - read_field 11%nat.
  - read_field 12%nat.
Qed.

Lemma nth_bytes_at d p x : 0 <= p -> in_u 8 x -> bytes_at d p 1 = le_bytes 1 x ->
  nth (Z.to_nat p) d 0 = x.
Proof.
  intros Hp Hx E. unfold bytes_at in E. change (Z.to_nat 1) with 1%nat in E.
  rewrite <- (Nat.add_0_r (Z.to_nat p)), <- nth_skipn. destruct (drop (Z.to_nat p) d) as [|y ys]; [done|].
  cbn in E. injection E as ->. cbn. by apply Z.mod_small.
Qed.

(** The reader does not look at the length field beyond its being set. *)
Lemma parse_record_written r : v2_fields_ok r -> v2_length r <> 0 ->
  parse_record (to_bytes (V2 r)) = Record_ (layout_of r)
  /\ to_record (layout_of r) (to_bytes (V2 r)) = Some (V2 r).
Proof.
  intros (Hm & Hv & Hf & Hl & Hc & Ht & Hu & Hp & Hd & Hb & Hlo & Hn) Hnz.
  pose proof (len_to_bytes_v2 r) as Htot.
  pose proof (len_nonneg (v2_topic r)) as Hnt. pose proof (len_nonneg (v2_canonical_data r)) as Hnd.
  destruct (written_fields r)
    as (E0 & E2 & E3 & E4 & E8 & E12 & Et & Ep & Ecl & Ecd & Ebo & Elo & Erc).
  set (d := to_bytes (V2 r)) in *. set (t := len (v2_topic r)) in *.
  set (c := len (v2_canonical_data r)) in *.
  apply (nth_bytes_at d 2) in E2; [|lia|by rewrite Hv]. apply (nth_bytes_at d 3) in E3; [|lia|done].
  split.
  - unfold parse_record, le_u16, le_u32, le_i32, le_i64, HEADER_LEN, TRAILER_LEN.
    rewrite E0, E4, E8, E12. change (nth 2 d 0 = v2_version r) in E2. change (nth 3 d 0 = v2_flags r) in E3.
    rewrite E2, E3, (wrap_u_id 16) by (unfold in_u; lia).
    rewrite !le_val_le by (done || (rewrite Hm; done) || (unfold in_u; lia)).
    rewrite Hm, Hv, !Z.eqb_refl. destruct (Z.eqb_spec (v2_length r) 0); [done|]. cbn [negb orb].
    replace (12 + 2 + t + 4 + 4) with (22 + t) by lia. replace (12 + 2 + t + 4) with (18 + t) by lia.
    replace (12 + 2 + t) with (14 + t) by lia.
    rewrite Ecl, Ep, (wrap_u_id 32), (le_val_le 4 c) by (unfold in_u; lia).
    rewrite Ebo, Elo, Erc, !i64_le, !i32_le by done.
    destruct (Z.ltb_spec (len d) (12 + 2)); [lia|]. destruct (Z.ltb_spec (len d) (22 + t)); [lia|].
    destruct (Z.leb_spec (2 ^ 64) (22 + t + c)); [lia|].
    destruct (Z.leb_spec (2 ^ 64) (22 + t + c + 20)); [lia|].
    destruct (Z.ltb_spec (len d) (22 + t + c + 20)); [lia|].
    unfold layout_of. rewrite Hm, Hv. fold t c. do 2 f_equal. lia.
  - unfold to_record, range, layout_of. cbn [topic payload fst snd]. fold t c.
    replace (14 + t - 14) with t by lia. replace (22 + t + c - (22 + t)) with c by lia.
    rewrite Et, Ecd, Hu. cbn. by destruct r.
Qed.

Lemma entries_written rs : Forall v2_written rs ->
  entries (concat ((fun r => to_bytes (V2 r)) <$> rs))
  = (fun r => (layout_of r, to_bytes (V2 r))) <$> rs.
Proof.
  intros Hrs. induction Hrs as [|r rs Hr Hrs IH]; [done|]. cbn [fmap list_fmap concat].
  destruct (spans_written rs Hrs) as [Hb _]. pose proof (to_bytes_is_bytes r Hr) as Hbr.
  destruct Hr as (Hok & Hlen & _). pose proof (len_nonneg (v2_topic r)).
  pose proof (len_nonneg (v2_canonical_data r)). pose proof (len_to_bytes_v2 r) as Htot.
  destruct (parse_record_written r Hok ltac:(lia)) as [Hp _].
  rewrite (entries_app_step _ _ (layout_of r)) by (done || by apply Forall_app).
  assert (Z.to_nat (total_len (layout_of r)) = length (to_bytes (V2 r))) as ->.
  { unfold len in Htot. cbn [total_len layout_of]. unfold len in *. lia. }
  rewrite firstn_all, drop_all. cbn [app]. by rewrite IH.
Qed.

(** What a scan of written records returns, when the limit is not reached before the
    end. *)
Definition message_count (r : WalV2) : Z := Z.max (v2_record_count r) 1.

Definition messages_of (rs : list WalV2) : Z := foldr (fun r n => message_count r + n) 0 rs.

Definition from_offset (offset : Z) (rs : list WalV2) : list WalV2 :=
  filter (fun r => offset <= v2_last_offset r) rs.

Lemma messages_of_nonneg rs : 0 <= messages_of rs.
Proof.
  unfold messages_of. induction rs as [|r rs IH]; cbn [foldr]; [lia|].
  unfold message_count at 1. lia.
Qed.

Lemma scan_written offset max rs : forall st,
  Forall v2_written rs -> 0 <= messages st -> max < 2 ^ 64 ->
  messages st + messages_of (from_offset offset rs) <= max ->
  out (scan_log offset max ((fun r => (layout_of r, to_bytes (V2 r))) <$> rs) st)
  = out st ++ (V2 <$> from_offset offset rs).
Proof.
  induction rs as [|r rs IH]; intros st Hrs Hst Hmax Hle; [by rewrite app_nil_r|].
  apply Forall_cons in Hrs as [Hr Hrs]. cbn [fmap list_fmap scan_log].
  pose proof (messages_of_nonneg (from_offset offset rs)).
  destruct Hr as (Hok & Hlen & _). pose proof (len_nonneg (v2_topic r)).
  pose proof (len_nonneg (v2_canonical_data r)).
  destruct (parse_record_written r Hok ltac:(lia)) as [_ Hto].
  unfold read_record_at. cbn [last_offset layout_of record_count].
  unfold from_offset in *. destruct (Z.leb_spec offset (v2_last_offset r)) as [Ho|Ho].
  - rewrite filter_cons_True in Hle |- * by done. cbn [messages_of foldr] in Hle.
    fold (messages_of (filter (fun r => offset <= v2_last_offset r) rs)) in Hle.
    unfold message_count in Hle.
    destruct (Z.ltb_spec (messages st) max); [|lia]. cbn [andb]. fold (layout_of r). rewrite Hto.
    cbn [messages]. rewrite (wrap_u_id 64) by (unfold in_u; lia).
    destruct (Z.leb_spec max (messages st + Z.max (v2_record_count r) 1)) as [Hm|Hm].
    + assert (filter (fun r => offset <= v2_last_offset r) rs = []) as ->; [|done].
      destruct (filter _ rs) as [|r' rs']; [done|]. cbn [messages_of foldr] in Hle.
      fold (messages_of rs') in Hle. pose proof (messages_of_nonneg rs').
      unfold message_count in Hle. lia.
    + rewrite IH by (cbn [messages]; (done || lia)). cbn. by rewrite <- app_assoc.
  - rewrite filter_cons_False in Hle |- * by lia. cbn [andb].
    destruct (Z.leb_spec max (messages st)) as [Hm|Hm]; [|by apply IH].
    assert (filter (fun r => offset <= v2_last_offset r) rs = []) as ->; [|by rewrite app_nil_r].
    destruct (filter _ rs) as [|r' rs']; [done|]. cbn [messages_of foldr] in Hle.
    fold (messages_of rs') in Hle. pose proof (messages_of_nonneg rs').
    unfold message_count in Hle. lia.
Qed.

(** * Properties *)

(** [C2] A read through the sparse index returns exactly what a full scan of the log
    returns, for every offset and limit, however the operating system splits the reads,
    and from any index state left by earlier refreshes of append-only files; after the
    read every segment is fully indexed. *)
Theorem indexed_read_is_scan (chunked : bytes -> list bytes)
    (segs : list (option bytes * SegmentMarks)) (offset max_records : Z) :
  (forall data, concat (chunked data) = data) ->
  Forall seg_ok segs ->
  ordered (entry_span <$> concat (file_entries <$> (fst <$> segs))) ->
  read_from chunked segs offset max_records
  = ((fun f => (f, index_of (file_entries f))) <$> (fst <$> segs),
     out (scan_log offset max_records (concat (file_entries <$> (fst <$> segs))) (mkRead 0 []))).
Proof. intros. by apply read_from_spec. Qed.

(** [ordered] on concrete logs: evaluate the log first. *)
Ltac concrete_ordered :=
  match goal with |- ordered ?l =>
    let l' := eval vm_compute in l in
    let E := fresh in
    assert (E : l = l') by (vm_compute; reflexivity); rewrite E; clear E; concrete
  end.

(** Reads of at most seven bytes at a time. *)
Fixpoint chunks_of (fuel n : nat) (data : bytes) : list bytes :=
  match fuel with
  | O => [data]
  | S fuel => if bool_decide (data = []) then [] else take n data :: chunks_of fuel n (drop n data)
  end.

Lemma chunks_of_concat fuel n data : concat (chunks_of fuel n data) = data.
Proof.
  revert data. induction fuel as [|fuel IH]; intros data; cbn; [by rewrite app_nil_r|].
  case_bool_decide; [done|]. cbn. by rewrite IH, take_drop.
Qed.

Definition sample_log : list WalV2 :=
  [sample_v2 "t" [1; 2] 0 4; sample_v2 "t" [3] 5 9; sample_v2 "t" [4] 10 14].

Definition sample_bytes : bytes := concat ((fun r => to_bytes (V2 r)) <$> sample_log).

(** The segments of partition 3 among the files of a directory, by id and not by name. *)
Example segments_by_id :
  let d := [(bytes_of_string "wal_3_10.log", [1]); (bytes_of_string "wal_3_9.log", [2]);
            (bytes_of_string "wal_31_2.log", [3]); (bytes_of_string "wal_3_x.log", [4])] in
  fst <$> in_order (list_segments 3 d.*1 (<[7 := (bytes_of_string "wal_3_7.log", marks_new)]> ∅))
  = [bytes_of_string "wal_3_9.log"; bytes_of_string "wal_3_10.log"].
Proof. vm_compute. reflexivity. Qed.

Lemma indexed_read_is_scan_witness :
  read_from (fun d => chunks_of (length d) 7 d) [(Some sample_bytes, marks_new); (None, marks_new)] 7 2
  = ((fun f => (f, index_of (file_entries f))) <$> (fst <$> [(Some sample_bytes, marks_new); (None, marks_new)]),
     out (scan_log 7 2 (concat (file_entries <$> (fst <$> [(Some sample_bytes, marks_new); (None, marks_new)])))
            (mkRead 0 []))).
Proof.
  apply (indexed_read_is_scan (fun d => chunks_of (length d) 7 d)).
  - intros data. apply chunks_of_concat.
  - apply Forall_cons_2; [|apply Forall_cons_2; [exact I|apply Forall_nil_2]].
    split; [concrete|]. exists [], sample_bytes. split; reflexivity.
  - concrete_ordered.
Defined.

(** [C3] Reading a partition returns the records that were written to it: with the log's
    records spread over segment files in offset order, a read from an offset returns
    every record that reaches it, unchanged and in order, provided the limit admits
    their messages. *)
Theorem written_log_read_back (chunked : bytes -> list bytes) (log : list (list WalV2))
    (offset max_records : Z) :
  (forall data, concat (chunked data) = data) ->
  Forall v2_written (concat log) -> ordered (span_of <$> concat log) ->
  messages_of (from_offset offset (concat log)) <= max_records < 2 ^ 64 ->
  snd (read_from chunked
         ((fun rs => (Some (concat ((fun r => to_bytes (V2 r)) <$> rs)), marks_new)) <$> log)
         offset max_records)
  = V2 <$> from_offset offset (concat log).
Proof.
  intros Hc Hw Ho Hmax.
  assert (forall l : list (list WalV2), Forall v2_written (concat l) ->
    concat (file_entries <$> (fst <$> ((fun rs =>
      (Some (concat ((fun r => to_bytes (V2 r)) <$> rs)), marks_new)) <$> l)))
    = (fun r => (layout_of r, to_bytes (V2 r))) <$> concat l) as He.
  { induction l as [|rs l IH]; [done|]. cbn [concat fmap list_fmap fst file_entries].
    intros [H1 H2]%Forall_app. rewrite fmap_app, <- IH, entries_written by done. done. }
  rewrite read_from_spec; rewrite ?He by done; [|done| |].
  - cbn [snd]. rewrite scan_written; cbn [messages out]; (done || lia).
  - apply Forall_fmap. apply Forall_forall. intros rs Hrs. unfold seg_ok, compose. cbn [fst snd].
    destruct (spans_written rs) as [Hb _].
    { apply Forall_concat in Hw. rewrite Forall_forall in Hw. by apply Hw. }
    split; [done|]. by exists [], (concat ((fun r => to_bytes (V2 r)) <$> rs)).
  - rewrite <- list_fmap_compose. erewrite list_fmap_ext; [exact Ho|].
    intros i r Hr. eapply Forall_lookup_1 in Hw; [|exact Hr]. destruct Hw as (_ & Hl & _).
    unfold compose, entry_span, span_of, layout_of. cbn. f_equal. lia.
Qed.

Lemma written_log_read_back_witness :
  snd (read_from (fun d => chunks_of (length d) 7 d)
         ((fun rs => (Some (concat ((fun r => to_bytes (V2 r)) <$> rs)), marks_new))
            <$> [sample_log; []; [sample_v2 "t" [9; 9] 15 16]]) 7 12)
  = V2 <$> from_offset 7 (concat [sample_log; []; [sample_v2 "t" [9; 9] 15 16]]).
Proof.
  apply (written_log_read_back (fun d => chunks_of (length d) 7 d)).
  - intros data. apply chunks_of_concat.
  - concrete.
  - concrete_ordered.
  - split; concrete.
Defined.

(** [C29] Indexing is incremental: refreshing the index of a file that has grown gives the
    index of the whole file; its marks have increasing offsets, point at the start of
    records and begin at the first one. *)
Theorem incremental_index (a b : bytes) :
  is_bytes (a ++ b) -> ordered (entry_span <$> entries (a ++ b)) ->
  refresh (Some (a ++ b)) (refresh (Some a) marks_new) = refresh (Some (a ++ b)) marks_new
  /\ marks_inv (entries (a ++ b)) (refresh (Some (a ++ b)) marks_new).
Proof.
  intros Hb Ho. assert (is_bytes a) as Ha by (by apply Forall_app in Hb as [? _]).
  assert (forall d, is_bytes d -> refresh (Some d) marks_new = index_of (entries d)) as Hnew.
  { intros d Hd. apply (refresh_seg (Some d, marks_new)). split; [done|]. by exists [], d. }
  rewrite !Hnew by done. split; [|by apply index_of_inv].
  apply (refresh_seg (Some (a ++ b), index_of (entries a))). split; [done|]. by exists a, b.
Qed.

Lemma incremental_index_witness :
  refresh (Some (sample_bytes ++ to_bytes (V2 (sample_v2 "t" [7] 20 21))))
    (refresh (Some sample_bytes) marks_new)
  = refresh (Some (sample_bytes ++ to_bytes (V2 (sample_v2 "t" [7] 20 21)))) marks_new
  /\ marks_inv (entries (sample_bytes ++ to_bytes (V2 (sample_v2 "t" [7] 20 21))))
       (refresh (Some (sample_bytes ++ to_bytes (V2 (sample_v2 "t" [7] 20 21)))) marks_new).
Proof.
  apply (incremental_index sample_bytes (to_bytes (V2 (sample_v2 "t" [7] 20 21)))).
  - change (is_bytes (sample_bytes ++ to_bytes (V2 (sample_v2 "t" [7] 20 21)))). concrete.
  - concrete_ordered.
Defined.

(** [C37] The reader and the truncation planner disagree on a record whose length field does
    not match its content: the reader returns it, the planner treats it as the end of
    the segment, so a truncation keeps it and everything behind it. *)
Theorem planner_stops_where_reader_does_not (r : WalV2) (rest : bytes) (target : Z) :
  v2_fields_ok r -> is_bytes (v2_topic r) -> is_bytes (v2_canonical_data r) -> is_bytes rest ->
  v2_length r <> 0 -> v2_length r <> 30 + len (v2_topic r) + len (v2_canonical_data r) ->
  parse_record (to_bytes (V2 r) ++ rest) = Record_ (layout_of r)
  /\ plan_segment_truncation (to_bytes (V2 r) ++ rest) target = Empty.
Proof.
  intros Hok Ht Hd Hr Hnz Hne.
  assert (is_bytes (to_bytes (V2 r))) as Hb.
  { unfold to_bytes, write_record, v2_body, is_bytes in *.
    repeat (apply Forall_app; split); auto using le_bytes_byte. }
  assert (is_bytes (to_bytes (V2 r) ++ rest)) as Hbr by (by apply Forall_app).
  split; [by apply parse_record_app, parse_record_written|].
  assert (parse_record_span (to_bytes (V2 r) ++ rest) = None) as Hnone.
  { destruct (parse_record_span _) as [s|] eqn:E; [|done]. exfalso.
    destruct (parse_span_inv _ _ Hbr E) as (tl & cl & Hdec & Htl & Hcl & Hsz & H1 & H2 & _).
    pose proof (len_to_bytes_v2 r) as Htot. pose proof (len_nonneg (v2_topic r)).
    pose proof (len_nonneg (v2_canonical_data r)).
    apply declared_record_size_app in Hdec; [|lia]. rewrite declared_written in Hdec by done.
    injection Hdec as Hdec. destruct (written_fields r) as (_ & _ & _ & _ & _ & E12 & _ & _ & Ecl & _).
    destruct Hok as (_ & _ & _ & _ & _ & Ht16 & _ & _ & Hd32 & _).
    unfold WalTruncate.le_u16, WalTruncate.le_u32 in Htl, Hcl.
    assert (get_range (to_bytes (V2 r) ++ rest) 12 2 = Some (bytes_at (to_bytes (V2 r)) 12 2)) as Eg.
    { rewrite get_range_app by lia. unfold get_range. by destruct (Z.leb_spec (12 + 2) (len (to_bytes (V2 r)))); [|lia]. }
    rewrite Eg, E12, (wrap_u_id 16) in Htl by (unfold in_u; lia). cbn in Htl.
    rewrite le_val_le in Htl by (unfold in_u; lia). injection Htl as <-.
    rewrite get_range_app in Hcl by lia. unfold get_range in Hcl.
    destruct (Z.leb_spec (18 + len (v2_topic r) + 4) (len (to_bytes (V2 r)))); [|lia].
    cbn [fmap option_fmap option_map] in Hcl. fold (bytes_at (to_bytes (V2 r)) (18 + len (v2_topic r)) 4) in Hcl.
    rewrite Ecl, (wrap_u_id 32), le_val_le in Hcl by (unfold in_u; lia). injection Hcl as <-. lia. }
  unfold plan_segment_truncation. destruct (length _) as [|n]; [done|]. cbn [plan_loop].
  rewrite drop_0, Hnone. by destruct (0 <? _).
Qed.

Definition misfit_v2 : WalV2 :=
  mkV2 WAL_MAGIC WAL_VERSION_V2 0 99 0 (bytes_of_string "t") 0 [1; 2; 3] 10 14 5.

Lemma planner_stops_where_reader_does_not_witness :
  parse_record (to_bytes (V2 misfit_v2) ++ [0]) = Record_ (layout_of misfit_v2)
  /\ plan_segment_truncation (to_bytes (V2 misfit_v2) ++ [0]) 5 = Empty.
Proof.
  apply (planner_stops_where_reader_does_not misfit_v2 [0] 5); concrete.
Defined.
