(* ===== verification/LeaderEpoch.v ===== *)
(** Leader epoch histories: crates/chronik-server/src/replication/leader_epoch.rs.

    A partition's cache is derived from its log by observing the epoch stamped on every
    appended batch.  The specification is the log itself, a list of batches; the cache is
    shown to be a function of it through appends of any epoch, truncations of the tail and
    retention of the head, and its answers are stated in terms of it. *)
From stdpp Require Import base list numbers gmap.
From Stdlib Require Import ZArith Lia.
From S2P Require Import Prelude.
Local Open Scope Z_scope.

Definition UNDEFINED_EPOCH : Z := -1.
Definition UNDEFINED_OFFSET : Z := -1.

Record EpochEntry : Type := mkEntry { epoch : Z; start_offset : Z }.

#[global] Instance EpochEntry_eq_dec : EqDecision EpochEntry.
Proof. solve_decision. Defined.

(** [LeaderEpochCache]: its entries. *)
Abbreviation LeaderEpochCache := (list EpochEntry).

Definition cache_new : LeaderEpochCache := [].
Definition is_empty (c : LeaderEpochCache) : bool := bool_decide (c = []).
Definition latest_epoch (c : LeaderEpochCache) : option Z := epoch <$> last c.

Definition assign (e start : Z) (c : LeaderEpochCache) : LeaderEpochCache :=
  if e <? 0 then c else
  let push := filter (fun x => start_offset x < start) c ++ [mkEntry e start] in
  match last c with
  | Some l => if e <? epoch l then c else if e =? epoch l then c else push
  | None => push
  end.

Definition find {A} (p : A -> bool) (l : list A) : option A := List.find p l.

Definition epoch_for_offset (offset : Z) (c : LeaderEpochCache) : option Z :=
  epoch <$> find (fun x => start_offset x <=? offset) (rev c).

Definition end_offset_for_epoch (requested log_end_offset : Z) (c : LeaderEpochCache) : Z * Z :=
  match last c with
  | None => (UNDEFINED_EPOCH, UNDEFINED_OFFSET)
  | Some l =>
      if requested <? 0 then (UNDEFINED_EPOCH, UNDEFINED_OFFSET) else
      if requested =? epoch l then (requested, log_end_offset) else
      let previous := find (fun x => epoch x <=? requested) (rev c) in
      let subsequent := find (fun x => requested <? epoch x) c in
      match previous, subsequent with
      | Some p, Some s => (epoch p, start_offset s)
      | _, _ => (UNDEFINED_EPOCH, UNDEFINED_OFFSET)
      end
  end.

Definition truncate_from_end (end_offset : Z) (c : LeaderEpochCache) : LeaderEpochCache :=
  if end_offset <? 0 then c else filter (fun x => start_offset x < end_offset) c.

Definition truncate_from_start (start : Z) (c : LeaderEpochCache) : LeaderEpochCache :=
  if (start <=? 0) || is_empty c then c else
  let covering := find (fun x => start_offset x <=? start) (rev c) in
  let kept := filter (fun x => start < start_offset x) c in
  match covering with
  | Some e => mkEntry (epoch e) start :: kept
  | None => kept
  end.

(** [LeaderEpochStore]: one cache per topic partition. *)
Definition LeaderEpochStore : Type := gmap (bytes * Z) LeaderEpochCache.

Definition observe_append (tp : bytes * Z) (e base_offset : Z) (s : LeaderEpochStore)
    : LeaderEpochStore :=
  if e <? 0 then s else <[tp := assign e base_offset (default [] (s !! tp))]> s.

Definition store_latest_epoch (tp : bytes * Z) (s : LeaderEpochStore) : option Z :=
  s !! tp ≫= latest_epoch.

Definition store_end_offset_for_epoch (tp : bytes * Z) (requested log_end_offset : Z)
    (s : LeaderEpochStore) : Z * Z :=
  match s !! tp with
  | Some c => end_offset_for_epoch requested log_end_offset c
  | None => (UNDEFINED_EPOCH, UNDEFINED_OFFSET)
  end.

Definition store_truncate_from_end (tp : bytes * Z) (end_offset : Z) (s : LeaderEpochStore)
    : LeaderEpochStore := alter (truncate_from_end end_offset) tp s.

Definition snapshot (tp : bytes * Z) (s : LeaderEpochStore) : list EpochEntry :=
  default [] (s !! tp).

Definition tracked (s : LeaderEpochStore) : gmap (bytes * Z) Z := omap latest_epoch s.

(** * The log a cache is derived from *)

(** A batch: the epoch stamped on it and the offsets it occupies. *)
Record batch : Type := mkBatch { b_epoch : Z; b_base : Z; b_last : Z }.

(** Offsets and epochs as leaders write them. *)
Fixpoint log_ok (log : list batch) : Prop :=
  match log with
  | [] => True
  | b :: log =>
      0 <= b_epoch b /\ 0 <= b_base b <= b_last b
      /\ Forall (fun c => b_last b < b_base c /\ b_epoch b <= b_epoch c) log /\ log_ok log
  end.

(** The history of a log: where each epoch begins. *)
Fixpoint runs (cur : Z) (log : list batch) : LeaderEpochCache :=
  match log with
  | [] => []
  | b :: log =>
      if cur <? b_epoch b then mkEntry (b_epoch b) (b_base b) :: runs (b_epoch b) log
      else runs cur log
  end.

Definition history (log : list batch) : LeaderEpochCache := runs (-1) log.

Definition last_epoch (cur : Z) (log : list batch) : Z :=
  match last log with Some b => Z.max cur (b_epoch b) | None => cur end.

Lemma log_ok_app a b : log_ok (a ++ b) <->
  log_ok a /\ log_ok b
  /\ Forall (fun x => Forall (fun y => b_last x < b_base y /\ b_epoch x <= b_epoch y) b) a.
Proof.
  induction a as [|x a IH]; cbn; [intuition|]. rewrite IH, Forall_app, Forall_cons. intuition.
Qed.

Lemma log_ok_Forall log : log_ok log ->
  Forall (fun b => 0 <= b_epoch b /\ 0 <= b_base b <= b_last b) log.
Proof. induction log as [|b log IH]; cbn; [done|]. intros (? & ? & _ & ?). constructor; auto. Qed.

Lemma last_epoch_cons cur b log : log_ok (b :: log) ->
  last_epoch cur (b :: log) = last_epoch (Z.max cur (b_epoch b)) log.
Proof.
  intros (_ & _ & Hf & _). unfold last_epoch. destruct log as [|b' log]; [done|].
  change (last (b :: b' :: log)) with (last (b' :: log)).
  destruct (last (b' :: log)) as [l|] eqn:E; [|by apply last_None in E].
  apply last_Some_elem_of in E. rewrite Forall_forall in Hf. destruct (Hf l E). lia.
Qed.

(** The latest entry is the latest batch's epoch. *)
Lemma runs_last log : forall cur, log_ok log ->
  match last (runs cur log) with
  | Some e => epoch e = last_epoch cur log /\ cur < epoch e
  | None => last_epoch cur log = cur
  end.
Proof.
  induction log as [|x log IH]; intros cur Hok; [done|]. rewrite last_epoch_cons by done.
  destruct Hok as (_ & _ & _ & Hok). cbn [runs].
  destruct (Z.ltb_spec cur (b_epoch x)) as [Hlt|Hge].
  - replace (Z.max cur (b_epoch x)) with (b_epoch x) by lia. specialize (IH (b_epoch x) Hok).
    rewrite last_cons. destruct (last (runs (b_epoch x) log)) as [e|]; [lia|].
    cbn. rewrite IH. lia.
  - replace (Z.max cur (b_epoch x)) with cur by lia. by apply IH.
Qed.

(** Every entry is a batch of the log, and entries increase in epoch and offset. *)
Lemma runs_entries cur log : Forall (fun e => exists b, b ∈ log /\ epoch e = b_epoch b
  /\ start_offset e = b_base b /\ cur < epoch e) (runs cur log).
Proof.
  revert cur. induction log as [|x log IH]; intros cur; [done|]. cbn [runs].
  assert (forall cur', cur <= cur' -> Forall (fun e => exists b, b ∈ x :: log /\ epoch e = b_epoch b
    /\ start_offset e = b_base b /\ cur < epoch e) (runs cur' log)) as H.
  { intros cur' Hc. eapply Forall_impl; [apply IH|]. intros e (b & ? & ? & ? & ?).
    exists b. rewrite elem_of_cons. split_and!; auto. lia. }
  destruct (Z.ltb_spec cur (b_epoch x)); [|apply H; lia].
  constructor; [|apply H; lia]. exists x. rewrite elem_of_cons. cbn. auto.
Qed.

(** Entries strictly increasing in both fields. *)
Fixpoint increasing (c : LeaderEpochCache) : Prop :=
  match c with
  | [] => True
  | e :: c => Forall (fun f => epoch e < epoch f /\ start_offset e < start_offset f) c /\ increasing c
  end.

Lemma runs_increasing log : forall cur, log_ok log -> increasing (runs cur log).
Proof.
  induction log as [|x log IH]; intros cur Hok; [done|]. destruct Hok as (_ & Hb & Hf & Hok).
  cbn [runs]. destruct (cur <? b_epoch x); [|by apply IH]. cbn. split; [|by apply IH].
  eapply Forall_impl; [apply runs_entries|]. intros e (b & Hin & -> & -> & He).
  rewrite Forall_forall in Hf. destruct (Hf b Hin). lia.
Qed.

(** ** Truncating *)

Lemma truncate_history at_ log : 0 <= at_ -> log_ok log ->
  Forall (fun b => b_last b < at_ \/ at_ <= b_base b) log ->
  truncate_from_end at_ (history log) = history (filter (fun b => b_last b < at_) log).
Proof.
  intros Hat Hok Hf. unfold truncate_from_end. destruct (Z.ltb_spec at_ 0); [lia|]. clear Hat.
  unfold history. generalize (-1). induction log as [|x log IH]; intros cur; [done|].
  destruct Hok as (_ & Hb & Hlt & Hok). apply Forall_cons in Hf as [Hx Hf]. cbn [runs].
  destruct (decide (b_last x < at_)) as [Hl|Hl].
  - rewrite filter_cons_True by done. cbn [runs]. destruct (cur <? b_epoch x); [|by apply IH].
    rewrite filter_cons_True by (cbn; lia). f_equal. by apply IH.
  - assert (filter (fun b => b_last b < at_) (x :: log) = []) as ->.
    { apply filter_none. constructor; [done|]. apply log_ok_Forall in Hok.
      rewrite Forall_forall in *. intros y Hy. specialize (Hlt y Hy). specialize (Hok y Hy). lia. }
    apply filter_none. destruct (cur <? b_epoch x).
    + constructor; [cbn; lia|]. eapply Forall_impl; [apply runs_entries|].
      intros e (y & Hy & _ & -> & _). rewrite Forall_forall in Hlt. specialize (Hlt y Hy). lia.
    + eapply Forall_impl; [apply runs_entries|].
      intros e (y & Hy & _ & -> & _). rewrite Forall_forall in Hlt. specialize (Hlt y Hy). lia.
Qed.

Lemma log_ok_filter (P : batch -> Prop) `{!forall b, Decision (P b)} log :
  log_ok log -> log_ok (filter P log).
Proof.
  induction log as [|b log IH]; [done|]. intros (H1 & H2 & H3 & H4).
  destruct (decide (P b)); [rewrite filter_cons_True by done|rewrite filter_cons_False by done; auto].
  cbn. split_and!; auto; try lia. rewrite Forall_forall in *. intros c [_ Hc]%list_elem_of_filter.
  by apply H3.
Qed.

(** ** Where an epoch ends *)

Lemma find_first {A} (p : A -> bool) l : match find p l with
  | Some x => exists a b, l = a ++ x :: b /\ p x = true /\ Forall (fun y => p y = false) a
  | None => Forall (fun y => p y = false) l
  end.
Proof.
  induction l as [|x l IH]; cbn; [done|]. destruct (p x) eqn:E.
  - exists [], l. done.
  - fold (find p l). destruct (find p l) as [y|].
    + destruct IH as (a & b & -> & ? & ?). exists (x :: a), b. split_and!; auto.
    + by constructor.
Qed.

Lemma increasing_app a b : increasing (a ++ b) <->
  increasing a /\ increasing b
  /\ Forall (fun e => Forall (fun f => epoch e < epoch f /\ start_offset e < start_offset f) b) a.
Proof.
  induction a as [|x a IH]; cbn; [intuition|]. rewrite IH, Forall_app, Forall_cons. intuition.
Qed.

Lemma increasing_mono c e f : increasing c -> e ∈ c -> f ∈ c -> epoch e <= epoch f ->
  start_offset e <= start_offset f.
Proof.
  induction c as [|x c IH]; [by intros _ ?%not_elem_of_nil|]. intros [Hx Hc].
  rewrite !elem_of_cons. rewrite Forall_forall in Hx.
  intros [->|He] [->|Hf] Hle; [lia| | |by apply IH].
  - specialize (Hx f Hf). lia.
  - specialize (Hx e He). lia.
Qed.

(** Every batch is covered by the entry of its epoch. *)
Lemma runs_cover log : forall cur b, log_ok log -> b ∈ log -> cur < b_epoch b ->
  exists e, e ∈ runs cur log /\ epoch e = b_epoch b /\ start_offset e <= b_base b.
Proof.
  induction log as [|x log IH]; intros cur b Hok Hin Hc; [by apply not_elem_of_nil in Hin|].
  destruct Hok as (_ & Hb & Hf & Hok). apply elem_of_cons in Hin as [->|Hin]; cbn [runs].
  - destruct (Z.ltb_spec cur (b_epoch x)); [|lia]. exists (mkEntry (b_epoch x) (b_base x)).
    rewrite elem_of_cons. cbn. split_and!; auto. lia.
  - rewrite Forall_forall in Hf. specialize (Hf b Hin).
    destruct (Z.ltb_spec cur (b_epoch x)); [|by apply IH].
    destruct (Z.eq_dec (b_epoch x) (b_epoch b)) as [E|E].
    + exists (mkEntry (b_epoch x) (b_base x)). rewrite elem_of_cons. cbn. split_and!; auto. lia.
    + destruct (IH (b_epoch x) b Hok Hin ltac:(lia)) as (e & ? & ? & ?).
      exists e. rewrite elem_of_cons. auto.
Qed.

Lemma log_order log b x : log_ok log -> b ∈ log -> x ∈ log -> b_epoch b < b_epoch x ->
  b_last b < b_base x.
Proof.
  induction log as [|y log IH]; [by intros _ ?%not_elem_of_nil|]. intros (_ & _ & Hf & Hok).
  rewrite !elem_of_cons. rewrite Forall_forall in Hf.
  intros [->|Hb] [->|Hx] Hlt; [lia| | |by apply IH].
  - specialize (Hf x Hx). lia.
  - specialize (Hf b Hb). lia.
Qed.

(** An entry separates the batches of earlier epochs from those of its own and later. *)
Lemma entry_separates log e b : log_ok log -> e ∈ history log -> b ∈ log ->
  (b_epoch b < epoch e -> b_last b < start_offset e)
  /\ (epoch e <= b_epoch b -> start_offset e <= b_base b).
Proof.
  intros Hok He Hb. pose proof (runs_entries (-1) log) as Hen. rewrite Forall_forall in Hen.
  destruct (Hen e He) as (x & Hx & Hex & Hsx & _). split; intros Hlt.
  - rewrite Hsx. eapply log_order; eauto. lia.
  - apply log_ok_Forall in Hok as Hpos. rewrite Forall_forall in Hpos. specialize (Hpos b Hb).
    destruct (runs_cover log (-1) b Hok Hb ltac:(lia)) as (f & Hf & Hfe & Hfs).
    pose proof (increasing_mono _ e f (runs_increasing log (-1) Hok) He Hf ltac:(lia)). lia.
Qed.


Lemma history_epochs log : log_ok log -> Forall (fun e => 0 <= epoch e) (history log).
Proof.
  intros Hok. eapply Forall_impl; [apply runs_entries|]. intros e (b & _ & _ & _ & ?). lia.
Qed.

Lemma history_cover log b : log_ok log -> b ∈ log ->
  exists f, f ∈ history log /\ epoch f = b_epoch b.
Proof.
  intros Hok Hb. pose proof (log_ok_Forall log Hok) as Hpos. rewrite Forall_forall in Hpos.
  specialize (Hpos b Hb). destruct (runs_cover log (-1) b Hok Hb ltac:(lia)) as (f & ? & ? & _). eauto.
Qed.


Lemma history_max log l : log_ok log -> last (history log) = Some l ->
  Forall (fun b => b_epoch b <= epoch l) log.
Proof.
  intros Hok El. pose proof (runs_increasing log (-1) Hok : increasing (history log)) as Hinc.
  apply Forall_forall. intros b Hb. destruct (history_cover log b Hok Hb) as (f & Hf & <-).
  apply last_Some in El as [c' E]. rewrite E in Hinc, Hf. apply increasing_app in Hinc as (_ & _ & H).
  apply elem_of_app in Hf as [Hf|Hf]; [|apply list_elem_of_singleton in Hf as ->; lia].
  rewrite Forall_forall in H. specialize (H f Hf). apply Forall_cons in H as [? _]. lia.
Qed.

(** The entry after the requested epoch separates the log at that epoch. *)
Lemma subsequent_separates log s r b : log_ok log ->
  find (fun x => r <? epoch x) (history log) = Some s -> b ∈ log ->
  (b_epoch b <= r -> b_last b < start_offset s) /\ (r < b_epoch b -> start_offset s <= b_base b).
Proof.
  intros Hok Es Hb. pose proof (find_first (fun x => r <? epoch x) (history log)) as Hs.
  rewrite Es in Hs. destruct Hs as (a & c' & E & Hsr & Ha).
  assert (s ∈ history log) as Hsin by (rewrite E, elem_of_app, elem_of_cons; auto).
  destruct (entry_separates log s b Hok Hsin Hb) as [H1 H2].
  split; intros Hbr; [apply H1; lia|]. apply H2.
  destruct (history_cover log b Hok Hb) as (f & Hf & Hfe).
  pose proof (runs_increasing log (-1) Hok : increasing (history log)) as Hinc.
  rewrite E in Hf, Hinc. apply elem_of_app in Hf as [Hf|Hf].
  { rewrite Forall_forall in Ha. specialize (Ha f Hf). cbn in Ha. lia. }
  apply elem_of_cons in Hf as [->|Hf]; [lia|].
  apply increasing_app in Hinc as (_ & [Hlt _] & _). rewrite Forall_forall in Hlt.
  specialize (Hlt f Hf). lia.
Qed.



Lemma epoch_for_offset_history log b o : log_ok log -> b ∈ log -> b_base b <= o <= b_last b ->
  epoch_for_offset o (history log) = Some (b_epoch b).
Proof.
  intros Hok Hb Ho. pose proof (log_ok_Forall log Hok) as Hpos. rewrite Forall_forall in Hpos.
  specialize (Hpos b Hb).
  destruct (runs_cover log (-1) b Hok Hb ltac:(lia)) as (e & He & Hee & Hes).
  unfold epoch_for_offset.
  pose proof (find_first (fun x => start_offset x <=? o) (rev (history log))) as Hf.
  destruct (find _ _) as [p|].
  - destruct Hf as (a & c & E & Hp & Ha). cbn. f_equal.
    assert (p ∈ history log) as Hpin.
    { apply elem_of_reverse. unfold reverse. rewrite <- rev_alt, E, elem_of_app, elem_of_cons. auto. }
    destruct (entry_separates log p b Hok Hpin Hb) as [H1 H2].
    destruct (Z.lt_trichotomy (epoch p) (b_epoch b)) as [Hlt|[Heq|Hgt]]; [|done|lia].
    exfalso. assert (e ∈ rev (history log)) as Her.
    { rewrite rev_alt. by apply elem_of_reverse. }
    rewrite E in Her. apply elem_of_app in Her as [Her|Her].
    + rewrite Forall_forall in Ha. specialize (Ha e Her). cbn in Ha. lia.
    + apply elem_of_cons in Her as [->|Her]; [lia|].
      pose proof (runs_increasing log (-1) Hok : increasing (history log)) as Hinc.
      apply (f_equal (@rev _)) in E. rewrite rev_involutive, rev_app_distr in E. cbn in E.
      rewrite <- app_assoc in E. rewrite E in Hinc. apply increasing_app in Hinc as (_ & _ & Hi).
      rewrite Forall_forall in Hi. specialize (Hi e ltac:(rewrite rev_alt; by apply elem_of_reverse)).
      apply Forall_cons in Hi as [? _]. lia.
  - apply Forall_rev in Hf. rewrite rev_involutive, Forall_forall in Hf.
    specialize (Hf e He). cbn in Hf. lia.
Qed.

Lemma latest_epoch_tail p f fe : log_ok (p ++ f) -> f <> [] ->
  Forall (fun b => b_epoch b = fe) f -> latest_epoch (history (p ++ f)) = Some fe.
Proof.
  intros Hok Hne Hfe. pose proof (runs_last (p ++ f) (-1) Hok) as Hl.
  assert (last_epoch (-1) (p ++ f) = fe /\ 0 <= fe) as [El Hpos].
  { unfold last_epoch. rewrite last_app. destruct (last f) as [b|] eqn:E; [|by apply last_None in E].
    apply last_Some_elem_of in E. rewrite Forall_forall in Hfe. specialize (Hfe b E).
    apply log_ok_Forall in Hok. rewrite Forall_forall in Hok.
    specialize (Hok b ltac:(apply elem_of_app; auto)). lia. }
  unfold latest_epoch, history. destruct (last (runs (-1) (p ++ f))) as [x|]; cbn; [|lia].
  f_equal. lia.
Qed.

(** Two logs that part after [p], the second under later epochs only: the second's answer for the
    first's latest epoch separates [p] from the rest of the first. *)
Lemma divergence_point p f l fe leo x y : log_ok (p ++ f) -> log_ok (p ++ l) -> p <> [] ->
  head f = Some x -> head l = Some y -> b_base y <= b_base x ->
  Forall (fun b => b_epoch b <= fe) p -> Forall (fun b => fe < b_epoch b) l -> 0 <= fe ->
  exists e o, end_offset_for_epoch fe leo (history (p ++ l)) = (e, o)
    /\ Forall (fun b => b_last b < o) p /\ Forall (fun b => o <= b_base b) f /\ 0 <= o.
Proof.
  intros Hpf Hpl Hp Hx Hy Hxy Hpe Hle Hfe. destruct f as [|z f]; [done|]. injection Hx as ->. destruct l as [|z l]; [done|]. injection Hy as ->.
  pose proof Hpl as (Hokp & Hokl & _)%log_ok_app. unfold end_offset_for_epoch.
  pose proof (runs_last (p ++ y :: l) (-1) Hpl) as Hlast. fold (history (p ++ y :: l)) in Hlast.
  destruct (history_cover (p ++ y :: l) y Hpl ltac:(apply elem_of_app; right; by left)) as (g & Hg & Hge).
  destruct (last (history (p ++ y :: l))) as [h|] eqn:Eh; [|apply last_None in Eh; rewrite Eh in Hg; by apply not_elem_of_nil in Hg].
  pose proof (history_max _ h Hpl Eh) as Hmax. apply Forall_app in Hmax as [_ Hmax]. apply Forall_cons in Hmax as [Hmy _].
  apply Forall_cons in Hle as [Hye Hle]. rewrite (proj2 (Z.ltb_ge fe 0)) by lia. rewrite (proj2 (Z.eqb_neq fe (epoch h))) by lia.
  destruct p as [|x0 p]; [done|]. set (q := x0 :: p) in *. assert (x0 ∈ q) as Hx0 by (by left).
  pose proof (find_first (fun e => epoch e <=? fe) (rev (history (q ++ y :: l)))) as Hprev.
  destruct (find (fun e => epoch e <=? fe) _) as [pr|].
  2:{ exfalso. apply Forall_rev in Hprev. rewrite rev_involutive, Forall_forall in Hprev. rewrite Forall_forall in Hpe.
      destruct (history_cover (q ++ y :: l) x0 Hpl ltac:(apply elem_of_app; auto)) as (k & Hk & Hke).
      specialize (Hprev k Hk). specialize (Hpe x0 Hx0). cbn in Hprev. lia. }
  destruct (find (fun e => fe <? epoch e) (history (q ++ y :: l))) as [su|] eqn:Es.
  2:{ exfalso. pose proof (find_first (fun e => fe <? epoch e) (history (q ++ y :: l))) as H. rewrite Es, Forall_forall in H.
      specialize (H g Hg). cbn in H. lia. }
  exists (epoch pr), (start_offset su). split; [done|].
  assert (Forall (fun b => b_last b < start_offset su) q) as Hq.
  { apply Forall_forall. intros b Hb. destruct (subsequent_separates _ su fe b Hpl Es ltac:(apply elem_of_app; auto)) as [H _].
    rewrite Forall_forall in Hpe. auto. }
  destruct (subsequent_separates _ su fe y Hpl Es ltac:(apply elem_of_app; right; by left)) as [_ Hsu]. specialize (Hsu Hye).
  apply log_ok_app in Hpf as (_ & Hokf & _). apply log_ok_Forall in Hokp. apply Forall_cons in Hokp as [Hx0p _].
  split; [done|]. split; [|apply Forall_cons in Hq as [Hq _]; lia].
  destruct Hokf as (_ & Hbx & Hrest & _). constructor; [lia|]. eapply Forall_impl; [exact Hrest|]. cbn. lia.
Qed.

Ltac concrete_batches := repeat (apply Forall_cons_2; [first [left; concrete|right; concrete]|]); apply Forall_nil_2.

(** * The life of a cache

    A log that only has its offsets in order: batches may be unstamped (epoch -1) or stamped with an
    epoch older than one already seen. *)
Fixpoint ordered_log (log : list batch) : Prop :=
  match log with
  | [] => True
  | b :: log => 0 <= b_base b <= b_last b /\ Forall (fun x => b_last b < b_base x) log /\ ordered_log log
  end.

(** The largest epoch of some batches, at least [cur]. *)
Definition top (cur : Z) (log : list batch) : Z := foldl (fun m b => Z.max m (b_epoch b)) cur log.

(** A partition: its log start, every batch appended to it and not truncated away again (retained or
    not), and its cache. *)
Record partition : Type := mkPartition { log_start : Z; appended : list batch; cache : LeaderEpochCache }.

(** Appends, truncations of the tail at a batch boundary (at or below the log start nothing is left),
    and retention, each with what the cache is told. *)
Inductive log_step : partition -> partition -> Prop :=
| step_append s log c b :
    ordered_log (log ++ [b]) -> s <= b_base b ->
    log_step (mkPartition s log c) (mkPartition s (log ++ [b]) (assign (b_epoch b) (b_base b) c))
| step_truncate s log c at_ :
    Forall (fun b => b_last b < at_ \/ at_ <= b_base b) log ->
    log_step (mkPartition s log c)
      (if at_ <? 0 then mkPartition s log (truncate_from_end at_ c)
       else if at_ <=? s then mkPartition at_ [] (truncate_from_end at_ c)
       else mkPartition s (filter (fun b => b_last b < at_) log) (truncate_from_end at_ c))
| step_retain s log c start :
    log_step (mkPartition s log c) (mkPartition (Z.max s start) log (truncate_from_start start c)).

Inductive reachable : partition -> Prop :=
| reach_new : reachable (mkPartition 0 [] cache_new)
| reach_step p p' : reachable p -> log_step p p' -> reachable p'.

(** The epoch in force at an offset: the largest one among the batches that begin up to there. *)
Definition epoch_at (o : Z) (log : list batch) : Z := top (-1) (filter (fun b => b_base b <= o) log).
(** The epoch in force at the log start, then an entry wherever a later batch raises the epoch. *)
Definition history_from (s : Z) (log : list batch) : LeaderEpochCache :=
  if s <=? 0 then history log
  else (if epoch_at s log <? 0 then [] else [mkEntry (epoch_at s log) s])
       ++ runs (epoch_at s log) (filter (fun b => s < b_base b) log).

Lemma top_app cur a b : top cur (a ++ b) = top (top cur a) b.
Proof. apply foldl_app. Qed.
Lemma top_ge log : forall cur, cur <= top cur log.
Proof. induction log as [|b log IH]; intros cur; cbn; [lia|]. specialize (IH (Z.max cur (b_epoch b))). unfold top in IH. lia. Qed.
Lemma runs_app a : forall cur b, runs cur (a ++ b) = runs cur a ++ runs (top cur a) b.
Proof.
  induction a as [|x a IH]; intros cur b; [done|]. cbn [app runs top foldl]. fold (top (Z.max cur (b_epoch x)) a).
  destruct (Z.ltb_spec cur (b_epoch x)); rewrite IH; [by rewrite Z.max_r by lia|by rewrite Z.max_l by lia].
Qed.
Lemma runs_top log : forall cur, match last (runs cur log) with Some e => epoch e = top cur log /\ cur < epoch e | None => top cur log = cur end.
Proof.
  induction log as [|x log IH]; intros cur; [done|]. cbn [runs top foldl]. fold (top (Z.max cur (b_epoch x)) log).
  destruct (Z.ltb_spec cur (b_epoch x)).
  - specialize (IH (b_epoch x)). rewrite Z.max_r by lia. rewrite last_cons.
    destruct (last (runs (b_epoch x) log)); [lia|]. cbn. rewrite IH. lia.
  - rewrite Z.max_l by lia. apply IH.
Qed.

Lemma ordered_log_app a b : ordered_log (a ++ b) <->
  ordered_log a /\ ordered_log b /\ Forall (fun x => Forall (fun y => b_last x < b_base y) b) a.
Proof. induction a as [|x a IH]; cbn; [intuition|]. rewrite IH, Forall_app, Forall_cons. intuition. Qed.
Lemma ordered_log_Forall log : ordered_log log -> Forall (fun b => 0 <= b_base b <= b_last b) log.
Proof. induction log as [|b log IH]; cbn; [done|]. intros (? & _ & ?). constructor; auto. Qed.
(** The batches that begin up to an offset are a prefix. *)
Lemma ordered_split o log : ordered_log log ->
  log = filter (fun b => b_base b <= o) log ++ filter (fun b => o < b_base b) log.
Proof.
  induction log as [|b log IH]; [done|]. intros (Hb & Hf & Ho). rewrite !filter_cons.
  destruct (decide (b_base b <= o)); destruct (decide (o < b_base b)); try lia.
  - cbn [app]. f_equal. by apply IH.
  - rewrite (filter_none (fun b => b_base b <= o)) by (eapply Forall_impl; [exact Hf|]; cbn; lia).
    rewrite filter_all by (eapply Forall_impl; [exact Hf|]; cbn; lia). done.
Qed.

(** Where the entries of a history lie. *)
Lemma runs_starts (P : Z -> Prop) cur log : Forall (fun b => P (b_base b)) log -> Forall (fun e => P (start_offset e)) (runs cur log).
Proof.
  intros Hf. eapply Forall_impl; [apply runs_entries|]. intros e (b & Hin & _ & -> & _).
  rewrite Forall_forall in Hf. by apply Hf.
Qed.
Lemma ordered_increasing log : forall cur, ordered_log log -> increasing (runs cur log).
Proof.
  induction log as [|x log IH]; intros cur Hok; [done|]. destruct Hok as (Hb & Hf & Hok). cbn [runs].
  destruct (cur <? b_epoch x); [|by apply IH]. cbn. split; [|by apply IH].
  eapply Forall_impl; [apply runs_entries|]. intros e (b & Hin & -> & -> & He).
  rewrite Forall_forall in Hf. specialize (Hf b Hin). lia.
Qed.

Lemma Forall_filter_self {A} (P : A -> Prop) `{!forall x, Decision (P x)} (l : list A) : Forall P (filter P l).
Proof. apply Forall_forall. by intros x [? _]%list_elem_of_filter. Qed.
Lemma epoch_at_all o log : Forall (fun b => b_base b <= o) log -> epoch_at o log = top (-1) log.
Proof. intros H. unfold epoch_at. by rewrite filter_all. Qed.
Lemma epoch_at_low o log : epoch_at o (filter (fun b => b_base b <= o) log) = epoch_at o log.
Proof. by rewrite epoch_at_all by apply Forall_filter_self. Qed.
Lemma ordered_filter_low o log : ordered_log log -> ordered_log (filter (fun b => b_base b <= o) log).
Proof. intros Hok. pose proof Hok as H. by rewrite (ordered_split o log Hok) in H; apply ordered_log_app in H as (? & _). Qed.

(** The history seen from an offset at or above the log start: the history of the batches that begin up
    to there, and what is raised above it. *)
Lemma history_from_split s o log : ordered_log log -> s <= o ->
  history_from s log = history_from s (filter (fun b => b_base b <= o) log)
    ++ runs (epoch_at o log) (filter (fun b => o < b_base b) log).
Proof.
  intros Hok Hso. unfold history_from. destruct (Z.leb_spec s 0) as [Hs|Hs].
  - unfold history. rewrite (ordered_split o log Hok) at 1. by rewrite runs_app.
  - assert (epoch_at s (filter (fun b => b_base b <= o) log) = epoch_at s log) as ->.
    { unfold epoch_at. rewrite list_filter_filter. f_equal. apply list_filter_iff. intros b. cbn. lia. }
    rewrite <- app_assoc. f_equal. pose proof Hok as Hok'. rewrite (ordered_split s log Hok) in Hok'.
    apply ordered_log_app in Hok' as (_ & Hnew & _). rewrite (ordered_split o _ Hnew) at 1. rewrite runs_app. f_equal.
    + f_equal. rewrite !list_filter_filter. apply list_filter_iff. intros b. cbn. lia.
    + f_equal.
      * unfold epoch_at. rewrite <- top_app. f_equal. rewrite (ordered_split s log Hok) at 3. rewrite filter_app. f_equal.
        symmetry. apply filter_all, Forall_forall. intros b [Hb _]%list_elem_of_filter. lia.
      * rewrite list_filter_filter. apply list_filter_iff. intros b. cbn. lia.
Qed.

Lemma history_from_starts s log : ordered_log log -> Forall (fun e => Z.max s 0 <= start_offset e) (history_from s log).
Proof.
  intros Hok. apply ordered_log_Forall in Hok. unfold history_from. destruct (Z.leb_spec s 0).
  - apply (runs_starts (fun x => Z.max s 0 <= x)). eapply Forall_impl; [exact Hok|]. cbn. lia.
  - apply Forall_app. split; [destruct (_ <? 0); repeat constructor; cbn; lia|].
    apply (runs_starts (fun x => Z.max s 0 <= x)). eapply Forall_impl; [apply Forall_filter_self|]. cbn. lia.
Qed.
(** Of batches that begin up to an offset: the entries too, and the last is the epoch in force. *)
Lemma history_from_low s o log : s <= o -> Forall (fun b => b_base b <= o) log ->
  Forall (fun e => start_offset e <= o) (history_from s log).
Proof.
  intros Hso Hf. unfold history_from. destruct (Z.leb_spec s 0); [by apply (runs_starts (fun x => x <= o))|].
  apply Forall_app. split; [destruct (_ <? 0); repeat constructor; cbn; lia|].
  apply (runs_starts (fun x => x <= o)). apply Forall_forall. intros b [_ Hb]%list_elem_of_filter. rewrite Forall_forall in Hf. auto.
Qed.
Lemma history_from_last s log : ordered_log log ->
  match last (history_from s log) with Some e => epoch e = top (-1) log /\ 0 <= epoch e | None => top (-1) log = -1 end.
Proof.
  intros Hok. unfold history_from. destruct (Z.leb_spec s 0).
  - pose proof (runs_top log (-1)) as Ht. unfold history. destruct (last _); lia.
  - assert (top (-1) log = top (epoch_at s log) (filter (fun b => s < b_base b) log)) as ->
      by (unfold epoch_at; rewrite <- top_app; f_equal; by apply ordered_split).
    set (new := filter _ log). set (m := epoch_at s log). assert (-1 <= m) by apply top_ge.
    rewrite last_app. pose proof (runs_top new m) as Ht. destruct (last (runs m new)); [lia|]. rewrite Ht.
    destruct (Z.ltb_spec m 0); cbn; lia.
Qed.

Lemma assign_end h M b : Forall (fun e => start_offset e < b_base b) h ->
  (match last h with Some e => epoch e = M /\ 0 <= epoch e | None => M = -1 end) ->
  assign (b_epoch b) (b_base b) h = h ++ runs M [b].
Proof.
  intros Hf HM. unfold assign. cbn [runs]. rewrite filter_all by done.
  destruct (Z.ltb_spec (b_epoch b) 0); destruct (last h) as [e|].
  - destruct (Z.ltb_spec M (b_epoch b)); [lia|]. by rewrite app_nil_r.
  - destruct (Z.ltb_spec M (b_epoch b)); [lia|]. by rewrite app_nil_r.
  - destruct HM as [<- _]. destruct (Z.ltb_spec (b_epoch b) (epoch e)); destruct (Z.ltb_spec (epoch e) (b_epoch b));
      destruct (Z.eqb_spec (b_epoch b) (epoch e)); try lia; by rewrite ?app_nil_r.
  - subst M. by destruct (Z.ltb_spec (-1) (b_epoch b)); [|lia].
Qed.
(** The first batch at the log start replaces the entry that stands there. *)
Lemma assign_at_start s m b : b_base b = s -> -1 <= m ->
  let entry e := if e <? 0 then [] else [mkEntry e s] in
  assign (b_epoch b) s (entry m) = entry (Z.max m (b_epoch b)).
Proof.
  intros Hb Hm entry. unfold assign, entry. destruct (Z.ltb_spec m 0); cbn [last epoch];
    destruct (Z.ltb_spec (b_epoch b) 0); destruct (Z.ltb_spec (Z.max m (b_epoch b)) 0); try lia; try done.
  - cbn. do 2 f_equal. lia.
  - do 2 f_equal. lia.
  - destruct (Z.ltb_spec (b_epoch b) m); [do 2 f_equal; lia|].
    destruct (Z.eqb_spec (b_epoch b) m); [do 2 f_equal; lia|].
    rewrite filter_cons_False by (cbn; lia). cbn. do 2 f_equal. lia.
Qed.

Lemma assign_from s log b : ordered_log (log ++ [b]) -> s <= b_base b ->
  assign (b_epoch b) (b_base b) (history_from s log) = history_from s (log ++ [b]).
Proof.
  intros Hok Hs. pose proof Hok as (Hlog & [Hb _] & Hlt)%ordered_log_app.
  assert (Forall (fun x => b_base x < b_base b) log) as Hbelow.
  { apply ordered_log_Forall in Hlog. rewrite Forall_forall in *. intros x Hx. specialize (Hlt x Hx). specialize (Hlog x Hx).
    apply Forall_cons in Hlt as [Hlt _]. lia. }
  destruct (decide (0 < s /\ s = b_base b)) as [[Hs0 Es]|Hne].
  - unfold history_from. destruct (Z.leb_spec s 0); [lia|]. rewrite filter_app, filter_cons_False, filter_nil, app_nil_r by lia.
    rewrite filter_none by (eapply Forall_impl; [exact Hbelow|]; cbn; lia). cbn [runs]. rewrite !app_nil_r, <- Es.
    rewrite assign_at_start by (done || apply top_ge). unfold epoch_at. rewrite filter_app, top_app, filter_cons_True by lia. done.
  - assert (filter (fun x => b_base x <= b_base b - 1) (log ++ [b]) = log /\ filter (fun x => b_base b - 1 < b_base x) (log ++ [b]) = [b]) as [E1 E2].
    { rewrite !filter_app, !filter_cons, !filter_nil, decide_False, decide_True, app_nil_r by lia.
      rewrite filter_all by (eapply Forall_impl; [exact Hbelow|]; cbn; lia).
      by rewrite filter_none by (eapply Forall_impl; [exact Hbelow|]; cbn; lia). }
    assert (history_from s (log ++ [b]) = history_from s log ++ runs (top (-1) log) [b]) as ->.
    { destruct (decide (s <= b_base b - 1)) as [Hle|Hgt].
      - rewrite (history_from_split s (b_base b - 1)), E1, E2 by done. unfold epoch_at. by rewrite E1.
      - unfold history_from. destruct (Z.leb_spec s 0); [|lia]. unfold history. by rewrite runs_app. }
    apply assign_end; [|by apply history_from_last]. destruct (decide (s <= b_base b - 1)) as [Hle|Hgt].
    + eapply Forall_impl; [apply (history_from_low s (b_base b - 1)); [done|]|]; [eapply Forall_impl; [exact Hbelow|]|]; cbn; lia.
    + unfold history_from. destruct (Z.leb_spec s 0); [|lia]. by apply (runs_starts (fun x => x < b_base b)).
Qed.

Lemma truncate_from s log at_ : 0 <= at_ -> ordered_log log -> Forall (fun b => b_last b < at_ \/ at_ <= b_base b) log ->
  truncate_from_end at_ (history_from s log)
  = if at_ <=? s then [] else history_from s (filter (fun b => b_last b < at_) log).
Proof.
  intros Hat Hok Hf. unfold truncate_from_end. destruct (Z.ltb_spec at_ 0); [lia|]. destruct (Z.leb_spec at_ s) as [Hs|Hs].
  - apply filter_none. eapply Forall_impl; [by apply history_from_starts|]. cbn. lia.
  - rewrite (history_from_split s (at_ - 1)) by (done || lia). rewrite filter_app.
    rewrite (filter_none _ (runs _ _)) by (eapply Forall_impl; [apply (runs_starts (fun x => at_ <= x))|]; [eapply Forall_impl; [apply Forall_filter_self|]|]; cbn; lia).
    rewrite app_nil_r, filter_all by (eapply Forall_impl; [apply (history_from_low s (at_ - 1)); [lia|apply Forall_filter_self]|]; cbn; lia).
    f_equal. apply ordered_log_Forall in Hok. clear -Hok Hf. induction log as [|b log IH]; [done|].
    apply Forall_cons in Hok as [Hb Hok]. apply Forall_cons in Hf as [Hx Hf]. rewrite !filter_cons, (IH Hok Hf).
    destruct (decide (b_base b <= at_ - 1)); destruct (decide (b_last b < at_)); try done; lia.
Qed.

Lemma truncate_start_app start L R : 0 < start -> Forall (fun e => start_offset e <= start) L -> Forall (fun e => start < start_offset e) R ->
  truncate_from_start start (L ++ R) = (match last L with Some e => [mkEntry (epoch e) start] | None => [] end) ++ R.
Proof.
  intros Hs HL HR. unfold truncate_from_start. destruct (Z.leb_spec start 0); [lia|]. cbn [orb].
  destruct (is_empty (L ++ R)) eqn:Ee.
  { apply bool_decide_eq_true in Ee. apply app_nil in Ee as [-> ->]. done. }
  rewrite filter_app, (filter_none _ L), (filter_all _ R) by (done || (eapply Forall_impl; [exact HL|]; cbn; lia)). cbn [app].
  pose proof (find_first (fun x => start_offset x <=? start) (rev (L ++ R))) as Hf. rewrite rev_app_distr in *.
  destruct L as [|x L] using rev_ind; [|clear IHL].
  - cbn in *. rewrite app_nil_r in *. destruct (find _ (rev R)) as [e|]; [|done]. destruct Hf as (a & b & E & He & _).
    assert (e ∈ R) as Hin by (apply elem_of_reverse; unfold reverse; rewrite <- rev_alt, E, elem_of_app, elem_of_cons; auto).
    rewrite Forall_forall in HR. specialize (HR e Hin). lia.
  - rewrite last_snoc. rewrite rev_app_distr in *. cbn [rev app] in *. apply Forall_app in HL as [_ HL]. apply Forall_cons in HL as [Hx _].
    replace (find _ (rev R ++ x :: rev L)) with (Some x); [done|]. symmetry. clear -HR Hx.
    assert (Forall (fun e => start < start_offset e) (rev R)) as HR' by (by apply Forall_rev). induction (rev R) as [|y l IH]; cbn.
    + destruct (Z.leb_spec (start_offset x) start); [done|lia].
    + apply Forall_cons in HR' as [Hy HR']. destruct (Z.leb_spec (start_offset y) start); [lia|by apply IH].
Qed.

Lemma retain_from s log start : ordered_log log ->
  truncate_from_start start (history_from s log) = history_from (Z.max s start) log.
Proof.
  intros Hok. destruct (decide (start <= 0)) as [H0|Hpos].
  { unfold truncate_from_start. rewrite (proj2 (Z.leb_le _ _) H0). cbn [orb]. unfold history_from.
    destruct (Z.leb_spec s 0); [by destruct (Z.leb_spec (Z.max s start) 0); [|lia]|]. rewrite Z.max_l by lia. by destruct (Z.leb_spec s 0); [lia|]. }
  destruct (Z.lt_trichotomy start s) as [Hlt|[<-|Hgt]].
  - rewrite Z.max_l by lia. rewrite <- (app_nil_l (history_from s log)) at 1. rewrite truncate_start_app; [done|lia|constructor|].
    eapply Forall_impl; [by apply history_from_starts|]. cbn. lia.
  - rewrite Z.max_id. unfold history_from. destruct (Z.leb_spec start 0); [lia|]. rewrite truncate_start_app; [by destruct (_ <? 0)|lia| |].
    + destruct (_ <? 0); repeat constructor; cbn; lia.
    + apply (runs_starts (fun x => start < x)), Forall_filter_self.
  - rewrite Z.max_r by lia. rewrite (history_from_split s start) by (done || lia). rewrite truncate_start_app; [|lia| |].
    + unfold history_from at 2. destruct (Z.leb_spec start 0); [lia|]. f_equal.
      pose proof (history_from_last s _ (ordered_filter_low start log Hok)) as Hl. fold (epoch_at start log) in Hl.
      destruct (last _) as [e|]; [destruct Hl as [<- ?]|rewrite Hl; done]. by destruct (Z.ltb_spec (epoch e) 0); [lia|].
    + apply history_from_low; [lia|apply Forall_filter_self].
    + apply (runs_starts (fun x => start < x)), Forall_filter_self.
Qed.

Lemma ordered_log_filter (P : batch -> Prop) `{!forall b, Decision (P b)} log : ordered_log log -> ordered_log (filter P log).
Proof.
  induction log as [|b log IH]; [done|]. intros (H1 & H2 & H3). rewrite filter_cons. destruct (decide (P b)); [|auto].
  cbn. split_and!; try lia; [|auto]. rewrite Forall_forall in *. intros x [_ Hx]%list_elem_of_filter. auto.
Qed.
Lemma step_history p p' : log_step p p' -> ordered_log (appended p) -> cache p = history_from (log_start p) (appended p) ->
  ordered_log (appended p') /\ cache p' = history_from (log_start p') (appended p').
Proof.
  destruct 1 as [s log c b Hok Hb|s log c at_ Hf|s log c start]; cbn [appended cache log_start]; intros Hl ->.
  - split; [done|]. by apply assign_from.
  - destruct (Z.ltb_spec at_ 0); cbn [appended cache log_start].
    + split; [done|]. unfold truncate_from_end. by rewrite (proj2 (Z.ltb_lt _ _)) by lia.
    + rewrite truncate_from by done. destruct (at_ <=? s); cbn [appended cache log_start]; (split; [|done || idtac]).
      * done.
      * unfold history_from. by destruct (at_ <=? 0).
      * by apply ordered_log_filter.
  - split; [done|]. by apply retain_from.
Qed.

Lemma history_from_increasing s log : ordered_log log -> increasing (history_from s log).
Proof.
  intros Hok. unfold history_from. destruct (s <=? 0); [by apply ordered_increasing|]. apply increasing_app.
  split; [destruct (_ <? 0); cbn; auto|]. split; [by apply ordered_increasing, ordered_log_filter|].
  destruct (_ <? 0); repeat constructor. eapply Forall_impl; [apply runs_entries|]. intros e (b & [Hb _]%list_elem_of_filter & _ & -> & ?). cbn. lia.
Qed.
Lemma find_rev_last {A} (p : A -> bool) L R : Forall (fun x => p x = false) R -> Forall (fun x => p x = true) L ->
  find p (rev (L ++ R)) = last L.
Proof.
  intros HR HL. rewrite rev_app_distr. apply Forall_rev in HR. induction (rev R) as [|y l IH]; cbn [app].
  - destruct L as [|x L] using rev_ind; [done|]. rewrite rev_app_distr, last_snoc. cbn. apply Forall_app in HL as [_ HL].
    apply Forall_cons in HL as [-> _]. done.
  - apply Forall_cons in HR as [Hy HR]. cbn. rewrite Hy. by apply IH.
Qed.
Lemma history_from_answers s o log : ordered_log log -> s <= o ->
  epoch_for_offset o (history_from s log) = if epoch_at o log <? 0 then None else Some (epoch_at o log).
Proof.
  intros Hok Hso. unfold epoch_for_offset. rewrite (history_from_split s o) by done. rewrite find_rev_last.
  - pose proof (history_from_last s _ (ordered_filter_low o log Hok)) as Hl. fold (epoch_at o log) in Hl.
    destruct (last _) as [e|]; cbn; [destruct Hl as [-> ?]|by rewrite Hl]. by destruct (Z.ltb_spec (epoch_at o log) 0); [lia|].
  - eapply Forall_impl; [apply (runs_starts (fun x => o < x)), Forall_filter_self|]. cbn. lia.
  - eapply Forall_impl; [apply (history_from_low s o); [done|apply Forall_filter_self]|]. cbn. lia.
Qed.

(** * Properties *)

(** [C13] Whatever happens to a partition - batches appended by leaders of any epoch, stale and
    unstamped ones included, the tail truncated, old records removed by retention - the cache is
    exactly the history of what was appended and not truncated, as seen from the log start: the
    epoch in force there, then an entry wherever a later batch raises the epoch.  Its entries are
    strictly increasing in epoch and start offset, and at every offset from the log start on it
    answers the largest epoch among the batches that begin up to that offset. *)
Theorem cache_is_log_history (p : partition) :
  reachable p ->
  ordered_log (appended p) /\ cache p = history_from (log_start p) (appended p) /\ increasing (cache p)
  /\ forall o, log_start p <= o ->
       epoch_for_offset o (cache p) = if epoch_at o (appended p) <? 0 then None else Some (epoch_at o (appended p)).
Proof.
  intros Hr. assert (ordered_log (appended p) /\ cache p = history_from (log_start p) (appended p)) as [Hok E].
  { induction Hr as [|p p' _ [IH1 IH2] Hs]; [done|]. by eapply step_history. }
  rewrite E. split_and!; [done|done|by apply history_from_increasing|]. intros o Ho. by apply history_from_answers.
Qed.

Definition sample_batches : list batch :=
  [mkBatch 1 0 4; mkBatch 1 5 9; mkBatch 3 10 14; mkBatch 4 15 15].
(** An unstamped batch, a new leader, a stale batch, a leader whose batch is truncated again, retention
    into the middle of the second batch. *)
Definition sample_partition : partition :=
  mkPartition 7 [mkBatch (-1) 0 4; mkBatch 3 5 9; mkBatch 2 10 14]
    (truncate_from_start 7 (truncate_from_end 15 (assign 5 15 (assign 2 10 (assign 3 5 (assign (-1) 0 [])))))).

Lemma cache_is_log_history_witness :
  cache sample_partition = [mkEntry 3 7] /\ increasing (cache sample_partition)
  /\ epoch_for_offset 12 (cache sample_partition) = Some 3.
Proof.
  destruct (cache_is_log_history sample_partition) as (_ & -> & H & Ha).
  - apply (reach_step (mkPartition 0 [mkBatch (-1) 0 4; mkBatch 3 5 9; mkBatch 2 10 14]
      (truncate_from_end 15 (assign 5 15 (assign 2 10 (assign 3 5 (assign (-1) 0 []))))))); [|exact (step_retain 0 _ _ 7)].
    refine (reach_step (mkPartition 0 ([mkBatch (-1) 0 4; mkBatch 3 5 9; mkBatch 2 10 14] ++ [mkBatch 5 15 19]) _) _ _ (step_truncate 0 _ _ 15 _));
      [|concrete_batches].
    refine (reach_step _ _ _ (step_append 0 [mkBatch (-1) 0 4; mkBatch 3 5 9; mkBatch 2 10 14] _ (mkBatch 5 15 19) _ _)); [|concrete|concrete].
    refine (reach_step _ _ _ (step_append 0 [mkBatch (-1) 0 4; mkBatch 3 5 9] _ (mkBatch 2 10 14) _ _)); [|concrete|concrete].
    refine (reach_step _ _ _ (step_append 0 [mkBatch (-1) 0 4] _ (mkBatch 3 5 9) _ _)); [|concrete|concrete].
    refine (reach_step _ _ _ (step_append 0 [] _ (mkBatch (-1) 0 4) _ _)); [apply reach_new|concrete|concrete].
  - split; [vm_compute; reflexivity|]. split; [exact H|]. rewrite Ha; [vm_compute; reflexivity|concrete].
Defined.



(** [C27] The epoch recorded for an offset is the epoch of the batch that holds it. *)
Theorem epoch_for_offset_correct (log : list batch) (b : batch) (o : Z) :
  log_ok log -> b ∈ log -> b_base b <= o <= b_last b ->
  epoch_for_offset o (history log) = Some (b_epoch b).
Proof. apply epoch_for_offset_history. Qed.

Lemma epoch_for_offset_correct_witness :
  epoch_for_offset 12 (history sample_batches) = Some 3.
Proof.
  apply (epoch_for_offset_correct sample_batches (mkBatch 3 10 14) 12); [concrete| |concrete].
  do 2 right. left.
Defined.
