(* ===== verification/Reconcile.v ===== *)
(** The leader-epoch handshake: how a follower finds out where its log parted from the leader's and
    discards the rest.

    The leader's side is the OffsetForLeaderEpoch handler of chronik-server/src/kafka_handler.rs over the
    histories of [LeaderEpoch].  The follower's side is apply_epoch_answer, plan_reconciliation and
    truncate_partition of replication/replica_fetcher/fetcher.rs, which cuts the write-ahead log through
    truncate_to of chronik-wal/src/group_commit.rs, the epoch history, the fetch position and the
    partition's offsets (produce_handler.rs).  Calls to the file system succeed; one followed partition is
    asked about at a time; the bytes of the request and of the answer are not modelled. *)
From stdpp Require Import base list numbers gmap strings.
From Stdlib Require Import ZArith Lia.
From S2P Require Import Prelude Extern WalRecord WalTruncate LeaderEpoch.
Local Open Scope Z_scope.

Abbreviation topic_partition := (bytes * Z)%type.

(** * Offsets of a partition (produce_handler.rs) *)

Record PartitionState : Type := mkState { next_offset : Z; high_watermark : Z }.

Definition raise_watermark (watermark : Z) (st : PartitionState) : PartitionState :=
  mkState (Z.max (next_offset st) watermark) (Z.max (high_watermark st) watermark).
Definition get_high_watermark (tp : topic_partition) (states : gmap topic_partition PartitionState) : Z :=
  match states !! tp with Some st => as_i64 (high_watermark st) | None => 0 end.
Definition get_log_end_offset (tp : topic_partition) (states : gmap topic_partition PartitionState) : Z :=
  match states !! tp with Some st => as_i64 (next_offset st) | None => 0 end.
Definition local_log_end (tp : topic_partition) (states : gmap topic_partition PartitionState) : Z :=
  let log_end := get_log_end_offset tp states in
  if 0 <? log_end then log_end else Z.max (get_high_watermark tp states) 0.
Definition update_high_watermark (tp : topic_partition) (hw : Z) (states : gmap topic_partition PartitionState)
    : gmap topic_partition PartitionState :=
  match states !! tp with
  | Some st => <[tp := raise_watermark (Z.max hw 0) st]> states
  | None => <[tp := mkState (as_u64 hw) (as_u64 hw)]> states
  end.
Definition reset_offsets_after_truncation (tp : topic_partition) (new_log_end : Z)
    (states : gmap topic_partition PartitionState) : gmap topic_partition PartitionState :=
  match states !! tp with
  | None => update_high_watermark tp new_log_end states
  | Some _ => <[tp := mkState (Z.max new_log_end 0) (Z.max new_log_end 0)]> states
  end.

(** * Truncating the write-ahead log (group_commit.rs) *)

(** A queued write: its bytes and who waits for it. *)
Record PendingWrite : Type := mkPending { pw_data : bytes; response_tx : option Z }.
Record PartitionCommitQueue : Type := mkQueue {
  pending : list PendingWrite;
  total_queued_bytes : Z;
  segment_id : Z;
  segment_size_bytes : Z;
  truncation_epoch : Z;
  tail : list WalRecord;
  committed_through : Z }.

(** A new file is the last of its directory: its id is above all others. *)
Definition add_segment (id : Z) (d : wal_dir) : wal_dir := mkDir (files d ++ [(id, Some [])]) (sealed_segments d).
Definition next_segment (d : wal_dir) : Z :=
  foldl (fun n f => match f.2 with Some _ => Z.max n (f.1 + 1) | None => n end) 0 (files d).
Definition rotate_to_new_segment (q : PartitionCommitQueue) (d : wal_dir) : PartitionCommitQueue * wal_dir :=
  let new_segment_id := as_u64 (segment_id q + 1) in
  (mkQueue (pending q) (total_queued_bytes q) new_segment_id 0 (truncation_epoch q) (tail q) (committed_through q),
   add_segment new_segment_id d).
Definition get_or_create_queue (q : option PartitionCommitQueue) (d : wal_dir) : PartitionCommitQueue * wal_dir :=
  match q with
  | Some q => (q, d)
  | None => let id := next_segment d in (mkQueue [] 0 id 0 0 [] (- 2 ^ 63), add_segment id d)
  end.

(** [truncate_to]: the queue, the directory, the outcome, and who is told that its write is lost. *)
Definition truncate_to (target : Z) (q : option PartitionCommitQueue) (d : wal_dir)
    : PartitionCommitQueue * wal_dir * TruncateOutcome * list Z :=
  let '(q, d) := get_or_create_queue q d in
  let dropped := pending q in
  let q := mkQueue [] 0 (segment_id q) (segment_size_bytes q) (as_u64 (truncation_epoch q + 1)) [] (Z.max (- 2 ^ 63) (target - 1)) in
  let '(d, o) := truncate_partition_files target d in
  let o := mkOutcome (new_log_end_offset o) (segments_deleted o) (bytes_discarded o) (Z.of_nat (length dropped)) in
  let '(q, d) := if touched_disk o then rotate_to_new_segment q d else (q, d) in
  (q, d, o, omap response_tx dropped).

(** * The leader's answer (kafka_handler.rs) *)

Record LeaderNode : Type := mkLeader { ld_epochs : LeaderEpochStore; ld_states : gmap topic_partition PartitionState }.
Record EpochAnswer : Type := mkAnswer { error_code : Z; end_offset : Z }.
Definition answer_epoch (tp : topic_partition) (leader_epoch : Z) (l : LeaderNode) : EpochAnswer :=
  let log_end_offset := get_high_watermark tp (ld_states l) in
  mkAnswer 0 (store_end_offset_for_epoch tp leader_epoch log_end_offset (ld_epochs l)).2.

(** * The follower (fetcher.rs) *)

Inductive ReconcileAction : Type := Resume | Abstain | Truncate (to : Z).
Definition plan_reconciliation (code end_offset local_log_end : Z) : ReconcileAction :=
  if negb (code =? 0) then Abstain else
  if end_offset <? 0 then Abstain else
  if local_log_end <=? end_offset then Resume else Truncate end_offset.

Record FollowerNode : Type := mkFollower {
  queues : gmap topic_partition PartitionCommitQueue;
  disk : gmap topic_partition wal_dir;
  leader_epochs : LeaderEpochStore;
  positions : gmap topic_partition Z;
  partition_states : gmap topic_partition PartitionState }.

Definition position_of (tp : topic_partition) (n : FollowerNode) : Z * FollowerNode :=
  match positions n !! tp with
  | Some offset => (offset, n)
  | None =>
      let offset := local_log_end tp (partition_states n) in
      (offset, mkFollower (queues n) (disk n) (leader_epochs n) (<[tp := offset]> (positions n)) (partition_states n))
  end.

Definition truncate_partition (tp : topic_partition) (target : Z) (n : FollowerNode) : FollowerNode :=
  let '(q, d, outcome, _) := truncate_to target (queues n !! tp) (default (mkDir [] ∅) (disk n !! tp)) in
  let new_end := default 0 (new_log_end_offset outcome) in
  mkFollower (<[tp := q]> (queues n)) (<[tp := d]> (disk n))
    (store_truncate_from_end tp new_end (leader_epochs n)) (<[tp := new_end]> (positions n))
    (reset_offsets_after_truncation tp new_end (partition_states n)).

Definition apply_epoch_answer (tp : topic_partition) (answer : EpochAnswer) (n : FollowerNode) : FollowerNode :=
  let '(local_end, n) := position_of tp n in
  match plan_reconciliation (error_code answer) (end_offset answer) local_end with
  | Resume | Abstain => n
  | Truncate to => truncate_partition tp to n
  end.

(** [reconcile_with_leader] for one partition: without a history there is nothing to ask. *)
Definition reconcile_with_leader (tp : topic_partition) (l : LeaderNode) (n : FollowerNode) : FollowerNode :=
  match store_latest_epoch tp (leader_epochs n) with
  | None => n
  | Some epoch => apply_epoch_answer tp (answer_epoch tp epoch l) n
  end.

(** * What a directory holds *)

Definition log_end (log : list batch) : Z := match last log with Some b => b_last b + 1 | None => 0 end.









(** An answer that is no offset, or one at or past the end of the follower's log, changes nothing but the
    remembered position. *)
Lemma answer_ignored tp a n : error_code a <> 0 \/ end_offset a < 0 \/ (position_of tp n).1 <= end_offset a ->
  apply_epoch_answer tp a n = (position_of tp n).2.
Proof.
  intros H. unfold apply_epoch_answer, plan_reconciliation. destruct (position_of tp n) as [e n']. cbn [fst snd] in *.
  destruct (Z.eqb_spec (error_code a) 0); cbn [negb]; [|done]. destruct (Z.ltb_spec (end_offset a) 0); [done|].
  by destruct (Z.leb_spec e (end_offset a)); [|lia].
Qed.

(** * Properties *)


(** The old leader of epoch 4 wrote 5..14 and crashed; the new one took over at 5 under epoch 5. *)
Definition sample_tp : topic_partition := ([116], 0).


(** A follower of the current epoch that has records above the leader's high watermark: the leader's
    answer is the watermark, not its log end, and the follower discards them. *)
Example current_epoch_cut_to_watermark :
  let leader := mkLeader {[sample_tp := history [mkBatch 1 0 4; mkBatch 4 5 9]]} {[sample_tp := mkState 10 5]} in
  let n := mkFollower ∅ {[sample_tp := mkDir [(1, Some (to_bytes (V2 (sample_v2 "t" [1; 2] 0 4)) ++ to_bytes (V2 (sample_v2 "t" [3] 5 9))))] ∅]}
             {[sample_tp := history [mkBatch 1 0 4; mkBatch 4 5 9]]} ∅ {[sample_tp := mkState 10 10]} in
  answer_epoch sample_tp 4 leader = mkAnswer 0 5 /\ positions (reconcile_with_leader sample_tp leader n) !! sample_tp = Some 5.
Proof. vm_compute. done. Qed.
