(* ===== verification/TxnIndex.v ===== *)
(** The transaction index behind read_committed fetches:
    crates/chronik-server/src/transaction_index.rs, and what produce_handler.rs tells it about a batch.

    The index of a partition is driven by the batches that land in its log.  Theorems
    relate it to the log: the last stable offset and the list of aborted transactions. *)
From stdpp Require Import base list numbers gmap.
From Stdlib Require Import ZArith Lia.
From S2P Require Import Prelude Extern KafkaRecords.
Local Open Scope Z_scope.

Record AbortedTxn : Type := mkAborted { producer_id : Z; first_offset : Z }.

#[global] Instance AbortedTxn_eq_dec : EqDecision AbortedTxn.
Proof. solve_decision. Defined.

Record PartitionTxnState : Type := mkTxnState {
  ongoing : gmap Z Z;
  aborted : list AbortedTxn }.

Definition txn_default : PartitionTxnState := mkTxnState ∅ [].

(** [TransactionIndex], keyed by topic and partition. *)
Abbreviation TransactionIndex := (gmap (bytes * Z) PartitionTxnState).

Definition index_new : TransactionIndex := ∅.

Definition on_transactional_produce (tp : bytes * Z) (pid base_offset : Z)
    (ix : TransactionIndex) : TransactionIndex :=
  let e := default txn_default (ix !! tp) in
  let ongoing' := match ongoing e !! pid with
                  | Some _ => ongoing e
                  | None => <[pid := base_offset]> (ongoing e)
                  end in
  <[tp := mkTxnState ongoing' (aborted e)]> ix.

Definition on_commit (tp : bytes * Z) (pid : Z) (ix : TransactionIndex) : TransactionIndex :=
  alter (fun e => mkTxnState (delete pid (ongoing e)) (aborted e)) tp ix.

Definition on_abort (tp : bytes * Z) (pid : Z) (ix : TransactionIndex) : TransactionIndex :=
  alter (fun e =>
    match ongoing e !! pid with
    | Some o => mkTxnState (delete pid (ongoing e)) (aborted e ++ [mkAborted pid o])
    | None => e
    end) tp ix.

(** The marker type in the key of a control batch's first record. *)
Definition marker_type (first_record_key : option bytes) : option Z :=
  k ← first_record_key;
  if 4 <=? len k then Some (wrap_s 16 (be_val (take 2 (drop 2 k)))) else None.

Definition apply_log_batch (tp : bytes * Z) (pid : Z) (is_transactional is_control : bool)
    (first_record_key : option bytes) (base_offset : Z) (ix : TransactionIndex)
    : TransactionIndex :=
  if pid <? 0 then ix else
  if is_control then
    match marker_type first_record_key with
    | Some t => if t =? 1 then on_commit tp pid ix else if t =? 0 then on_abort tp pid ix else ix
    | None => ix
    end
  else if is_transactional then on_transactional_produce tp pid base_offset ix
  else ix.

(** What the produce path tells the index about a batch it appends: the flags are bits of the batch's
    attributes, the key is that of its first record, the offset the one it was given. *)
Definition observe_batch (tp : bytes * Z) (b : KafkaRecordBatch) (base_offset : Z) (ix : TransactionIndex)
    : TransactionIndex :=
  let is_control_batch := negb (Z.land (attributes (header b)) 32 =? 0) in
  let batch_is_transactional := negb (Z.land (attributes (header b)) 16 =? 0) in
  let first_record_key := head (records b) ≫= r_key in
  apply_log_batch tp (KafkaRecords.producer_id (header b)) batch_is_transactional is_control_batch
    first_record_key base_offset ix.

Definition min_value (m : gmap Z Z) : option Z :=
  map_fold (fun _ o acc => Some (match acc with Some a => Z.min a o | None => o end)) None m.

Definition last_stable_offset (tp : bytes * Z) (high_watermark : Z) (ix : TransactionIndex) : Z :=
  match ix !! tp with
  | Some e => default high_watermark (min_value (ongoing e))
  | None => high_watermark
  end.

Definition aborted_below (tp : bytes * Z) (upper : Z) (ix : TransactionIndex) : list AbortedTxn :=
  match ix !! tp with
  | Some e => filter (fun a => first_offset a < upper) (aborted e)
  | None => []
  end.

(** * The log *)

(** A batch as the index sees it. *)
Record log_batch : Type := mkLogBatch {
  lb_pid : Z;
  lb_txn : bool;
  lb_control : bool;
  lb_key : option bytes;
  lb_base : Z }.

Definition apply_batch (tp : bytes * Z) (ix : TransactionIndex) (b : log_batch) : TransactionIndex :=
  apply_log_batch tp (lb_pid b) (lb_txn b) (lb_control b) (lb_key b) (lb_base b) ix.

(** The index after a log, from nothing. *)
Definition index_of_log (tp : bytes * Z) (log : list log_batch) : TransactionIndex :=
  foldl (apply_batch tp) index_new log.

(** Transactional data, and the markers that end a producer's transaction. *)
Definition is_data (b : log_batch) : Prop :=
  0 <= lb_pid b /\ lb_control b = false /\ lb_txn b = true.
Definition is_marker (t : Z) (b : log_batch) : Prop :=
  0 <= lb_pid b /\ lb_control b = true /\ marker_type (lb_key b) = Some t.
Definition ends (p : Z) (b : log_batch) : Prop :=
  lb_pid b = p /\ (is_marker 0 b \/ is_marker 1 b).

(** Data whose transaction is still open: no marker of its producer follows. *)
Definition open_data (log : list log_batch) (b : log_batch) : Prop :=
  exists l1 l2, log = l1 ++ b :: l2 /\ is_data b /\ Forall (fun x => ~ ends (lb_pid b) x) l2.

(** Data whose transaction was aborted: the next marker of its producer is an abort. *)
Definition aborted_data (log : list log_batch) (b : log_batch) : Prop :=
  exists l1 m l2, log = l1 ++ m :: l2 /\ open_data l1 b /\ lb_pid m = lb_pid b /\ is_marker 0 m.

(** The batch that opened its producer's transaction, still open: no data of that producer was open
    before it. *)
Definition first_open (log : list log_batch) (b : log_batch) : Prop :=
  exists l1 l2, log = l1 ++ b :: l2 /\ is_data b /\ Forall (fun x => ~ ends (lb_pid b) x) l2
    /\ forall x, open_data l1 x -> lb_pid x <> lb_pid b.

(** An aborted transaction, opened by [b0] and containing [b]: at one of its producer's abort markers,
    [b0] had opened the transaction and [b] was part of it. *)
Definition aborted_txn (log : list log_batch) (b0 b : log_batch) : Prop :=
  exists l1 m l2, log = l1 ++ m :: l2 /\ is_marker 0 m /\ lb_pid m = lb_pid b0
    /\ first_open l1 b0 /\ open_data l1 b /\ lb_pid b = lb_pid b0.

Fixpoint offsets_increase (log : list log_batch) : Prop :=
  match log with
  | [] => True
  | b :: log => Forall (fun c => lb_base b < lb_base c) log /\ offsets_increase log
  end.

(** ** How the log predicates grow *)

Lemma snoc_split {A} (l1 l2 log : list A) (b x : A) : log ++ [x] = l1 ++ b :: l2 ->
  (l2 = [] /\ l1 = log /\ b = x) \/ (exists l2', l2 = l2' ++ [x] /\ log = l1 ++ b :: l2').
Proof.
  destruct l2 as [|y l2 _] using rev_ind.
  - intros [-> [= ->]]%app_inj_tail. auto.
  - rewrite app_comm_cons, app_assoc. intros [-> ->]%app_inj_tail. right. eauto.
Qed.

Lemma open_data_snoc log x b : open_data (log ++ [x]) b <->
  (open_data log b /\ ~ ends (lb_pid b) x) \/ (b = x /\ is_data x).
Proof.
  split.
  - intros (l1 & l2 & E & Hd & Hf). apply snoc_split in E as [(-> & -> & ->)|(l2' & -> & ->)]; [auto|].
    apply Forall_app in Hf as [Hf Hx]. apply Forall_cons in Hx as [Hx _]. left. split; [|done].
    exists l1, l2'. auto.
  - intros [[(l1 & l2 & -> & Hd & Hf) Hx]|[-> Hd]].
    + exists l1, (l2 ++ [x]). rewrite <- app_assoc. split; [done|]. split; [done|].
      apply Forall_app. split; [done|]. by repeat constructor.
    + exists log, []. auto.
Qed.

Lemma first_open_open log b : first_open log b -> open_data log b.
Proof. intros (l1 & l2 & E & Hd & Hf & _). by exists l1, l2. Qed.
Lemma first_open_snoc log x b : first_open (log ++ [x]) b <->
  (first_open log b /\ ~ ends (lb_pid b) x) \/ (b = x /\ is_data x /\ forall y, open_data log y -> lb_pid y <> lb_pid x).
Proof.
  split.
  - intros (l1 & l2 & E & Hd & Hf & Hn). apply snoc_split in E as [(-> & -> & ->)|(l2' & -> & ->)]; [auto|].
    apply Forall_app in Hf as [Hf Hx]. apply Forall_cons in Hx as [Hx _]. left. split; [|done]. by exists l1, l2'.
  - intros [[(l1 & l2 & -> & Hd & Hf & Hn) Hx]|(-> & Hd & Hn)].
    + exists l1, (l2 ++ [x]). rewrite <- app_assoc. split_and!; [done|done| |done].
      apply Forall_app. split; [done|]. by repeat constructor.
    + by exists log, [].
Qed.
Lemma aborted_txn_snoc log x b0 b : aborted_txn (log ++ [x]) b0 b <->
  aborted_txn log b0 b \/ (is_marker 0 x /\ lb_pid x = lb_pid b0 /\ first_open log b0 /\ open_data log b /\ lb_pid b = lb_pid b0).
Proof.
  split.
  - intros (l1 & m & l2 & E & Hm & Hp & Hf & Ho & Hb). apply snoc_split in E as [(-> & -> & ->)|(l2' & -> & ->)]; [auto 6|].
    left. by exists l1, m, l2'.
  - intros [(l1 & m & l2 & -> & H)|(Hm & Hp & Hf & Ho & Hb)].
    + exists l1, m, (l2 ++ [x]). by rewrite <- app_assoc.
    + by exists log, x, [].
Qed.

Lemma open_data_elem log b : open_data log b -> b ∈ log /\ is_data b.
Proof.
  intros (l1 & l2 & -> & Hd & _). split; [|done]. rewrite elem_of_app, elem_of_cons. auto.
Qed.

Lemma offsets_increase_snoc log x : offsets_increase (log ++ [x]) <->
  offsets_increase log /\ Forall (fun b => lb_base b < lb_base x) log.
Proof.
  induction log as [|b log IH]; cbn.
  - intuition.
  - rewrite IH, Forall_app, !Forall_cons. intuition.
Qed.

(** * The index describes the log *)

Definition entry_of (b : log_batch) : AbortedTxn := mkAborted (lb_pid b) (lb_base b).

Record describes (log : list log_batch) (st : PartitionTxnState) : Prop := {
  ongoing_open p o : ongoing st !! p = Some o ->
    exists b, first_open log b /\ lb_pid b = p /\ lb_base b = o;
  open_ongoing b : open_data log b ->
    exists o, ongoing st !! lb_pid b = Some o /\ o <= lb_base b;
  first_ongoing b : first_open log b -> ongoing st !! lb_pid b = Some (lb_base b);
  aborted_sound a : a ∈ aborted st -> exists b, aborted_txn log b b /\ a = entry_of b;
  aborted_complete b : aborted_txn log b b -> entry_of b ∈ aborted st;
  aborted_once : NoDup (aborted st) }.

Definition state_at (tp : bytes * Z) (ix : TransactionIndex) : PartitionTxnState :=
  default txn_default (ix !! tp).

Lemma state_at_alter tp f ix : f txn_default = txn_default ->
  state_at tp (alter f tp ix) = f (state_at tp ix).
Proof.
  intros Hf. unfold state_at. rewrite lookup_alter_eq. by destruct (ix !! tp).
Qed.

(** What a batch does to the state of its partition. *)
Lemma apply_batch_state tp ix x : let st := state_at tp ix in
  (is_data x -> state_at tp (apply_batch tp ix x)
     = mkTxnState (match ongoing st !! lb_pid x with
                   | Some _ => ongoing st | None => <[lb_pid x := lb_base x]> (ongoing st) end)
         (aborted st))
  /\ (is_marker 1 x -> state_at tp (apply_batch tp ix x)
     = mkTxnState (delete (lb_pid x) (ongoing st)) (aborted st))
  /\ (is_marker 0 x -> state_at tp (apply_batch tp ix x)
     = match ongoing st !! lb_pid x with
       | Some o => mkTxnState (delete (lb_pid x) (ongoing st)) (aborted st ++ [mkAborted (lb_pid x) o])
       | None => st end)
  /\ (~ is_data x -> ~ is_marker 0 x -> ~ is_marker 1 x ->
      state_at tp (apply_batch tp ix x) = st).
Proof.
  unfold apply_batch, apply_log_batch. split_and!.
  - intros (Hp & -> & ->). destruct (Z.ltb_spec (lb_pid x) 0); [lia|].
    unfold on_transactional_produce, state_at. by rewrite lookup_insert_eq.
  - intros (Hp & -> & ->). destruct (Z.ltb_spec (lb_pid x) 0); [lia|]. cbn [Z.eqb Pos.eqb].
    unfold on_commit. by rewrite state_at_alter by (unfold txn_default; cbn; by rewrite delete_empty).
  - intros (Hp & -> & ->). destruct (Z.ltb_spec (lb_pid x) 0); [lia|]. cbn [Z.eqb].
    unfold on_abort. by rewrite state_at_alter by (cbn; by rewrite lookup_empty).
  - unfold is_data, is_marker. intros Hd H0 H1. destruct (Z.ltb_spec (lb_pid x) 0); [done|].
    destruct (lb_control x).
    + destruct (marker_type (lb_key x)) as [t|]; [|done].
      destruct (Z.eqb_spec t 1) as [->|]; [by destruct H1|].
      destruct (Z.eqb_spec t 0) as [->|]; [by destruct H0|]. done.
    + destruct (lb_txn x); [by destruct Hd|done].
Qed.

Lemma data_not_ends x p : is_data x -> ~ ends p x.
Proof. intros (_ & Hc & _) (_ & [(_ & H & _)|(_ & H & _)]); congruence. Qed.

#[global] Instance is_data_dec b : Decision (is_data b).
Proof. unfold is_data. apply _. Defined.
#[global] Instance is_marker_dec t b : Decision (is_marker t b).
Proof. unfold is_marker. apply _. Defined.

(** A batch that is no abort marker leaves the aborted transactions alone. *)
Lemma aborted_txn_kept log x b0 b : ~ is_marker 0 x -> aborted_txn (log ++ [x]) b0 b <-> aborted_txn log b0 b.
Proof. intros Hx. rewrite aborted_txn_snoc. split; [intros [?|(? & _)]; done|auto]. Qed.

(** Offsets tell batches apart. *)
Lemma offset_position log l1 b l2 l1' b' l2' : offsets_increase log -> log = l1 ++ b :: l2 -> log = l1' ++ b' :: l2' ->
  lb_base b = lb_base b' -> l2 = l2'.
Proof.
  revert l1 l1'. induction log as [|y log IH]; intros l1 l1' Hi E E' Hb; [by destruct l1|]. destruct Hi as [Hy Hi].
  destruct l1 as [|z l1], l1' as [|z' l1']; cbn in E, E'; injection E as E1 E2; injection E' as E1' E2'.
  - congruence.
  - exfalso. rewrite E2' in Hy. apply Forall_app in Hy as [_ Hy]. apply Forall_cons in Hy as [Hy _]. rewrite E1 in Hy. lia.
  - exfalso. rewrite E2 in Hy. apply Forall_app in Hy as [_ Hy]. apply Forall_cons in Hy as [Hy _]. rewrite E1' in Hy. lia.
  - by eapply IH.
Qed.
(** An open transaction is not among the aborted ones. *)
Lemma open_not_aborted log b b0 : offsets_increase log -> first_open log b0 -> aborted_txn log b b -> entry_of b0 <> entry_of b.
Proof.
  intros Hi (l1 & l2 & E & _ & Hf & _) (k1 & m & k2 & E' & Hm & Hp & (j1 & j2 & -> & _) & _) [= Hpid Hbase].
  assert (l2 = j2 ++ m :: k2) as -> by (eapply (offset_position log l1 b0 l2 j1 b); [done|done|by rewrite E', <- app_assoc|done]).
  apply Forall_app in Hf as [_ Hf]. apply Forall_cons in Hf as [Hf _]. apply Hf. split; [congruence|by left].
Qed.

Lemma describes_data tp log ix x : is_data x ->
  Forall (fun b => lb_base b < lb_base x) log ->
  describes log (state_at tp ix) -> describes (log ++ [x]) (state_at tp (apply_batch tp ix x)).
Proof.
  intros Hd Hlt [H1 H2 H3 H4 H5 H6]. destruct (apply_batch_state tp ix x) as [Ha _]. rewrite (Ha Hd).
  set (st := state_at tp ix) in *.
  assert (~ is_marker 0 x) as Hnm by (intros (_ & ? & _); destruct Hd as (_ & ? & _); congruence).
  assert (ongoing st !! lb_pid x = None -> forall y, open_data log y -> lb_pid y <> lb_pid x) as Hfresh.
  { intros Hnone y Hy Hp. destruct (H2 y Hy) as (o & Ho & _). rewrite Hp, Hnone in Ho. done. }
  constructor; cbn [ongoing aborted].
  - assert (forall p o, ongoing st !! p = Some o -> exists b, first_open (log ++ [x]) b /\ lb_pid b = p /\ lb_base b = o) as Hold.
    { intros p o Ho. destruct (H1 p o Ho) as (b & Hb & ? & ?). exists b. rewrite first_open_snoc.
      split; [left; split; [done|by apply data_not_ends]|done]. }
    intros p o Ho. destruct (ongoing st !! lb_pid x) as [o'|] eqn:Ex; [by apply Hold|].
    apply lookup_insert_Some in Ho as [[<- <-]|[Hne Ho]]; [|by apply Hold]. exists x. rewrite first_open_snoc. auto 6.
  - intros b [[Hb _]|[-> _]]%open_data_snoc.
    + destruct (H2 b Hb) as (o & Ho & Hle). exists o. split; [|done].
      destruct (ongoing st !! lb_pid x) as [o'|] eqn:Ex; [done|].
      rewrite lookup_insert_ne; [done|]. congruence.
    + destruct (ongoing st !! lb_pid x) as [o'|] eqn:Ex.
      * exists o'. split; [done|]. destruct (H1 _ _ Ex) as (b & [Hb _]%first_open_open%open_data_elem & _ & <-).
        rewrite Forall_forall in Hlt. specialize (Hlt b Hb). lia.
      * exists (lb_base x). by rewrite lookup_insert_eq.
  - intros b [[Hb _]|(-> & _ & Hn)]%first_open_snoc.
    + pose proof (H3 b Hb) as Ho. destruct (ongoing st !! lb_pid x) as [o'|] eqn:Ex; [done|].
      rewrite lookup_insert_ne; [done|]. congruence.
    + destruct (ongoing st !! lb_pid x) as [o'|] eqn:Ex; [|by rewrite lookup_insert_eq].
      destruct (H1 _ _ Ex) as (b & Hb%first_open_open & Hp & _). by destruct (Hn b Hb).
  - intros a Ha'. destruct (H4 a Ha') as (b & Hb & ?). exists b. by rewrite aborted_txn_kept.
  - intros b Hb. apply H5. by rewrite aborted_txn_kept in Hb.
  - done.
Qed.

(** A marker closes its producer's transaction and leaves the others. *)
Lemma open_after_marker log x t b : is_marker t x -> t = 0 \/ t = 1 ->
  open_data (log ++ [x]) b <-> open_data log b /\ lb_pid b <> lb_pid x.
Proof.
  intros Hm Ht. rewrite open_data_snoc. split.
  - intros [[Hb Hn]|[-> Hd]].
    + split; [done|]. intros E. apply Hn. split; [done|]. destruct Ht as [->| ->]; auto.
    + destruct Hd as (_ & ? & _), Hm as (_ & ? & _). congruence.
  - intros [Hb Hne]. left. split; [done|]. intros [E _]. congruence.
Qed.
Lemma first_after_marker log x t b : is_marker t x -> t = 0 \/ t = 1 ->
  first_open (log ++ [x]) b <-> first_open log b /\ lb_pid b <> lb_pid x.
Proof.
  intros Hm Ht. rewrite first_open_snoc. split.
  - intros [[Hb Hn]|(-> & Hd & _)].
    + split; [done|]. intros E. apply Hn. split; [done|]. destruct Ht as [->| ->]; auto.
    + destruct Hd as (_ & ? & _), Hm as (_ & ? & _). congruence.
  - intros [Hb Hne]. left. split; [done|]. intros [E _]. congruence.
Qed.

(** What the open transactions are after a marker. *)
Lemma ongoing_after_marker log x t st : is_marker t x -> t = 0 \/ t = 1 -> describes log st ->
  let m := delete (lb_pid x) (ongoing st) in
  (forall p o, m !! p = Some o -> exists b, first_open (log ++ [x]) b /\ lb_pid b = p /\ lb_base b = o)
  /\ (forall b, open_data (log ++ [x]) b -> exists o, m !! lb_pid b = Some o /\ o <= lb_base b)
  /\ (forall b, first_open (log ++ [x]) b -> m !! lb_pid b = Some (lb_base b)).
Proof.
  intros Hm Ht [H1 H2 H3 _ _ _] m. split_and!.
  - intros p o [Hne Ho]%lookup_delete_Some. destruct (H1 p o Ho) as (b & Hb & Hp & Hbo).
    exists b. rewrite (first_after_marker _ _ t) by done. split; [|done]. split; [done|congruence].
  - intros b [Hb Hne]%(open_after_marker _ _ t); [|done|done].
    unfold m. rewrite lookup_delete_ne by congruence. by apply H2.
  - intros b [Hb Hne]%(first_after_marker _ _ t); [|done|done].
    unfold m. rewrite lookup_delete_ne by congruence. by apply H3.
Qed.

Lemma describes_commit tp log ix x : is_marker 1 x ->
  describes log (state_at tp ix) -> describes (log ++ [x]) (state_at tp (apply_batch tp ix x)).
Proof.
  intros Hm Hd. destruct (ongoing_after_marker log x 1 _ Hm ltac:(auto) Hd) as (G1 & G2 & G3).
  destruct (apply_batch_state tp ix x) as (_ & Ha & _). rewrite (Ha Hm). destruct Hd as [_ _ _ H4 H5 H6].
  assert (~ is_marker 0 x) as Hnm by (intros (_ & _ & ?); destruct Hm as (_ & _ & ?); congruence).
  constructor; cbn [ongoing aborted]; [done|done|done| | |done].
  - intros a Hin. destruct (H4 a Hin) as (b & Hb & ?). exists b. by rewrite aborted_txn_kept.
  - intros b Hb. apply H5. by rewrite aborted_txn_kept in Hb.
Qed.

Lemma describes_abort tp log ix x : is_marker 0 x -> offsets_increase log ->
  describes log (state_at tp ix) -> describes (log ++ [x]) (state_at tp (apply_batch tp ix x)).
Proof.
  intros Hm Hi Hd. destruct (ongoing_after_marker log x 0 _ Hm ltac:(auto) Hd) as (G1 & G2 & G3).
  destruct (apply_batch_state tp ix x) as (_ & _ & Ha & _). rewrite (Ha Hm). destruct Hd as [H1 H2 H3 H4 H5 H6].
  destruct (ongoing (state_at tp ix) !! lb_pid x) as [o|] eqn:Ex.
  - destruct (H1 _ _ Ex) as (b0 & Hb0 & Hp0 & Ho0).
    assert (mkAborted (lb_pid x) o = entry_of b0) as Ee by (unfold entry_of; congruence).
    constructor; cbn [ongoing aborted]; [done|done|done| | |].
    + intros a [Hin|Hin]%elem_of_app.
      * destruct (H4 a Hin) as (b & Hb & ?). exists b. rewrite aborted_txn_snoc. auto.
      * apply list_elem_of_singleton in Hin as ->. exists b0. rewrite aborted_txn_snoc.
        split; [right; split_and!; auto using first_open_open|done].
    + intros b [Hb|(_ & Hp & Hb & _)]%aborted_txn_snoc; rewrite elem_of_app, list_elem_of_singleton; [auto|].
      right. pose proof (H3 b Hb) as Ho. rewrite <- Hp, Ex in Ho. injection Ho as ->. unfold entry_of. congruence.
    + apply NoDup_app. split; [done|]. split; [|apply NoDup_singleton]. intros a Hin ->%list_elem_of_singleton.
      destruct (H4 _ Hin) as (b & Hb & E). rewrite Ee in E. by eapply open_not_aborted.
  - rewrite delete_id in G1, G2, G3 by done. constructor; [done|done|done| | |done].
    + intros a Hin. destruct (H4 a Hin) as (b & Hb & ?). exists b. rewrite aborted_txn_snoc. auto.
    + intros b [Hb|(_ & Hp & Hb & _)]%aborted_txn_snoc; [by apply H5|]. pose proof (H3 b Hb). congruence.
Qed.

Lemma describes_other tp log ix x : ~ is_data x -> ~ is_marker 0 x -> ~ is_marker 1 x ->
  describes log (state_at tp ix) -> describes (log ++ [x]) (state_at tp (apply_batch tp ix x)).
Proof.
  intros Hd H0 H1 [G1 G2 G3 G4 G5 G6]. destruct (apply_batch_state tp ix x) as (_ & _ & _ & Ha).
  rewrite Ha by done. assert (forall p, ~ ends p x) as Hne by (intros p [_ [?|?]]; done).
  assert (forall b, open_data (log ++ [x]) b <-> open_data log b) as Ho.
  { intros b. rewrite open_data_snoc. split; [by intros [[? _]|[_ ?]]|auto]. }
  assert (forall b, first_open (log ++ [x]) b <-> first_open log b) as Hfo.
  { intros b. rewrite first_open_snoc. split; [by intros [[? _]|(_ & ? & _)]|auto]. }
  constructor.
  - intros p o Hp. destruct (G1 p o Hp) as (b & ? & ?). exists b. by rewrite Hfo.
  - intros b Hb%Ho. by apply G2.
  - intros b Hb%Hfo. by apply G3.
  - intros a Hin. destruct (G4 a Hin) as (b & ? & ?). exists b. by rewrite aborted_txn_kept.
  - intros b Hb. apply G5. by rewrite aborted_txn_kept in Hb.
  - done.
Qed.

Lemma index_describes tp log : offsets_increase log ->
  describes log (state_at tp (index_of_log tp log)).
Proof.
  unfold index_of_log. induction log as [|x log IH] using rev_ind; intros Hi.
  { change (state_at tp (foldl (apply_batch tp) index_new [])) with txn_default. constructor.
    - intros p o H. cbn in H. by rewrite lookup_empty in H.
    - intros b ([|] & ? & ? & _); done.
    - intros b ([|] & ? & ? & _); done.
    - intros a H. by apply not_elem_of_nil in H.
    - intros b ([|] & ? & ? & ? & _); done.
    - constructor. }
  apply offsets_increase_snoc in Hi as [Hi Hx]. rewrite foldl_app. cbn [foldl]. specialize (IH Hi).
  destruct (decide (is_data x)); [by apply describes_data|].
  destruct (decide (is_marker 1 x)); [by apply describes_commit|].
  destruct (decide (is_marker 0 x)); [by apply describes_abort|].
  by apply describes_other.
Qed.

Lemma offsets_increase_app_l a b : offsets_increase (a ++ b) -> offsets_increase a.
Proof.
  induction a as [|x a IH]; [done|]. cbn. intros [Hx Ha]. apply Forall_app in Hx as [Hx _]. auto.
Qed.
(** Aborted data is part of an aborted transaction. *)
Lemma aborted_data_txn log b : offsets_increase log -> aborted_data log b ->
  exists b0, aborted_txn log b0 b /\ aborted_txn log b0 b0 /\ lb_base b0 <= lb_base b.
Proof.
  intros Hi (l1 & m & l2 & -> & Ho & Hp & Hm). apply offsets_increase_app_l in Hi as Hi1.
  destruct (index_describes ([], 0) l1 Hi1) as [H1 H2 _ _ _ _]. destruct (H2 b Ho) as (o & Hoo & Hle).
  destruct (H1 _ _ Hoo) as (b0 & Hb0 & Hp0 & Hbo). exists b0. split_and!; [| |lia].
  - exists l1, m, l2. split_and!; auto; congruence.
  - exists l1, m, l2. split_and!; auto using first_open_open; congruence.
Qed.
Lemma min_value_spec (m : gmap Z Z) : match min_value m with
  | None => m = ∅
  | Some a => (exists p, m !! p = Some a) /\ forall p o, m !! p = Some o -> a <= o
  end.
Proof.
  unfold min_value. apply (map_fold_weak_ind (fun (r : option Z) (m : gmap Z Z) => match r with
  | None => m = ∅
  | Some a => (exists p, m !! p = Some a) /\ forall p o, m !! p = Some o -> a <= o
  end)); [done|]. intros k v m' [a|] Hk.
  - intros [[p Hp] Hle]. split.
    + destruct (Z.min_spec a v) as [[_ ->]|[_ ->]].
      * exists p. rewrite lookup_insert_ne; [done|congruence].
      * exists k. by rewrite lookup_insert_eq.
    + intros q o [[<- <-]|[_ Hq]]%lookup_insert_Some; [lia|]. specialize (Hle q o Hq). lia.
  - intros ->. split; [exists k; by rewrite lookup_insert_eq|].
    intros q o [[<- <-]|[_ Hq]]%lookup_insert_Some; [lia|]. by rewrite lookup_empty in Hq.
Qed.

Lemma lso_state tp hw ix :
  last_stable_offset tp hw ix = default hw (min_value (ongoing (state_at tp ix))).
Proof. unfold last_stable_offset, state_at. by destruct (ix !! tp). Qed.

Lemma aborted_below_state tp u ix :
  aborted_below tp u ix = filter (fun a => first_offset a < u) (aborted (state_at tp ix)).
Proof. unfold aborted_below, state_at. by destruct (ix !! tp). Qed.

(** * Properties *)

(** [C14] The last stable offset of a partition is determined by its log: it is the first
    offset of the oldest transaction that is still open, and the high watermark when
    none is.  No record of an open transaction lies below it. *)
Theorem lso_is_first_open_offset (tp : bytes * Z) (log : list log_batch) (hw : Z) :
  offsets_increase log ->
  let lso := last_stable_offset tp hw (index_of_log tp log) in
  (forall b, open_data log b -> lso <= lb_base b)
  /\ ((lso = hw /\ forall b, ~ open_data log b) \/ exists b, open_data log b /\ lso = lb_base b).
Proof.
  intros Hi lso. destruct (index_describes tp log Hi) as [H1 H2 _ _ _ _]. unfold lso. rewrite lso_state.
  set (st := state_at tp (index_of_log tp log)) in *.
  pose proof (min_value_spec (ongoing st)) as Hm. destruct (min_value (ongoing st)) as [a|]; cbn [default].
  - destruct Hm as [[p Hp] Hle]. split.
    + intros b Hb. destruct (H2 b Hb) as (o & Ho & ?). specialize (Hle _ _ Ho). cbn. lia.
    + right. destruct (H1 p a Hp) as (b & Hb%first_open_open & _ & Hbo). exists b. by rewrite Hbo.
  - assert (forall b, ~ open_data log b) as Hno.
    { intros b Hb. destruct (H2 b Hb) as (o & Ho & _). rewrite Hm, lookup_empty in Ho. done. }
    split; [intros b Hb; by destruct (Hno b)|]. left. done.
Qed.

Definition data_at (p o : Z) : log_batch := mkLogBatch p true false None o.
Definition marker_at (p t o : Z) : log_batch := mkLogBatch p true true (Some [0; 0; 0; t]) o.

(** Producer 7 commits, producer 8 aborts, producer 9 is open. *)
Definition sample_txn_log : list log_batch :=
  [data_at 7 0; data_at 8 5; data_at 7 8; marker_at 7 1 12; data_at 9 13; marker_at 8 0 20; data_at 9 21].

Lemma lso_is_first_open_offset_witness :
  let lso := last_stable_offset ([116], 0) 30 (index_of_log ([116], 0) sample_txn_log) in
  (forall b, open_data sample_txn_log b -> lso <= lb_base b)
  /\ ((lso = 30 /\ forall b, ~ open_data sample_txn_log b)
      \/ exists b, open_data sample_txn_log b /\ lso = lb_base b).
Proof. apply (lso_is_first_open_offset ([116], 0) sample_txn_log 30). concrete. Defined.

(** [C16] The aborted list names exactly the aborted transactions: every record of an aborted
    transaction below the bound lies in a transaction whose entry, its producer and the offset of the
    batch that opened it, is in the list; every entry is the opening batch of an aborted transaction
    and lies below the bound; every aborted transaction opened below the bound has its entry; and no
    entry occurs twice. *)
Theorem aborted_list_correct (tp : bytes * Z) (log : list log_batch) (upper : Z) :
  offsets_increase log ->
  let l := aborted_below tp upper (index_of_log tp log) in
  (forall b, aborted_data log b -> lb_base b < upper ->
     exists b0, aborted_txn log b0 b /\ lb_base b0 <= lb_base b /\ mkAborted (lb_pid b0) (lb_base b0) ∈ l)
  /\ (forall a, a ∈ l <-> first_offset a < upper
     /\ exists b0, aborted_txn log b0 b0 /\ a = mkAborted (lb_pid b0) (lb_base b0))
  /\ NoDup l.
Proof.
  intros Hi l. destruct (index_describes tp log Hi) as [_ _ _ H4 H5 H6]. unfold l. rewrite aborted_below_state.
  split_and!.
  - intros b Hb Hu. destruct (aborted_data_txn log b Hi Hb) as (b0 & Ht & Ht0 & Hle). exists b0.
    split; [done|]. split; [done|]. apply list_elem_of_filter. split; [cbn; lia|by apply H5].
  - intros a. rewrite list_elem_of_filter. split.
    + intros [Hu Hin]. split; [done|]. by apply H4.
    + intros (Hu & b0 & Hb0 & ->). split; [done|]. by apply H5.
  - by apply NoDup_filter.
Qed.

Lemma aborted_list_correct_witness :
  let l := aborted_below ([116], 0) 30 (index_of_log ([116], 0) sample_txn_log) in
  (forall b, aborted_data sample_txn_log b -> lb_base b < 30 ->
     exists b0, aborted_txn sample_txn_log b0 b /\ lb_base b0 <= lb_base b /\ mkAborted (lb_pid b0) (lb_base b0) ∈ l)
  /\ (forall a, a ∈ l <-> first_offset a < 30
     /\ exists b0, aborted_txn sample_txn_log b0 b0 /\ a = mkAborted (lb_pid b0) (lb_base b0))
  /\ NoDup l.
Proof. apply (aborted_list_correct ([116], 0) sample_txn_log 30). concrete. Defined.

Example sample_lso : last_stable_offset ([116], 0) 30 (index_of_log ([116], 0) sample_txn_log) = 13
  /\ aborted_below ([116], 0) 30 (index_of_log ([116], 0) sample_txn_log) = [mkAborted 8 5].
Proof. vm_compute. done. Qed.

(** [C20] The control batches the broker writes are the ones the index acts on.  An end-of-transaction
    batch is written, decoded and shown to the index, which takes the flags from the decoded attributes and
    the marker type from the key of its record.  Then its producer has no open transaction, every other
    producer's is as it was, an abort of an open transaction is recorded with the offset the transaction
    began at and nothing else is, and no other partition changes. *)
Theorem written_marker_closes `{!Crc32c, !BlockCodec} (tp : bytes * Z) (ix : TransactionIndex)
    (depth : nat) (bo pid pe : Z) (m : ControlMarker) (ts offset : Z) :
  in_s 64 bo -> in_s 64 pid -> in_s 16 pe -> in_s 64 ts -> 0 <= pid ->
  exists b n,
    decode depth (build_end_txn_marker bo pid pe m ts) = Ok (b, n)
    /\ let ix' := observe_batch tp b offset ix in
       (forall p, ongoing (state_at tp ix') !! p = if decide (p = pid) then None else ongoing (state_at tp ix) !! p)
       /\ aborted (state_at tp ix')
          = aborted (state_at tp ix)
            ++ (match m, ongoing (state_at tp ix) !! pid with MAbort, Some o => [mkAborted pid o] | _, _ => [] end)
       /\ forall tp', tp' <> tp -> ix' !! tp' = ix !! tp'.
Proof.
  intros Hbo Hpid Hpe Hts Hp.
  destruct (end_txn_decoded depth bo pid pe m ts Hbo Hpid Hpe Hts)
    as (b & r & Hd & Hr & _ & _ & Hk & _ & Hid & _ & _ & Hat).
  exists b, (len (build_end_txn_marker bo pid pe m ts)). split; [done|].
  set (ix' := observe_batch tp b offset ix).
  assert (ix' = match m with MCommit => on_commit tp pid ix | MAbort => on_abort tp pid ix end) as ->.
  { unfold ix', observe_batch, apply_log_batch. rewrite Hid, Hat, Hr. cbn [head mbind option_bind]. rewrite Hk.
    destruct (Z.ltb_spec pid 0); [lia|]. by destruct m. }
  assert (forall p (o : gmap Z Z), delete pid o !! p = if decide (p = pid) then None else o !! p) as Hdel.
  { intros p o. destruct (decide (p = pid)) as [->|]; [apply lookup_delete_eq|by apply lookup_delete_ne]. }
  cbv zeta. destruct m.
  - unfold on_abort. rewrite state_at_alter by (cbn; by rewrite lookup_empty).
    split; [|split; [|intros tp' Hne; by apply lookup_alter_ne]].
    + intros p. destruct (ongoing (state_at tp ix) !! pid) as [o|] eqn:Eo; cbn [ongoing]; [apply Hdel|].
      by destruct (decide (p = pid)) as [->|].
    + destruct (ongoing (state_at tp ix) !! pid); [done|]. by rewrite app_nil_r.
  - unfold on_commit. rewrite state_at_alter by (unfold txn_default; cbn; by rewrite delete_empty). cbn [ongoing aborted].
    split; [intros p; apply Hdel|]. split; [by rewrite app_nil_r|]. intros tp' Hne. by apply lookup_alter_ne.
Qed.

Lemma written_marker_closes_witness :
  let ix := index_of_log ([116], 0) [data_at 7 10; data_at 8 20] in
  exists b n,
    @decode stored_codec 1 (@build_end_txn_marker crc32c_bitwise stored_codec 42 7 3 MAbort 1000) = Ok (b, n)
    /\ let ix' := observe_batch ([116], 0) b 42 ix in
       (forall p, ongoing (state_at ([116], 0) ix') !! p = if decide (p = 7) then None else ongoing (state_at ([116], 0) ix) !! p)
       /\ aborted (state_at ([116], 0) ix') = [mkAborted 7 10]
       /\ forall tp', tp' <> ([116], 0) -> ix' !! tp' = ix !! tp'.
Proof.
  refine (@written_marker_closes crc32c_bitwise stored_codec ([116], 0) _ 1 42 7 3 MAbort 1000 42 _ _ _ _ _);
    concrete.
Defined.
