(* ===== verification/IsrAck.v ===== *)
(** Quorum tracking for acks=all produce requests:
    crates/chronik-server/src/isr_ack_tracker.rs.

    A oneshot sender is an identifier; sending on it is an event of the operation's
    output.  The clock is an argument of the operations that read it.  The order in which
    partitions are visited is that of [map_to_list]; the theorems do not depend on it.
    The specification is the sequence of calls received ([op], [run]): which producers
    registered and which replicas reported an offset. *)
From stdpp Require Import base list numbers gmap sorting.
From Stdlib Require Import ZArith Lia.
From S2P Require Import Prelude.
Local Open Scope Z_scope.

(** [struct WaitEntry]. *)
Record WaitEntry : Type := mkWait {
  tx : option Z;
  quorum_size : Z;
  registered_at : Z }.

(** [struct PartitionState]. *)
Record PartitionState : Type := mkPartition {
  node_offsets : gmap Z Z;
  waiters : gmap Z (list WaitEntry) }.

Definition partition_default : PartitionState := mkPartition ∅ ∅.

(** [IsrAckTracker], keyed by topic and partition. *)
Abbreviation IsrAckTracker := (gmap (bytes * Z) PartitionState).

Definition tracker_new : IsrAckTracker := ∅.

(** What a producer is told. *)
Inductive outcome : Type := Replicated | TimedOut.

#[global] Instance outcome_eq_dec : EqDecision outcome.
Proof. solve_decision. Defined.

Abbreviation event := (Z * outcome)%type.

(** How many replicas have reached an offset. *)
Definition reached (offset : Z) (nodes : gmap Z Z) : Z :=
  Z.of_nat (size (filter (fun kv => offset <= kv.2) nodes)).

Definition register_wait (tp : bytes * Z) (offset quorum id now : Z) (t : IsrAckTracker)
    : IsrAckTracker * list event :=
  let st := default partition_default (t !! tp) in
  if quorum <=? reached offset (node_offsets st)
  then (<[tp := st]> t, [(id, Replicated)])
  else
    let entries := default [] (waiters st !! offset) ++ [mkWait (Some id) quorum now] in
    (<[tp := mkPartition (node_offsets st) (<[offset := entries]> (waiters st))]> t, []).

(** The loop over the entries of one offset: those with quorum are notified. *)
Definition release_entries (n : Z) (entries : list WaitEntry) : list Z * list WaitEntry :=
  foldl (fun acc e =>
    if quorum_size e <=? n
    then match tx e with Some id => (acc.1 ++ [id], acc.2) | None => acc end
    else (acc.1, acc.2 ++ [e])) ([], []) entries.

(** One candidate offset of [record_ack]. *)
Definition release_at (nodes : gmap Z Z) (acc : gmap Z (list WaitEntry) * list Z) (offset : Z)
    : gmap Z (list WaitEntry) * list Z :=
  match acc.1 !! offset with
  | None => acc
  | Some entries =>
      let (notify, still_waiting) := release_entries (reached offset nodes) entries in
      (if bool_decide (still_waiting = []) then delete offset acc.1
       else <[offset := still_waiting]> acc.1, acc.2 ++ notify)
  end.

(** The keys of a [BTreeMap] in order, and those up to a bound. *)
Definition ascending (w : gmap Z (list WaitEntry)) : list Z :=
  merge_sort Z.le (elements (dom w)).
Definition range_to (highest : Z) (w : gmap Z (list WaitEntry)) : list Z :=
  filter (fun o => o <= highest) (ascending w).

Definition i64_min : Z := - 2 ^ 63.

Definition max_value (m : gmap Z Z) : option Z :=
  map_fold (fun _ o acc => Some (match acc with Some a => Z.max a o | None => o end)) None m.

Definition record_ack (tp : bytes * Z) (offset node_id : Z) (t : IsrAckTracker)
    : IsrAckTracker * list event :=
  let st := default partition_default (t !! tp) in
  let slot := default i64_min (node_offsets st !! node_id) in
  if slot <? offset then
    let nodes := <[node_id := offset]> (node_offsets st) in
    let highest := default i64_min (max_value nodes) in
    let candidates := range_to highest (waiters st) in
    let (w, to_notify) := foldl (release_at nodes) (waiters st, []) candidates in
    (<[tp := mkPartition nodes w]> t, (fun id => (id, Replicated)) <$> to_notify)
  else
    (<[tp := mkPartition (<[node_id := slot]> (node_offsets st)) (waiters st)]> t, []).

(** The entries of one offset that outlived the timeout, and the others. *)
Definition expire_entries (now timeout : Z) (entries : list WaitEntry)
    : list Z * list WaitEntry :=
  foldl (fun acc e =>
    if timeout <? Z.max 0 (now - registered_at e)
    then match tx e with Some id => (acc.1 ++ [id], acc.2) | None => acc end
    else (acc.1, acc.2 ++ [e])) ([], []) entries.

Definition expire_partition (now timeout : Z) (st : PartitionState) : PartitionState * list Z :=
  (mkPartition (node_offsets st)
     (omap (fun entries =>
              let still_waiting := (expire_entries now timeout entries).2 in
              if bool_decide (still_waiting = []) then None else Some still_waiting)
        (waiters st)),
   concat ((fun o => (expire_entries now timeout (default [] (waiters st !! o))).1)
             <$> ascending (waiters st))).

Definition cleanup_expired (now timeout : Z) (t : IsrAckTracker) : IsrAckTracker * list event :=
  ((fun st => (expire_partition now timeout st).1) <$> t,
   (fun id => (id, TimedOut))
     <$> concat ((fun kv => (expire_partition now timeout kv.2).2) <$> map_to_list t)).

Definition pending_count (t : IsrAckTracker) : Z :=
  Z.of_nat (length (concat ((fun kv => concat (map_to_list (waiters kv.2)).*2) <$> map_to_list t))).

Definition replica_offset (tp : bytes * Z) (node_id : Z) (t : IsrAckTracker) : option Z :=
  st ← t !! tp;
  o ← node_offsets st !! node_id;
  if o =? i64_min then None else Some o.

(** [IsrAckStats]; instants are in nanoseconds. *)
Record IsrAckStats : Type := mkStats {
  pending_requests : Z;
  tracked_replicas : Z;
  waiting_for_quorum : Z;
  oldest_request_age_ms : Z }.

Definition age_ms (now : Z) (e : WaitEntry) : Z :=
  wrap_u 64 (Z.max 0 (now - registered_at e) / 1000000).

Definition stats (now : Z) (t : IsrAckTracker) : IsrAckStats :=
  let s := map_fold (fun _ st acc =>
    map_fold (fun _ entries acc =>
      (acc.1.1 + Z.of_nat (length entries), acc.1.2,
       foldl (fun oldest e => if oldest <? age_ms now e then age_ms now e else oldest)
         acc.2 entries))
      (acc.1.1, acc.1.2 + Z.of_nat (size (node_offsets st)), acc.2) (waiters st))
    (0, 0, 0) t in
  mkStats s.1.1 s.1.2 s.1.1 s.2.

(** * Senders held in a map *)

Section Held.
Context `{Countable K} {V B : Type} (f : V -> list B).

Definition held (m : gmap K V) : list B := concat ((fun kv => f kv.2) <$> map_to_list m).

Lemma held_empty : held ∅ = [].
Proof. unfold held. by rewrite map_to_list_empty. Qed.

Lemma held_lookup m i x : m !! i = Some x -> held m ≡ₚ f x ++ held (delete i m).
Proof. intros Hi. unfold held. by rewrite <- (map_to_list_delete m i x Hi). Qed.

Lemma held_insert m i y : held (<[i := y]> m) ≡ₚ f y ++ held (delete i m).
Proof.
  rewrite (held_lookup (<[i := y]> m) i y) by apply lookup_insert_eq.
  by rewrite delete_insert_eq.
Qed.

Lemma held_default m i x0 : f x0 = [] -> held m ≡ₚ f (default x0 (m !! i)) ++ held (delete i m).
Proof.
  intros H0. destruct (m !! i) as [x|] eqn:E; [by apply held_lookup|].
  cbn. by rewrite H0, delete_id.
Qed.

Lemma held_keys (m : gmap K V) (ks : list K) : ks ≡ₚ elements (dom m) ->
  concat ((fun k => match m !! k with Some x => f x | None => [] end) <$> ks) ≡ₚ held m.
Proof.
  intros ->. induction m as [|i x m Hi IH] using map_ind.
  { rewrite dom_empty_L, elements_empty. by rewrite held_empty. }
  rewrite held_insert, delete_id by done. rewrite <- IH.
  rewrite dom_insert_L, elements_union_singleton by (by apply not_elem_of_dom).
  cbn [fmap list_fmap concat]. rewrite lookup_insert_eq. apply Permutation_app_head.
  erewrite list_fmap_ext; [reflexivity|]. intros j k Hk.
  rewrite lookup_insert_ne; [done|]. intros ->. apply list_elem_of_lookup_2, elem_of_elements in Hk.
  by apply elem_of_dom in Hk as [? ?]; congruence.
Qed.
End Held.

Definition senders (es : list WaitEntry) : list Z := omap tx es.
Definition partition_senders (st : PartitionState) : list Z := held senders (waiters st).
Definition pending (t : IsrAckTracker) : list Z := held partition_senders t.

(** * One offset's entries *)

Lemma release_entries_eq n es :
  release_entries n es = (senders (filter (fun e => quorum_size e <= n) es),
                          filter (fun e => n < quorum_size e) es).
Proof.
  unfold release_entries, senders. induction es as [|e es IH] using rev_ind; [done|].
  rewrite foldl_app, IH. cbn [foldl fst snd]. rewrite !filter_app.
  destruct (Z.leb_spec (quorum_size e) n).
  - rewrite filter_cons_True, filter_cons_False by lia.
    cbn [filter list_filter]. rewrite omap_app, app_nil_r. cbn. destruct (tx e); [done|].
    by rewrite app_nil_r.
  - rewrite filter_cons_False, filter_cons_True by lia. cbn [filter list_filter].
    by rewrite app_nil_r.
Qed.

Lemma expire_entries_eq now timeout es :
  let old := fun e => timeout < Z.max 0 (now - registered_at e) in
  expire_entries now timeout es
  = (senders (filter old es), filter (fun e => ~ old e) es).
Proof.
  intros old. unfold expire_entries, senders. induction es as [|e es IH] using rev_ind; [done|].
  rewrite foldl_app, IH. cbn [foldl fst snd]. rewrite !filter_app. unfold old in *.
  destruct (Z.ltb_spec timeout (Z.max 0 (now - registered_at e))).
  - rewrite filter_cons_True, filter_cons_False by lia.
    cbn [filter list_filter]. rewrite omap_app, app_nil_r. cbn. destruct (tx e); [done|].
    by rewrite app_nil_r.
  - rewrite filter_cons_False, filter_cons_True by lia. cbn [filter list_filter].
    by rewrite app_nil_r.
Qed.

(** Splitting the entries splits the senders. *)
Lemma senders_split (P Q : WaitEntry -> Prop) `{!forall e, Decision (P e), !forall e, Decision (Q e)} es :
  (forall e, Q e <-> ~ P e) ->
  senders (filter P es) ++ senders (filter Q es) ≡ₚ senders es.
Proof.
  intros HPQ. unfold senders. induction es as [|e es IH]; [done|].
  destruct (decide (P e)) as [HP|HP].
  - rewrite filter_cons_True by done. rewrite filter_cons_False by (rewrite HPQ; tauto).
    cbn. destruct (tx e); [cbn; by rewrite IH|done].
  - rewrite filter_cons_False by done. rewrite filter_cons_True by (by rewrite HPQ).
    cbn. destruct (tx e); [|done]. by rewrite <- Permutation_middle, IH.
Qed.

(** * Recording an acknowledgement *)

Lemma release_at_held nodes acc o :
  held senders (release_at nodes acc o).1 ++ (release_at nodes acc o).2 ≡ₚ held senders acc.1 ++ acc.2.
Proof.
  unfold release_at. destruct (acc.1 !! o) as [es|] eqn:E; [|done].
  rewrite release_entries_eq. cbn [fst snd]. rewrite (held_lookup senders acc.1 o es E).
  rewrite <- (senders_split (fun e => quorum_size e <= reached o nodes)
                (fun e => reached o nodes < quorum_size e) es) by (intros; lia).
  case_bool_decide as Hs.
  - rewrite Hs. cbn. rewrite app_nil_r. solve_Permutation.
  - rewrite held_insert. solve_Permutation.
Qed.

Lemma release_fold_held nodes cs : forall acc,
  held senders (foldl (release_at nodes) acc cs).1 ++ (foldl (release_at nodes) acc cs).2
  ≡ₚ held senders acc.1 ++ acc.2.
Proof.
  induction cs as [|o cs IH]; intros acc; [done|]. cbn [foldl]. by rewrite IH, release_at_held.
Qed.

(** What an offset's waiters become. *)
Definition released (nodes : gmap Z Z) (o : Z) (es : option (list WaitEntry))
    : option (list WaitEntry) :=
  es ≫= fun es => let s := filter (fun e => reached o nodes < quorum_size e) es in
                  if bool_decide (s = []) then None else Some s.

Lemma release_at_lookup nodes acc o o' :
  (release_at nodes acc o).1 !! o' = if bool_decide (o' = o) then released nodes o (acc.1 !! o)
                                     else acc.1 !! o'.
Proof.
  unfold release_at, released. destruct (acc.1 !! o) as [es|] eqn:E; cbn [mbind option_bind].
  - rewrite release_entries_eq. cbn [fst]. destruct (decide (o' = o)) as [->|Ho].
    + rewrite (bool_decide_eq_true_2 (o = o)) by done. cbn zeta.
      case_bool_decide; [by rewrite lookup_delete_eq|by rewrite lookup_insert_eq].
    + rewrite (bool_decide_eq_false_2 (o' = o)) by done.
      case_bool_decide; [by rewrite lookup_delete_ne|by rewrite lookup_insert_ne].
  - case_bool_decide; [by subst|done].
Qed.

Lemma release_fold_lookup nodes cs : forall acc o, NoDup cs ->
  (foldl (release_at nodes) acc cs).1 !! o
  = if bool_decide (o ∈ cs) then released nodes o (acc.1 !! o) else acc.1 !! o.
Proof.
  induction cs as [|c cs IH]; intros acc o Hn; cbn [foldl].
  { by rewrite bool_decide_eq_false_2 by apply not_elem_of_nil. }
  apply NoDup_cons in Hn as [Hc Hn]. rewrite IH, release_at_lookup by done.
  destruct (decide (o = c)) as [->|Hne].
  - rewrite (bool_decide_eq_false_2 (c ∈ cs)) by done. rewrite bool_decide_eq_true_2 by done.
    by rewrite bool_decide_eq_true_2 by (by left).
  - rewrite (bool_decide_eq_false_2 (o = c)) by done.
    case_bool_decide as H1; case_bool_decide as H2; try done; rewrite elem_of_cons in H2; tauto.
Qed.

(** Who is notified. *)
Lemma release_fold_notified nodes cs : forall acc id, NoDup cs ->
  id ∈ (foldl (release_at nodes) acc cs).2 ->
  id ∈ acc.2 \/ exists o es e, o ∈ cs /\ acc.1 !! o = Some es /\ e ∈ es /\ tx e = Some id
                              /\ quorum_size e <= reached o nodes.
Proof.
  induction cs as [|c cs IH]; intros acc id Hn; cbn [foldl]; [by left|].
  apply NoDup_cons in Hn as [Hc Hn]. intros [Hin|(o & es & e & Ho & Hl & He)]%IH; [| |done].
  - unfold release_at in Hin. destruct (acc.1 !! c) as [es|] eqn:E; [|by left].
    rewrite release_entries_eq in Hin. cbn [snd] in Hin. apply elem_of_app in Hin as [Hin|Hin]; [by left|].
    right. apply list_elem_of_omap in Hin as (e & He & Htx).
    apply list_elem_of_filter in He as [Hq He]. exists c, es, e. rewrite elem_of_cons. auto.
  - right. rewrite release_at_lookup in Hl. case_bool_decide as Hoc; [by subst|].
    exists o, es, e. rewrite elem_of_cons. tauto.
Qed.

(** * The furthest replica and the candidate offsets *)

Lemma max_value_ge m k o : m !! k = Some o -> exists a, max_value m = Some a /\ o <= a.
Proof.
  revert k o. unfold max_value. apply (map_fold_weak_ind
    (fun r m => forall k o, m !! k = Some o -> exists a, r = Some a /\ o <= a)).
  { intros k o. by rewrite lookup_empty. }
  intros i x m' r Hi IH k o. rewrite lookup_insert_Some.
  intros [[<- <-]|[_ Hk]].
  - destruct r; eexists; (split; [done|lia]).
  - destruct (IH k o Hk) as (a & -> & Ha). eexists. split; [done|lia].
Qed.

Lemma ascending_elements w : ascending w ≡ₚ elements (dom w).
Proof. apply merge_sort_Permutation. Qed.

Lemma range_to_spec h w o : o ∈ range_to h w <-> o <= h /\ is_Some (w !! o).
Proof.
  unfold range_to. rewrite list_elem_of_filter, ascending_elements, elem_of_elements.
  by rewrite elem_of_dom.
Qed.

Lemma range_to_NoDup h w : NoDup (range_to h w).
Proof. apply NoDup_filter. rewrite ascending_elements. apply NoDup_elements. Qed.

(** An offset past every replica is reached by none of them. *)
Lemma reached_beyond nodes o : default i64_min (max_value nodes) < o -> reached o nodes = 0.
Proof.
  intros Ho. unfold reached. enough (filter (fun kv => o <= kv.2) nodes = ∅) as ->
    by (by rewrite map_size_empty).
  apply map_empty. intros k. apply eq_None_not_Some. intros [a [Hk Ha]%map_lookup_filter_Some].
  cbn in Ha. destruct (max_value_ge nodes k a Hk) as (m & Hm & Hle).
  rewrite Hm in Ho. cbn in Ho. lia.
Qed.

Lemma reached_nonneg o nodes : 0 <= reached o nodes.
Proof. unfold reached. lia. Qed.

(** * Histories *)

(** The calls a tracker receives. *)
Inductive op : Type :=
| Register (tp : bytes * Z) (offset quorum id now : Z)
| Ack (tp : bytes * Z) (offset node_id : Z)
| Cleanup (now timeout : Z).

#[global] Instance op_eq_dec : EqDecision op.
Proof. solve_decision. Defined.

Definition call (o : op) (t : IsrAckTracker) : IsrAckTracker * list event :=
  match o with
  | Register tp offset quorum id now => register_wait tp offset quorum id now t
  | Ack tp offset node_id => record_ack tp offset node_id t
  | Cleanup now timeout => cleanup_expired now timeout t
  end.

Definition run (ops : list op) : IsrAckTracker * list event :=
  foldl (fun s o => let (t, ev) := call o s.1 in (t, s.2 ++ ev)) (tracker_new, []) ops.

(** The producers that asked to wait, and the replicas whose reports cover an offset. *)
Definition registered (ops : list op) : list Z :=
  omap (fun o => match o with Register _ _ _ id _ => Some id | _ => None end) ops.
Definition replicas_at (tp : bytes * Z) (offset : Z) (ops : list op) : gset Z :=
  list_to_set (omap (fun o => match o with
    | Ack tp' a n => if bool_decide (tp' = tp /\ offset <= a) then Some n else None
    | _ => None end) ops).

(** Offsets are log end offsets, which are not [i64::MIN]. *)
Definition valid_op (o : op) : Prop :=
  match o with Register _ offset _ _ _ => i64_min < offset | _ => True end.

Definition part_of (t : IsrAckTracker) (tp : bytes * Z) : PartitionState :=
  default partition_default (t !! tp).

Lemma part_of_insert t tp st tp' :
  part_of (<[tp := st]> t) tp' = if bool_decide (tp' = tp) then st else part_of t tp'.
Proof.
  unfold part_of. case_bool_decide; [subst; by rewrite lookup_insert_eq|].
  by rewrite lookup_insert_ne.
Qed.

Lemma run_snoc ops o :
  run (ops ++ [o]) = ((call o (run ops).1).1, (run ops).2 ++ (call o (run ops).1).2).
Proof. unfold run. rewrite foldl_app. cbn [foldl]. by destruct (call o _). Qed.

(** * Every sender is held or used, exactly once *)

Lemma pending_part t tp :
  pending t ≡ₚ partition_senders (part_of t tp) ++ held partition_senders (delete tp t).
Proof. apply held_default. unfold partition_senders. apply held_empty. Qed.

Lemma pending_insert t tp st :
  pending (<[tp := st]> t) ≡ₚ partition_senders st ++ held partition_senders (delete tp t).
Proof. apply held_insert. Qed.

Lemma register_held tp o q id now t :
  pending (register_wait tp o q id now t).1 ++ (register_wait tp o q id now t).2.*1
  ≡ₚ pending t ++ [id].
Proof.
  unfold register_wait. fold (part_of t tp). rewrite (pending_part t tp).
  destruct (q <=? _); cbn [fst snd fmap list_fmap]; rewrite pending_insert; [done|].
  unfold partition_senders at 1 3. cbn [waiters]. rewrite held_insert.
  rewrite (held_default senders (waiters (part_of t tp)) o []) by done.
  unfold senders at 1. rewrite omap_app. cbn. rewrite app_nil_r. fold (senders (default [] (waiters (part_of t tp) !! o))).
  solve_Permutation.
Qed.

Lemma fst_tagged (r : outcome) (ids : list Z) : ((fun id => (id, r)) <$> ids).*1 = ids.
Proof. induction ids; cbn; congruence. Qed.

Lemma record_ack_held tp o n t :
  pending (record_ack tp o n t).1 ++ (record_ack tp o n t).2.*1 ≡ₚ pending t.
Proof.
  unfold record_ack. fold (part_of t tp). rewrite (pending_part t tp).
  destruct (_ <? o).
  - set (nodes := <[n := o]> _).
    pose proof (release_fold_held nodes (range_to (default i64_min (max_value nodes))
                  (waiters (part_of t tp))) (waiters (part_of t tp), [])) as Hf.
    destruct (foldl _ _ _) as [w ids]. cbn [fst snd] in *. rewrite fst_tagged, pending_insert.
    unfold partition_senders at 1 3. cbn [waiters]. rewrite app_nil_r in Hf. rewrite <- Hf.
    solve_Permutation.
  - cbn [fst snd]. rewrite pending_insert. by rewrite app_nil_r.
Qed.

Lemma held_omap `{Countable K} {V} (f h : V -> list Z) (g : V -> option V) (m : gmap K V) :
  (forall x, from_option f [] (g x) ++ h x ≡ₚ f x) ->
  held f (omap g m) ++ held h m ≡ₚ held f m.
Proof.
  intros Hx. induction m as [|i x m Hi IH] using map_ind.
  { by rewrite omap_empty, !held_empty. }
  rewrite !held_insert, !(delete_id m) by done. rewrite <- IH, <- (Hx x).
  destruct (g x) as [y|] eqn:Eg.
  - rewrite (omap_insert_Some g m i x y) by done. rewrite held_insert.
    rewrite delete_id by (by rewrite lookup_omap, Hi). cbn. solve_Permutation.
  - rewrite (omap_insert_None g m i x) by done.
    rewrite delete_id by (by rewrite lookup_omap, Hi). cbn. solve_Permutation.
Qed.

Lemma expire_partition_held now timeout st :
  partition_senders (expire_partition now timeout st).1 ++ (expire_partition now timeout st).2
  ≡ₚ partition_senders st.
Proof.
  unfold partition_senders, expire_partition. cbn [waiters fst snd].
  set (h := fun es => (expire_entries now timeout es).1).
  assert (concat ((fun o => (expire_entries now timeout (default [] (waiters st !! o))).1)
            <$> ascending (waiters st)) ≡ₚ held h (waiters st)) as ->.
  { rewrite <- (held_keys h (waiters st) _ (ascending_elements _)).
    erewrite list_fmap_ext; [reflexivity|]. intros j o _. cbn. by destruct (waiters st !! o). }
  apply held_omap. intros es. unfold h. rewrite expire_entries_eq. cbn [fst snd].
  rewrite <- (senders_split (fun e => timeout < Z.max 0 (now - registered_at e))
                (fun e => ~ timeout < Z.max 0 (now - registered_at e)) es)
    by (intros; reflexivity).
  case_bool_decide as Hs; [rewrite Hs|]; cbn; [by rewrite app_nil_r|apply Permutation_app_comm].
Qed.

Lemma cleanup_held now timeout t :
  pending (cleanup_expired now timeout t).1 ++ (cleanup_expired now timeout t).2.*1 ≡ₚ pending t.
Proof.
  unfold cleanup_expired. cbn [fst snd]. rewrite fst_tagged, map_fmap_alt.
  apply (held_omap partition_senders (fun st => (expire_partition now timeout st).2)).
  intros st. apply expire_partition_held.
Qed.

(** * What the tracker knows of the replicas and of the waits *)

Definition wait_in (t : IsrAckTracker) (tp : bytes * Z) (o : Z) (e : WaitEntry) : Prop :=
  exists es, waiters (part_of t tp) !! o = Some es /\ e ∈ es.

(** A position is what the replica's reports say, and a held wait is a registered one that
    still lacks its quorum. *)
Record tracks (ops : list op) (t : IsrAckTracker) : Prop := {
  tracks_nodes : forall tp n o, i64_min < o ->
    (exists a, node_offsets (part_of t tp) !! n = Some a /\ o <= a) <->
    (exists a, Ack tp a n ∈ ops /\ o <= a);
  tracks_waits : forall tp o e, wait_in t tp o e ->
    i64_min < o /\ reached o (node_offsets (part_of t tp)) < quorum_size e /\
    exists id, tx e = Some id /\ Register tp o (quorum_size e) id (registered_at e) ∈ ops }.

Lemma replicas_at_spec tp o ops n :
  n ∈ replicas_at tp o ops <-> exists a, Ack tp a n ∈ ops /\ o <= a.
Proof.
  unfold replicas_at. rewrite elem_of_list_to_set, list_elem_of_omap. split.
  - intros (x & Hx & Hn). destruct x as [| tp' a n' |]; try done.
    case_bool_decide as Hb; [|done]. destruct Hb as [-> Ha]. injection Hn as ->. eauto.
  - intros (a & Hin & Ha). exists (Ack tp a n). split; [done|]. cbn.
    by rewrite bool_decide_eq_true_2.
Qed.

(** The count that the quorum test uses is the number of replicas that reported the offset. *)
Lemma reached_replicas ops t tp o : tracks ops t -> i64_min < o ->
  reached o (node_offsets (part_of t tp)) = Z.of_nat (size (replicas_at tp o ops)).
Proof.
  intros [Hn _] Ho. unfold reached. rewrite <- (size_dom (D := gset Z)). do 2 f_equal.
  apply set_eq. intros n. rewrite replicas_at_spec, <- (Hn tp n o Ho), elem_of_dom.
  split; [intros [a Ha%map_lookup_filter_Some]|intros [a Ha]; exists a;
    apply map_lookup_filter_Some]; [by exists a|done].
Qed.

Lemma tracks_new : tracks [] tracker_new.
Proof.
  split.
  - intros tp n o _. unfold part_of, tracker_new. rewrite lookup_empty. cbn. rewrite lookup_empty.
    split; [by intros (? & ? & _)|by intros (? & ?%elem_of_nil & _)].
  - intros tp o e (es & Hes & _). unfold part_of, tracker_new in Hes.
    rewrite lookup_empty in Hes. cbn in Hes. by rewrite lookup_empty in Hes.
Qed.

(** Calls other than a report leave the reports alone. *)
Lemma ack_snoc tp a n ops o : (forall tp' a' n', o <> Ack tp' a' n') ->
  Ack tp a n ∈ ops ++ [o] <-> Ack tp a n ∈ ops.
Proof. intros Ho. rewrite elem_of_app, list_elem_of_singleton.
  split; [intros [|Heq]; [done|by destruct (Ho _ _ _ (eq_sym Heq))]|by left].
Qed.

(** A call that keeps the positions and holds old or freshly registered waits. *)
Lemma tracks_same_nodes ops o t t' :
  tracks ops t -> (forall tp' a' n', o <> Ack tp' a' n') ->
  (forall tp, node_offsets (part_of t' tp) = node_offsets (part_of t tp)) ->
  (forall tp p e, wait_in t' tp p e -> wait_in t tp p e \/
    i64_min < p /\ reached p (node_offsets (part_of t tp)) < quorum_size e /\
    exists id, tx e = Some id /\ o = Register tp p (quorum_size e) id (registered_at e)) ->
  tracks (ops ++ [o]) t'.
Proof.
  intros [Hn Hw] Ho Hsame Hwait. split.
  - intros tp n p Hp. rewrite Hsame, (Hn tp n p Hp). by setoid_rewrite ack_snoc.
  - intros tp p e He. rewrite Hsame. setoid_rewrite elem_of_app.
    destruct (Hwait tp p e He) as [Hold|(Hp & Hr & id & Htx & ->)].
    + destruct (Hw tp p e Hold) as (Hp & Hr & id & Htx & Hin). eauto 8.
    + split_and!; [done|done|]. exists id. split; [done|]. right. by left.
Qed.

Lemma tracks_register ops tp o q id now t : i64_min < o -> tracks ops t ->
  tracks (ops ++ [Register tp o q id now]) (register_wait tp o q id now t).1.
Proof.
  intros Ho Ht. unfold register_wait. fold (part_of t tp).
  destruct (Z.leb_spec q (reached o (node_offsets (part_of t tp)))) as [Hq|Hq]; cbn [fst];
    (apply (tracks_same_nodes ops _ t); [done|done| |]); unfold wait_in.
  1,3: intros tp'; rewrite part_of_insert; case_bool_decide; by subst.
  - intros tp' p e. rewrite part_of_insert. case_bool_decide; [subst|]; by left.
  - intros tp' p e. rewrite part_of_insert. case_bool_decide as Htp; [subst|by left].
    cbn [waiters]. intros (es & Hes & He). apply lookup_insert_Some in Hes as [[<- <-]|[Hne Hes]];
      [|left; eauto].
    apply elem_of_app in He as [He|He%list_elem_of_singleton].
    + left. destruct (waiters (part_of t tp) !! o) as [old|]; [eauto|by apply elem_of_nil in He].
    + right. subst e. cbn. eauto.
Qed.

Lemma tracks_cleanup ops now timeout t : tracks ops t ->
  tracks (ops ++ [Cleanup now timeout]) (cleanup_expired now timeout t).1.
Proof.
  intros Ht. unfold cleanup_expired. cbn [fst]. apply (tracks_same_nodes ops _ t); [done|done| |].
  - intros tp. unfold part_of. rewrite lookup_fmap. by destruct (t !! tp).
  - intros tp p e (es & Hes & He). left. unfold wait_in, part_of in *. rewrite lookup_fmap in Hes.
    destruct (t !! tp) as [st|]; cbn in Hes |- *; [|done].
    rewrite lookup_omap in Hes. destruct (waiters st !! p) as [old|]; [|done].
    cbn in Hes. rewrite expire_entries_eq in Hes. case_bool_decide; [done|].
    injection Hes as <-. cbn [snd] in He. apply list_elem_of_filter in He as [_ He]. eauto.
Qed.

(** * A report *)

(** The positions after a report. *)
Lemma record_ack_nodes tp o n t tp' :
  node_offsets (part_of (record_ack tp o n t).1 tp')
  = if bool_decide (tp' = tp)
    then <[n := Z.max (default i64_min (node_offsets (part_of t tp) !! n)) o]>
           (node_offsets (part_of t tp))
    else node_offsets (part_of t tp').
Proof.
  unfold record_ack. fold (part_of t tp).
  destruct (Z.ltb_spec (default i64_min (node_offsets (part_of t tp) !! n)) o);
    [destruct (foldl _ _ _)|]; cbn [fst]; rewrite part_of_insert; case_bool_decide; try done;
    cbn [node_offsets]; f_equal; lia.
Qed.

Lemma reached_slot nodes n o : i64_min < o ->
  reached o (<[n := default i64_min (nodes !! n)]> nodes) = reached o nodes.
Proof.
  intros Ho. unfold reached. destruct (nodes !! n) as [a|] eqn:E; cbn [default from_option].
  { by rewrite insert_id. }
  rewrite map_filter_insert_False by (cbn; lia). by rewrite delete_id.
Qed.

(** Every wait left after a report was there before it, and lacks its quorum. *)
Lemma record_ack_waits tp o n t tp' p e :
  (forall tp p e, wait_in t tp p e ->
     i64_min < p /\ reached p (node_offsets (part_of t tp)) < quorum_size e) ->
  wait_in (record_ack tp o n t).1 tp' p e ->
  wait_in t tp' p e /\
  reached p (node_offsets (part_of (record_ack tp o n t).1 tp')) < quorum_size e.
Proof.
  intros Hold. unfold wait_in, record_ack. fold (part_of t tp).
  set (slot := default i64_min _). destruct (slot <? o).
  - set (nodes := <[n := o]> _). set (cs := range_to _ _).
    pose proof (fun q => release_fold_lookup nodes cs (waiters (part_of t tp), []) q
                  (range_to_NoDup _ _)) as Hl.
    destruct (foldl _ _ _) as [w ids]. cbn [fst] in Hl |- *. rewrite part_of_insert.
    case_bool_decide as Htp; [subst tp'|intros He; split; [done|by apply Hold]].
    cbn [waiters node_offsets]. intros (es & Hes & He). rewrite Hl in Hes.
    case_bool_decide as Hc.
    + unfold released in Hes. destruct (waiters (part_of t tp) !! p) as [old|]; [|done].
      cbn in Hes. case_bool_decide; [done|]. injection Hes as <-.
      apply list_elem_of_filter in He as [Hq He]. eauto.
    + split; [eauto|]. destruct (Hold tp p e) as [Hp Hr]; [by exists es|].
      rewrite reached_beyond; [pose proof (reached_nonneg p (node_offsets (part_of t tp))); lia|].
      apply Z.nle_gt. intros Hle. apply Hc, range_to_spec. eauto.
  - cbn [fst]. rewrite part_of_insert. case_bool_decide as Htp; [subst tp'|].
    + cbn [waiters node_offsets]. intros He. split; [done|]. destruct (Hold tp p e He).
      unfold slot. by rewrite reached_slot.
    + intros He. split; [done|by apply Hold].
Qed.

(** Reports and positions change together. *)
Lemma reports_snoc tp o n ops tp' n' p :
  (exists a, Ack tp' a n' ∈ ops ++ [Ack tp o n] /\ p <= a) <->
  (exists a, Ack tp' a n' ∈ ops /\ p <= a) \/ (tp' = tp /\ n' = n /\ p <= o).
Proof.
  split.
  - intros (a & [Hin|Heq%list_elem_of_singleton]%elem_of_app & Hp); [left; eauto|].
    right. by injection Heq as -> -> ->.
  - intros [(a & Hin & Hp)|(-> & -> & Hp)]; eexists; (split; [apply elem_of_app|exact Hp]);
      [by left|right; by left].
Qed.

Lemma positions_snoc tp o n t tp' n' p : i64_min < p ->
  (exists a, node_offsets (part_of (record_ack tp o n t).1 tp') !! n' = Some a /\ p <= a) <->
  (exists a, node_offsets (part_of t tp') !! n' = Some a /\ p <= a)
    \/ (tp' = tp /\ n' = n /\ p <= o).
Proof.
  intros Hp. rewrite record_ack_nodes. case_bool_decide as Htp; [subst tp'|].
  2: { split; [by left|]. by intros [|[? _]]. }
  destruct (decide (n' = n)) as [->|Hne].
  2: { rewrite lookup_insert_ne by done. split; [by left|]. by intros [|(_ & ? & _)]. }
  rewrite lookup_insert_eq. destruct (node_offsets (part_of t tp) !! n) as [b|]; cbn; split.
  - intros (a & [= <-] & Ha). destruct (decide (p <= b)); [left; eauto|right]. split_and!; lia || done.
  - intros [(a & [= <-] & Ha)|(_ & _ & Ha)]; eexists; (split; [done|lia]).
  - intros (a & [= <-] & Ha). right. split_and!; lia || done.
  - intros [(a & ? & _)|(_ & _ & Ha)]; [done|]. eexists. split; [done|lia].
Qed.

Lemma tracks_ack ops tp o n t : tracks ops t ->
  tracks (ops ++ [Ack tp o n]) (record_ack tp o n t).1.
Proof.
  intros [Hn Hw]. split.
  - intros tp' n' p Hp. rewrite reports_snoc, positions_snoc by done. by rewrite Hn.
  - intros tp' p e He. apply record_ack_waits in He as [He Hr].
    + destruct (Hw tp' p e He) as (Hp & _ & id & Htx & Hin). split_and!; [done|done|].
      exists id. split; [done|]. apply elem_of_app. by left.
    + intros q r e' He'. destruct (Hw q r e' He') as (? & ? & _). done.
Qed.

Lemma run_tracks ops : Forall valid_op ops -> tracks ops (run ops).1.
Proof.
  induction ops as [|o ops IH] using rev_ind; [intros _; apply tracks_new|].
  intros [Hops Ho]%Forall_app. rewrite Forall_singleton in Ho. rewrite run_snoc. cbn [fst].
  specialize (IH Hops). destruct o; cbn [call].
  - apply tracks_register; [exact Ho|done].
  - by apply tracks_ack.
  - by apply tracks_cleanup.
Qed.

(** * Who is told what *)

Lemma elem_of_concat {A} (x : A) (ls : list (list A)) : x ∈ concat ls -> exists l, x ∈ l /\ l ∈ ls.
Proof.
  rewrite list_elem_of_In, in_concat. intros (l & Hl & Hx). exists l.
  by rewrite !list_elem_of_In.
Qed.

Lemma tagged_elem (r r' : outcome) (ids : list Z) (id : Z) :
  (id, r) ∈ (fun i => (i, r')) <$> ids -> r = r' /\ id ∈ ids.
Proof. intros (i & [= -> ->] & Hi)%list_elem_of_fmap. done. Qed.

Lemma record_ack_event tp o n t id r : (id, r) ∈ (record_ack tp o n t).2 ->
  r = Replicated /\ exists p e, wait_in t tp p e /\ tx e = Some id /\
    quorum_size e <= reached p (node_offsets (part_of (record_ack tp o n t).1 tp)).
Proof.
  unfold record_ack, wait_in. fold (part_of t tp). destruct (_ <? o).
  2: { intros H. by apply elem_of_nil in H. }
  set (nodes := <[n := o]> _). set (cs := range_to _ _).
  pose proof (fun i => release_fold_notified nodes cs (waiters (part_of t tp), []) i
                (range_to_NoDup _ _)) as Hf.
  destruct (foldl _ _ _) as [w ids]. cbn [fst snd] in *. rewrite part_of_insert.
  rewrite bool_decide_eq_true_2 by done. cbn [node_offsets].
  intros [-> Hid]%tagged_elem. split; [done|].
  destruct (Hf id Hid) as [H|(p & es & e & _ & Hes & He & Htx & Hq)]; [by apply elem_of_nil in H|].
  exists p, e. eauto.
Qed.

Lemma cleanup_event now timeout t id r : (id, r) ∈ (cleanup_expired now timeout t).2 ->
  r = TimedOut /\ exists tp p e, wait_in t tp p e /\ tx e = Some id /\
    timeout < Z.max 0 (now - registered_at e).
Proof.
  unfold cleanup_expired. cbn [snd]. intros [-> Hid]%tagged_elem. split; [done|].
  apply elem_of_concat in Hid as (l & Hid & Hl).
  apply list_elem_of_fmap in Hl as ([tp st] & -> & Hst). apply elem_of_map_to_list in Hst.
  unfold expire_partition in Hid. cbn [snd] in Hid.
  apply elem_of_concat in Hid as (l & Hid & Hl).
  apply list_elem_of_fmap in Hl as (p & -> & _). rewrite expire_entries_eq in Hid. cbn [fst] in Hid.
  apply list_elem_of_omap in Hid as (e & He & Htx). apply list_elem_of_filter in He as [Ho He].
  exists tp, p, e. split_and!; [|done|done]. unfold wait_in, part_of. rewrite Hst. cbn.
  destruct (waiters st !! p) as [es|]; [eauto|by apply elem_of_nil in He].
Qed.

Lemma replicas_at_mono tp o ops ops' :
  (size (replicas_at tp o ops) <= size (replicas_at tp o (ops ++ ops')))%nat.
Proof. apply subseteq_size. unfold replicas_at. rewrite omap_app, list_to_set_app. set_solver. Qed.

(** Why a producer may be told an outcome. *)
Definition justified (ops : list op) (id : Z) (r : outcome) : Prop :=
  exists tp o q now, Register tp o q id now ∈ ops /\
    match r with
    | Replicated => q <= Z.of_nat (size (replicas_at tp o ops))
    | TimedOut => exists now' timeout, Cleanup now' timeout ∈ ops /\ timeout < Z.max 0 (now' - now)
    end.

Lemma justified_snoc ops o id r : justified ops id r -> justified (ops ++ [o]) id r.
Proof.
  intros (tp & p & q & now & Hin & Hr). exists tp, p, q, now.
  rewrite elem_of_app. split; [by left|]. destruct r.
  - pose proof (replicas_at_mono tp p ops [o]). lia.
  - destruct Hr as (now' & timeout & Hc & Ht). exists now', timeout. rewrite elem_of_app. auto.
Qed.

Lemma wait_justified ops o t tp p e id r : tracks ops t -> wait_in t tp p e -> tx e = Some id ->
  (match r with
   | Replicated => quorum_size e <= Z.of_nat (size (replicas_at tp p (ops ++ [o])))
   | TimedOut => exists now' timeout, Cleanup now' timeout ∈ ops ++ [o]
                                      /\ timeout < Z.max 0 (now' - registered_at e)
   end) -> justified (ops ++ [o]) id r.
Proof.
  intros [_ Hw] Hin Htx Hr. destruct (Hw tp p e Hin) as (_ & _ & id' & Htx' & Hreg).
  assert (id' = id) as -> by congruence.
  exists tp, p, (quorum_size e), (registered_at e). split; [|done]. apply elem_of_app. by left.
Qed.

Lemma call_justified ops o id r : Forall valid_op (ops ++ [o]) ->
  (id, r) ∈ (call o (run ops).1).2 -> justified (ops ++ [o]) id r.
Proof.
  intros Hv. pose proof (run_tracks _ Hv) as Ht'. rewrite run_snoc in Ht'. cbn [fst] in Ht'.
  apply Forall_app in Hv as [Hv Ho]. rewrite Forall_singleton in Ho.
  pose proof (run_tracks _ Hv) as Ht. destruct o as [tp p q i now|tp p n|now timeout]; cbn [call] in *.
  - unfold register_wait. fold (part_of (run ops).1 tp).
    destruct (Z.leb_spec q (reached p (node_offsets (part_of (run ops).1 tp)))) as [Hq|Hq]; cbn [snd].
    + intros [= -> ->]%list_elem_of_singleton. rewrite (reached_replicas ops) in Hq by done.
      exists tp, p, q, now. split; [apply elem_of_app; right; by left|].
      pose proof (replicas_at_mono tp p ops [Register tp p q i now]). lia.
    + intros H. by apply elem_of_nil in H.
  - intros (-> & p' & e & Hin & Htx & Hq)%record_ack_event.
    apply (wait_justified ops _ _ tp p' e id Replicated Ht Hin Htx).
    destruct (tracks_waits _ _ Ht _ _ _ Hin) as [Hp' _].
    by rewrite (reached_replicas _ _ _ _ Ht' Hp') in Hq.
  - intros (-> & tp & p & e & Hin & Htx & Hq)%cleanup_event.
    apply (wait_justified ops _ _ tp p e id TimedOut Ht Hin Htx).
    exists now, timeout. split; [apply elem_of_app; right; by left|done].
Qed.

(** * The promises of the tracker *)

Lemma held_step (a a' ev ev' r : list Z) :
  a' ++ ev' ≡ₚ a ++ r -> a' ++ (ev ++ ev') ≡ₚ (a ++ ev) ++ r.
Proof.
  intros H. transitivity (ev ++ (a' ++ ev')); [solve_Permutation|]. rewrite H. solve_Permutation.
Qed.

Section Promises.
Context (ops : list op).

Lemma run_held : pending (run ops).1 ++ (run ops).2.*1 ≡ₚ registered ops.
Proof.
  induction ops as [|o l IH] using rev_ind; [by rewrite app_nil_r|].
  rewrite run_snoc. cbn [fst snd]. unfold registered. rewrite omap_app. fold (registered l).
  rewrite fmap_app, <- IH. apply held_step. destruct o as [tp p q i now|tp p n|now timeout].
  - apply register_held.
  - rewrite app_nil_r. apply record_ack_held.
  - rewrite app_nil_r. apply cleanup_held.
Qed.

(** Two registrations with one identifier are the same call when identifiers are fresh. *)
Lemma registered_unique tp o q now tp' o' q' now' id : NoDup (registered ops) ->
  Register tp o q id now ∈ ops -> Register tp' o' q' id now' ∈ ops ->
  (tp, o, q, now) = (tp', o', q', now').
Proof.
  intros Hn H1 H2. apply elem_of_Permutation in H1 as [l Hl]. rewrite Hl in H2.
  apply elem_of_cons in H2 as [Heq|H2]; [by injection Heq as -> -> -> ->|].
  exfalso. unfold registered in Hn. rewrite Hl in Hn. cbn in Hn. apply NoDup_cons in Hn as [Hn _].
  apply Hn, list_elem_of_omap. by exists (Register tp' o' q' id now').
Qed.

Lemma pending_wait id : id ∈ pending (run ops).1 ->
  exists tp p e, wait_in (run ops).1 tp p e /\ tx e = Some id.
Proof.
  unfold pending, held. intros (l & Hid & Hl)%elem_of_concat.
  apply list_elem_of_fmap in Hl as ([tp st] & -> & Hst%elem_of_map_to_list).
  apply elem_of_concat in Hid as (l & Hid & Hl).
  apply list_elem_of_fmap in Hl as ([p es] & -> & Hes%elem_of_map_to_list).
  apply list_elem_of_omap in Hid as (e & He & Htx). exists tp, p, e. split; [|done].
  exists es. unfold part_of. by rewrite Hst.
Qed.
End Promises.

Lemma held_length `{Countable K} {V B C} (f : V -> list B) (g : V -> list C) (m : gmap K V) :
  (forall i x, m !! i = Some x -> length (f x) = length (g x)) ->
  length (held f m) = length (held g m).
Proof.
  induction m as [|i x m Hi IH] using map_ind; intros Hx; [by rewrite !held_empty|].
  rewrite !held_insert, !length_app, !delete_id by done. f_equal.
  - apply (Hx i), lookup_insert_eq.
  - apply IH. intros j y Hj. apply (Hx j). rewrite lookup_insert_ne; [done|congruence].
Qed.

Lemma pending_count_length ops t : tracks ops t -> pending_count t = Z.of_nat (length (pending t)).
Proof.
  intros [_ Hw]. unfold pending_count. f_equal. symmetry.
  apply (held_length partition_senders (fun st => held (fun es => es) (waiters st))).
  intros tp st Hst. apply held_length. intros p es Hes. unfold senders.
  assert (forall e, e ∈ es -> exists id, tx e = Some id) as Hall.
  { intros e He. destruct (Hw tp p e) as (_ & _ & id & Htx & _); [|by exists id].
    exists es. unfold part_of. by rewrite Hst. }
  clear -Hall. induction es as [|e es IH]; [done|]. cbn.
  destruct (Hall e) as [id ->]; [by left|]. cbn. f_equal. apply IH. intros e' He'. apply Hall. by right.
Qed.

(** [C12] No producer is forgotten and none is answered twice: after any sequence of
    registrations, replica reports and clean-ups, the senders still held together with the
    senders that were used are exactly the senders that were registered, as multisets. *)
Theorem waits_resolved_once ops : pending (run ops).1 ++ (run ops).2.*1 ≡ₚ registered ops.
Proof. apply run_held. Qed.

(** [C5] Every answer is justified by the calls received: a producer is told its batch is
    replicated only when as many distinct replicas as its quorum reported an offset at or past
    its own, and is told of a timeout only when a clean-up found its wait older than the
    timeout. *)
Theorem answers_justified ops id r : Forall valid_op ops ->
  (id, r) ∈ (run ops).2 -> justified ops id r.
Proof.
  induction ops as [|o ops IH] using rev_ind; intros Hv; [by intros ?%elem_of_nil|].
  rewrite run_snoc. cbn [snd]. intros [Hin|Hin]%elem_of_app.
  - apply justified_snoc, IH; [|done]. by apply Forall_app in Hv as [].
  - by apply call_justified.
Qed.

(** [C11] A producer whose quorum is met is never left waiting: when its identifier is fresh and
    enough distinct replicas have reported an offset at or past its own, it has been answered;
    and [pending_count] is the number of producers registered and not answered. *)
Theorem quorum_releases ops tp o q id now :
  Forall valid_op ops -> NoDup (registered ops) -> Register tp o q id now ∈ ops ->
  q <= Z.of_nat (size (replicas_at tp o ops)) ->
  id ∈ (run ops).2.*1 /\
  pending_count (run ops).1
    = Z.of_nat (length (registered ops)) - Z.of_nat (length (run ops).2).
Proof.
  intros Hv Hn Hr Hq. pose proof (run_tracks ops Hv) as Ht. split.
  - assert (id ∈ registered ops) as Hin
      by (apply list_elem_of_omap; by exists (Register tp o q id now)).
    rewrite <- (run_held ops) in Hin. apply elem_of_app in Hin as [Hin|]; [|done]. exfalso.
    destruct (pending_wait ops id Hin) as (tp' & p & e & Hw & Htx).
    destruct (tracks_waits _ _ Ht _ _ _ Hw) as (Hp & Hlt & id' & Htx' & Hr').
    assert (id' = id) as -> by congruence.
    injection (registered_unique ops _ _ _ _ _ _ _ _ id Hn Hr Hr') as -> -> -> ->.
    rewrite (reached_replicas ops) in Hlt by done. lia.
  - rewrite (pending_count_length ops) by done.
    pose proof (Permutation_length (run_held ops)) as Hl.
    rewrite length_app, length_fmap in Hl. lia.
Qed.

(** Two producers on one partition and two replicas; the second producer times out. *)
Definition sample_ops : list op :=
  [Register ([116], 0) 437 2 1 0; Ack ([116], 0) 500 7; Register ([116], 0) 600 2 2 10;
   Ack ([116], 0) 512 8; Ack ([116], 0) 100 8; Cleanup 40000 30000].

Lemma sample_ops_valid : Forall valid_op sample_ops.
Proof. repeat (apply Forall_cons; split; [cbn; try exact I; reflexivity|]). apply Forall_nil_2. Qed.

Lemma answers_justified_witness :
  (run sample_ops).2 = [(1, Replicated); (2, TimedOut)] /\
  justified sample_ops 1 Replicated /\ justified sample_ops 2 TimedOut.
Proof.
  split; [vm_compute; reflexivity|].
  split; (apply answers_justified; [apply sample_ops_valid|]).
  - apply (bool_decide_unpack _). vm_compute. exact I.
  - apply (bool_decide_unpack _). vm_compute. exact I.
Defined.

Lemma quorum_releases_witness :
  1 ∈ (run sample_ops).2.*1 /\
  pending_count (run sample_ops).1
    = Z.of_nat (length (registered sample_ops)) - Z.of_nat (length (run sample_ops).2).
Proof.
  apply (quorum_releases sample_ops ([116], 0) 437 2 1 0); [apply sample_ops_valid| | |].
  - apply (bool_decide_unpack _). vm_compute. exact I.
  - by left.
  - vm_compute. congruence.
Defined.
