(* ===== verification/IsrTracker.v ===== *)
(** In-sync replicas and what rests on them: the follower tracker
    (crates/chronik-server/src/isr_tracker.rs), the published in-sync set
    (isr_publisher.rs), the follower side of a fetch (fetch_handler.rs, [fetch_partition])
    and the retention interlock of the WAL indexer
    (crates/chronik-storage/src/wal_indexer.rs).

    The wall clock is an argument, in milliseconds since the epoch; one call reads one
    value of it.  The trait [ReplicationProgress] is a class with the promise its
    documentation makes; the indexer's theorem is proved against the class, and the tracker
    is an instance. *)
From stdpp Require Import base list numbers strings gmap.
From Stdlib Require Import ZArith Lia.
From S2P Require Import Prelude IsrAck.
Local Open Scope Z_scope.

Definition UNREPLICATED : Z := -1.

Record FollowerState : Type := mkFollower { last_offset : Z; last_update_ms : Z }.

Inductive SyncState : Type := InSync | Lagging | Unknown.

#[global] Instance SyncState_eq_dec : EqDecision SyncState.
Proof. solve_decision. Defined.

Record IsrTracker : Type := mkTracker {
  follower_offsets : gmap (Z * (bytes * Z)) FollowerState;
  node_last_seen_ms : gmap Z Z;
  max_lag_entries : Z;
  max_lag_ms : Z;
  node_liveness_ms : Z }.

(** [u64::saturating_mul] and [u64::saturating_sub]. *)
Definition saturating_mul (a b : Z) : Z := Z.min (2 ^ 64 - 1) (a * b).
Definition saturating_sub (a b : Z) : Z := Z.max 0 (a - b).

Definition isr_tracker_new (max_lag_entries max_lag_ms : Z) : IsrTracker :=
  mkTracker ∅ ∅ max_lag_entries max_lag_ms (saturating_mul max_lag_ms 3).

Definition record_node_alive (now node_id : Z) (t : IsrTracker) : IsrTracker :=
  mkTracker (follower_offsets t) (<[node_id := now]> (node_last_seen_ms t))
    (max_lag_entries t) (max_lag_ms t) (node_liveness_ms t).

Definition node_is_alive (now node_id : Z) (t : IsrTracker) : bool :=
  match node_last_seen_ms t !! node_id with
  | None => true
  | Some last => saturating_sub now last <=? node_liveness_ms t
  end.

Definition sync_state (now node_id : Z) (tp : bytes * Z) (leader_offset : Z) (t : IsrTracker)
    : SyncState :=
  match follower_offsets t !! (node_id, tp) with
  | None => Unknown
  | Some state =>
      if negb (node_is_alive now node_id t) then Lagging else
      if leader_offset <=? last_offset state then InSync else
      let offset_lag := as_i64 (leader_offset - last_offset state) in
      if as_i64 (max_lag_entries t) <? offset_lag then Lagging else
      if max_lag_ms t <? saturating_sub now (last_update_ms state) then Lagging else
      InSync
  end.

Definition is_in_sync (now node_id : Z) (tp : bytes * Z) (leader_offset : Z) (t : IsrTracker)
    : bool := bool_decide (sync_state now node_id tp leader_offset t = InSync).

Definition is_unknown_for_all (tp : bytes * Z) (replicas : list Z) (leader_id : Z)
    (t : IsrTracker) : bool :=
  forallb (fun node_id => negb (bool_decide (is_Some (follower_offsets t !! (node_id, tp)))))
    (filter (fun node_id => node_id <> leader_id) replicas).

Definition update_follower_offset (now node_id : Z) (tp : bytes * Z) (offset : Z)
    (t : IsrTracker) : IsrTracker :=
  mkTracker (<[(node_id, tp) := mkFollower offset now]> (follower_offsets t))
    (node_last_seen_ms t) (max_lag_entries t) (max_lag_ms t) (node_liveness_ms t).

Definition get_isr (now : Z) (tp : bytes * Z) (leader_offset : Z) (all_replicas : list Z)
    (t : IsrTracker) : list Z :=
  filter (fun node_id => is_in_sync now node_id tp leader_offset t = true) all_replicas.

(** The loop over the followers of every partition. *)
Definition acked_step (now : Z) (tp : bytes * Z) (max_lag : Z) (key : Z * (bytes * Z))
    (state : FollowerState) (acc : bool * option Z) : bool * option Z :=
  if bool_decide (key.2 = tp) then
    (true,
     if saturating_sub now (last_update_ms state) <=? max_lag
     then Some (match acc.2 with Some m => Z.min m (last_offset state) | None => last_offset state end)
     else acc.2)
  else acc.

Definition min_acked_offset_of_live_followers (now : Z) (tp : bytes * Z) (t : IsrTracker)
    : option Z :=
  match map_fold (acked_step now tp (max_lag_ms t)) (false, None) (follower_offsets t) with
  | (true, None) => Some UNREPLICATED
  | (_, min_live) => min_live
  end.

Definition remove_node (node_id : Z) (t : IsrTracker) : IsrTracker :=
  mkTracker (filter (fun kv => kv.1.1 <> node_id) (follower_offsets t))
    (node_last_seen_ms t) (max_lag_entries t) (max_lag_ms t) (node_liveness_ms t).

Definition remove_follower (node_id : Z) (tp : bytes * Z) (t : IsrTracker) : IsrTracker :=
  mkTracker (delete (node_id, tp) (follower_offsets t))
    (node_last_seen_ms t) (max_lag_entries t) (max_lag_ms t) (node_liveness_ms t).

Definition get_follower_lag (now node_id : Z) (tp : bytes * Z) (leader_offset : Z)
    (t : IsrTracker) : option Z :=
  state ← follower_offsets t !! (node_id, tp);
  if negb (node_is_alive now node_id t) then None
  else Some (Z.max (as_i64 (leader_offset - last_offset state)) 0).

(** [Ord::clamp] asserts that the bounds are in order. *)
Definition clamp (x lo hi : Z) : res Z :=
  if hi <? lo then Panic else Ok (if x <? lo then lo else if hi <? x then hi else x).

(** One follower of the loop of [replicated_watermark]. *)
Definition watermark_step (now : Z) (tp : bytes * Z) (leader_leo : Z) (t : IsrTracker)
    (acc : Z * bool) (node_id : Z) : Z * bool :=
  if bool_decide (sync_state now node_id tp leader_leo t <> InSync) then acc else
  match get_follower_lag now node_id tp leader_leo t with
  | None => acc
  | Some lag => (Z.min acc.1 (as_i64 (leader_leo - lag)), true)
  end.

Definition replicated_watermark (now : Z) (tp : bytes * Z) (leader_leo : Z) (replicas : list Z)
    (leader_id : Z) (t : IsrTracker) : res Z :=
  let (watermark, any_in_sync_follower) :=
    foldl (watermark_step now tp leader_leo t) (leader_leo, false)
      (filter (fun id => id <> leader_id) replicas) in
  if any_in_sync_follower then clamp watermark 0 leader_leo else Ok leader_leo.

(** ** Configuration *)

Definition DEFAULT_REPLICA_LAG_TIME_MAX_MS : Z := 10000.
Definition DEFAULT_REPLICA_LAG_MAX_ENTRIES : Z := 10000.

Definition env_u64 (raw : option bytes) (default_ : Z) : Z :=
  match raw ≫= parse_u64 with
  | Some v => if 0 <? v then v else default_
  | None => default_
  end.

Definition from_env (time_max_ms max_entries : option bytes) : IsrTracker :=
  isr_tracker_new (env_u64 max_entries DEFAULT_REPLICA_LAG_MAX_ENTRIES)
    (env_u64 time_max_ms DEFAULT_REPLICA_LAG_TIME_MAX_MS).

Definition isr_tracker_default : IsrTracker :=
  isr_tracker_new DEFAULT_REPLICA_LAG_MAX_ENTRIES DEFAULT_REPLICA_LAG_TIME_MAX_MS.

(** ** The published in-sync set *)

Definition in_sync_replicas (now : Z) (tp : bytes * Z) (leader_offset : Z) (replicas : list Z)
    (leader_id : Z) (t : IsrTracker) : option (list Z) :=
  if is_unknown_for_all tp replicas leader_id t then None else
  let isr := get_isr now tp leader_offset replicas t in
  let isr := if bool_decide (leader_id ∈ isr) then isr else leader_id :: isr in
  Some (filter (fun id => id ∈ isr) replicas).

(** ** A follower's fetch: the start of [fetch_partition], with the trackers configured *)
Definition follower_fetch (now replica_id : Z) (tp : bytes * Z) (fetch_offset : Z)
    (s : option IsrTracker * option IsrAckTracker)
    : (option IsrTracker * option IsrAckTracker) * list event :=
  if 0 <=? replica_id then
    let t := (fun t => record_node_alive now (as_u64 replica_id)
                (update_follower_offset now (as_u64 replica_id) tp fetch_offset t)) <$> s.1 in
    match s.2 with
    | Some acks =>
        let (acks, notified) := record_ack tp fetch_offset (as_u64 replica_id) acks in
        ((t, Some acks), notified)
    | None => ((t, None), [])
    end
  else (s, []).

(** ** The retention interlock *)

(** [trait ReplicationProgress], and the promise in its documentation: the answer is a
    position every follower still keeping up has acknowledged. *)
Class ReplicationProgress (P : Type) : Type := {
  min_replicated_offset : P -> bytes * Z -> option Z;
  keeping_up : P -> bytes * Z -> Z -> Prop;
  min_replicated_sound : forall p tp m position,
    min_replicated_offset p tp = Some m -> keeping_up p tp position -> m <= position;
  min_replicated_none : forall p tp position,
    min_replicated_offset p tp = None -> ~ keeping_up p tp position }.

(** The highest offset of a segment per partition, from the last offsets of its batches. *)
Definition max_last_offset (last_offsets : list Z) : Z :=
  match last_offsets with [] => -1 | o :: os => foldl Z.max o os end.
Definition tp_max_offsets (tp_records : list ((bytes * Z) * list Z)) : list ((bytes * Z) * Z) :=
  filter (fun x => 0 <= x.2) ((fun x => (x.1, max_last_offset x.2)) <$> tp_records).

Fixpoint fully_replicated_loop `{!ReplicationProgress P} (progress : P)
    (tp_max : list ((bytes * Z) * Z)) : res unit :=
  match tp_max with
  | [] => Ok tt
  | (tp, max_offset) :: rest =>
      match min_replicated_offset progress tp with
      | Some acked =>
          if acked <? max_offset then Err (EInternal "replicated only to offset")
          else fully_replicated_loop progress rest
      | None => fully_replicated_loop progress rest
      end
  end.

Definition fully_replicated `{!ReplicationProgress P} (progress : option P)
    (tp_max : list ((bytes * Z) * Z)) : res unit :=
  match progress with None => Ok tt | Some p => fully_replicated_loop p tp_max end.

Definition may_delete_wal_segment (delete_after_index : bool) (errors_at_start errors_now : Z)
    : bool := delete_after_index && (errors_now =? errors_at_start).

(** The end of [index_segment]: whether the WAL segment is deleted. *)
Definition segment_deleted `{!ReplicationProgress P} (progress : option P)
    (tp_records : list ((bytes * Z) * list Z)) (delete_after_index : bool)
    (errors_at_start errors_now : Z) : bool :=
  match fully_replicated progress (tp_max_offsets tp_records) with
  | Ok _ => may_delete_wal_segment delete_after_index errors_at_start errors_now
  | _ => false
  end.

(** * The retention interlock, for every source of progress *)

Section Interlock.
Context `{!ReplicationProgress P}.

Lemma foldl_max_ge os : forall x, x <= foldl Z.max x os /\ forall o, o ∈ os -> o <= foldl Z.max x os.
Proof.
  induction os as [|y os IH]; intros x; cbn [foldl]; [split; [lia|by intros o ?%elem_of_nil]|].
  destruct (IH (Z.max x y)) as [H1 H2]. split; [lia|].
  intros o [->|Ho]%elem_of_cons; [lia|by apply H2].
Qed.

Lemma max_last_offset_ge os o : o ∈ os -> o <= max_last_offset os.
Proof.
  destruct os as [|x os]; [by intros ?%elem_of_nil|]. cbn. destruct (foldl_max_ge os x) as [H1 H2].
  intros [->|Ho]%elem_of_cons; [done|by apply H2].
Qed.

Lemma fully_replicated_ok p l : fully_replicated_loop p l = Ok tt ->
  forall tp m, (tp, m) ∈ l -> forall a, min_replicated_offset p tp = Some a -> m <= a.
Proof.
  induction l as [|[tp m] l IH]; cbn [fully_replicated_loop]; [by intros _ ? ? ?%elem_of_nil|].
  intros Hok tp' m' [[= -> ->]|Hin]%elem_of_cons a Ha.
  - rewrite Ha in Hok. destruct (Z.ltb_spec a m); [done|lia].
  - apply (IH) with tp'; [|done|done].
    destruct (min_replicated_offset p tp) as [b|]; [|done]. by destruct (b <? m).
Qed.

Lemma tp_max_offsets_in recs tp os o : (tp, os) ∈ recs -> o ∈ os -> 0 <= o ->
  exists m, (tp, m) ∈ tp_max_offsets recs /\ o <= m.
Proof.
  intros Hin Ho H0. pose proof (max_last_offset_ge os o Ho). exists (max_last_offset os).
  split; [|done]. apply list_elem_of_filter. split; [cbn; lia|].
  apply list_elem_of_fmap. by exists (tp, os).
Qed.

Lemma segment_deleted_inv prog recs d e0 e1 : segment_deleted (Some prog) recs d e0 e1 = true ->
  d = true /\ e1 = e0 /\
  forall tp os o a, (tp, os) ∈ recs -> o ∈ os -> 0 <= o ->
    min_replicated_offset prog tp = Some a -> o <= a.
Proof.
  unfold segment_deleted, may_delete_wal_segment, fully_replicated.
  destruct (fully_replicated_loop prog (tp_max_offsets recs)) as [[]| |] eqn:E; [|done..].
  intros [-> He%Z.eqb_eq]%andb_prop. split_and!; [done|done|].
  intros tp os o a Hin Ho H0 Ha. destruct (tp_max_offsets_in recs tp os o Hin Ho H0) as (m & Hm & Hle).
  pose proof (fully_replicated_ok prog _ E tp m Hm a Ha). lia.
Qed.
End Interlock.

(** * The tracker as a source of progress *)

(** The follower [n] of a partition reported within the lag bound. *)
Definition live_follower (now : Z) (t : IsrTracker) (tp : bytes * Z) (n position : Z) : Prop :=
  exists st, follower_offsets t !! (n, tp) = Some st /\
    saturating_sub now (last_update_ms st) <= max_lag_ms t /\ last_offset st = position.

Lemma acked_fold (now : Z) (tp : bytes * Z) (lag : Z) (m : gmap (Z * (bytes * Z)) FollowerState) :
  let r := map_fold (acked_step now tp lag) (false, None) m in
  let live st := saturating_sub now (last_update_ms st) <= lag in
  (r.1 = true <-> exists n st, m !! (n, tp) = Some st) /\
  (forall n st, m !! (n, tp) = Some st -> live st -> exists a, r.2 = Some a /\ a <= last_offset st) /\
  (forall a, r.2 = Some a -> exists n st, m !! (n, tp) = Some st /\ live st /\ last_offset st = a).
Proof.
  cbv zeta. apply (map_fold_weak_ind (fun r m =>
    (r.1 = true <-> exists n st, m !! (n, tp) = Some st) /\
    (forall n st, m !! (n, tp) = Some st -> saturating_sub now (last_update_ms st) <= lag ->
       exists a, r.2 = Some a /\ a <= last_offset st) /\
    (forall a, r.2 = Some a -> exists n st, m !! (n, tp) = Some st /\
       saturating_sub now (last_update_ms st) <= lag /\ last_offset st = a))).
  { split_and!; [|by setoid_rewrite lookup_empty|done].
    split; [done|]. by intros (n & st & H); rewrite lookup_empty in H. }
  intros [n0 tp0] st0 m' [k r] Hi (IH1 & IH2 & IH3). unfold acked_step. cbn [fst snd] in *.
  case_bool_decide as Htp; [subst tp0|].
  2: { assert (forall n, <[(n0, tp0) := st0]> m' !! (n, tp) = m' !! (n, tp)) as Hsame
         by (intros n; apply lookup_insert_ne; congruence).
       setoid_rewrite Hsame. done. }
  assert (forall n st, m' !! (n, tp) = Some st -> <[(n0, tp) := st0]> m' !! (n, tp) = Some st) as Hold.
  { intros n st Hn. rewrite lookup_insert_ne; [done|]. intros [= ->]. congruence. }
  cbn [fst snd]. split_and!.
  - split; [intros _|done]. exists n0, st0. by rewrite lookup_insert_eq.
  - intros n st [[[= <-] <-]|[_ Hn]]%lookup_insert_Some Hlive.
    + destruct (Z.leb_spec (saturating_sub now (last_update_ms st0)) lag); [|lia].
      destruct r; eexists; (split; [done|lia]).
    + destruct (IH2 n st Hn Hlive) as (a & -> & Ha).
      destruct (_ <=? lag); eexists; (split; [done|lia]).
  - intros a. destruct (Z.leb_spec (saturating_sub now (last_update_ms st0)) lag) as [Hl|Hl].
    + intros [= <-]. destruct r as [b|].
      * destruct (IH3 b eq_refl) as (n & st & Hn & Hlive & <-).
        destruct (Z.le_gt_cases (last_offset st) (last_offset st0)).
        -- exists n, st. split_and!; [by apply Hold|done|lia].
        -- exists n0, st0. rewrite lookup_insert_eq. split_and!; [done|done|lia].
      * exists n0, st0. by rewrite lookup_insert_eq.
    + intros Ha. destruct (IH3 a Ha) as (n & st & Hn & Hlive & Heq). exists n, st.
      split; [by apply Hold|done].
Qed.

Lemma min_acked_spec now tp t :
  match min_acked_offset_of_live_followers now tp t with
  | None => forall n, follower_offsets t !! (n, tp) = None
  | Some m =>
      (forall n position, live_follower now t tp n position -> m <= position) /\
      ((exists n, live_follower now t tp n m) \/
       m = UNREPLICATED /\ forall n position, ~ live_follower now t tp n position)
  end.
Proof.
  unfold min_acked_offset_of_live_followers.
  pose proof (acked_fold now tp (max_lag_ms t) (follower_offsets t)) as H. cbv zeta in H.
  destruct (map_fold _ _ _) as [known [a|]]; destruct H as (H1 & H2 & H3); cbn [fst snd] in *.
  - assert ((forall n position, live_follower now t tp n position -> a <= position) /\
            (exists n, live_follower now t tp n a)) as [? ?].
    { split.
      - intros n position (st & Hn & Hl & <-). destruct (H2 n st Hn Hl) as (b & [= <-] & Hb). done.
      - destruct (H3 a eq_refl) as (n & st & Hn & Hl & Ha). exists n, st. done. }
    destruct known; auto.
  - destruct known.
    + assert (forall n position, ~ live_follower now t tp n position) as Hnone.
      { intros n position (st & Hn & Hl & _). by destruct (H2 n st Hn Hl) as (b & ? & _). }
      split; [intros n position Hl; by destruct (Hnone _ _ Hl)|auto].
    + intros n. destruct (follower_offsets t !! (n, tp)) as [st|] eqn:E; [|done].
      assert (false = true) by (apply H1; eauto). done.
Qed.

#[global] Program Instance tracker_progress : ReplicationProgress (Z * IsrTracker) := {|
  min_replicated_offset p tp := min_acked_offset_of_live_followers p.1 tp p.2;
  keeping_up p tp position := exists n, live_follower p.1 p.2 tp n position |}.
Next Obligation.
  intros [now t] tp m position Hm [n Hl]. cbn in *. pose proof (min_acked_spec now tp t) as H.
  rewrite Hm in H. destruct H as [H _]. eauto.
Qed.
Next Obligation.
  intros [now t] tp position Hm [n (st & Hn & _)]. cbn in *. pose proof (min_acked_spec now tp t) as H.
  rewrite Hm in H. by rewrite H in Hn.
Qed.

(** [C8] A WAL segment is deleted only on a clean pass with deletion enabled, and, whatever
    the source of replication progress, only when every follower still keeping up with a
    partition of the segment has a position at or past every offset the segment holds for it. *)
Theorem deletion_waits_for_followers `{!ReplicationProgress P} (p : P)
    (tp_records : list ((bytes * Z) * list Z)) (delete_after_index : bool) (e0 e1 : Z) :
  segment_deleted (Some p) tp_records delete_after_index e0 e1 = true ->
  delete_after_index = true /\ e1 = e0 /\
  forall tp os o position, (tp, os) ∈ tp_records -> o ∈ os -> 0 <= o ->
    keeping_up p tp position -> o <= position.
Proof.
  intros (Hd & He & Ho)%segment_deleted_inv. split_and!; [done|done|].
  intros tp os o position Hin Hos H0 Hk.
  destruct (min_replicated_offset p tp) as [a|] eqn:Ea.
  - specialize (Ho tp os o a Hin Hos H0 Ea). pose proof (min_replicated_sound p tp a position Ea Hk). lia.
  - by destruct (min_replicated_none p tp position Ea).
Qed.

(** [C19] With the tracker as the source, a partition that has followers, none of them live,
    holds its segments back: a deleted segment has, for every partition with a known follower,
    a live follower. *)
Theorem dead_followers_hold_wal (now : Z) (t : IsrTracker)
    (tp_records : list ((bytes * Z) * list Z)) (delete_after_index : bool) (e0 e1 : Z)
    (tp : bytes * Z) (os : list Z) (o n : Z) :
  segment_deleted (Some (now, t)) tp_records delete_after_index e0 e1 = true ->
  (tp, os) ∈ tp_records -> o ∈ os -> 0 <= o -> is_Some (follower_offsets t !! (n, tp)) ->
  exists n' position, live_follower now t tp n' position /\ o <= position.
Proof.
  intros (_ & _ & Ho)%segment_deleted_inv Hin Hos H0 [st Hn].
  pose proof (min_acked_spec now tp t) as H. specialize (Ho tp os o). cbn in Ho.
  destruct (min_acked_offset_of_live_followers now tp t) as [m|]; [|by rewrite H in Hn].
  specialize (Ho m Hin Hos H0 eq_refl). destruct H as [_ [[n' Hl]|[Hm _]]].
  - eauto.
  - unfold UNREPLICATED in Hm. lia.
Qed.

(** [C31] A follower that fetches at offset N holds everything below N and not N itself, yet
    the interlock lets go of a segment whose last record is N: it compares the fetch position
    with the last offset instead of the offset past it. *)
Theorem interlock_one_record_short (now r N e : Z) (tp : bytes * Z) (t : IsrTracker)
    (acks : option IsrAckTracker) :
  0 <= r < 2 ^ 31 -> 0 <= max_lag_ms t -> 0 <= N -> follower_offsets t = ∅ ->
  exists t', (follower_fetch now r tp N (Some t, acks)).1.1 = Some t' /\
    live_follower now t' tp r N /\
    segment_deleted (Some (now, t')) [(tp, [N])] true e e = true.
Proof.
  intros Hr Hlag HN Ht. unfold follower_fetch. rewrite (proj2 (Z.leb_le 0 r)) by lia.
  rewrite (wrap_u_id 64) by (unfold in_u; lia). cbn [fst snd fmap option_fmap option_map].
  eexists. split; [by destruct acks; [destruct (record_ack _ _ _ _)|]|].
  assert (saturating_sub now now <= max_lag_ms t) as Hlive by (unfold saturating_sub; lia).
  split.
  { exists (mkFollower N now). cbn. rewrite lookup_insert_eq. done. }
  unfold segment_deleted, fully_replicated, tp_max_offsets. cbn [fmap list_fmap max_last_offset foldl].
  rewrite filter_cons_True by (cbn; lia). cbn [filter list_filter fully_replicated_loop].
  cbn [min_replicated_offset tracker_progress fst snd].
  unfold min_acked_offset_of_live_followers. cbn [follower_offsets record_node_alive
    update_follower_offset max_lag_ms]. rewrite Ht, insert_empty, map_fold_singleton.
  unfold acked_step. cbn [fst snd last_update_ms last_offset].
  rewrite bool_decide_eq_true_2 by done. rewrite (proj2 (Z.leb_le _ _) Hlive).
  change (max_last_offset [N]) with N. rewrite (proj2 (Z.ltb_ge N N)) by lia. unfold may_delete_wal_segment. by rewrite Z.eqb_refl.
Qed.

(** * The consumer's watermark *)

Lemma in_sync_known now n tp leo t : sync_state now n tp leo t = InSync ->
  exists st, follower_offsets t !! (n, tp) = Some st /\ node_is_alive now n t = true.
Proof.
  unfold sync_state. destruct (follower_offsets t !! (n, tp)) as [st|]; [|done].
  destruct (node_is_alive now n t); [|done]. eauto.
Qed.

(** An in-sync follower bounds the watermark by its own position. *)
Lemma watermark_step_in_sync now tp leo t acc n st : 0 <= leo < 2 ^ 63 ->
  sync_state now n tp leo t = InSync -> follower_offsets t !! (n, tp) = Some st ->
  0 <= last_offset st < 2 ^ 63 ->
  watermark_step now tp leo t acc n = (Z.min acc.1 (Z.min leo (last_offset st)), true).
Proof.
  intros Hleo Hs Hst Hr. unfold watermark_step, get_follower_lag.
  rewrite bool_decide_eq_false_2 by (intros H; contradiction).
  destruct (in_sync_known _ _ _ _ _ Hs) as (st' & Hst' & ->). rewrite Hst. cbn.
  rewrite (wrap_s_id 64 (leo - last_offset st)) by (unfold in_s; lia).
  rewrite wrap_s_id by (unfold in_s; lia). repeat f_equal. lia.
Qed.

Definition follower_at (now : Z) (tp : bytes * Z) (leo : Z) (t : IsrTracker) (n position : Z) : Prop :=
  sync_state now n tp leo t = InSync /\
  exists st, follower_offsets t !! (n, tp) = Some st /\ last_offset st = position.

Lemma watermark_fold now tp leo t ns : 0 <= leo < 2 ^ 63 ->
  (forall n st, follower_offsets t !! (n, tp) = Some st -> 0 <= last_offset st < 2 ^ 63) ->
  forall w b, 0 <= w <= leo ->
  let r := foldl (watermark_step now tp leo t) (w, b) ns in
  0 <= r.1 <= w /\ (r.2 = false -> b = false /\ r.1 = w) /\
  (forall n position, n ∈ ns -> follower_at now tp leo t n position -> r.1 <= position /\ r.2 = true) /\
  (r.1 = w \/ exists n, n ∈ ns /\ follower_at now tp leo t n r.1).
Proof.
  intros Hleo Hpos. induction ns as [|n ns IH]; intros w b Hw; cbv zeta; cbn [foldl].
  { split_and!; [cbn; lia|cbn; lia|done|by intros n ? ?%elem_of_nil|by left]. }
  destruct (decide (sync_state now n tp leo t = InSync)) as [Hs|Hs].
  - destruct (in_sync_known _ _ _ _ _ Hs) as (st & Hst & _). pose proof (Hpos n st Hst) as Hr.
    rewrite (watermark_step_in_sync now tp leo t (w, b) n st Hleo Hs Hst Hr). cbn [fst].
    destruct (IH (Z.min w (Z.min leo (last_offset st))) true) as (H1 & H2 & H3 & H4); [lia|].
    split_and!; [lia|lia|intros Hf; destruct (H2 Hf); done| |].
    + intros m position [->|Hin]%elem_of_cons Hm; [|by apply (H3 m)].
      destruct Hm as (_ & st' & Hst' & <-). assert (st' = st) as -> by congruence.
      split; [lia|]. destruct (foldl _ _ _).2 eqn:E; [done|by destruct (H2 eq_refl)].
    + destruct H4 as [H4|(m & Hm & Hf)]; [|right; exists m; split; [by right|done]].
      destruct (Z.le_gt_cases w (last_offset st)).
      * left. lia.
      * right. exists n. split; [by left|]. split; [done|]. exists st. split; [done|lia].
  - assert (watermark_step now tp leo t (w, b) n = (w, b)) as ->
      by (unfold watermark_step; by rewrite bool_decide_eq_true_2).
    destruct (IH w b Hw) as (H1 & H2 & H3 & H4). split_and!; [lia|lia|done| |].
    + intros m position [->|Hin]%elem_of_cons Hm; [by destruct Hm|by apply (H3 m)].
    + destruct H4 as [H4|(m & Hm & Hf)]; [by left|right; exists m; split; [by right|done]].
Qed.

(** [C7] The watermark a consumer may read up to is the lowest position among the leader and
    the in-sync followers: it never exceeds the position of the leader or of any in-sync
    follower, and it is one of them; replicas that are behind, dead or unknown do not hold it
    back. *)
Theorem watermark_is_isr_minimum (now : Z) (tp : bytes * Z) (leo : Z) (replicas : list Z)
    (leader : Z) (t : IsrTracker) :
  0 <= leo < 2 ^ 63 ->
  (forall n st, follower_offsets t !! (n, tp) = Some st -> 0 <= last_offset st < 2 ^ 63) ->
  exists w, replicated_watermark now tp leo replicas leader t = Ok w /\ 0 <= w <= leo /\
    (forall n position, n ∈ replicas -> n <> leader -> follower_at now tp leo t n position ->
       w <= position) /\
    (w = leo \/ exists n, n ∈ replicas /\ n <> leader /\ follower_at now tp leo t n w).
Proof.
  intros Hleo Hpos. unfold replicated_watermark.
  destruct (watermark_fold now tp leo t (filter (fun id => id <> leader) replicas) Hleo Hpos leo false)
    as (H1 & H2 & H3 & H4); [lia|]. destruct (foldl _ _ _) as [w any]. cbn [fst snd] in *.
  exists w. split_and!; [|lia|lia| |].
  - destruct any; [|by destruct (H2 eq_refl) as [_ ->]]. unfold clamp.
    rewrite (proj2 (Z.ltb_ge leo 0)) by lia. rewrite (proj2 (Z.ltb_ge w 0)) by lia.
    by rewrite (proj2 (Z.ltb_ge leo w)) by lia.
  - intros n position Hn Hne Hf. apply (H3 n position); [|done]. by apply list_elem_of_filter.
  - destruct H4 as [->|(n & [Hne Hn]%list_elem_of_filter & Hf)]; [by left|right; eauto].
Qed.

Lemma sync_state_unknown now n tp leo t :
  sync_state now n tp leo t = Unknown <-> follower_offsets t !! (n, tp) = None.
Proof.
  unfold sync_state. destruct (follower_offsets t !! (n, tp)) as [st|]; [|done].
  split; [|done]. destruct (negb _); [done|]. destruct (_ <=? _); [done|]. cbv zeta.
  destruct (_ <? _); [done|]. by destruct (_ <? _).
Qed.

Lemma filter_ext_in {A} (P Q : A -> Prop) `{!forall x, Decision (P x), !forall x, Decision (Q x)}
    (l : list A) : (forall x, x ∈ l -> P x <-> Q x) -> filter P l = filter Q l.
Proof.
  induction l as [|x l IH]; intros HPQ; [done|]. rewrite !filter_cons.
  rewrite IH by (intros y Hy; apply HPQ; by right). pose proof (HPQ x (list_elem_of_here _ _)) as Hx.
  destruct (decide (P x)), (decide (Q x)); tauto.
Qed.

Lemma forallb_false {A} (f : A -> bool) (l : list A) :
  forallb f l = false -> exists x, x ∈ l /\ f x = false.
Proof.
  induction l as [|x l IH]; cbn; [done|]. destruct (f x) eqn:E.
  - intros (y & Hy & Hf)%IH. exists y. split; [by right|done].
  - intros _. exists x. split; [by left|done].
Qed.

(** The set [in_sync_replicas] filters by. *)
Lemma isr_with_leader now tp lo replicas leader t n : n ∈ replicas ->
  let isr := get_isr now tp lo replicas t in
  n ∈ (if bool_decide (leader ∈ isr) then isr else leader :: isr) <->
  n = leader \/ sync_state now n tp lo t = InSync.
Proof.
  intros Hn isr.
  assert (n ∈ isr <-> sync_state now n tp lo t = InSync) as Hin.
  { unfold isr, get_isr, is_in_sync. rewrite list_elem_of_filter, bool_decide_eq_true. tauto. }
  case_bool_decide as Hl; [|rewrite elem_of_cons; tauto].
  split; [tauto|]. intros [->|]; tauto.
Qed.

(** [C18] The published in-sync set is, in replica order, the leader and exactly the followers
    that are in sync; nothing is published only while no follower of the partition has ever
    reported. *)
Theorem published_isr_exact (now : Z) (tp : bytes * Z) (leader_offset : Z) (replicas : list Z)
    (leader : Z) (t : IsrTracker) :
  match in_sync_replicas now tp leader_offset replicas leader t with
  | Some isr =>
      isr = filter (fun n => n = leader \/ sync_state now n tp leader_offset t = InSync) replicas /\
      exists n, n ∈ replicas /\ n <> leader /\ sync_state now n tp leader_offset t <> Unknown
  | None =>
      forall n, n ∈ replicas -> n <> leader -> sync_state now n tp leader_offset t = Unknown
  end.
Proof.
  unfold in_sync_replicas, is_unknown_for_all. destruct (forallb _ _) eqn:E.
  - rewrite forallb_forall in E. intros n Hn Hne. apply sync_state_unknown, eq_None_not_Some.
    specialize (E n). rewrite <- list_elem_of_In, list_elem_of_filter in E. specialize (E (conj Hne Hn)).
    by apply negb_true_iff, bool_decide_eq_false in E.
  - split; [apply filter_ext_in; intros n Hn; by apply isr_with_leader|].
    apply forallb_false in E as (n & [Hne Hn]%list_elem_of_filter & Hf).
    exists n. split_and!; [done|done|]. rewrite sync_state_unknown.
    apply negb_false_iff, bool_decide_eq_true in Hf as [st ->]. done.
Qed.

(** A lag bound of 2^63 entries or more, meant as no bound, is negative once cast: a live
    follower that is one record behind is out of sync. *)
Theorem lag_bound_wraps (now n leo : Z) (tp : bytes * Z) (t : IsrTracker) (st : FollowerState) :
  2 ^ 63 <= max_lag_entries t < 2 ^ 64 -> follower_offsets t !! (n, tp) = Some st ->
  0 < leo - last_offset st < 2 ^ 63 -> sync_state now n tp leo t = Lagging.
Proof.
  intros Hm Hst Hl. unfold sync_state. rewrite Hst. destruct (negb _); [done|].
  rewrite (proj2 (Z.leb_gt _ _)) by lia. cbv zeta. rewrite (wrap_s_id 64 (leo - _)) by (unfold in_s; lia).
  assert (as_i64 (max_lag_entries t) < 0) as Hneg.
  { unfold wrap_s. replace (max_lag_entries t + 2 ^ (64 - 1))
      with ((max_lag_entries t - 2 ^ 63) + 1 * 2 ^ 64) by lia.
    rewrite Z.mod_add, Z.mod_small by lia. lia. }
  by rewrite (proj2 (Z.ltb_lt _ _)) by lia.
Qed.

(** * Concrete inputs *)

(** Node 2 at 500 and fresh, node 3 at 100 and silent for a minute. *)
Definition sample_tracker : IsrTracker :=
  update_follower_offset 60000 2 ([116], 0) 500
    (update_follower_offset 0 3 ([116], 0) 100 isr_tracker_default).

Lemma deletion_waits_for_followers_witness :
  true = true /\ 0 = 0 /\
  forall tp os o position, (tp, os) ∈ [(([116], 0), [300; 450])] -> o ∈ os -> 0 <= o ->
    keeping_up (60001, sample_tracker) tp position -> o <= position.
Proof.
  apply (deletion_waits_for_followers (60001, sample_tracker) [(([116], 0), [300; 450])] true 0 0).
  vm_compute. reflexivity.
Defined.

Lemma dead_followers_hold_wal_witness :
  exists n' position, live_follower 60001 sample_tracker ([116], 0) n' position /\ 450 <= position.
Proof.
  apply (dead_followers_hold_wal 60001 sample_tracker [(([116], 0), [300; 450])] true 0 0
           ([116], 0) [300; 450] 450 3).
  - vm_compute. reflexivity.
  - by left.
  - right. by left.
  - lia.
  - eexists. vm_compute. reflexivity.
Defined.

Lemma interlock_one_record_short_witness :
  exists t', (follower_fetch 5 2 ([116], 0) 100 (Some isr_tracker_default, Some ∅)).1.1 = Some t' /\
    live_follower 5 t' ([116], 0) 2 100 /\
    segment_deleted (Some (5, t')) [(([116], 0), [100])] true 0 0 = true.
Proof.
  apply (interlock_one_record_short 5 2 100 0 ([116], 0) isr_tracker_default (Some ∅));
    [lia|cbn; unfold DEFAULT_REPLICA_LAG_TIME_MAX_MS; lia|lia|done].
Defined.

Lemma watermark_is_isr_minimum_witness :
  exists w, replicated_watermark 60001 ([116], 0) 510 [1; 2; 3] 1 sample_tracker = Ok w /\
    0 <= w <= 510 /\
    (forall n position, n ∈ [1; 2; 3] -> n <> 1 ->
       follower_at 60001 ([116], 0) 510 sample_tracker n position -> w <= position) /\
    (w = 510 \/ exists n, n ∈ [1; 2; 3] /\ n <> 1 /\
       follower_at 60001 ([116], 0) 510 sample_tracker n w).
Proof.
  apply (watermark_is_isr_minimum 60001 ([116], 0) 510 [1; 2; 3] 1 sample_tracker); [lia|].
  intros n st. cbn. rewrite !lookup_insert_Some, lookup_empty.
  intros [[_ <-]|[_ [[_ <-]|[_ ?]]]]; cbn; [lia|lia|done].
Defined.

(** The environment variable set to the largest 64-bit number. *)
Example unlimited_lag_is_no_lag :
  let t := update_follower_offset 0 2 ([116], 0) 99
             (from_env None (Some (bytes_of_string "18446744073709551615"))) in
  sync_state 0 2 ([116], 0) 100 t = Lagging.
Proof. vm_compute. reflexivity. Qed.
