(* ===== verification/BatchWalk.v ===== *)
(** The walks over concatenated record batches: stamping and reading the leader epoch
    (crates/chronik-server/src/replication/leader_epoch.rs), cutting a read_committed
    fetch at the last stable offset and repairing control batch checksums
    (crates/chronik-server/src/fetch_handler.rs).

    A position never exceeds the length of the buffer, so only the sum with a length
    field can wrap.  Every iteration of a walk over well-formed batches advances, and
    the length of the buffer bounds it; the walks of the fetch handler can also stand
    still ([malformed_length_hangs_fetch]), which the bound makes visible. *)
From Stdlib Require Import ZArith Lia Sorted.
From stdpp Require Import base list numbers sorting.
From S2P Require Import Prelude Extern KafkaRecords.
Local Open Scope Z_scope.

Definition BATCH_LENGTH_OFFSET : Z := 8.
Definition LEADER_EPOCH_OFFSET : Z := 12.
Definition MAGIC_OFFSET : Z := 16.
Definition ATTRIBUTES_OFFSET : Z := 21.
Definition MIN_BATCH_HEADER : Z := 23.

(** [buf[pos..pos + n]]: out of range is a panic. *)
Definition slice (pos n : Z) (buf : bytes) : res bytes :=
  if (0 <=? pos) && (0 <=? n) && (pos + n <=? len buf)
  then Ok (take (Z.to_nat n) (drop (Z.to_nat pos) buf)) else Panic.
Definition get_be_s (n pos : Z) (buf : bytes) : res Z :=
  b ← slice pos n buf; Ok (wrap_s (8 * n) (be_val b)).
Definition get_be_u (n pos : Z) (buf : bytes) : res Z :=
  b ← slice pos n buf; Ok (be_val b).
Definition copy_from_slice (pos : Z) (new buf : bytes) : res bytes :=
  if (0 <=? pos) && (pos + len new <=? len buf) then Ok (splice (Z.to_nat pos) new buf) else Panic.

Fixpoint stamp_loop (fuel : nat) (epoch pos stamped : Z) (wire : bytes) : res (Z * bytes) :=
  if pos + MIN_BATCH_HEADER <=? len wire then
    match fuel with
    | O => Err EFuel
    | S fuel =>
        batch_length ← get_be_s 4 (pos + BATCH_LENGTH_OFFSET) wire;
        if batch_length <? 9 then Ok (stamped, wire) else
        let end_ := as_usize (pos + 12 + as_usize batch_length) in
        if len wire <? end_ then Ok (stamped, wire) else
        magic ← get_be_s 1 (pos + MAGIC_OFFSET) wire;
        if negb (magic =? 2) then Ok (stamped, wire) else
        wire ← copy_from_slice (pos + LEADER_EPOCH_OFFSET) (be_bytes 4 epoch) wire;
        stamp_loop fuel epoch end_ (stamped + 1) wire
    end
  else Ok (stamped, wire).

Definition stamp_leader_epoch (wire : bytes) (epoch : Z) : res (Z * bytes) :=
  if epoch <? 0 then Ok (0, wire) else stamp_loop (length wire) epoch 0 0 wire.

Definition read_leader_epoch (wire : bytes) : res (option Z) :=
  if len wire <? MIN_BATCH_HEADER then Ok None else
  magic ← get_be_s 1 MAGIC_OFFSET wire;
  if negb (magic =? 2) then Ok None else
  epoch ← get_be_s 4 LEADER_EPOCH_OFFSET wire;
  Ok (Some epoch).

Fixpoint keep_loop (fuel : nat) (offset pos : Z) (buf : bytes) : res Z :=
  if pos + 12 <=? len buf then
    match fuel with
    | O => Err EFuel
    | S fuel =>
        base_offset ← get_be_s 8 pos buf;
        bl ← get_be_s 4 (pos + 8) buf;
        let batch_length := as_usize bl in
        let batch_end := as_usize (pos + 12 + batch_length) in
        if (batch_length <? 9) || (len buf <? batch_end) then Ok (len buf) else
        if offset <=? base_offset then Ok pos else
        keep_loop fuel offset batch_end buf
    end
  else Ok (len buf).

Definition keep_len_below_offset (buf : bytes) (offset : Z) : res Z :=
  keep_loop (length buf) offset 0 buf.

Section WithCrc.
Context `{!Crc32c}.

Fixpoint sanitize_loop (fuel : nat) (pos : Z) (buf : bytes) : res bytes :=
  if pos + 21 <=? len buf then
    match fuel with
    | O => Err EFuel
    | S fuel =>
        bl ← get_be_s 4 (pos + 8) buf;
        let batch_length := as_usize bl in
        let batch_end := as_usize (pos + 12 + batch_length) in
        if (batch_length <? 9) || (len buf <? batch_end) then Ok buf else
        magic ← get_be_s 1 (pos + 16) buf;
        attributes ← get_be_u 2 (pos + 21) buf;
        let is_control := negb (Z.land attributes 32 =? 0) in
        if (magic =? 2) && is_control then
          covered ← slice (pos + 21) (batch_end - (pos + 21)) buf;
          buf ← copy_from_slice (pos + 17) (be_bytes 4 (crc32c covered)) buf;
          sanitize_loop fuel batch_end buf
        else sanitize_loop fuel batch_end buf
    end
  else Ok buf.

Definition sanitize_batch_crcs (buf : bytes) : res bytes := sanitize_loop (length buf) 0 buf.
End WithCrc.

(** * Fields of a batch inside a buffer *)

Lemma slice_mid a f b n : n = len f -> slice (len a) n (a ++ f ++ b) = Ok f.
Proof.
  intros ->. unfold slice, len. rewrite !length_app, !Nat2Z.id.
  destruct (Z.leb_spec 0 (Z.of_nat (length a))); [|lia].
  destruct (Z.leb_spec 0 (Z.of_nat (length f))); [|lia].
  destruct (Z.leb_spec (Z.of_nat (length a) + Z.of_nat (length f))
              (Z.of_nat (length a + (length f + length b)))); [|lia].
  cbn [andb]. by rewrite drop_app_length, take_app_length.
Qed.

Lemma get_be_s_mid a b n pos (k : nat) x : pos = len a -> n = Z.of_nat k -> (0 < k)%nat ->
  in_s (8 * Z.of_nat k) x -> get_be_s n pos (a ++ be_bytes k x ++ b) = Ok x.
Proof.
  intros -> -> Hk Hx. unfold get_be_s. rewrite slice_mid by (by rewrite len_be_bytes).
  cbn [mbind res_bind]. rewrite be_val_be_bytes, pow256.
  change (x mod 2 ^ (8 * Z.of_nat k)) with (wrap_u (8 * Z.of_nat k) x).
  by rewrite wrap_s_wrap_u, wrap_s_id by (done || lia).
Qed.

Lemma get_be_u_mid a b n pos (k : nat) x : pos = len a -> n = Z.of_nat k ->
  in_u (8 * Z.of_nat k) x -> get_be_u n pos (a ++ be_bytes k x ++ b) = Ok x.
Proof.
  intros -> -> Hx. unfold get_be_u. rewrite slice_mid by (by rewrite len_be_bytes).
  cbn [mbind res_bind]. rewrite be_val_be_bytes, pow256. f_equal. by apply wrap_u_id.
Qed.

Lemma copy_mid a f b new pos : pos = len a -> length f = length new ->
  copy_from_slice pos new (a ++ f ++ b) = Ok (a ++ new ++ b).
Proof.
  intros -> Hf. unfold copy_from_slice. rewrite !len_app.
  assert (len f = len new) as <- by (unfold len; lia).
  pose proof (len_nonneg a). pose proof (len_nonneg b).
  destruct (Z.leb_spec 0 (len a)); [|lia].
  destruct (Z.leb_spec (len a + len f) (len a + (len f + len b))); [|lia].
  cbn [andb]. rewrite splice_app; [done| |done]. unfold len. by rewrite Nat2Z.id.
Qed.

(** A v2 batch as it stands in a buffer: header, checksum field, records section. *)
Record wbatch : Type := mkW { wh : RecordBatchHeader; wc : Z; wz : bytes }.
Definition wire (w : wbatch) : bytes := batch_wire (wh w) (as_i32 (49 + len (wz w))) (wc w) (wz w).
Definition wire_ok (w : wbatch) : Prop := header_fields_ok (wh w) /\ 49 + len (wz w) < 2 ^ 31.
Definition set_epoch (e : Z) (h : RecordBatchHeader) : RecordBatchHeader :=
  mkRecordBatchHeader (base_offset h) (batch_length h) e (magic h) (crc h) (attributes h)
    (last_offset_delta h) (base_timestamp h) (max_timestamp h) (producer_id h)
    (producer_epoch h) (base_sequence h) (records_count h).

Lemma len_walk_wire w : len (wire w) = 61 + len (wz w).
Proof. unfold wire. by rewrite len_batch_wire. Qed.

Lemma crc_region_set_epoch e h z : crc_region (set_epoch e h) z = crc_region h z.
Proof. done. Qed.

Lemma crc_region_len h z : len (crc_region h z) = 40 + len z.
Proof. unfold crc_region. rewrite !len_app, !len_be_bytes. lia. Qed.

Section Fields.
Context (pre rest : bytes) (w : wbatch) (Hok : wire_ok w).

Lemma wire_length_in : in_s 32 (as_i32 (49 + len (wz w))) /\ as_i32 (49 + len (wz w)) = 49 + len (wz w).
Proof.
  destruct Hok as [_ Hl]. pose proof (len_nonneg (wz w)).
  split; [apply wrap_s_range; lia|]. apply wrap_s_id; unfold in_s; lia.
Qed.

Lemma field_base : get_be_s 8 (len pre) (pre ++ wire w ++ rest) = Ok (base_offset (wh w)).
Proof.
  unfold wire, batch_wire. rewrite <- !app_assoc.
  apply (get_be_s_mid pre _ 8 _ 8); [done|done|lia|]. apply Hok.
Qed.

Lemma field_length :
  get_be_s 4 (len pre + 8) (pre ++ wire w ++ rest) = Ok (49 + len (wz w)).
Proof.
  destruct wire_length_in as [Hin Heq]. rewrite <- Heq.
  unfold wire, batch_wire. rewrite <- !app_assoc, (app_assoc pre).
  apply (get_be_s_mid _ _ 4 _ 4); [by rewrite len_app, len_be_bytes|done|lia|done].
Qed.

Lemma field_epoch :
  get_be_s 4 (len pre + 12) (pre ++ wire w ++ rest) = Ok (partition_leader_epoch (wh w)).
Proof.
  unfold wire, batch_wire. rewrite <- !app_assoc, (app_assoc pre), (app_assoc (pre ++ _)).
  apply (get_be_s_mid _ _ 4 _ 4); [rewrite !len_app, !len_be_bytes; lia|done|lia|]. apply Hok.
Qed.

Lemma field_magic : get_be_s 1 (len pre + 16) (pre ++ wire w ++ rest) = Ok 2.
Proof.
  destruct Hok as [(_ & _ & Hm & _) _].
  unfold wire, batch_wire. rewrite Hm.
  rewrite <- !app_assoc, (app_assoc pre), (app_assoc (pre ++ _)), (app_assoc ((pre ++ _) ++ _)).
  apply (get_be_s_mid _ _ 1 _ 1); [rewrite !len_app, !len_be_bytes; lia|done|lia|].
  unfold in_s, MAGIC_V2. lia.
Qed.

(** The five fields before the attributes, as one prefix. *)
Lemma wire_split : exists hd, len hd = 21 /\ wire w = hd ++ crc_region (wh w) (wz w).
Proof.
  exists (be_bytes 8 (base_offset (wh w)) ++ be_bytes 4 (as_i32 (49 + len (wz w)))
     ++ be_bytes 4 (partition_leader_epoch (wh w)) ++ be_bytes 1 (magic (wh w)) ++ be_bytes 4 (wc w)).
  rewrite !len_app, !len_be_bytes. split; [lia|]. unfold wire, batch_wire. by rewrite <- !app_assoc.
Qed.

Lemma field_attributes :
  get_be_u 2 (len pre + 21) (pre ++ wire w ++ rest) = Ok (attributes (wh w)).
Proof.
  destruct wire_split as (hd & Hl & ->). unfold crc_region. rewrite <- !app_assoc, (app_assoc pre).
  apply (get_be_u_mid _ _ 2 _ 2); [rewrite len_app; lia|done|]. apply Hok.
Qed.

Lemma field_covered :
  slice (len pre + 21) (40 + len (wz w)) (pre ++ wire w ++ rest) = Ok (crc_region (wh w) (wz w)).
Proof.
  destruct wire_split as (hd & Hl & ->). rewrite <- !app_assoc, (app_assoc pre).
  rewrite <- Hl, <- len_app. apply slice_mid. by rewrite crc_region_len.
Qed.

Lemma write_epoch e :
  copy_from_slice (len pre + 12) (be_bytes 4 e) (pre ++ wire w ++ rest)
  = Ok (pre ++ wire (mkW (set_epoch e (wh w)) (wc w) (wz w)) ++ rest).
Proof.
  unfold wire, batch_wire. cbn [wh wc wz].
  rewrite <- !app_assoc, (app_assoc pre), (app_assoc (pre ++ _)).
  rewrite copy_mid by (rewrite ?len_app, ?len_be_bytes, ?length_be_bytes; lia).
  by rewrite <- !app_assoc.
Qed.

Lemma write_crc c :
  copy_from_slice (len pre + 17) (be_bytes 4 c) (pre ++ wire w ++ rest)
  = Ok (pre ++ wire (mkW (wh w) c (wz w)) ++ rest).
Proof.
  unfold wire, batch_wire. cbn [wh wc wz].
  rewrite <- !app_assoc, (app_assoc pre), (app_assoc (pre ++ _)), (app_assoc ((pre ++ _) ++ _)),
    (app_assoc (((pre ++ _) ++ _) ++ _)).
  rewrite copy_mid by (rewrite ?len_app, ?len_be_bytes, ?length_be_bytes; lia).
  by rewrite <- !app_assoc.
Qed.

(** Where the next batch starts. *)
Lemma next_batch : len (pre ++ wire w ++ rest) <= isize_max ->
  as_usize (49 + len (wz w)) = 49 + len (wz w) /\
  as_usize (len pre + 12 + (49 + len (wz w))) = len (pre ++ wire w).
Proof.
  rewrite !len_app, len_walk_wire. unfold isize_max. intros Hl.
  pose proof (len_nonneg pre). pose proof (len_nonneg rest). pose proof (len_nonneg (wz w)).
  split; [apply wrap_u_id; unfold in_u; lia|].
  rewrite wrap_u_id by (unfold in_u; lia). lia.
Qed.
End Fields.

(** * The walks over well-formed batches *)

Definition blob (ws : list wbatch) : bytes := concat (wire <$> ws).

Lemma blob_cons w ws : blob (w :: ws) = wire w ++ blob ws.
Proof. done. Qed.

Lemma length_blob ws : (length ws <= length (blob ws))%nat.
Proof.
  induction ws as [|w ws IH]; [done|]. rewrite blob_cons, length_app. cbn [length].
  pose proof (len_walk_wire w) as Hl. pose proof (len_nonneg (wz w)). unfold len in *. lia.
Qed.

Ltac eval_test :=
  match goal with
  | |- context [?a <? ?b] =>
      first [rewrite (proj2 (Z.ltb_lt a b)) by lia | rewrite (proj2 (Z.ltb_ge a b)) by lia]
  | |- context [?a <=? ?b] =>
      first [rewrite (proj2 (Z.leb_le a b)) by lia | rewrite (proj2 (Z.leb_gt a b)) by lia]
  end.

Definition stamp (e : Z) (w : wbatch) : wbatch := mkW (set_epoch e (wh w)) (wc w) (wz w).

Lemma read_epoch_wire w rest : wire_ok w ->
  read_leader_epoch (wire w ++ rest) = Ok (Some (partition_leader_epoch (wh w))).
Proof.
  intros Hok. unfold read_leader_epoch, MIN_BATCH_HEADER, MAGIC_OFFSET, LEADER_EPOCH_OFFSET.
  pose proof (field_magic [] rest w Hok) as Hm. pose proof (field_epoch [] rest w Hok) as He.
  change (len []) with 0 in *. rewrite !app_nil_l, !Z.add_0_l in *.
  rewrite len_app, len_walk_wire. pose proof (len_nonneg (wz w)). pose proof (len_nonneg rest).
  eval_test. rewrite Hm. cbn [mbind res_bind]. change (negb (2 =? 2)) with false. cbv iota.
  by rewrite He.
Qed.

(** One iteration of each walk. *)
Section Steps.
Context (pre rest : bytes) (w : wbatch) (Hok : wire_ok w).
Context (Hmax : len (pre ++ wire w ++ rest) <= isize_max).

Lemma walk_facts :
  len (pre ++ wire w ++ rest) = len pre + 61 + len (wz w) + len rest /\
  len (pre ++ wire w) = len pre + 61 + len (wz w) /\
  0 <= len pre /\ 0 <= len (wz w) /\ 0 <= len rest.
Proof.
  rewrite !len_app, len_walk_wire.
  pose proof (len_nonneg pre). pose proof (len_nonneg (wz w)). pose proof (len_nonneg rest). lia.
Qed.

Lemma stamp_step fuel e n :
  stamp_loop (S fuel) e (len pre) n (pre ++ wire w ++ rest)
  = stamp_loop fuel e (len (pre ++ wire (stamp e w))) (n + 1) ((pre ++ wire (stamp e w)) ++ rest).
Proof.
  destruct (next_batch pre rest w Hmax) as [Hbl Hend]. pose proof walk_facts as Hf.
  cbn [stamp_loop]. unfold MIN_BATCH_HEADER, BATCH_LENGTH_OFFSET, MAGIC_OFFSET, LEADER_EPOCH_OFFSET.
  eval_test. rewrite field_length by done. cbn [mbind res_bind]. eval_test. cbv zeta.
  rewrite Hbl, Hend. eval_test.
  rewrite field_magic by done. cbn [mbind res_bind]. change (negb (2 =? 2)) with false. cbv iota.
  rewrite write_epoch. cbn [mbind res_bind]. fold (stamp e w). rewrite <- app_assoc.
  f_equal. rewrite !len_app, !len_walk_wire. done.
Qed.

Lemma keep_step fuel offset :
  keep_loop (S fuel) offset (len pre) (pre ++ wire w ++ rest)
  = if offset <=? base_offset (wh w) then Ok (len pre)
    else keep_loop fuel offset (len (pre ++ wire w)) ((pre ++ wire w) ++ rest).
Proof.
  destruct (next_batch pre rest w Hmax) as [Hbl Hend]. pose proof walk_facts as Hf.
  cbn [keep_loop]. eval_test. rewrite field_base by done. cbn [mbind res_bind].
  rewrite field_length by done. cbn [mbind res_bind]. cbv zeta. rewrite Hbl, Hend.
  do 2 eval_test. cbn [orb]. by rewrite <- app_assoc.
Qed.

Definition is_control (h : RecordBatchHeader) : bool :=
  negb (Z.land (attributes h) CONTROL_FLAG =? 0).

(** A control batch with its checksum recomputed. *)
Definition repair `{!Crc32c} (w : wbatch) : wbatch :=
  if is_control (wh w) then mkW (wh w) (crc32c (crc_region (wh w) (wz w))) (wz w) else w.

Lemma len_wire_repair `{!Crc32c} : len (wire (repair w)) = len (wire w).
Proof. unfold repair. by destruct (is_control _); rewrite !len_walk_wire. Qed.

Lemma sanitize_step `{!Crc32c} fuel :
  sanitize_loop (S fuel) (len pre) (pre ++ wire w ++ rest)
  = sanitize_loop fuel (len (pre ++ wire (repair w))) ((pre ++ wire (repair w)) ++ rest).
Proof.
  destruct (next_batch pre rest w Hmax) as [Hbl Hend]. pose proof walk_facts as Hf.
  cbn [sanitize_loop]. eval_test. rewrite field_length by done. cbn [mbind res_bind].
  cbv zeta. rewrite Hbl, Hend. do 2 eval_test. cbn [orb].
  rewrite field_magic by done. cbn [mbind res_bind]. rewrite field_attributes by done.
  cbn [mbind res_bind]. change (2 =? 2) with true. cbn [andb].
  rewrite <- app_assoc, (len_app pre (wire (repair w))), len_wire_repair, <- len_app.
  unfold repair, is_control, CONTROL_FLAG. destruct (negb _); [|done].
  replace (len (pre ++ wire w) - (len pre + 21)) with (40 + len (wz w)) by lia.
  rewrite field_covered. cbn [mbind res_bind]. rewrite write_crc. done.
Qed.
End Steps.

(** * The walks over well-formed batches *)

Lemma stamp_walk e tail ws : len tail < MIN_BATCH_HEADER -> Forall wire_ok ws ->
  forall fuel pre n, len (pre ++ blob ws ++ tail) <= isize_max -> (length ws <= fuel)%nat ->
  stamp_loop fuel e (len pre) n (pre ++ blob ws ++ tail)
  = Ok (n + Z.of_nat (length ws), pre ++ blob (stamp e <$> ws) ++ tail).
Proof.
  intros Ht. induction 1 as [|w ws Hw Hws IH]; intros fuel pre n Hmax Hf.
  { destruct fuel; cbn [stamp_loop fmap list_fmap blob concat app];
      rewrite len_app; unfold MIN_BATCH_HEADER in *; eval_test; do 2 f_equal; cbn; lia. }
  destruct fuel as [|fuel]; [cbn in Hf; lia|]. rewrite fmap_cons, !blob_cons, <- !app_assoc in *.
  rewrite stamp_step by done. rewrite IH.
  - rewrite <- app_assoc. cbn [length]. do 2 f_equal. lia.
  - rewrite <- app_assoc. rewrite !len_app, !len_walk_wire in *. cbn [wz stamp]. lia.
  - cbn in Hf. lia.
Qed.

Definition reaches (offset : Z) (w : wbatch) : Prop := offset <= base_offset (wh w).

Lemma keep_walk offset tail ws : len tail < 12 -> Forall wire_ok ws ->
  forall fuel pre, len (pre ++ blob ws ++ tail) <= isize_max -> (length ws <= fuel)%nat ->
  exists lo hi, ws = lo ++ hi /\ Forall (fun w => base_offset (wh w) < offset) lo /\
    keep_loop fuel offset (len pre) (pre ++ blob ws ++ tail)
    = Ok (len (pre ++ match hi with [] => blob ws ++ tail | _ => blob lo end)) /\
    match hi with [] => True | h :: _ => reaches offset h end.
Proof.
  intros Ht. induction 1 as [|w ws Hw Hws IH]; intros fuel pre Hmax Hf.
  { exists [], []. split_and!; [done|by constructor| |done].
    destruct fuel; cbn [keep_loop blob fmap list_fmap concat app]; rewrite len_app; by eval_test. }
  destruct fuel as [|fuel]; [cbn in Hf; lia|]. rewrite !blob_cons, <- !app_assoc in *.
  rewrite keep_step by done. destruct (Z.leb_spec offset (base_offset (wh w))) as [Hr|Hr].
  - exists [], (w :: ws). split_and!; [done|by constructor| |done]. by rewrite app_nil_r.
  - destruct (IH fuel (pre ++ wire w)) as (lo & hi & Hws' & Hlo & Hk & Hhi).
    { by rewrite <- app_assoc. }
    { cbn in Hf. lia. }
    exists (w :: lo), hi. split_and!; [by rewrite Hws'|by constructor| |done].
    rewrite Hk, <- app_assoc. by destruct hi.
Qed.

Lemma sanitize_walk `{!Crc32c} tail ws : len tail < 21 -> Forall wire_ok ws ->
  forall fuel pre, len (pre ++ blob ws ++ tail) <= isize_max -> (length ws <= fuel)%nat ->
  sanitize_loop fuel (len pre) (pre ++ blob ws ++ tail)
  = Ok (pre ++ blob (repair <$> ws) ++ tail).
Proof.
  intros Ht. induction 1 as [|w ws Hw Hws IH]; intros fuel pre Hmax Hf.
  { destruct fuel; cbn [sanitize_loop fmap list_fmap blob concat app]; rewrite len_app; by eval_test. }
  destruct fuel as [|fuel]; [cbn in Hf; lia|]. rewrite fmap_cons, !blob_cons, <- !app_assoc in *.
  rewrite sanitize_step by done. rewrite IH.
  - by rewrite <- app_assoc.
  - rewrite <- app_assoc. rewrite !len_app in *. rewrite len_wire_repair. lia.
  - cbn in Hf. lia.
Qed.

(** * Encoded batches *)

Section Encoded.
Context `{!Crc32c, !BlockCodec}.

(** A batch the storage codec wrote, with its bytes. *)
Definition written (p : KafkaRecordBatch * bytes) : Prop :=
  header_fields_ok (header p.1) /\ encode p.1 = Ok p.2 /\ len p.2 < 2 ^ 31.

Definition with_epoch (e : Z) (b : KafkaRecordBatch) : KafkaRecordBatch :=
  mkKafkaRecordBatch (set_epoch e (header b)) (records b) (compressed_records_data b).

(** The view of a written batch with a checksum field of choice. *)
Definition view (c : Z) (p : KafkaRecordBatch * bytes) (w : wbatch) : Prop :=
  wire_ok w /\ wh w = header p.1 /\ wc w = c /\ encode_records p.1 = Ok (wz w)
  /\ wire w = splice 17 (be_bytes 4 c) p.2.

Lemma written_view p c : written p -> exists w, view c p w.
Proof.
  intros (Hh & He & Hl). destruct p as [b out]. cbn [fst snd] in *.
  destruct (encode_records b) as [z|e|] eqn:Ez; [|by unfold encode in He; rewrite Ez in He..].
  rewrite (encode_wire b z Ez) in He. injection He as <-. rewrite len_batch_wire in Hl.
  exists (mkW (header b) c z). unfold view, wire_ok, wire. cbn [wh wc wz fst snd].
  rewrite splice_crc. split_and!; [done|lia|done|done|done|done].
Qed.

Lemma written_out p : written p ->
  exists z, encode_records p.1 = Ok z /\
    p.2 = wire (mkW (header p.1) (crc32c (crc_region (header p.1) z)) z) /\ 49 + len z < 2 ^ 31.
Proof.
  intros (Hh & He & Hl). destruct (encode_records p.1) as [z|e|] eqn:Ez;
    [|by unfold encode in He; rewrite Ez in He..].
  rewrite (encode_wire _ z Ez) in He. injection He as He. exists z.
  rewrite <- He, len_batch_wire in Hl. unfold wire. cbn [wh wc wz]. split_and!; [done|done|lia].
Qed.

(** The written batches as walkable ones. *)
Lemma written_blob (l : list (KafkaRecordBatch * bytes)) : Forall written l ->
  exists ws, Forall wire_ok ws /\ wire <$> ws = l.*2 /\
    Forall2 (fun p w => wh w = header p.1 /\ encode_records p.1 = Ok (wz w) /\
                        wc w = crc32c (crc_region (header p.1) (wz w))) l ws.
Proof.
  induction 1 as [|p l Hp Hl (ws & Hok & Hw & Hv)]; [by exists []|].
  destruct (written_out p Hp) as (z & Ez & Hout & Hlen).
  exists (mkW (header p.1) (crc32c (crc_region (header p.1) z)) z :: ws).
  rewrite !fmap_cons, <- Hout, Hw. split_and!; [|done|by constructor].
  constructor; [|done]. split; [apply Hp|done].
Qed.

Lemma stamped_encodes e (p : KafkaRecordBatch * bytes) w :
  wh w = header p.1 -> encode_records p.1 = Ok (wz w) ->
  wc w = crc32c (crc_region (header p.1) (wz w)) ->
  encode (with_epoch e p.1) = Ok (wire (stamp e w)).
Proof.
  intros Hh Hz Hc. rewrite (encode_wire (with_epoch e p.1) (wz w) Hz). unfold wire, stamp. cbn [wh wc wz].
  by rewrite Hc, Hh.
Qed.

Lemma stamp_wire_ok e w : 0 <= e < 2 ^ 31 -> wire_ok w -> wire_ok (stamp e w).
Proof.
  intros He [(H1 & H2 & H3) Hl]. split; [|done]. split; [exact H1|]. split; [|exact H3].
  cbn. unfold in_s. lia.
Qed.

(** The same batches with the checksum fields replaced. *)
Definition with_crcs (l : list (KafkaRecordBatch * bytes * Z)) : bytes :=
  concat ((fun q => splice 17 (be_bytes 4 q.2) q.1.2) <$> l).

Lemma damaged_blob (l : list (KafkaRecordBatch * bytes * Z)) : Forall (fun q => written q.1) l ->
  exists ws, Forall wire_ok ws /\ blob ws = with_crcs l /\
    blob (repair <$> ws)
    = concat ((fun q => if is_control (header q.1.1) then q.1.2
                        else splice 17 (be_bytes 4 q.2) q.1.2) <$> l).
Proof.
  induction 1 as [|[p c] l Hp Hl (ws & Hok & Hw & Hr)]; [by exists []|]. cbn [fst] in Hp.
  destruct (written_view p c Hp) as (w & Hwok & Hh & Hc & Hz & Hwire).
  destruct (written_out p Hp) as (z & Ez & Hout & _).
  exists (w :: ws). rewrite fmap_cons, !blob_cons. unfold with_crcs. rewrite !fmap_cons. cbn [concat fst snd].
  split_and!; [by constructor|by rewrite Hwire, Hw|]. rewrite Hr. f_equal.
  unfold repair. rewrite Hh. destruct (is_control _); [|done].
  rewrite Hout. assert (z = wz w) as -> by congruence. done.
Qed.
End Encoded.

(** [C6] Stamping the leader epoch into a buffer of batches the storage codec wrote gives
    exactly the bytes that encoding the batches with that epoch would give, checksums included,
    so they stay valid; every batch is stamped, an incomplete batch at the end is left alone,
    and the epoch is read back from the result. *)
Theorem stamping_reencodes `{!Crc32c, !BlockCodec} (l : list (KafkaRecordBatch * bytes))
    (tail : bytes) (e : Z) :
  Forall written l -> len tail < MIN_BATCH_HEADER -> 0 <= e < 2 ^ 31 ->
  len (concat l.*2 ++ tail) <= isize_max ->
  exists outs,
    Forall2 (fun p out => encode (with_epoch e p.1) = Ok out) l outs /\
    stamp_leader_epoch (concat l.*2 ++ tail) e
      = Ok (Z.of_nat (length l), concat outs ++ tail) /\
    (l <> [] -> read_leader_epoch (concat outs ++ tail) = Ok (Some e)).
Proof.
  intros Hl Ht He Hmax. destruct (written_blob l Hl) as (ws & Hok & Hw & Hv).
  assert (length l = length ws) as Hlen by (eapply Forall2_length; exact Hv).
  exists (wire <$> (stamp e <$> ws)). split_and!.
  - clear -Hv. induction Hv as [|p w l ws (Hh & Hz & Hc) Hv IH]; constructor; [|done].
    by apply stamped_encodes.
  - unfold stamp_leader_epoch. rewrite (proj2 (Z.ltb_ge e 0)) by lia.
    rewrite <- Hw in Hmax |- *. fold (blob ws) in *.
    rewrite (stamp_walk e tail ws Ht Hok _ []); [by rewrite Hlen|done|].
    pose proof (length_blob ws). rewrite length_app. lia.
  - intros Hne. destruct Hv as [|p w l' ws' (Hh & _) Hv]; [done|]. apply Forall_cons in Hok as [Hw0 _].
    rewrite !fmap_cons. cbn [concat]. set (rest := concat _). rewrite <- app_assoc.
    pose proof (stamp_wire_ok e w He Hw0) as Hs.
    by rewrite read_epoch_wire.
Qed.

(** Base offsets of a written batch. *)
Definition base_of (p : KafkaRecordBatch * bytes) : Z := base_offset (header p.1).

Lemma cut_filter (R : KafkaRecordBatch * bytes -> KafkaRecordBatch * bytes -> Prop) offset lo hi :
  (forall p q, R p q -> base_of p <= base_of q) -> StronglySorted R (lo ++ hi) ->
  Forall (fun p => base_of p < offset) lo ->
  match hi with [] => True | h :: _ => offset <= base_of h end ->
  filter (fun p => base_of p < offset) (lo ++ hi) = lo.
Proof.
  intros HR Hs Hlo Hhi. rewrite filter_app, filter_all by done.
  rewrite (filter_none _ hi); [apply app_nil_r|].
  apply StronglySorted_app_1_r in Hs. destruct hi as [|h hi]; [constructor|].
  apply StronglySorted_inv in Hs as [_ Hall]. constructor; [lia|].
  eapply Forall_impl; [exact Hall|]. intros q Hq%HR. cbn in *. lia.
Qed.

(** [C15] A read_committed fetch cut at an offset: over batches the storage codec wrote in
    increasing order of base offset, the kept length is that of exactly the batches that begin
    below the offset; when every batch begins below it, the whole buffer is kept, an incomplete
    batch at the end included. *)
Theorem committed_read_cut `{!Crc32c, !BlockCodec} (l : list (KafkaRecordBatch * bytes))
    (tail : bytes) (offset : Z) :
  Forall written l -> StronglySorted (fun p q => base_of p < base_of q) l -> len tail < 12 ->
  len (concat l.*2 ++ tail) <= isize_max ->
  exists k, keep_len_below_offset (concat l.*2 ++ tail) offset = Ok k /\
    take (Z.to_nat k) (concat l.*2 ++ tail)
    = concat (filter (fun p => base_of p < offset) l).*2
      ++ (if decide (Forall (fun p => base_of p < offset) l) then tail else []).
Proof.
  intros Hl Hs Ht Hmax. destruct (written_blob l Hl) as (ws & Hok & Hw & Hv).
  rewrite <- Hw in *. fold (blob ws) in *. unfold keep_len_below_offset.
  destruct (keep_walk offset tail ws Ht Hok (length (blob ws ++ tail)) [] Hmax)
    as (lo & hi & -> & Hlo & Hk & Hhi).
  { pose proof (length_blob ws). rewrite length_app. lia. }
  change (len []) with 0 in Hk. rewrite !app_nil_l in Hk. eexists. split; [exact Hk|].
  apply Forall2_app_inv_r in Hv as (llo & lhi & Hvlo & Hvhi & ->).
  assert (Forall (fun p => base_of p < offset) llo) as Hplo.
  { clear -Hvlo Hlo. induction Hvlo as [|p w ? ? (Hh & _) _ IH]; [constructor|].
    apply Forall_cons in Hlo as [Hw Hlo]. constructor; [unfold base_of; by rewrite <- Hh|auto]. }
  rewrite fmap_app in Hw. rewrite fmap_app in Hw. apply app_inj_1 in Hw as [Hwlo Hwhi];
    [|rewrite !length_fmap; symmetry; eapply Forall2_length; exact Hvlo].
  rewrite (cut_filter (fun p q => base_of p < base_of q)); [|intros; lia|done|done|].
  2: { destruct Hvhi as [|p w ? ? (Hh & _) _]; [done|]. unfold base_of. rewrite <- Hh. exact Hhi. }
  unfold len. rewrite Nat2Z.id. destruct Hvhi as [|p w lhi hi (Hh & _) Hvhi].
  - rewrite decide_True by (by rewrite app_nil_r). rewrite firstn_all.
    rewrite app_nil_r in *. unfold blob. by rewrite Hwlo.
  - rewrite decide_False.
    2: { intros HF. apply Forall_app in HF as [_ HF]. apply Forall_cons in HF as [HF _].
         unfold base_of in HF. rewrite <- Hh in HF. unfold reaches in Hhi. lia. }
    unfold blob at 2. rewrite fmap_app, concat_app, <- app_assoc. fold (blob lo).
    rewrite take_app_length, app_nil_r. unfold blob. by rewrite Hwlo.
Qed.

(** [C23] Whatever the checksum fields of a buffer of batches hold, the repair gives every
    control batch the checksum the encoder computes, big-endian as the encoder writes it, and leaves
    every other byte alone: producer batches with whatever checksum they carry, and an incomplete
    batch at the end.  (The function's comment speaks of every v2 batch and of little-endian; the code
    and the encoder do not.) *)
Theorem control_checksums_repaired `{!Crc32c, !BlockCodec}
    (l : list (KafkaRecordBatch * bytes * Z)) (tail : bytes) :
  Forall (fun q => written q.1) l -> len tail < 21 ->
  len (with_crcs l ++ tail) <= isize_max ->
  sanitize_batch_crcs (with_crcs l ++ tail)
  = Ok (concat ((fun q => if is_control (header q.1.1) then q.1.2
                          else splice 17 (be_bytes 4 q.2) q.1.2) <$> l) ++ tail).
Proof.
  intros Hl Ht Hmax. destruct (damaged_blob l Hl) as (ws & Hok & Hb & Hr).
  rewrite <- Hb in Hmax |- *. unfold sanitize_batch_crcs.
  rewrite (sanitize_walk tail ws Ht Hok (length (blob ws ++ tail)) []); [by rewrite Hr|done|].
  pose proof (length_blob ws). rewrite length_app. lia.
Qed.

(** * Malformed batches *)

(** The fields before the attributes, in general. *)
Definition raw_batch (base bl ep m c : Z) (body : bytes) : bytes :=
  be_bytes 8 base ++ be_bytes 4 bl ++ be_bytes 4 ep ++ be_bytes 1 m ++ be_bytes 4 c ++ body.

Lemma raw_len base bl ep m c body : len (raw_batch base bl ep m c body) = 21 + len body.
Proof. unfold raw_batch. rewrite !len_app, !len_be_bytes. lia. Qed.

Section RawFields.
Context (pre : bytes) (base bl ep m c : Z) (body : bytes).
Let buf := pre ++ raw_batch base bl ep m c body.

Lemma raw_base : in_s 64 base -> get_be_s 8 (len pre) buf = Ok base.
Proof. intros H. unfold buf, raw_batch. by apply (get_be_s_mid pre _ 8 _ 8); [|done|lia|]. Qed.
Lemma raw_length : in_s 32 bl -> get_be_s 4 (len pre + 8) buf = Ok bl.
Proof.
  intros H. unfold buf, raw_batch. rewrite (app_assoc pre).
  apply (get_be_s_mid _ _ 4 _ 4); [by rewrite len_app, len_be_bytes|done|lia|done].
Qed.
Lemma raw_magic : in_s 8 m -> get_be_s 1 (len pre + 16) buf = Ok m.
Proof.
  intros H. unfold buf, raw_batch. rewrite (app_assoc pre), (app_assoc (pre ++ _)), (app_assoc ((pre ++ _) ++ _)).
  apply (get_be_s_mid _ _ 1 _ 1); [rewrite !len_app, !len_be_bytes; lia|done|lia|done].
Qed.
Lemma raw_attributes a : (exists t, body = be_bytes 2 a ++ t) -> in_u 16 a -> get_be_u 2 (len pre + 21) buf = Ok a.
Proof.
  intros [t ->] H. unfold buf, raw_batch.
  rewrite (app_assoc pre), (app_assoc (pre ++ _)), (app_assoc ((pre ++ _) ++ _)), (app_assoc (((pre ++ _) ++ _) ++ _)),
    (app_assoc ((((pre ++ _) ++ _) ++ _) ++ _)).
  apply (get_be_u_mid _ _ 2 _ 2); [rewrite !len_app, !len_be_bytes; lia|done|done].
Qed.
End RawFields.

Lemma raw_no_attributes base bl ep m c : get_be_u 2 21 (raw_batch base bl ep m c []) = Panic.
Proof.
  unfold get_be_u, slice. rewrite raw_len.
  change ((0 <=? 21) && (0 <=? 2) && (21 + 2 <=? 21 + len [])) with false. done.
Qed.

(** ** A length field of -12 *)
Section Stuck.
Context `{!Crc32c} (base ep m c a : Z) (body : bytes).
Context (Hbase : in_s 64 base) (Hm : in_s 8 m) (Ha : in_u 16 a).
Definition stuck_batch : bytes := raw_batch base (-12) ep m c (be_bytes 2 a ++ body).
Definition control_v2 : bool := (m =? 2) && negb (Z.land a 32 =? 0).

Lemma stuck_len : 23 <= len stuck_batch.
Proof. unfold stuck_batch. rewrite raw_len, len_app, len_be_bytes. pose proof (len_nonneg body). lia. Qed.
(** The cast of the length field wraps the end of the batch to its start. *)
Lemma stuck_end pos : 0 <= pos <= isize_max -> as_usize (pos + 12 + as_usize (-12)) = pos.
Proof.
  intros Hp. change (as_usize (-12)) with (2 ^ 64 - 12). unfold isize_max in Hp. unfold wrap_u.
  replace (pos + 12 + (2 ^ 64 - 12)) with (pos + 1 * 2 ^ 64) by lia. rewrite Z.mod_add, Z.mod_small by lia. done.
Qed.

(** One iteration of each walk at the batch. *)
Context (pre : bytes) (Hmax : len (pre ++ stuck_batch) <= isize_max).
Lemma stuck_facts : 0 <= len pre /\ len (pre ++ stuck_batch) = len pre + len stuck_batch.
Proof. split; [apply len_nonneg|apply len_app]. Qed.

Lemma stuck_base : get_be_s 8 (len pre) (pre ++ stuck_batch) = Ok base.
Proof. by apply raw_base. Qed.
Lemma stuck_length : get_be_s 4 (len pre + 8) (pre ++ stuck_batch) = Ok (-12).
Proof. apply raw_length. unfold in_s. lia. Qed.
Lemma stuck_magic : get_be_s 1 (len pre + 16) (pre ++ stuck_batch) = Ok m.
Proof. by apply raw_magic. Qed.
Lemma stuck_attributes : get_be_u 2 (len pre + 21) (pre ++ stuck_batch) = Ok a.
Proof. apply raw_attributes; [by eexists|done]. Qed.

Lemma keep_stuck fuel offset :
  keep_loop (S fuel) offset (len pre) (pre ++ stuck_batch)
  = if offset <=? base then Ok (len pre) else keep_loop fuel offset (len pre) (pre ++ stuck_batch).
Proof.
  pose proof stuck_len as Hs23. destruct stuck_facts as [Hp0 Hl]. cbn [keep_loop]. eval_test.
  rewrite stuck_base. cbn [mbind res_bind].
  rewrite stuck_length. cbn [mbind res_bind]. cbv zeta.
  rewrite stuck_end by lia. change (as_usize (-12) <? 9) with false. by eval_test.
Qed.
Lemma sanitize_stuck fuel :
  sanitize_loop (S fuel) (len pre) (pre ++ stuck_batch)
  = if control_v2 then Panic else sanitize_loop fuel (len pre) (pre ++ stuck_batch).
Proof.
  pose proof stuck_len as Hs23. destruct stuck_facts as [Hp0 Hl]. cbn [sanitize_loop]. eval_test.
  rewrite stuck_length. cbn [mbind res_bind]. cbv zeta.
  rewrite stuck_end by lia. change (as_usize (-12) <? 9) with false. eval_test. cbn [orb].
  rewrite stuck_magic. cbn [mbind res_bind].
  rewrite stuck_attributes. cbn [mbind res_bind].
  unfold control_v2. destruct (_ && _); [|done]. unfold slice. by rewrite (proj2 (Z.leb_gt 0 (len pre - (len pre + 21)))), andb_false_r by lia.
Qed.
Lemma stamp_stuck fuel e n : stamp_loop (S fuel) e (len pre) n (pre ++ stuck_batch) = Ok (n, pre ++ stuck_batch).
Proof.
  pose proof stuck_len as Hs23. destruct stuck_facts as [Hp0 Hl]. cbn [stamp_loop]. unfold MIN_BATCH_HEADER, BATCH_LENGTH_OFFSET. eval_test.
  rewrite stuck_length. done.
Qed.

Lemma keep_hangs fuel offset : base < offset -> keep_loop fuel offset (len pre) (pre ++ stuck_batch) = Err EFuel.
Proof.
  intros Ho. induction fuel as [|fuel IH]; [|rewrite keep_stuck; by destruct (Z.leb_spec offset base); [lia|]].
  pose proof stuck_len as Hs23. destruct stuck_facts as [Hp0 Hl]. cbn [keep_loop]. by eval_test.
Qed.
Lemma sanitize_hangs fuel : control_v2 = false -> sanitize_loop fuel (len pre) (pre ++ stuck_batch) = Err EFuel.
Proof.
  intros Hc. induction fuel as [|fuel IH]; [|by rewrite sanitize_stuck, Hc].
  pose proof stuck_len as Hs23. destruct stuck_facts as [Hp0 Hl]. cbn [sanitize_loop]. by eval_test.
Qed.
End Stuck.

(** ** The walks up to a batch behind well-formed ones *)
Section Prefix.
Context `{!Crc32c} (rest : bytes) (Hrest : 23 <= len rest).

Lemma keep_prefix offset ws : Forall wire_ok ws -> Forall (fun w => base_offset (wh w) < offset) ws ->
  forall pre fuel, len (pre ++ blob ws ++ rest) <= isize_max ->
  keep_loop fuel offset (len pre) (pre ++ blob ws ++ rest)
  = if (fuel <? length ws)%nat then Err EFuel
    else keep_loop (fuel - length ws) offset (len (pre ++ blob ws)) ((pre ++ blob ws) ++ rest).
Proof.
  intros Hok Hlt. induction ws as [|w ws IH]; intros pre fuel Hmax.
  { cbn [blob fmap list_fmap concat app length]. by rewrite app_nil_r, Nat.sub_0_r. }
  apply Forall_cons in Hok as [Hw Hok]. apply Forall_cons in Hlt as [Hwo Hlt]. rewrite blob_cons in *.
  rewrite <- !app_assoc in *. destruct fuel as [|fuel].
  { cbn [keep_loop]. destruct (walk_facts pre (blob ws ++ rest) w) as (-> & _ & ? & ? & ?). by eval_test. }
  rewrite keep_step by done. destruct (Z.leb_spec offset (base_offset (wh w))); [lia|].
  rewrite (app_assoc pre (wire w)) in Hmax. rewrite <- app_assoc, (app_assoc pre (wire w)), IH by done. cbn [length Nat.sub]. rewrite <- !app_assoc.
  by change (S fuel <? S (length ws))%nat with (fuel <? length ws)%nat.
Qed.
Lemma sanitize_prefix ws : Forall wire_ok ws ->
  forall pre fuel, len (pre ++ blob ws ++ rest) <= isize_max ->
  sanitize_loop fuel (len pre) (pre ++ blob ws ++ rest)
  = if (fuel <? length ws)%nat then Err EFuel
    else sanitize_loop (fuel - length ws) (len (pre ++ blob (repair <$> ws))) ((pre ++ blob (repair <$> ws)) ++ rest).
Proof.
  intros Hok. induction ws as [|w ws IH]; intros pre fuel Hmax.
  { cbn [blob fmap list_fmap concat app length]. by rewrite app_nil_r, Nat.sub_0_r. }
  apply Forall_cons in Hok as [Hw Hok]. rewrite fmap_cons, !blob_cons in *. rewrite <- !app_assoc in *. destruct fuel as [|fuel].
  { cbn [sanitize_loop]. destruct (walk_facts pre (blob ws ++ rest) w) as (-> & _ & ? & ? & ?). by eval_test. }
  rewrite sanitize_step by done. rewrite IH; [|done|]. 2:{ rewrite !len_app, len_wire_repair in *. lia. }
  cbn [length Nat.sub]. rewrite <- !app_assoc. by change (S fuel <? S (length ws))%nat with (fuel <? length ws)%nat.
Qed.
Lemma stamp_prefix e ws : Forall wire_ok ws ->
  forall pre fuel n, len (pre ++ blob ws ++ rest) <= isize_max -> (length ws <= fuel)%nat ->
  stamp_loop fuel e (len pre) n (pre ++ blob ws ++ rest)
  = stamp_loop (fuel - length ws) e (len (pre ++ blob (stamp e <$> ws))) (n + Z.of_nat (length ws)) ((pre ++ blob (stamp e <$> ws)) ++ rest).
Proof.
  intros Hok. induction ws as [|w ws IH]; intros pre fuel n Hmax Hf.
  { cbn [blob fmap list_fmap concat app length]. by rewrite app_nil_r, Nat.sub_0_r, Z.add_0_r. }
  apply Forall_cons in Hok as [Hw Hok]. rewrite fmap_cons, !blob_cons in *. rewrite <- !app_assoc in *. destruct fuel as [|fuel]; [cbn in Hf; lia|].
  rewrite stamp_step by done. rewrite IH; [|done| |cbn in Hf; lia]. 2:{ rewrite !len_app, !len_walk_wire in *. cbn [wz stamp]. lia. }
  cbn [length Nat.sub]. rewrite <- !app_assoc. f_equal. lia.
Qed.
End Prefix.

(** [C40] A length field of -12 makes the walks of the fetch path stand still, wherever in the buffer the
    batch stands behind well-formed ones that begin below the offset: the cast to an unsigned width
    wraps the end of the batch back to its start.  The cut of a read_committed fetch then runs past
    every bound, unless the batch begins at or above the offset, where it is cut off.  The checksum
    repair runs past every bound too, unless the batch is a v2 control batch, where it panics.  The
    stamping walk stops there, with the batches before it stamped. *)
Theorem malformed_length_hangs_fetch `{!Crc32c} (ws : list wbatch) (base ep m c a offset e : Z) (body : bytes) :
  Forall wire_ok ws -> Forall (fun w => base_offset (wh w) < offset) ws ->
  in_s 64 base -> in_s 8 m -> in_u 16 a -> 0 <= e ->
  let bad := stuck_batch base ep m c a body in
  let buf := blob ws ++ bad in
  len buf <= isize_max ->
  (if offset <=? base then keep_len_below_offset buf offset = Ok (len (blob ws))
   else forall fuel, keep_loop fuel offset 0 buf = Err EFuel)
  /\ (if control_v2 m a then sanitize_batch_crcs buf = Panic else forall fuel, sanitize_loop fuel 0 buf = Err EFuel)
  /\ stamp_leader_epoch buf e = Ok (Z.of_nat (length ws), blob (stamp e <$> ws) ++ bad).
Proof.
  intros Hok Hlt Hb Hm Ha He bad buf Hmax. pose proof (stuck_len base ep m c a body) as Hlen. fold bad in Hlen.
  assert (length ws < length buf)%nat as Hfuel.
  { pose proof (length_blob ws). unfold buf. rewrite length_app. unfold len in Hlen. lia. }
  assert (len (blob (repair <$> ws)) = len (blob ws) /\ len (blob (stamp e <$> ws)) = len (blob ws)) as [Hr Hs].
  { clear. induction ws as [|w ws [IH1 IH2]]; [done|]. rewrite !fmap_cons, !blob_cons, !len_app, IH1, IH2, len_wire_repair. by rewrite !len_walk_wire. }
  split_and!.
  - destruct (Z.leb_spec offset base).
    + unfold keep_len_below_offset. change 0 with (len []). change buf with ([] ++ blob ws ++ bad) at 2. rewrite keep_prefix by done.
      destruct (Nat.ltb_spec (length buf) (length ws)); [lia|]. replace (length buf - length ws)%nat with (S (length buf - length ws - 1)) by lia.
      cbn [app]. unfold bad. rewrite keep_stuck by done. by destruct (Z.leb_spec offset base); [|lia].
    + intros fuel. change 0 with (len []). change buf with ([] ++ blob ws ++ bad). rewrite keep_prefix by done.
      destruct (_ <? _)%nat; [done|]. cbn [app]. unfold bad. by apply keep_hangs.
  - destruct (control_v2 m a) eqn:Ec.
    + unfold sanitize_batch_crcs. change 0 with (len []). change buf with ([] ++ blob ws ++ bad) at 2. rewrite sanitize_prefix by done.
      destruct (Nat.ltb_spec (length buf) (length ws)); [lia|]. replace (length buf - length ws)%nat with (S (length buf - length ws - 1)) by lia.
      cbn [app]. unfold bad. rewrite sanitize_stuck; [by rewrite Ec|done|done|]. unfold buf in Hmax. fold bad. rewrite len_app in *. lia.
    + intros fuel. change 0 with (len []). change buf with ([] ++ blob ws ++ bad). rewrite sanitize_prefix by done.
      destruct (_ <? _)%nat; [done|]. cbn [app]. unfold bad. apply sanitize_hangs; [done|done| |done]. unfold buf in Hmax. fold bad. rewrite len_app in *. lia.
  - unfold stamp_leader_epoch. rewrite (proj2 (Z.ltb_ge e 0)) by lia. change (stamp_loop (length buf) e 0) with (stamp_loop (length buf) e (len [])).
    change buf with ([] ++ blob ws ++ bad) at 2. rewrite stamp_prefix by (done || lia).
    replace (length buf - length ws)%nat with (S (length buf - length ws - 1)) by lia. cbn [app]. unfold bad. by rewrite stamp_stuck.
Qed.

(** A batch that ends right before its attributes makes the checksum repair panic: the
    length check admits a length field of 9, and the attributes are read past the end of the
    buffer. *)
Theorem short_batch_panics_fetch `{!Crc32c} (base ep m c : Z) :
  in_s 8 m -> sanitize_batch_crcs (raw_batch base 9 ep m c []) = Panic.
Proof.
  intros Hm. unfold sanitize_batch_crcs.
  assert (length (raw_batch base 9 ep m c []) = 21%nat) as ->
    by (pose proof (raw_len base 9 ep m c []) as Hl; rewrite len_nil in Hl; unfold len in Hl; lia).
  generalize 20%nat as fuel. intros fuel.
  cbn [sanitize_loop]. rewrite raw_len. change (0 + 21 <=? 21 + len []) with true. cbv iota.
  pose proof (raw_length [] base 9 ep m c [] ltac:(unfold in_s; lia)) as Hl9. cbn [app] in Hl9. change (len [] + 8) with (0 + 8) in Hl9.
  rewrite Hl9. cbn [mbind res_bind]. cbv zeta.
  change (as_usize (0 + 12 + as_usize 9)) with 21. change (as_usize 9 <? 9) with false.
  change (21 + len [] <? 21) with false. cbn [orb]. pose proof (raw_magic [] base 9 ep m c [] Hm) as Hm9. cbn [app] in Hm9. change (len [] + 16) with (0 + 16) in Hm9.
  rewrite Hm9. cbn [mbind res_bind]. change (0 + 21) with 21.
  by rewrite raw_no_attributes.
Qed.

(** * Concrete inputs *)

(** A data batch at offset 100 and a commit marker at offset 102, as the storage codec with
    the bitwise CRC-32C writes them. *)
Definition sample_marker : KafkaRecordBatch := end_txn_batch 102 7 0 MCommit 1000.
Definition encoded_by (b : KafkaRecordBatch) : bytes :=
  match @encode crc32c_bitwise stored_codec b with Ok out => out | _ => [] end.
Definition sample_pairs : list (KafkaRecordBatch * bytes) :=
  Eval vm_compute in [(sample_kafka_batch, encoded_by sample_kafka_batch);
                      (sample_marker, encoded_by sample_marker)].

Lemma sample_pairs_written : Forall (@written crc32c_bitwise stored_codec) sample_pairs.
Proof. unfold written, header_fields_ok, in_s, in_u. concrete. Qed.

Lemma stamping_reencodes_witness :
  exists outs,
    Forall2 (fun p out => @encode crc32c_bitwise stored_codec (with_epoch 5 p.1) = Ok out)
      sample_pairs outs /\
    stamp_leader_epoch (concat sample_pairs.*2 ++ [0; 0]) 5 = Ok (2, concat outs ++ [0; 0]) /\
    (sample_pairs <> [] -> read_leader_epoch (concat outs ++ [0; 0]) = Ok (Some 5)).
Proof.
  apply (@stamping_reencodes crc32c_bitwise stored_codec sample_pairs [0; 0] 5);
    [apply sample_pairs_written|concrete..].
Defined.

Lemma committed_read_cut_witness :
  exists k, keep_len_below_offset (concat sample_pairs.*2 ++ [0; 0]) 102 = Ok k /\
    take (Z.to_nat k) (concat sample_pairs.*2 ++ [0; 0])
    = concat (filter (fun p => base_of p < 102) sample_pairs).*2
      ++ (if decide (Forall (fun p => base_of p < 102) sample_pairs) then [0; 0] else []).
Proof.
  apply (@committed_read_cut crc32c_bitwise stored_codec sample_pairs [0; 0] 102);
    [apply sample_pairs_written| |concrete..].
  repeat constructor.
Defined.

Lemma control_checksums_repaired_witness :
  @sanitize_batch_crcs crc32c_bitwise
    (with_crcs ((fun p => (p, 0)) <$> sample_pairs) ++ [0; 0])
  = Ok (concat ((fun q => if is_control (header q.1.1) then q.1.2
                          else splice 17 (be_bytes 4 q.2) q.1.2)
                <$> ((fun p => (p, 0)) <$> sample_pairs)) ++ [0; 0]).
Proof.
  apply (@control_checksums_repaired crc32c_bitwise stored_codec); [|concrete..].
  apply Forall_fmap. exact sample_pairs_written.
Defined.

Lemma malformed_length_hangs_fetch_witness :
  let w := mkW (header sample_marker) 0 [] in
  let buf := blob [w] ++ stuck_batch 110 3 2 0 0 [] in
  (forall fuel, keep_loop fuel 200 0 buf = Err EFuel) /\
  (forall fuel, @sanitize_loop crc32c_bitwise fuel 0 buf = Err EFuel) /\
  stamp_leader_epoch buf 3 = Ok (1, blob (stamp 3 <$> [w]) ++ stuck_batch 110 3 2 0 0 []).
Proof.
  apply (@malformed_length_hangs_fetch crc32c_bitwise [mkW (header sample_marker) 0 []] 110 3 2 0 0 200 3 []);
    unfold wire_ok, header_fields_ok, in_s, in_u; concrete.
Defined.

Lemma short_batch_panics_fetch_witness :
  @sanitize_batch_crcs crc32c_bitwise (raw_batch 10 9 3 2 0 []) = Panic.
Proof. apply (@short_batch_panics_fetch crc32c_bitwise 10 3 2 0). unfold in_s. concrete. Defined.
